(** * solast-go: scanner and recursive-descent builder for Solidity

    A shallow embedding of [internal/lexer/lexer.go], [pkg/ast] and
    [internal/builder/*.go], followed by the properties the
    specification states about them.

    Conventions of the embedding.
    - Go [string]s are Rocq [string]s (sequences of bytes, [ascii]).
    - Go [int] positions, lines, columns and offsets are [nat]: they only
      count bytes and tokens upwards from 0 (or 1 for lines).
    - A Go method with a pointer receiver becomes a function that takes
      the receiver's value and returns the new one.
    - Go [for] loops become bounded iteration; the bound is the number of
      bytes (scanner) or tokens (builder) still available, and the
      theorems at the end show that the bound is never what stops a loop.
    - The mutually recursive parsing methods are tied together through a
      record of callees ([builder.Rec]) that is unfolded [fuel] times. *)

From Stdlib Require Import String Ascii List Arith ZArith Lia Bool.
Import ListNotations.
Open Scope string_scope.
Open Scope list_scope.
Open Scope nat_scope.

(* ================================================================== *)
(** * Package lexer *)
(* ================================================================== *)

Module lexer.

(** [type TokenType int] with its [iota] constants, in declaration order. *)
Inductive TokenType : Type :=
  (* Special tokens *)
  | EOF | ILLEGAL | COMMENT
  (* Literals *)
  | IDENTIFIER | NUMBER | HEX_NUMBER | STRING | HEX_STRING | UNICODE_STRING
  (* Keywords *)
  | ABSTRACT | ADDRESS | ANONYMOUS | AS | ASSEMBLY | BOOL | BREAK | BYTES
  | CALLDATA | CASE | CATCH | CONSTANT | CONSTRUCTOR | CONTINUE | CONTRACT
  | DEFAULT | DELETE | DO | ELSE | EMIT | ENUM | ERROR | EVENT | EXTERNAL
  | FALLBACK | FALSE | FIXED | FOR | FROM | FUNCTION | GLOBAL | HEX | IF
  | IMMUTABLE | IMPORT | INDEXED | INTERFACE | INTERNAL | IS | LET | LIBRARY
  | MAPPING | MEMORY | MODIFIER | NEW | OVERRIDE | PAYABLE | PRAGMA | PRIVATE
  | PUBLIC | PURE | RECEIVE | RETURN | RETURNS | REVERT | STORAGE
  | STRING_TYPE | STRUCT | SWITCH | TRANSIENT | TRUE | TRY | TYPE | UFIXED
  | UNCHECKED | UNICODE | USING | VIEW | VIRTUAL | WHILE | LAYOUT | AT
  (* Types *)
  | INT | UINT | BYTE | BYTES_N | FIXED_N | UFIXED_N
  (* Operators *)
  | LPAREN | RPAREN | LBRACK | RBRACK | LBRACE | RBRACE | COLON | SEMICOLON
  | PERIOD | COMMA | QUESTION | ARROW | RIGHT_ARROW
  (* Assignment *)
  | ASSIGN | ASSIGN_ADD | ASSIGN_SUB | ASSIGN_MUL | ASSIGN_DIV | ASSIGN_MOD
  | ASSIGN_AND | ASSIGN_OR | ASSIGN_XOR | ASSIGN_SHL | ASSIGN_SHR | ASSIGN_SAR
  (* Comparison *)
  | EQ | NEQ | LT | GT | LTE | GTE
  (* Logical *)
  | AND | OR | NOT
  (* Bitwise *)
  | BIT_AND | BIT_OR | BIT_XOR | BIT_NOT | SHL | SHR | SAR
  (* Arithmetic *)
  | ADD | SUB | MUL | DIV | MOD | EXP | INC | DEC.

(** The integer value [iota] gives each constant. *)
Definition code (t : TokenType) : nat :=
  match t with
  | EOF => 0 | ILLEGAL => 1 | COMMENT => 2
  | IDENTIFIER => 3 | NUMBER => 4 | HEX_NUMBER => 5 | STRING => 6
  | HEX_STRING => 7 | UNICODE_STRING => 8
  | ABSTRACT => 9 | ADDRESS => 10 | ANONYMOUS => 11 | AS => 12
  | ASSEMBLY => 13 | BOOL => 14 | BREAK => 15 | BYTES => 16
  | CALLDATA => 17 | CASE => 18 | CATCH => 19 | CONSTANT => 20
  | CONSTRUCTOR => 21 | CONTINUE => 22 | CONTRACT => 23 | DEFAULT => 24
  | DELETE => 25 | DO => 26 | ELSE => 27 | EMIT => 28 | ENUM => 29
  | ERROR => 30 | EVENT => 31 | EXTERNAL => 32 | FALLBACK => 33
  | FALSE => 34 | FIXED => 35 | FOR => 36 | FROM => 37 | FUNCTION => 38
  | GLOBAL => 39 | HEX => 40 | IF => 41 | IMMUTABLE => 42 | IMPORT => 43
  | INDEXED => 44 | INTERFACE => 45 | INTERNAL => 46 | IS => 47 | LET => 48
  | LIBRARY => 49 | MAPPING => 50 | MEMORY => 51 | MODIFIER => 52
  | NEW => 53 | OVERRIDE => 54 | PAYABLE => 55 | PRAGMA => 56
  | PRIVATE => 57 | PUBLIC => 58 | PURE => 59 | RECEIVE => 60
  | RETURN => 61 | RETURNS => 62 | REVERT => 63 | STORAGE => 64
  | STRING_TYPE => 65 | STRUCT => 66 | SWITCH => 67 | TRANSIENT => 68
  | TRUE => 69 | TRY => 70 | TYPE => 71 | UFIXED => 72 | UNCHECKED => 73
  | UNICODE => 74 | USING => 75 | VIEW => 76 | VIRTUAL => 77 | WHILE => 78
  | LAYOUT => 79 | AT => 80
  | INT => 81 | UINT => 82 | BYTE => 83 | BYTES_N => 84 | FIXED_N => 85
  | UFIXED_N => 86
  | LPAREN => 87 | RPAREN => 88 | LBRACK => 89 | RBRACK => 90
  | LBRACE => 91 | RBRACE => 92 | COLON => 93 | SEMICOLON => 94
  | PERIOD => 95 | COMMA => 96 | QUESTION => 97 | ARROW => 98
  | RIGHT_ARROW => 99
  | ASSIGN => 100 | ASSIGN_ADD => 101 | ASSIGN_SUB => 102
  | ASSIGN_MUL => 103 | ASSIGN_DIV => 104 | ASSIGN_MOD => 105
  | ASSIGN_AND => 106 | ASSIGN_OR => 107 | ASSIGN_XOR => 108
  | ASSIGN_SHL => 109 | ASSIGN_SHR => 110 | ASSIGN_SAR => 111
  | EQ => 112 | NEQ => 113 | LT => 114 | GT => 115 | LTE => 116 | GTE => 117
  | AND => 118 | OR => 119 | NOT => 120
  | BIT_AND => 121 | BIT_OR => 122 | BIT_XOR => 123 | BIT_NOT => 124
  | SHL => 125 | SHR => 126 | SAR => 127
  | ADD => 128 | SUB => 129 | MUL => 130 | DIV => 131 | MOD => 132
  | EXP => 133 | INC => 134 | DEC => 135
  end.

(** [t == u] on token types is equality of the integers. *)
Definition eqb (t u : TokenType) : bool := Nat.eqb (code t) (code u).

(** [tokenNames] and [TokenType.String]: every constant has an entry, so
    the [fmt.Sprintf] fall-back of [String] is never taken for them. *)
Definition String_ (t : TokenType) : string :=
  match t with
  | EOF => "EOF" | ILLEGAL => "ILLEGAL" | COMMENT => "COMMENT"
  | IDENTIFIER => "IDENTIFIER" | NUMBER => "NUMBER"
  | HEX_NUMBER => "HEX_NUMBER" | STRING => "STRING"
  | HEX_STRING => "HEX_STRING" | UNICODE_STRING => "UNICODE_STRING"
  | ABSTRACT => "abstract" | ADDRESS => "address" | ANONYMOUS => "anonymous"
  | AS => "as" | ASSEMBLY => "assembly" | BOOL => "bool" | BREAK => "break"
  | BYTES => "bytes" | CALLDATA => "calldata" | CASE => "case"
  | CATCH => "catch" | CONSTANT => "constant" | CONSTRUCTOR => "constructor"
  | CONTINUE => "continue" | CONTRACT => "contract" | DEFAULT => "default"
  | DELETE => "delete" | DO => "do" | ELSE => "else" | EMIT => "emit"
  | ENUM => "enum" | ERROR => "error" | EVENT => "event"
  | EXTERNAL => "external" | FALLBACK => "fallback" | FALSE => "false"
  | FIXED => "fixed" | FOR => "for" | FROM => "from" | FUNCTION => "function"
  | GLOBAL => "global" | HEX => "hex" | IF => "if" | IMMUTABLE => "immutable"
  | IMPORT => "import" | INDEXED => "indexed" | INTERFACE => "interface"
  | INTERNAL => "internal" | IS => "is" | LET => "let" | LIBRARY => "library"
  | MAPPING => "mapping" | MEMORY => "memory" | MODIFIER => "modifier"
  | NEW => "new" | OVERRIDE => "override" | PAYABLE => "payable"
  | PRAGMA => "pragma" | PRIVATE => "private" | PUBLIC => "public"
  | PURE => "pure" | RECEIVE => "receive" | RETURN => "return"
  | RETURNS => "returns" | REVERT => "revert" | STORAGE => "storage"
  | STRING_TYPE => "string" | STRUCT => "struct" | SWITCH => "switch"
  | TRUE => "true" | TRY => "try" | TRANSIENT => "transient" | TYPE => "type"
  | UFIXED => "ufixed" | UNCHECKED => "unchecked" | LAYOUT => "layout"
  | AT => "at" | UNICODE => "unicode" | USING => "using" | VIEW => "view"
  | VIRTUAL => "virtual" | WHILE => "while" | INT => "int" | UINT => "uint"
  | BYTE => "byte" | BYTES_N => "bytes<N>" | FIXED_N => "fixed<M>x<N>"
  | UFIXED_N => "ufixed<M>x<N>"
  | LPAREN => "(" | RPAREN => ")" | LBRACK => "[" | RBRACK => "]"
  | LBRACE => "{" | RBRACE => "}" | COLON => ":" | SEMICOLON => ";"
  | PERIOD => "." | COMMA => "," | QUESTION => "?" | ARROW => "=>"
  | RIGHT_ARROW => "->"
  | ASSIGN => "=" | ASSIGN_ADD => "+=" | ASSIGN_SUB => "-="
  | ASSIGN_MUL => "*=" | ASSIGN_DIV => "/=" | ASSIGN_MOD => "%="
  | ASSIGN_AND => "&=" | ASSIGN_OR => "|=" | ASSIGN_XOR => "^="
  | ASSIGN_SHL => "<<=" | ASSIGN_SHR => ">>=" | ASSIGN_SAR => ">>>="
  | EQ => "==" | NEQ => "!=" | LT => "<" | GT => ">" | LTE => "<="
  | GTE => ">=" | AND => "&&" | OR => "||" | NOT => "!"
  | BIT_AND => "&" | BIT_OR => "|" | BIT_XOR => "^" | BIT_NOT => "~"
  | SHL => "<<" | SHR => ">>" | SAR => ">>>"
  | ADD => "+" | SUB => "-" | MUL => "*" | DIV => "/" | MOD => "%"
  | EXP => "**" | INC => "++" | DEC => "--"
  end.

(** [var keywords = map[string]TokenType{...}]: the table is only ever
    read with [keywords[value]], so it is kept as the list of its
    entries together with the lookup. *)
Definition keywords : list (string * TokenType) :=
  [ ("abstract", ABSTRACT); ("address", ADDRESS); ("anonymous", ANONYMOUS);
    ("as", AS); ("assembly", ASSEMBLY); ("bool", BOOL); ("break", BREAK);
    ("bytes", BYTES); ("calldata", CALLDATA); ("case", CASE);
    ("catch", CATCH); ("constant", CONSTANT); ("constructor", CONSTRUCTOR);
    ("continue", CONTINUE); ("contract", CONTRACT); ("default", DEFAULT);
    ("delete", DELETE); ("do", DO); ("else", ELSE); ("emit", EMIT);
    ("enum", ENUM); ("error", ERROR); ("event", EVENT);
    ("external", EXTERNAL); ("fallback", FALLBACK); ("false", FALSE);
    ("for", FOR); ("from", FROM); ("function", FUNCTION); ("global", GLOBAL);
    ("hex", HEX); ("if", IF); ("immutable", IMMUTABLE); ("import", IMPORT);
    ("indexed", INDEXED); ("interface", INTERFACE); ("internal", INTERNAL);
    ("is", IS); ("let", LET); ("library", LIBRARY); ("mapping", MAPPING);
    ("memory", MEMORY); ("modifier", MODIFIER); ("new", NEW);
    ("override", OVERRIDE); ("payable", PAYABLE); ("pragma", PRAGMA);
    ("private", PRIVATE); ("public", PUBLIC); ("pure", PURE);
    ("receive", RECEIVE); ("return", RETURN); ("returns", RETURNS);
    ("revert", REVERT); ("storage", STORAGE); ("string", STRING_TYPE);
    ("struct", STRUCT); ("switch", SWITCH); ("transient", TRANSIENT);
    ("true", TRUE); ("try", TRY); ("type", TYPE); ("unchecked", UNCHECKED);
    ("layout", LAYOUT); ("at", AT); ("unicode", UNICODE); ("using", USING);
    ("view", VIEW); ("virtual", VIRTUAL); ("while", WHILE) ].

Fixpoint lookup (table : list (string * TokenType)) (key : string)
  : option TokenType :=
  match table with
  | [] => None
  | (k, v) :: rest => if String.eqb k key then Some v else lookup rest key
  end.

(** [type Token struct] *)
Record Token : Type := mkToken {
  Type_  : TokenType;
  Value  : string;
  Line   : nat;
  Column : nat;
  Start  : nat;
  End    : nat
}.

(** [type Lexer struct] *)
Record Lexer : Type := mkLexer {
  input  : string;
  pos    : nat;
  line   : nat;
  column : nat;
  start  : nat
}.

(** [func New(input string) *Lexer] *)
Definition New (inp : string) : Lexer :=
  {| input := inp; pos := 0; line := 1; column := 0; start := 0 |}.

Definition len (l : Lexer) : nat := String.length (input l).

Definition byte_at (s : string) (i : nat) : ascii :=
  match String.get i s with
  | Some c => c
  | None => Ascii.zero
  end.

(** [func (l *Lexer) peek() byte] *)
Definition peek (l : Lexer) : ascii :=
  if len l <=? pos l then Ascii.zero else byte_at (input l) (pos l).

(** [func (l *Lexer) peekAt(offset int) byte] *)
Definition peekAt (l : Lexer) (offset : nat) : ascii :=
  let p := pos l + offset in
  if len l <=? p then Ascii.zero else byte_at (input l) p.

Definition newline : ascii := ascii_of_nat 10.
Definition carriage_return : ascii := ascii_of_nat 13.
Definition tab : ascii := ascii_of_nat 9.
Definition backslash : ascii := ascii_of_nat 92.
Definition double_quote : ascii := ascii_of_nat 34.
Definition single_quote : ascii := ascii_of_nat 39.

(** [func (l *Lexer) advance() byte] *)
Definition advance (l : Lexer) : ascii * Lexer :=
  if len l <=? pos l then (Ascii.zero, l)
  else
    let ch := byte_at (input l) (pos l) in
    if Ascii.eqb ch newline
    then (ch, {| input := input l; pos := S (pos l); line := S (line l);
                 column := 0; start := start l |})
    else (ch, {| input := input l; pos := S (pos l); line := line l;
                 column := S (column l); start := start l |}).

Definition advance_ (l : Lexer) : Lexer := snd (advance l).

(** [ch >= lo && ch <= hi] on bytes. *)
Definition in_range (lo hi ch : ascii) : bool :=
  (nat_of_ascii lo <=? nat_of_ascii ch) && (nat_of_ascii ch <=? nat_of_ascii hi).

Definition isDigit (ch : ascii) : bool := in_range "0" "9" ch.

Definition isIdentifierStart (ch : ascii) : bool :=
  in_range "a" "z" ch || in_range "A" "Z" ch
  || Ascii.eqb ch "_" || Ascii.eqb ch "$".

Definition isIdentifierPart (ch : ascii) : bool :=
  isIdentifierStart ch || isDigit ch.

Definition isHexDigit (ch : ascii) : bool :=
  isDigit ch || in_range "a" "f" ch || in_range "A" "F" ch.

(** [for l.pos < len(l.input) && cond(l.peek()) { l.advance() }], run for
    at most [n] rounds; every caller passes the number of bytes left. *)
Fixpoint advanceWhile (n : nat) (cond : ascii -> bool) (l : Lexer) : Lexer :=
  match n with
  | 0 => l
  | S n' =>
      if (pos l <? len l) && cond (peek l)
      then advanceWhile n' cond (advance_ l)
      else l
  end.

Definition remaining (l : Lexer) : nat := len l - pos l.

(** The inner loop of a block comment: stop after the closing [*/]. *)
Fixpoint skipBlockComment (n : nat) (l : Lexer) : Lexer :=
  match n with
  | 0 => l
  | S n' =>
      if pos l <? len l then
        if Ascii.eqb (peek l) "*" && Ascii.eqb (peekAt l 1) "/"
        then advance_ (advance_ l)
        else skipBlockComment n' (advance_ l)
      else l
  end.

Definition isWhitespace (ch : ascii) : bool :=
  Ascii.eqb ch " " || Ascii.eqb ch tab || Ascii.eqb ch newline
  || Ascii.eqb ch carriage_return.

(** [func (l *Lexer) skipWhitespaceAndComments()] *)
Fixpoint skipLoop (n : nat) (l : Lexer) : Lexer :=
  match n with
  | 0 => l
  | S n' =>
      if pos l <? len l then
        let ch := peek l in
        if isWhitespace ch then skipLoop n' (advance_ l)
        else if Ascii.eqb ch "/" && Ascii.eqb (peekAt l 1) "/" then
          let l1 := advance_ (advance_ l) in
          let l2 := advanceWhile (remaining l1)
                      (fun c => negb (Ascii.eqb c newline)) l1 in
          skipLoop n' l2
        else if Ascii.eqb ch "/" && Ascii.eqb (peekAt l 1) "*" then
          let l1 := advance_ (advance_ l) in
          let l2 := skipBlockComment (remaining l1) l1 in
          skipLoop n' l2
        else l
      else l
  end.

Definition skipWhitespaceAndComments (l : Lexer) : Lexer :=
  skipLoop (remaining l) l.

(** [s[from:to]] *)
Definition slice (s : string) (from to : nat) : string :=
  String.substring from (to - from) s.

(** [strings.HasPrefix] *)
Definition HasPrefix (s pre : string) : bool := String.prefix pre s.

(** [for _, c := range s { if c < '0' || c > '9' { return false } }]:
    a byte outside ASCII is part of a rune above ['9'], so ranging over
    runes and over bytes accept the same strings. *)
Fixpoint allDigits (s : string) : bool :=
  match s with
  | EmptyString => true
  | String c rest => isDigit c && allDigits rest
  end.

Definition drop (n : nat) (s : string) : string :=
  String.substring n (String.length s - n) s.

Definition isValidIntSize (s : string) : bool :=
  if String.length s =? 0 then false else allDigits s.

Definition isIntType (value : string) : bool :=
  if String.eqb value "int" then true
  else if negb (HasPrefix value "int") then false
  else isValidIntSize (drop 3 value).

Definition isUintType (value : string) : bool :=
  if String.eqb value "uint" then true
  else if negb (HasPrefix value "uint") then false
  else isValidIntSize (drop 4 value).

Definition isBytesNType (value : string) : bool :=
  if negb (HasPrefix value "bytes") || (String.length value <=? 5) then false
  else allDigits (drop 5 value).

(** [strings.Index(s, "x")], as [None] for [-1]. *)
Fixpoint Index_x (s : string) : option nat :=
  match s with
  | EmptyString => None
  | String c rest =>
      if Ascii.eqb c "x" then Some 0
      else match Index_x rest with
           | Some i => Some (S i)
           | None => None
           end
  end.

Definition isValidFixedSuffix (s : string) : bool :=
  match Index_x s with
  | None => false
  | Some xIdx =>
      if (xIdx =? 0) || (S xIdx =? String.length s) then false
      else allDigits (slice s 0 xIdx) && allDigits (drop (S xIdx) s)
  end.

Definition isFixedNType (value : string) : bool :=
  if negb (HasPrefix value "fixed") then false
  else isValidFixedSuffix (drop 5 value).

Definition isUfixedNType (value : string) : bool :=
  if negb (HasPrefix value "ufixed") then false
  else isValidFixedSuffix (drop 6 value).

(** The classification step of [readIdentifier]. *)
Definition classify (value : string) : TokenType :=
  match lookup keywords value with
  | Some kw => kw
  | None =>
      if HasPrefix value "int" && isIntType value then INT
      else if HasPrefix value "uint" && isUintType value then UINT
      else if HasPrefix value "bytes" && isBytesNType value then BYTES_N
      else if String.eqb value "fixed" then FIXED
      else if String.eqb value "ufixed" then UFIXED
      else if isFixedNType value then FIXED_N
      else if isUfixedNType value then UFIXED_N
      else IDENTIFIER
  end.

(** [func (l *Lexer) readIdentifier(line, column int) Token] *)
Definition readIdentifier (l : Lexer) (line column : nat) : Token * Lexer :=
  let start := pos l in
  let l1 := advanceWhile (remaining l) isIdentifierPart l in
  let value := slice (input l1) start (pos l1) in
  ({| Type_ := classify value; Value := value; Line := line;
      Column := column; Start := start; End := pos l1 |}, l1).

(** [strings.ReplaceAll(value, "_", "")] *)
Fixpoint removeUnderscores (s : string) : string :=
  match s with
  | EmptyString => EmptyString
  | String c rest =>
      if Ascii.eqb c "_" then removeUnderscores rest
      else String c (removeUnderscores rest)
  end.

Definition isDigitOrUnderscore (c : ascii) : bool :=
  isDigit c || Ascii.eqb c "_".

(** [func (l *Lexer) readNumber(line, column int) Token] *)
Definition readNumber (l : Lexer) (line column : nat) : Token * Lexer :=
  let start := pos l in
  (* Integer part *)
  let l1 := advanceWhile (remaining l) isDigitOrUnderscore l in
  (* Fractional part *)
  let l2 :=
    if Ascii.eqb (peek l1) "." && negb (Ascii.eqb (peekAt l1 1) ".")
    then let l1' := advance_ l1 in
         advanceWhile (remaining l1') isDigitOrUnderscore l1'
    else l1 in
  (* Exponent *)
  let l3 :=
    if Ascii.eqb (peek l2) "e" || Ascii.eqb (peek l2) "E"
    then let la := advance_ l2 in
         let lb := if Ascii.eqb (peek la) "+" || Ascii.eqb (peek la) "-"
                   then advance_ la else la in
         advanceWhile (remaining lb) isDigitOrUnderscore lb
    else l2 in
  let value := slice (input l3) start (pos l3) in
  (* Remove underscores for the actual value *)
  let value := removeUnderscores value in
  ({| Type_ := NUMBER; Value := value; Line := line; Column := column;
      Start := start; End := pos l3 |}, l3).

Definition isHexDigitOrUnderscore (c : ascii) : bool :=
  isHexDigit c || Ascii.eqb c "_".

(** [func (l *Lexer) readHexNumber(line, column int) Token] *)
Definition readHexNumber (l : Lexer) (line column : nat) : Token * Lexer :=
  let start := pos l in
  let l1 := advance_ (advance_ l) in (* 0, x/X *)
  let l2 := advanceWhile (remaining l1) isHexDigitOrUnderscore l1 in
  let value := slice (input l2) start (pos l2) in
  ({| Type_ := HEX_NUMBER; Value := value; Line := line; Column := column;
      Start := start; End := pos l2 |}, l2).

(** The byte an escape sequence stands for ([switch escaped]). *)
Definition unescape (escaped : ascii) : ascii :=
  if Ascii.eqb escaped "n" then newline
  else if Ascii.eqb escaped "r" then carriage_return
  else if Ascii.eqb escaped "t" then tab
  else escaped.

(** The loop of [readString]; [sb] is the [strings.Builder], kept in
    reverse. *)
Fixpoint readStringLoop (n : nat) (quote : ascii) (sb : list ascii)
  (l : Lexer) : list ascii * Lexer :=
  match n with
  | 0 => (sb, l)
  | S n' =>
      if pos l <? len l then
        let ch := peek l in
        if Ascii.eqb ch quote then (sb, advance_ l) (* closing quote *)
        else if Ascii.eqb ch backslash && (S (pos l) <? len l) then
          let l1 := advance_ l in
          let (escaped, l2) := advance l1 in
          readStringLoop n' quote (unescape escaped :: sb) l2
        else if Ascii.eqb ch newline || Ascii.eqb ch carriage_return
        then (sb, l) (* Unterminated string *)
        else let (c, l1) := advance l in
             readStringLoop n' quote (c :: sb) l1
      else (sb, l)
  end.

(** [func (l *Lexer) readString(line, column int) Token] *)
Definition readString (l : Lexer) (line column : nat) : Token * Lexer :=
  let start := pos l in
  let (quote, l1) := advance l in
  let (sb, l2) := readStringLoop (remaining l1) quote [] l1 in
  ({| Type_ := STRING; Value := string_of_list_ascii (rev sb); Line := line;
      Column := column; Start := start; End := pos l2 |}, l2).

(** [string(ch)] for a byte [ch]: the UTF-8 encoding of the code point
    with that number, one byte below 128 and two bytes from 128 on. *)
Definition string_of_byte (ch : ascii) : string :=
  let n := nat_of_ascii ch in
  if n <? 128 then String ch EmptyString
  else String (ascii_of_nat (192 + n / 64))
         (String (ascii_of_nat (128 + n mod 64)) EmptyString).

Definition tok (t : TokenType) (v : string) (line column start : nat)
  (l : Lexer) : Token * Lexer :=
  ({| Type_ := t; Value := v; Line := line; Column := column;
      Start := start; End := pos l |}, l).

(** The single-character [switch ch] of [readOperator]. *)
Definition singleCharType (ch : ascii) : option TokenType :=
  if Ascii.eqb ch "(" then Some LPAREN
  else if Ascii.eqb ch ")" then Some RPAREN
  else if Ascii.eqb ch "[" then Some LBRACK
  else if Ascii.eqb ch "]" then Some RBRACK
  else if Ascii.eqb ch "{" then Some LBRACE
  else if Ascii.eqb ch "}" then Some RBRACE
  else if Ascii.eqb ch ":" then Some COLON
  else if Ascii.eqb ch ";" then Some SEMICOLON
  else if Ascii.eqb ch "." then Some PERIOD
  else if Ascii.eqb ch "," then Some COMMA
  else if Ascii.eqb ch "?" then Some QUESTION
  else if Ascii.eqb ch "=" then Some ASSIGN
  else if Ascii.eqb ch "<" then Some LT
  else if Ascii.eqb ch ">" then Some GT
  else if Ascii.eqb ch "!" then Some NOT
  else if Ascii.eqb ch "&" then Some BIT_AND
  else if Ascii.eqb ch "|" then Some BIT_OR
  else if Ascii.eqb ch "^" then Some BIT_XOR
  else if Ascii.eqb ch "~" then Some BIT_NOT
  else if Ascii.eqb ch "+" then Some ADD
  else if Ascii.eqb ch "-" then Some SUB
  else if Ascii.eqb ch "*" then Some MUL
  else if Ascii.eqb ch "/" then Some DIV
  else if Ascii.eqb ch "%" then Some MOD
  else None.

(** The two-character [switch two] of [readOperator]. *)
Definition twoCharType (two : string) : option TokenType :=
  if String.eqb two "=>" then Some ARROW
  else if String.eqb two "->" then Some RIGHT_ARROW
  else if String.eqb two "==" then Some EQ
  else if String.eqb two "!=" then Some NEQ
  else if String.eqb two "<=" then Some LTE
  else if String.eqb two ">=" then Some GTE
  else if String.eqb two "&&" then Some AND
  else if String.eqb two "||" then Some OR
  else if String.eqb two "<<" then Some SHL
  else if String.eqb two ">>" then Some SHR
  else if String.eqb two "**" then Some EXP
  else if String.eqb two "++" then Some INC
  else if String.eqb two "--" then Some DEC
  else if String.eqb two "+=" then Some ASSIGN_ADD
  else if String.eqb two "-=" then Some ASSIGN_SUB
  else if String.eqb two "*=" then Some ASSIGN_MUL
  else if String.eqb two "/=" then Some ASSIGN_DIV
  else if String.eqb two "%=" then Some ASSIGN_MOD
  else if String.eqb two "&=" then Some ASSIGN_AND
  else if String.eqb two "|=" then Some ASSIGN_OR
  else if String.eqb two "^=" then Some ASSIGN_XOR
  else None.

(** The part of [readOperator] after the three-character [switch]. *)
Definition readOperatorShort (ch : ascii) (l1 : Lexer)
  (line column start : nat) : Token * Lexer :=
  let two := (string_of_byte ch ++ string_of_byte (peek l1))%string in
  match (if pos l1 <? len l1 then twoCharType two else None) with
  | Some t => tok t two line column start (advance_ l1)
  | None =>
      match singleCharType ch with
      | Some t => tok t (String ch EmptyString) line column start l1
      | None => tok ILLEGAL (string_of_byte ch) line column start l1
      end
  end.

(** [func (l *Lexer) readOperator(line, column int) Token] *)
Definition readOperator (l : Lexer) (line column : nat) : Token * Lexer :=
  let start := pos l in
  let (ch, l1) := advance l in
  if S (pos l1) <? len l1 then
    let three := (string_of_byte ch ++ string_of_byte (peek l1)
                  ++ string_of_byte (peekAt l1 1))%string in
    if String.eqb three ">>>" then
      let l2 := advance_ (advance_ l1) in
      if Ascii.eqb (peek l2) "=" then
        tok ASSIGN_SAR ">>>=" line column start (advance_ l2)
      else tok SAR ">>>" line column start l2
    else if String.eqb three ">>=" then
      tok ASSIGN_SHR ">>=" line column start (advance_ (advance_ l1))
    else if String.eqb three "<<=" then
      tok ASSIGN_SHL "<<=" line column start (advance_ (advance_ l1))
    else readOperatorShort ch l1 line column start
  else readOperatorShort ch l1 line column start.

(** [func (l *Lexer) NextToken() Token] *)
Definition NextToken (l0 : Lexer) : Token * Lexer :=
  let l := skipWhitespaceAndComments l0 in
  if len l <=? pos l then
    ({| Type_ := EOF; Value := ""; Line := line l; Column := column l;
        Start := pos l; End := pos l |}, l)
  else
    let l := {| input := input l; pos := pos l; line := line l;
                column := column l; start := pos l |} in
    let startLine := line l in
    let startColumn := column l in
    let ch := peek l in
    if isIdentifierStart ch then readIdentifier l startLine startColumn
    else if Ascii.eqb ch "0" && (S (pos l) <? len l)
            && (Ascii.eqb (peekAt l 1) "x" || Ascii.eqb (peekAt l 1) "X")
    then readHexNumber l startLine startColumn
    else if isDigit ch
            || (Ascii.eqb ch "." && (S (pos l) <? len l)
                && isDigit (peekAt l 1))
    then readNumber l startLine startColumn
    else if Ascii.eqb ch double_quote || Ascii.eqb ch single_quote
    then readString l startLine startColumn
    else readOperator l startLine startColumn.

(** The loop of [Tokenize]: append tokens until [EOF] has been appended. *)
Fixpoint tokenizeLoop (n : nat) (l : Lexer) : list Token :=
  match n with
  | 0 => []
  | S n' =>
      let (t, l') := NextToken l in
      if eqb (Type_ t) EOF then [t] else t :: tokenizeLoop n' l'
  end.

(** [func (l *Lexer) Tokenize() []Token]: every token but the last
    consumes at least one byte, so [remaining l + 1] rounds reach [EOF]
    (theorem [Tokenize_ends_with_EOF]). *)
Definition Tokenize (l : Lexer) : list Token :=
  tokenizeLoop (S (remaining l)) l.

(** [func IsKeyword(t TokenType) bool] *)
Definition IsKeyword (t : TokenType) : bool :=
  (code ABSTRACT <=? code t) && (code t <=? code WHILE).

End lexer.

(* ================================================================== *)
(** * Package ast *)
(* ================================================================== *)

Module ast.

(** [type NodeType string] and the constants the builder uses. *)
Definition NodeType : Type := string.

Definition NodeSourceUnit : NodeType := "SourceUnit".
Definition NodePragmaDirective : NodeType := "PragmaDirective".
Definition NodeImportDirective : NodeType := "ImportDirective".
Definition NodeContractDefinition : NodeType := "ContractDefinition".
Definition NodeFunctionDefinition : NodeType := "FunctionDefinition".
Definition NodeModifierDefinition : NodeType := "ModifierDefinition".
Definition NodeStructDefinition : NodeType := "StructDefinition".
Definition NodeEnumDefinition : NodeType := "EnumDefinition".
Definition NodeEnumValue : NodeType := "EnumValue".
Definition NodeEventDefinition : NodeType := "EventDefinition".
Definition NodeErrorDefinition : NodeType := "ErrorDefinition".
Definition NodeUserDefinedValueTypeDefinition : NodeType :=
  "UserDefinedValueTypeDefinition".
Definition NodeUsingForDeclaration : NodeType := "UsingForDeclaration".
Definition NodeStateVariableDeclaration : NodeType :=
  "StateVariableDeclaration".
Definition NodeVariableDeclaration : NodeType := "VariableDeclaration".
Definition NodeVariableDeclarationStatement : NodeType :=
  "VariableDeclarationStatement".
Definition NodeElementaryTypeName : NodeType := "ElementaryTypeName".
Definition NodeUserDefinedTypeName : NodeType := "UserDefinedTypeName".
Definition NodeMapping : NodeType := "Mapping".
Definition NodeArrayTypeName : NodeType := "ArrayTypeName".
Definition NodeFunctionTypeName : NodeType := "FunctionTypeName".
Definition NodeBlock : NodeType := "Block".
Definition NodeUncheckedBlock : NodeType := "UncheckedBlock".
Definition NodeExpressionStatement : NodeType := "ExpressionStatement".
Definition NodeIfStatement : NodeType := "IfStatement".
Definition NodeWhileStatement : NodeType := "WhileStatement".
Definition NodeDoWhileStatement : NodeType := "DoWhileStatement".
Definition NodeForStatement : NodeType := "ForStatement".
Definition NodeContinueStatement : NodeType := "ContinueStatement".
Definition NodeBreakStatement : NodeType := "BreakStatement".
Definition NodeReturnStatement : NodeType := "ReturnStatement".
Definition NodeEmitStatement : NodeType := "EmitStatement".
Definition NodeRevertStatement : NodeType := "RevertStatement".
Definition NodeTryStatement : NodeType := "TryStatement".
Definition NodeCatchClause : NodeType := "CatchClause".
Definition NodeBinaryOperation : NodeType := "BinaryOperation".
Definition NodeUnaryOperation : NodeType := "UnaryOperation".
Definition NodeConditional : NodeType := "Conditional".
Definition NodeFunctionCall : NodeType := "FunctionCall".
Definition NodeFunctionCallOptions : NodeType := "FunctionCallOptions".
Definition NodeMemberAccess : NodeType := "MemberAccess".
Definition NodeIndexAccess : NodeType := "IndexAccess".
Definition NodeIndexRangeAccess : NodeType := "IndexRangeAccess".
Definition NodeNewExpression : NodeType := "NewExpression".
Definition NodeTupleExpression : NodeType := "TupleExpression".
Definition NodeNameValueExpression : NodeType := "NameValueExpression".
Definition NodeIdentifier : NodeType := "Identifier".
Definition NodeNumberLiteral : NodeType := "NumberLiteral".
Definition NodeBooleanLiteral : NodeType := "BooleanLiteral".
Definition NodeStringLiteral : NodeType := "StringLiteral".
Definition NodeHexLiteral : NodeType := "HexLiteral".
Definition NodeInlineAssembly : NodeType := "InlineAssembly".
Definition NodeAssemblyBlock : NodeType := "AssemblyBlock".
Definition NodeAssemblyCall : NodeType := "AssemblyCall".
Definition NodeAssemblyLocalDefinition : NodeType :=
  "AssemblyLocalDefinition".
Definition NodeAssemblyAssignment : NodeType := "AssemblyAssignment".
Definition NodeAssemblyIdentifier : NodeType := "AssemblyIdentifier".
Definition NodeAssemblyLiteral : NodeType := "AssemblyLiteral".
Definition NodeAssemblyIf : NodeType := "AssemblyIf".
Definition NodeAssemblySwitch : NodeType := "AssemblySwitch".
Definition NodeAssemblyCase : NodeType := "AssemblyCase".
Definition NodeAssemblyFor : NodeType := "AssemblyFor".
Definition NodeAssemblyFunctionDefinition : NodeType :=
  "AssemblyFunctionDefinition".
Definition NodeModifierInvocation : NodeType := "ModifierInvocation".
Definition NodeInheritanceSpecifier : NodeType := "InheritanceSpecifier".

(** [type Position struct], [type Location struct], [type Range [2]int] *)
Record Position : Type := mkPosition { Line : nat; Column : nat }.
Record Location : Type := mkLocation { Start : Position; End : Position }.
Definition Range : Type := (nat * nat)%type.

(** [type BaseNode struct]; [nil] pointers are [None]. *)
Record BaseNode : Type := mkBaseNode {
  Type_  : NodeType;
  Loc    : option Location;
  Range_ : option Range
}.

(** [type ImportSymbol struct] (not a node). *)
Record ImportSymbol : Type := mkImportSymbol {
  Symbol : string;
  Alias  : string
}.

(** The node structs.  Every struct embeds [BaseNode], so a node is its
    [BaseNode] together with the fields of its struct; the constructor
    of [Payload] is the dynamic type behind the [Node] interface.

    A field of interface type [Node] or of pointer type that some
    construction site leaves [nil] is an [option]; one that every
    construction site fills from a parsing method (none of which returns
    [nil] there) is a plain [Node].  A slice is a list ([nil] and empty
    slices are not told apart).  Pointer fields such as [Body *Block] or
    [Parameters []*VariableDeclaration] hold nodes of that one struct. *)
Inductive Node : Type :=
  | MkNode (base : BaseNode) (payload : Payload)
with Payload : Type :=
  | SourceUnit (Children : list Node)
  | PragmaDirective (Name Value : string)
  | ImportDirective (Path : string) (PathLiteral : option Node)
      (UnitAlias : string) (UnitAliasIdentifier : option Node)
      (SymbolAliases : list ImportSymbol)
      (SymbolAliasesIdentifiers : list (option Node * option Node))
  | ContractDefinition (Name : string) (BaseContracts : list Node)
      (SubNodes : list Node) (Kind : string)
  | InheritanceSpecifier (BaseName : Node) (Arguments : list Node)
  | FunctionDefinition (Name : string) (Parameters : list Node)
      (ReturnParameters : list Node) (Body : option Node)
      (Visibility : string) (Modifiers : list Node) (Override : list Node)
      (IsConstructor IsFallback IsReceiveEther IsVirtual : bool)
      (StateMutability : string)
  | ModifierDefinition (Name : string) (Parameters : list Node)
      (Body : option Node) (IsVirtual : bool) (Override : list Node)
  | ModifierInvocation (Name : string) (Arguments : list Node)
  | StateVariableDeclaration (Variables : list Node)
      (InitialValue : option Node)
  | VariableDeclaration (TypeName : Node) (Name : string)
      (Identifier_ : option Node) (StorageLocation : string)
      (IsStateVar IsIndexed IsImmutable : bool) (Override : list Node)
      (Visibility : string) (IsDeclaredConst : bool)
      (Expression : option Node)
  | VariableDeclarationStatement (Variables : list (option Node))
      (InitialValue : option Node)
  | StructDefinition (Name : string) (Members : list Node)
  | EnumDefinition (Name : string) (Members : list Node)
  | EnumValue (Name : string)
  | EventDefinition (Name : string) (Parameters : list Node)
      (IsAnonymous : bool)
  | ErrorDefinition (Name : string) (Parameters : list Node)
  | UserDefinedValueTypeDefinition (Name : string) (UnderlyingType : Node)
  | UsingForDeclaration (TypeName : option Node) (Functions : list string)
      (Operators : list string) (LibraryName : string) (IsGlobal : bool)
  | ElementaryTypeName (Name : string) (StateMutability : string)
  | UserDefinedTypeName (NamePath : string)
  | Mapping (KeyType : Node) (KeyName : option Node) (ValueType : Node)
      (ValueName : option Node)
  | ArrayTypeName (BaseTypeName : Node) (Length : option Node)
  | FunctionTypeName (ParameterTypes : list Node) (ReturnTypes : list Node)
      (Visibility : string) (StateMutability : string)
  | Block (Statements : list Node)
  | UncheckedBlock (Body : Node)
  | ExpressionStatement (Expression : Node)
  | IfStatement (Condition : Node) (TrueBody : Node)
      (FalseBody : option Node)
  | WhileStatement (Condition : Node) (Body : Node)
  | DoWhileStatement (Condition : Node) (Body : Node)
  | ForStatement (InitExpression : option Node)
      (ConditionExpression : option Node) (LoopExpression : option Node)
      (Body : Node)
  | ContinueStatement
  | BreakStatement
  | ReturnStatement (Expression : option Node)
  | EmitStatement (EventCall : Node)
  | RevertStatement (RevertCall : option Node)
  | TryStatement (Expression : Node) (ReturnParameters : list Node)
      (Body : Node) (CatchClauses : list Node)
  | CatchClause (IsReasonStringType : bool) (Kind : string)
      (Parameters : list Node) (Body : Node)
  | BinaryOperation (Operator : string) (Left : Node) (Right : Node)
  | UnaryOperation (Operator : string) (SubExpression : Node)
      (IsPrefix : bool)
  | Conditional (Condition : Node) (TrueExpression : Node)
      (FalseExpression : Node)
  | FunctionCall (Expression : Node) (Arguments : list Node)
      (Names : list string) (Identifiers : list Node)
  | FunctionCallOptions (Expression : Node) (Names : list string)
      (Options : list Node)
  | MemberAccess (Expression : Node) (MemberName : string)
  | IndexAccess (Base : Node) (Index : option Node)
  | IndexRangeAccess (Base : Node) (IndexStart : option Node)
      (IndexEnd : option Node)
  | NewExpression (TypeName : Node)
  | TupleExpression (Components : list (option Node)) (IsArray : bool)
  | NameValueExpression (Expression : Node) (Arguments : option Node)
  | NameValueList (Names : list string) (Identifiers : list Node)
      (Arguments : list Node)
  | Identifier (Name : string)
  | NumberLiteral (Number : string) (SubDenomination : string)
  | BooleanLiteral (Value : bool)
  | StringLiteral (Value : string) (Parts : list string) (IsUnicode : bool)
  | HexLiteral (Value : string) (Parts : list string)
  | InlineAssembly (Language : string) (Body : Node)
  | AssemblyBlock (Operations : list Node)
  | AssemblyCall (FunctionName : string) (Arguments : list Node)
  | AssemblyLocalDefinition (Names : list Node) (Expression : option Node)
  | AssemblyAssignment (Names : list Node) (Expression : Node)
  | AssemblyIdentifier (Name : string)
  | AssemblyLiteral (Kind : string) (Value : string)
  | AssemblyIf (Condition : Node) (Body : Node)
  | AssemblySwitch (Expression : Node) (Cases : list Node)
  | AssemblyCase (Value : option Node) (Body : Node) (Default : bool)
  | AssemblyFor (Pre : Node) (Condition : Node) (Post : Node) (Body : Node)
  | AssemblyFunctionDefinition (Name : string) (Arguments : list Node)
      (ReturnArguments : list Node) (Body : Node).

Definition base (n : Node) : BaseNode := let (b, _) := n in b.
Definition payload (n : Node) : Payload := let (_, p) := n in p.

(** [GetType], [GetLocation], [GetRange] of [BaseNode]. *)
Definition GetType (n : Node) : NodeType := Type_ (base n).
Definition GetLocation (n : Node) : option Location := Loc (base n).
Definition GetRange (n : Node) : option Range := Range_ (base n).

(** [&ast.X{BaseNode: ast.BaseNode{Type: t}, ...}] *)
Definition new (t : NodeType) (p : Payload) : Node :=
  MkNode {| Type_ := t; Loc := None; Range_ := None |} p.

(** [node.NamePath] of a [*UserDefinedTypeName], [node.Name] of an
    [*Identifier]. *)
Definition NamePath_of (n : Node) : string :=
  match payload n with
  | UserDefinedTypeName path => path
  | _ => ""
  end.

Definition Name_of (n : Node) : string :=
  match payload n with
  | Identifier name => name
  | _ => ""
  end.

(** ** Visitors (visitor.go)

    [type Visitor interface] has one method [VisitX(node *X) bool] for
    every node struct [X].  A visitor is given here by one function: of
    the method (the constant [NodeX] names [VisitX]), of the pointer the
    method is called with ([None] for a [nil] pointer) and of the state
    the visitor keeps (its receiver and whatever its methods change);
    it returns the result of the method and the new state.  The
    methods read the tree and leave it as it is. *)
Definition Visitor (S : Type) : Type :=
  NodeType -> option Node -> S -> bool * S.

(** [type BaseVisitor struct{}]: every method returns [true]. *)
Definition BaseVisitor {S : Type} : Visitor S := fun _ _ s => (true, s).

(** [type SimpleVisitor struct]: one callback [XFn], a function of a
    pointer to [X], for every node struct [X]; [nil] ([None]) where none
    is given. *)
Definition SimpleVisitor (S : Type) : Type :=
  NodeType -> option (option Node -> S -> S).

Section Walking.

Context {S : Type}.

(** A walk from a state of the visitor ends in a new state, or in a
    run-time panic ([None]): the dereference of a [nil] pointer. *)
Definition Walker : Type := S -> option S.

Definition done : Walker := fun s => Some s.

(** [n.Field] for a [nil] pointer [n] *)
Definition crash : Walker := fun _ => None.

Definition then_ (f g : Walker) : Walker :=
  fun s => match f s with
           | Some s' => g s'
           | None => None
           end.

Section Each.
Context {A : Type}.
Variable f : A -> Walker.

(** [for _, x := range xs { f(x) }] *)
Fixpoint each (xs : list A) : Walker :=
  match xs with
  | [] => done
  | x :: rest => then_ (f x) (each rest)
  end.

End Each.

(** The walk of a field of interface type [Node]: a [nil] interface
    ([None]) meets [if node == nil { return }]. *)
Definition walk_interface (walk : Node -> Walker) (field : option Node)
  : Walker :=
  match field with
  | Some child => walk child
  | None => done
  end.

(** The walk of a field of pointer type [*X]: the interface value made
    of a [nil] pointer is not [nil], and the type switch takes the case
    of [*X] with [n == nil] ([on_nil]). *)
Definition walk_pointer (walk : Node -> Walker) (on_nil : Walker)
  (field : option Node) : Walker :=
  match field with
  | Some child => walk child
  | None => on_nil
  end.

Section Walk.

Variable visitor : Visitor S.

(** [if visitor.VisitX(n) { children }]; where the result of [VisitX] is
    not looked at, [children] is [done]. *)
Definition visit (method : NodeType) (n : option Node) (children : Walker)
  : Walker :=
  fun s => let (descend, s') := visitor method n s in
           if descend then children s' else Some s'.

(** [func Walk(node Node, visitor Visitor)], for a [node] that is not
    [nil]; the struct [NameValueList] has no case. *)
Fixpoint Walk (node : Node) : Walker :=
  match payload node with
  | SourceUnit Children =>
      visit NodeSourceUnit (Some node)
        (each Walk Children)
  | PragmaDirective _ _ =>
      visit NodePragmaDirective (Some node)
        (done)
  | ImportDirective _ _ _ _ _ _ =>
      visit NodeImportDirective (Some node)
        (done)
  | ContractDefinition _ BaseContracts SubNodes _ =>
      visit NodeContractDefinition (Some node)
        (then_ (each Walk BaseContracts)
        (each Walk SubNodes))
  | InheritanceSpecifier BaseName Arguments =>
      visit NodeInheritanceSpecifier (Some node)
        (then_ (Walk BaseName)
        (each Walk Arguments))
  | FunctionDefinition _ Parameters ReturnParameters Body _ Modifiers _ _ _ _
         _ _ =>
      visit NodeFunctionDefinition (Some node)
        (then_ (each Walk Parameters)
        (then_ (each Walk ReturnParameters)
        (then_ (each Walk Modifiers)
        (walk_pointer Walk (visit NodeBlock None crash) Body))))
  | ModifierDefinition _ Parameters Body _ _ =>
      visit NodeModifierDefinition (Some node)
        (then_ (each Walk Parameters)
        (walk_pointer Walk (visit NodeBlock None crash) Body))
  | ModifierInvocation _ Arguments =>
      visit NodeModifierInvocation (Some node)
        (each Walk Arguments)
  | StateVariableDeclaration Variables InitialValue =>
      visit NodeStateVariableDeclaration (Some node)
        (then_ (each Walk Variables)
        (walk_interface Walk InitialValue))
  | VariableDeclaration TypeName _ _ _ _ _ _ _ _ _ Expression =>
      visit NodeVariableDeclaration (Some node)
        (then_ (Walk TypeName)
        (walk_interface Walk Expression))
  | VariableDeclarationStatement Variables InitialValue =>
      visit NodeVariableDeclarationStatement (Some node)
        (then_ (each (walk_pointer Walk (visit NodeVariableDeclaration None
         crash)) Variables)
        (walk_interface Walk InitialValue))
  | StructDefinition _ Members =>
      visit NodeStructDefinition (Some node)
        (each Walk Members)
  | EnumDefinition _ Members =>
      visit NodeEnumDefinition (Some node)
        (each Walk Members)
  | EnumValue _ =>
      visit NodeEnumValue (Some node)
        (done)
  | EventDefinition _ Parameters _ =>
      visit NodeEventDefinition (Some node)
        (each Walk Parameters)
  | ErrorDefinition _ Parameters =>
      visit NodeErrorDefinition (Some node)
        (each Walk Parameters)
  | UserDefinedValueTypeDefinition _ UnderlyingType =>
      visit NodeUserDefinedValueTypeDefinition (Some node)
        (Walk UnderlyingType)
  | UsingForDeclaration TypeName _ _ _ _ =>
      visit NodeUsingForDeclaration (Some node)
        (walk_interface Walk TypeName)
  | ElementaryTypeName _ _ =>
      visit NodeElementaryTypeName (Some node)
        (done)
  | UserDefinedTypeName _ =>
      visit NodeUserDefinedTypeName (Some node)
        (done)
  | Mapping KeyType _ ValueType _ =>
      visit NodeMapping (Some node)
        (then_ (Walk KeyType)
        (Walk ValueType))
  | ArrayTypeName BaseTypeName Length =>
      visit NodeArrayTypeName (Some node)
        (then_ (Walk BaseTypeName)
        (walk_interface Walk Length))
  | FunctionTypeName ParameterTypes ReturnTypes _ _ =>
      visit NodeFunctionTypeName (Some node)
        (then_ (each Walk ParameterTypes)
        (each Walk ReturnTypes))
  | Block Statements =>
      visit NodeBlock (Some node)
        (each Walk Statements)
  | UncheckedBlock Body =>
      visit NodeUncheckedBlock (Some node)
        (Walk Body)
  | ExpressionStatement Expression =>
      visit NodeExpressionStatement (Some node)
        (Walk Expression)
  | IfStatement Condition TrueBody FalseBody =>
      visit NodeIfStatement (Some node)
        (then_ (Walk Condition)
        (then_ (Walk TrueBody)
        (walk_interface Walk FalseBody)))
  | WhileStatement Condition Body =>
      visit NodeWhileStatement (Some node)
        (then_ (Walk Condition)
        (Walk Body))
  | DoWhileStatement Condition Body =>
      visit NodeDoWhileStatement (Some node)
        (then_ (Walk Condition)
        (Walk Body))
  | ForStatement InitExpression ConditionExpression LoopExpression Body =>
      visit NodeForStatement (Some node)
        (then_ (walk_interface Walk InitExpression)
        (then_ (walk_interface Walk ConditionExpression)
        (then_ (walk_interface Walk LoopExpression)
        (Walk Body))))
  | ContinueStatement =>
      visit NodeContinueStatement (Some node)
        (done)
  | BreakStatement =>
      visit NodeBreakStatement (Some node)
        (done)
  | ReturnStatement Expression =>
      visit NodeReturnStatement (Some node)
        (walk_interface Walk Expression)
  | EmitStatement EventCall =>
      visit NodeEmitStatement (Some node)
        (Walk EventCall)
  | RevertStatement RevertCall =>
      visit NodeRevertStatement (Some node)
        (walk_interface Walk RevertCall)
  | TryStatement Expression _ Body CatchClauses =>
      visit NodeTryStatement (Some node)
        (then_ (Walk Expression)
        (then_ (Walk Body)
        (each Walk CatchClauses)))
  | CatchClause _ _ Parameters Body =>
      visit NodeCatchClause (Some node)
        (then_ (each Walk Parameters)
        (Walk Body))
  | BinaryOperation _ Left Right =>
      visit NodeBinaryOperation (Some node)
        (then_ (Walk Left)
        (Walk Right))
  | UnaryOperation _ SubExpression _ =>
      visit NodeUnaryOperation (Some node)
        (Walk SubExpression)
  | Conditional Condition TrueExpression FalseExpression =>
      visit NodeConditional (Some node)
        (then_ (Walk Condition)
        (then_ (Walk TrueExpression)
        (Walk FalseExpression)))
  | FunctionCall Expression Arguments _ _ =>
      visit NodeFunctionCall (Some node)
        (then_ (Walk Expression)
        (each Walk Arguments))
  | FunctionCallOptions Expression _ Options =>
      visit NodeFunctionCallOptions (Some node)
        (then_ (Walk Expression)
        (each Walk Options))
  | MemberAccess Expression _ =>
      visit NodeMemberAccess (Some node)
        (Walk Expression)
  | IndexAccess Base Index =>
      visit NodeIndexAccess (Some node)
        (then_ (Walk Base)
        (walk_interface Walk Index))
  | IndexRangeAccess Base IndexStart IndexEnd =>
      visit NodeIndexRangeAccess (Some node)
        (then_ (Walk Base)
        (then_ (walk_interface Walk IndexStart)
        (walk_interface Walk IndexEnd)))
  | NewExpression TypeName =>
      visit NodeNewExpression (Some node)
        (Walk TypeName)
  | TupleExpression Components _ =>
      visit NodeTupleExpression (Some node)
        (each (walk_interface Walk) Components)
  | NameValueExpression Expression _ =>
      visit NodeNameValueExpression (Some node)
        (Walk Expression)
  | NameValueList _ _ _ => done
  | Identifier _ =>
      visit NodeIdentifier (Some node)
        (done)
  | NumberLiteral _ _ =>
      visit NodeNumberLiteral (Some node)
        (done)
  | BooleanLiteral _ =>
      visit NodeBooleanLiteral (Some node)
        (done)
  | StringLiteral _ _ _ =>
      visit NodeStringLiteral (Some node)
        (done)
  | HexLiteral _ _ =>
      visit NodeHexLiteral (Some node)
        (done)
  | InlineAssembly _ Body =>
      visit NodeInlineAssembly (Some node)
        (Walk Body)
  | AssemblyBlock Operations =>
      visit NodeAssemblyBlock (Some node)
        (each Walk Operations)
  | AssemblyCall _ Arguments =>
      visit NodeAssemblyCall (Some node)
        (each Walk Arguments)
  | AssemblyLocalDefinition _ Expression =>
      visit NodeAssemblyLocalDefinition (Some node)
        (walk_interface Walk Expression)
  | AssemblyAssignment _ Expression =>
      visit NodeAssemblyAssignment (Some node)
        (Walk Expression)
  | AssemblyIdentifier _ =>
      visit NodeAssemblyIdentifier (Some node)
        (done)
  | AssemblyLiteral _ _ =>
      visit NodeAssemblyLiteral (Some node)
        (done)
  | AssemblyIf Condition Body =>
      visit NodeAssemblyIf (Some node)
        (then_ (Walk Condition)
        (Walk Body))
  | AssemblySwitch Expression Cases =>
      visit NodeAssemblySwitch (Some node)
        (then_ (Walk Expression)
        (each Walk Cases))
  | AssemblyCase Value Body _ =>
      visit NodeAssemblyCase (Some node)
        (then_ (walk_interface Walk Value)
        (Walk Body))
  | AssemblyFor Pre Condition Post Body =>
      visit NodeAssemblyFor (Some node)
        (then_ (Walk Pre)
        (then_ (Walk Condition)
        (then_ (Walk Post)
        (Walk Body))))
  | AssemblyFunctionDefinition _ _ _ Body =>
      visit NodeAssemblyFunctionDefinition (Some node)
        (Walk Body)
  end.

End Walk.

Section WalkSimple.

Variable visitor : SimpleVisitor S.

(** [if visitor.XFn != nil { visitor.XFn(n) }; children] *)
Definition call (method : NodeType) (n : option Node) (children : Walker)
  : Walker :=
  fun s => children (match visitor method with
                     | Some fn => fn n s
                     | None => s
                     end).

(** [func WalkSimple(node Node, visitor *SimpleVisitor)], for a [node]
    that is not [nil]. *)
Fixpoint WalkSimple (node : Node) : Walker :=
  match payload node with
  | SourceUnit Children =>
      call NodeSourceUnit (Some node)
        (each WalkSimple Children)
  | PragmaDirective _ _ =>
      call NodePragmaDirective (Some node)
        (done)
  | ImportDirective _ _ _ _ _ _ =>
      call NodeImportDirective (Some node)
        (done)
  | ContractDefinition _ BaseContracts SubNodes _ =>
      call NodeContractDefinition (Some node)
        (then_ (each WalkSimple BaseContracts)
        (each WalkSimple SubNodes))
  | InheritanceSpecifier BaseName Arguments =>
      call NodeInheritanceSpecifier (Some node)
        (then_ (WalkSimple BaseName)
        (each WalkSimple Arguments))
  | FunctionDefinition _ Parameters ReturnParameters Body _ Modifiers _ _ _ _
         _ _ =>
      call NodeFunctionDefinition (Some node)
        (then_ (each WalkSimple Parameters)
        (then_ (each WalkSimple ReturnParameters)
        (then_ (each WalkSimple Modifiers)
        (walk_pointer WalkSimple (call NodeBlock None crash) Body))))
  | ModifierDefinition _ Parameters Body _ _ =>
      call NodeModifierDefinition (Some node)
        (then_ (each WalkSimple Parameters)
        (walk_pointer WalkSimple (call NodeBlock None crash) Body))
  | ModifierInvocation _ Arguments =>
      call NodeModifierInvocation (Some node)
        (each WalkSimple Arguments)
  | StateVariableDeclaration Variables InitialValue =>
      call NodeStateVariableDeclaration (Some node)
        (then_ (each WalkSimple Variables)
        (walk_interface WalkSimple InitialValue))
  | VariableDeclaration TypeName _ _ _ _ _ _ _ _ _ Expression =>
      call NodeVariableDeclaration (Some node)
        (then_ (WalkSimple TypeName)
        (walk_interface WalkSimple Expression))
  | VariableDeclarationStatement Variables InitialValue =>
      call NodeVariableDeclarationStatement (Some node)
        (then_ (each (walk_pointer WalkSimple (call NodeVariableDeclaration
         None crash)) Variables)
        (walk_interface WalkSimple InitialValue))
  | StructDefinition _ Members =>
      call NodeStructDefinition (Some node)
        (each WalkSimple Members)
  | EnumDefinition _ Members =>
      call NodeEnumDefinition (Some node)
        (each WalkSimple Members)
  | EnumValue _ =>
      call NodeEnumValue (Some node)
        (done)
  | EventDefinition _ Parameters _ =>
      call NodeEventDefinition (Some node)
        (each WalkSimple Parameters)
  | ErrorDefinition _ Parameters =>
      call NodeErrorDefinition (Some node)
        (each WalkSimple Parameters)
  | UserDefinedValueTypeDefinition _ UnderlyingType =>
      call NodeUserDefinedValueTypeDefinition (Some node)
        (WalkSimple UnderlyingType)
  | UsingForDeclaration TypeName _ _ _ _ =>
      call NodeUsingForDeclaration (Some node)
        (walk_interface WalkSimple TypeName)
  | ElementaryTypeName _ _ =>
      call NodeElementaryTypeName (Some node)
        (done)
  | UserDefinedTypeName _ =>
      call NodeUserDefinedTypeName (Some node)
        (done)
  | Mapping KeyType _ ValueType _ =>
      call NodeMapping (Some node)
        (then_ (WalkSimple KeyType)
        (WalkSimple ValueType))
  | ArrayTypeName BaseTypeName Length =>
      call NodeArrayTypeName (Some node)
        (then_ (WalkSimple BaseTypeName)
        (walk_interface WalkSimple Length))
  | FunctionTypeName ParameterTypes ReturnTypes _ _ =>
      call NodeFunctionTypeName (Some node)
        (then_ (each WalkSimple ParameterTypes)
        (each WalkSimple ReturnTypes))
  | Block Statements =>
      call NodeBlock (Some node)
        (each WalkSimple Statements)
  | UncheckedBlock Body =>
      call NodeUncheckedBlock (Some node)
        (WalkSimple Body)
  | ExpressionStatement Expression =>
      call NodeExpressionStatement (Some node)
        (WalkSimple Expression)
  | IfStatement Condition TrueBody FalseBody =>
      call NodeIfStatement (Some node)
        (then_ (WalkSimple Condition)
        (then_ (WalkSimple TrueBody)
        (walk_interface WalkSimple FalseBody)))
  | WhileStatement Condition Body =>
      call NodeWhileStatement (Some node)
        (then_ (WalkSimple Condition)
        (WalkSimple Body))
  | DoWhileStatement Condition Body =>
      call NodeDoWhileStatement (Some node)
        (then_ (WalkSimple Condition)
        (WalkSimple Body))
  | ForStatement InitExpression ConditionExpression LoopExpression Body =>
      call NodeForStatement (Some node)
        (then_ (walk_interface WalkSimple InitExpression)
        (then_ (walk_interface WalkSimple ConditionExpression)
        (then_ (walk_interface WalkSimple LoopExpression)
        (WalkSimple Body))))
  | ContinueStatement =>
      call NodeContinueStatement (Some node)
        (done)
  | BreakStatement =>
      call NodeBreakStatement (Some node)
        (done)
  | ReturnStatement Expression =>
      call NodeReturnStatement (Some node)
        (walk_interface WalkSimple Expression)
  | EmitStatement EventCall =>
      call NodeEmitStatement (Some node)
        (WalkSimple EventCall)
  | RevertStatement RevertCall =>
      call NodeRevertStatement (Some node)
        (walk_interface WalkSimple RevertCall)
  | TryStatement Expression _ Body CatchClauses =>
      call NodeTryStatement (Some node)
        (then_ (WalkSimple Expression)
        (then_ (WalkSimple Body)
        (each WalkSimple CatchClauses)))
  | CatchClause _ _ Parameters Body =>
      call NodeCatchClause (Some node)
        (then_ (each WalkSimple Parameters)
        (WalkSimple Body))
  | BinaryOperation _ Left Right =>
      call NodeBinaryOperation (Some node)
        (then_ (WalkSimple Left)
        (WalkSimple Right))
  | UnaryOperation _ SubExpression _ =>
      call NodeUnaryOperation (Some node)
        (WalkSimple SubExpression)
  | Conditional Condition TrueExpression FalseExpression =>
      call NodeConditional (Some node)
        (then_ (WalkSimple Condition)
        (then_ (WalkSimple TrueExpression)
        (WalkSimple FalseExpression)))
  | FunctionCall Expression Arguments _ _ =>
      call NodeFunctionCall (Some node)
        (then_ (WalkSimple Expression)
        (each WalkSimple Arguments))
  | FunctionCallOptions Expression _ Options =>
      call NodeFunctionCallOptions (Some node)
        (then_ (WalkSimple Expression)
        (each WalkSimple Options))
  | MemberAccess Expression _ =>
      call NodeMemberAccess (Some node)
        (WalkSimple Expression)
  | IndexAccess Base Index =>
      call NodeIndexAccess (Some node)
        (then_ (WalkSimple Base)
        (walk_interface WalkSimple Index))
  | IndexRangeAccess Base IndexStart IndexEnd =>
      call NodeIndexRangeAccess (Some node)
        (then_ (WalkSimple Base)
        (then_ (walk_interface WalkSimple IndexStart)
        (walk_interface WalkSimple IndexEnd)))
  | NewExpression TypeName =>
      call NodeNewExpression (Some node)
        (WalkSimple TypeName)
  | TupleExpression Components _ =>
      call NodeTupleExpression (Some node)
        (each (walk_interface WalkSimple) Components)
  | NameValueExpression Expression _ =>
      call NodeNameValueExpression (Some node)
        (WalkSimple Expression)
  | NameValueList _ _ _ => done
  | Identifier _ =>
      call NodeIdentifier (Some node)
        (done)
  | NumberLiteral _ _ =>
      call NodeNumberLiteral (Some node)
        (done)
  | BooleanLiteral _ =>
      call NodeBooleanLiteral (Some node)
        (done)
  | StringLiteral _ _ _ =>
      call NodeStringLiteral (Some node)
        (done)
  | HexLiteral _ _ =>
      call NodeHexLiteral (Some node)
        (done)
  | InlineAssembly _ Body =>
      call NodeInlineAssembly (Some node)
        (WalkSimple Body)
  | AssemblyBlock Operations =>
      call NodeAssemblyBlock (Some node)
        (each WalkSimple Operations)
  | AssemblyCall _ Arguments =>
      call NodeAssemblyCall (Some node)
        (each WalkSimple Arguments)
  | AssemblyLocalDefinition _ Expression =>
      call NodeAssemblyLocalDefinition (Some node)
        (walk_interface WalkSimple Expression)
  | AssemblyAssignment _ Expression =>
      call NodeAssemblyAssignment (Some node)
        (WalkSimple Expression)
  | AssemblyIdentifier _ =>
      call NodeAssemblyIdentifier (Some node)
        (done)
  | AssemblyLiteral _ _ =>
      call NodeAssemblyLiteral (Some node)
        (done)
  | AssemblyIf Condition Body =>
      call NodeAssemblyIf (Some node)
        (then_ (WalkSimple Condition)
        (WalkSimple Body))
  | AssemblySwitch Expression Cases =>
      call NodeAssemblySwitch (Some node)
        (then_ (WalkSimple Expression)
        (each WalkSimple Cases))
  | AssemblyCase Value Body _ =>
      call NodeAssemblyCase (Some node)
        (then_ (walk_interface WalkSimple Value)
        (WalkSimple Body))
  | AssemblyFor Pre Condition Post Body =>
      call NodeAssemblyFor (Some node)
        (then_ (WalkSimple Pre)
        (then_ (WalkSimple Condition)
        (then_ (WalkSimple Post)
        (WalkSimple Body))))
  | AssemblyFunctionDefinition _ _ _ Body =>
      call NodeAssemblyFunctionDefinition (Some node)
        (WalkSimple Body)
  end.

End WalkSimple.

End Walking.

End ast.

(* ================================================================== *)
(** * Package builder *)
(* ================================================================== *)

Module builder.

(** [type Error struct] *)
Record Error : Type := mkError {
  Message : string;
  Line    : nat;
  Column  : nat
}.

(** [type Options struct] *)
Record Options : Type := mkOptions {
  Tolerant : bool;
  Loc      : bool;
  Range    : bool
}.

(** [type Builder struct] *)
Record Builder : Type := mkBuilder {
  tokens  : list lexer.Token;
  pos     : nat;
  errors  : list Error;
  options : Options
}.

(** [func New(input string, opts *Options) *Builder]; a [nil] options
    pointer is [None]. *)
Definition New (input : string) (opts : option Options) : Builder :=
  let tokens := lexer.Tokenize (lexer.New input) in
  let opts := match opts with
              | Some o => o
              | None => {| Tolerant := false; Loc := false; Range := false |}
              end in
  {| tokens := tokens; pos := 0; errors := []; options := opts |}.

(** [lexer.Token{Type: lexer.EOF}] *)
Definition eofToken : lexer.Token :=
  {| lexer.Type_ := lexer.EOF; lexer.Value := ""; lexer.Line := 0;
     lexer.Column := 0; lexer.Start := 0; lexer.End := 0 |}.

(** ** Token navigation helpers *)

Definition peek (b : Builder) : lexer.Token :=
  if length (tokens b) <=? pos b then eofToken
  else nth (pos b) (tokens b) eofToken.

Definition isAtEnd (b : Builder) : bool :=
  lexer.eqb (lexer.Type_ (peek b)) lexer.EOF.

Definition check (t : lexer.TokenType) (b : Builder) : bool :=
  if isAtEnd b then false else lexer.eqb (lexer.Type_ (peek b)) t.

Definition set_pos (b : Builder) (p : nat) : Builder :=
  {| tokens := tokens b; pos := p; errors := errors b;
     options := options b |}.

(** [b.pos++] unless at the end. *)
Definition step (b : Builder) : Builder :=
  if isAtEnd b then b else set_pos b (S (pos b)).

(** ** The builder's methods as state transformers

    A method returns its result and the builder it leaves behind.  [None]
    is a run that does not return: a run-time panic of the Go program (an
    index out of range), or the iteration or recursion bound of the
    embedding running out. *)
Definition M (A : Type) : Type := Builder -> option (A * Builder).

Definition panic {A : Type} : M A := fun _ => None.

Definition ret {A : Type} (x : A) : M A := fun b => Some (x, b).

Definition bind {A B : Type} (m : M A) (k : A -> M B) : M B :=
  fun b => match m b with
           | Some (x, b') => k x b'
           | None => None
           end.

(** Reading the builder without changing it. *)
Definition gets {A : Type} (f : Builder -> A) : M A :=
  fun b => Some (f b, b).

(** [if cond(b) { t } else { e }] *)
Definition ifM {A : Type} (c : Builder -> bool) (t e : M A) : M A :=
  fun b => if c b then t b else e b.

Definition orb_ (c d : Builder -> bool) : Builder -> bool :=
  fun b => c b || d b.
Definition andb_ (c d : Builder -> bool) : Builder -> bool :=
  fun b => c b && d b.
Definition negb_ (c : Builder -> bool) : Builder -> bool :=
  fun b => negb (c b).

Declare Scope builder_scope.
Delimit Scope builder_scope with builder.
Notation "x <- m ;; k" := (bind m (fun x => k))
  (at level 61, m at next level, right associativity) : builder_scope.
Notation "m ;; k" := (bind m (fun _ => k))
  (at level 61, right associativity) : builder_scope.
Notation "'If' c 'Then' t 'Else' e" := (ifM c t e)
  (at level 10, c at level 200, t at level 200, e at level 200)
  : builder_scope.
Notation "c ||| d" := (orb_ c d) (at level 50, left associativity)
  : builder_scope.
Notation "c &&& d" := (andb_ c d) (at level 40, left associativity)
  : builder_scope.
Notation "! c" := (negb_ c) (at level 35, right associativity)
  : builder_scope.
Open Scope builder_scope.

(** One round of a Go [for] loop either goes round again with the new
    loop variables ([continue_]) or leaves the loop ([break_]). *)
Definition continue_ {V R : Type} (s : V) : M (V + R) := ret (inl s).
Definition break_ {V R : Type} (r : R) : M (V + R) := ret (inr r).

Fixpoint loop {V R : Type} (n : nat) (body : V -> M (V + R)) (s : V)
  : M R :=
  fun b =>
    match n with
    | 0 => None
    | S n' =>
        match body s b with
        | Some (inl s', b') => loop n' body s' b'
        | Some (inr r, b') => Some (r, b')
        | None => None
        end
    end.

(** [for { body }]: the bound is one more than the number of tokens from
    the cursor on; each round of each loop of the builder moves the
    cursor forward, so the bound is not reached (section "Termination"
    below). *)
Definition for_ {V R : Type} (body : V -> M (V + R)) (s : V) : M R :=
  fun b => loop (S (length (tokens b) - pos b)) body s b.

(** [func (b *Builder) previous() lexer.Token]: [b.tokens[b.pos-1]]
    panics when the cursor is beyond the end of the tokens. *)
Definition previous : M lexer.Token :=
  fun b => match pos b with
           | 0 => Some (eofToken, b)
           | S p => match nth_error (tokens b) p with
                    | Some t => Some (t, b)
                    | None => None
                    end
           end.

(** [xs[0]]: panics on an empty slice. *)
Definition index0 {A : Type} (xs : list A) : M A :=
  match xs with
  | [] => panic
  | x :: _ => ret x
  end.

(** [func (b *Builder) advance() lexer.Token] *)
Definition advance : M lexer.Token :=
  fun b => previous (step b).

(** [func (b *Builder) synchronize()] *)
Definition isSyncPoint (t : lexer.TokenType) : bool :=
  match t with
  | lexer.CONTRACT | lexer.INTERFACE | lexer.LIBRARY | lexer.FUNCTION
  | lexer.STRUCT | lexer.ENUM | lexer.EVENT | lexer.ERROR
  | lexer.PRAGMA | lexer.IMPORT | lexer.USING => true
  | _ => false
  end.

Definition synchronize : M unit :=
  advance ;;
  for_ (fun _ : unit =>
    If isAtEnd Then break_ tt
    Else
      prev <- previous ;;
      if lexer.eqb (lexer.Type_ prev) lexer.SEMICOLON then break_ tt
      else If (fun b => isSyncPoint (lexer.Type_ (peek b)))
           Then break_ tt
           Else advance ;; continue_ tt) tt.

(** [func (b *Builder) addError(message string)] *)
Definition addError (message : string) : M unit :=
  tok <- gets peek ;;
  (fun b => Some (tt, {| tokens := tokens b; pos := pos b;
                         errors := errors b ++
                           [{| Message := message; Line := lexer.Line tok;
                               Column := lexer.Column tok |}];
                         options := options b |})) ;;
  If (fun b => Tolerant (options b)) Then synchronize Else ret tt.

Definition expected (what got : string) : string :=
  ("expected '" ++ what ++ "', got '" ++ got ++ "'")%string.

(** [func (b *Builder) expect(t lexer.TokenType) lexer.Token] *)
Definition expect (t : lexer.TokenType) : M lexer.Token :=
  If check t Then advance
  Else
    got <- gets peek ;;
    addError (expected (lexer.String_ t) (lexer.Value got)) ;;
    (* Advance even on failure to prevent infinite loops in non-tolerant
       mode *)
    (If (fun b => negb (Tolerant (options b)))
     Then advance ;; ret tt Else ret tt) ;;
    gets peek.

(** [func (b *Builder) expectKeyword(keyword string) lexer.Token] *)
Definition expectKeyword (keyword : string) : M lexer.Token :=
  If (fun b => String.eqb (lexer.Value (peek b)) keyword) Then advance
  Else
    got <- gets peek ;;
    addError (expected keyword (lexer.Value got)) ;;
    (If (fun b => negb (Tolerant (options b)))
     Then advance ;; ret tt Else ret tt) ;;
    gets peek.

(** ** Type checking helpers *)

Definition isElementaryTypeName (b : Builder) : bool :=
  match lexer.Type_ (peek b) with
  | lexer.ADDRESS | lexer.BOOL | lexer.STRING_TYPE | lexer.BYTES
  | lexer.INT | lexer.UINT | lexer.BYTE | lexer.BYTES_N | lexer.FIXED
  | lexer.UFIXED | lexer.FIXED_N | lexer.UFIXED_N => true
  | _ => false
  end.

Definition isTypeName : Builder -> bool :=
  isElementaryTypeName ||| check lexer.MAPPING ||| check lexer.FUNCTION
  ||| check lexer.IDENTIFIER.

Definition isContextualKeyword (b : Builder) : bool :=
  match lexer.Type_ (peek b) with
  | lexer.FROM | lexer.ERROR | lexer.REVERT | lexer.GLOBAL
  | lexer.TRANSIENT | lexer.LAYOUT | lexer.AT => true
  | _ => false
  end.

(** ** Location helpers *)

(** The [switch n := node.(type)] of [setLocation]: the node types that
    have a case. *)
Definition hasLocationCase (p : ast.Payload) : bool :=
  match p with
  | ast.EnumValue _ | ast.AssemblyCase _ _ _
  | ast.NameValueExpression _ _ | ast.NameValueList _ _ _ => false
  | _ => true
  end.

Definition setLocation_ (o : Options) (node : ast.Node)
  (startTok endTok : lexer.Token) : ast.Node :=
  if negb (Loc o) && negb (Range o) then node
  else
    let loc :=
      if Loc o then
        Some {| ast.Start := {| ast.Line := lexer.Line startTok;
                                ast.Column := lexer.Column startTok |};
                ast.End := {| ast.Line := lexer.Line endTok;
                              ast.Column := lexer.Column endTok
                                + String.length (lexer.Value endTok) |} |}
      else None in
    let rng :=
      if Range o then Some (lexer.Start startTok, lexer.End endTok)
      else None in
    if hasLocationCase (ast.payload node) then
      ast.MkNode {| ast.Type_ := ast.Type_ (ast.base node);
                    ast.Loc := loc; ast.Range_ := rng |}
                 (ast.payload node)
    else node.

(** [func (b *Builder) setLocation(node ast.Node, startTok, endTok
    lexer.Token)]; Go updates the node in place, here the updated node
    is returned. *)
Definition setLocation (node : ast.Node) (startTok endTok : lexer.Token)
  : M ast.Node :=
  gets (fun b => setLocation_ (options b) node startTok endTok).

(** [strings.Join] *)
Fixpoint Join (parts : list string) (sep : string) : string :=
  match parts with
  | [] => ""
  | [x] => x
  | x :: rest => (x ++ sep ++ Join rest sep)%string
  end.

(** [&ast.Identifier{BaseNode: ..., Name: name}] *)
Definition newIdentifier (name : string) : ast.Node :=
  ast.new ast.NodeIdentifier (ast.Identifier name).

(** The methods that are called from a method defined before them (the
    recursion of the grammar) are reached through this record. *)
Record Rec : Type := mkRec {
  call_parseTypeName          : M ast.Node;
  call_parseExpression        : M ast.Node;
  call_parseAssignment        : M ast.Node;
  call_parseTernary           : M ast.Node;
  call_parseExponentiation    : M ast.Node;
  call_parseUnary             : M ast.Node;
  call_parseStatement         : M ast.Node;
  call_parseAssemblyExpression : M ast.Node;
  call_parseAssemblyStatement_ : M (option ast.Node)
}.

Section Methods.

Variable rec : Rec.

(** ** Types (types.go) *)

Definition parseElementaryTypeName : M ast.Node :=
  startTok <- advance ;;
  (* Handle address payable *)
  stateMutability <-
    (If (fun b => lexer.eqb (lexer.Type_ startTok) lexer.ADDRESS
                  && check lexer.PAYABLE b)
     Then advance ;; ret "payable" Else ret "") ;;
  prev <- previous ;;
  setLocation
    (ast.new ast.NodeElementaryTypeName
       (ast.ElementaryTypeName (lexer.Value startTok) stateMutability))
    startTok prev.

Definition parseUserDefinedTypeName : M ast.Node :=
  startTok <- gets peek ;;
  nameTok <- expect lexer.IDENTIFIER ;;
  parts <- for_ (fun parts =>
             If check lexer.PERIOD Then
               advance ;;
               partTok <- expect lexer.IDENTIFIER ;;
               continue_ (parts ++ [lexer.Value partTok])
             Else break_ parts) [lexer.Value nameTok] ;;
  prev <- previous ;;
  setLocation
    (ast.new ast.NodeUserDefinedTypeName
       (ast.UserDefinedTypeName (Join parts ".")))
    startTok prev.

Definition isStorageLocation : Builder -> bool :=
  check lexer.MEMORY ||| check lexer.STORAGE ||| check lexer.CALLDATA.

(** The shared tail of [parseParameter] and [parseVariableDeclaration]:
    optional storage location, optional name, location. *)
Definition finishVariableDeclaration (startTok : lexer.Token)
  (typeName : ast.Node) : M ast.Node :=
  (* Storage location *)
  storageLocation <-
    (If isStorageLocation Then t <- advance ;; ret (lexer.Value t)
     Else ret "") ;;
  (* Name - can be identifier or contextual keyword like 'from' *)
  name <-
    (If check lexer.IDENTIFIER ||| isContextualKeyword
     Then nameTok <- advance ;;
          ret (lexer.Value nameTok,
               Some (newIdentifier (lexer.Value nameTok)))
     Else ret ("", None)) ;;
  prev <- previous ;;
  setLocation
    (ast.new ast.NodeVariableDeclaration
       (ast.VariableDeclaration typeName (fst name) (snd name)
          storageLocation false false false [] "" false None))
    startTok prev.

Definition parseParameter : M ast.Node :=
  startTok <- gets peek ;;
  typeName <- call_parseTypeName rec ;;
  finishVariableDeclaration startTok typeName.

Definition parseParameterList : M (list ast.Node) :=
  expect lexer.LPAREN ;;
  params <- for_ (fun params =>
              If ! check lexer.RPAREN &&& ! isAtEnd Then
                param <- parseParameter ;;
                (If ! check lexer.RPAREN
                 Then expect lexer.COMMA ;; ret tt Else ret tt) ;;
                continue_ (params ++ [param])
              Else break_ params) [] ;;
  expect lexer.RPAREN ;;
  ret params.

(** The modifier loop of [parseFunctionTypeName]; the loop variables
    are the node's [Visibility] and [StateMutability]. *)
Definition parseFunctionTypeName : M ast.Node :=
  startTok <- advance ;; (* function *)
  (* Parameters *)
  parameterTypes <- parseParameterList ;;
  (* Visibility and state mutability *)
  vm <- for_ (fun vm : string * string =>
          If check lexer.INTERNAL Then advance ;;
            continue_ ("internal", snd vm)
          Else If check lexer.EXTERNAL Then advance ;;
            continue_ ("external", snd vm)
          Else If check lexer.PURE Then advance ;;
            continue_ (fst vm, "pure")
          Else If check lexer.VIEW Then advance ;;
            continue_ (fst vm, "view")
          Else If check lexer.PAYABLE Then advance ;;
            continue_ (fst vm, "payable")
          Else break_ vm) ("", "") ;;
  (* Return types *)
  returnTypes <-
    (If check lexer.RETURNS Then advance ;; parseParameterList
     Else ret []) ;;
  prev <- previous ;;
  setLocation
    (ast.new ast.NodeFunctionTypeName
       (ast.FunctionTypeName parameterTypes returnTypes (fst vm) (snd vm)))
    startTok prev.

Definition parseMappingType : M ast.Node :=
  startTok <- advance ;; (* mapping *)
  expect lexer.LPAREN ;;
  (* Key type *)
  keyType <- (If isElementaryTypeName Then parseElementaryTypeName
              Else parseUserDefinedTypeName) ;;
  (* Optional key name *)
  keyName <- (If check lexer.IDENTIFIER
              Then keyNameTok <- advance ;;
                   ret (Some (newIdentifier (lexer.Value keyNameTok)))
              Else ret None) ;;
  expect lexer.ARROW ;;
  (* Value type *)
  valueType <- call_parseTypeName rec ;;
  (* Optional value name *)
  valueName <- (If check lexer.IDENTIFIER
                Then valueNameTok <- advance ;;
                     ret (Some (newIdentifier (lexer.Value valueNameTok)))
                Else ret None) ;;
  expect lexer.RPAREN ;;
  prev <- previous ;;
  setLocation
    (ast.new ast.NodeMapping
       (ast.Mapping keyType keyName valueType valueName))
    startTok prev.

Definition parseTypeName : M ast.Node :=
  startTok <- gets peek ;;
  typeName <-
    (If check lexer.FUNCTION Then parseFunctionTypeName
     Else If check lexer.MAPPING Then parseMappingType
     Else If isElementaryTypeName Then parseElementaryTypeName
     Else parseUserDefinedTypeName) ;;
  (* Array dimensions *)
  typeName <- for_ (fun typeName =>
                If check lexer.LBRACK Then
                  advance ;; (* [ *)
                  length <- (If ! check lexer.RBRACK
                             Then e <- call_parseExpression rec ;;
                                  ret (Some e)
                             Else ret None) ;;
                  expect lexer.RBRACK ;;
                  continue_ (ast.new ast.NodeArrayTypeName
                               (ast.ArrayTypeName typeName length))
                Else break_ typeName) typeName ;;
  prev <- previous ;;
  setLocation typeName startTok prev.

Definition parseVariableDeclaration : M ast.Node :=
  startTok <- gets peek ;;
  typeName <- parseTypeName ;;
  finishVariableDeclaration startTok typeName.

(** ** Expressions (expressions.go) *)

Definition isAssignmentOperator : Builder -> bool :=
  check lexer.ASSIGN ||| check lexer.ASSIGN_ADD ||| check lexer.ASSIGN_SUB
  ||| check lexer.ASSIGN_MUL ||| check lexer.ASSIGN_DIV
  ||| check lexer.ASSIGN_MOD ||| check lexer.ASSIGN_AND
  ||| check lexer.ASSIGN_OR ||| check lexer.ASSIGN_XOR
  ||| check lexer.ASSIGN_SHL ||| check lexer.ASSIGN_SHR
  ||| check lexer.ASSIGN_SAR.

Definition units : list string :=
  ["wei"; "gwei"; "ether"; "seconds"; "minutes"; "hours"; "days"; "weeks";
   "years"].

Definition checkNumberUnit (b : Builder) : bool :=
  if negb (check lexer.IDENTIFIER b) then false
  else existsb (String.eqb (lexer.Value (peek b))) units.

Definition parseNumberLiteral (tok : lexer.Token) : M ast.Node :=
  (* Check for number unit *)
  subDenomination <-
    (If checkNumberUnit Then t <- advance ;; ret (lexer.Value t)
     Else ret "") ;;
  ret (ast.new ast.NodeNumberLiteral
         (ast.NumberLiteral (lexer.Value tok) subDenomination)).

Definition isStringToken : Builder -> bool :=
  check lexer.STRING ||| check lexer.UNICODE_STRING
  ||| check lexer.HEX_STRING.

Definition parseStringLiteral : M ast.Node :=
  r <- for_ (fun acc : list string * bool * bool =>
         let '(parts, isUnicode, isHex) := acc in
         If isStringToken Then
           tok <- advance ;;
           continue_
             (parts ++ [lexer.Value tok],
              isUnicode
              || lexer.eqb (lexer.Type_ tok) lexer.UNICODE_STRING,
              isHex || lexer.eqb (lexer.Type_ tok) lexer.HEX_STRING)
         Else break_ acc) ([], false, false) ;;
  let '(parts, isUnicode, isHex) := r in
  if isHex : bool then
    value <- index0 parts ;;
    ret (ast.new ast.NodeHexLiteral (ast.HexLiteral value parts))
  else
    value <- index0 parts ;;
    ret (ast.new ast.NodeStringLiteral
           (ast.StringLiteral value parts isUnicode)).

Definition isClosing : Builder -> bool :=
  check lexer.RPAREN ||| check lexer.RBRACK ||| check lexer.RBRACE.

Definition parseExpressionList : M (list ast.Node) :=
  If isClosing Then ret []
  Else
    first <- call_parseExpression rec ;;
    for_ (fun exprs =>
      If check lexer.COMMA Then
        advance ;; (* , *)
        If isClosing Then break_ exprs
        Else e <- call_parseExpression rec ;; continue_ (exprs ++ [e])
      Else break_ exprs) [first].

(** The tuple branch of [parseTupleOrParenthesized], entered with the
    first component parsed and the cursor on a comma. *)
Definition parseTupleRest (startTok : lexer.Token)
  (first : option ast.Node) : M ast.Node :=
  components <- for_ (fun components =>
    If check lexer.COMMA Then
      advance ;; (* , *)
      If check lexer.RPAREN ||| check lexer.COMMA
      Then continue_ (components ++ [None])
      Else e <- call_parseExpression rec ;;
           continue_ (components ++ [Some e])
    Else break_ components) [first] ;;
  expect lexer.RPAREN ;;
  prev <- previous ;;
  setLocation
    (ast.new ast.NodeTupleExpression (ast.TupleExpression components false))
    startTok prev.

(** In Go the first component is appended to [components] ([nil] when
    the cursor is on a comma) and [check(COMMA)] is asked again; on a
    comma the second test succeeds as well, so the bare sub-expression
    [components[0]] is only returned for a parsed expression. *)
Definition parseTupleOrParenthesized : M ast.Node :=
  startTok <- advance ;; (* ( *)
  (* Empty tuple *)
  If check lexer.RPAREN Then
    advance ;;
    ret (ast.new ast.NodeTupleExpression (ast.TupleExpression [] false))
  Else If check lexer.COMMA Then
    (* Check for empty component *)
    parseTupleRest startTok None
  Else
    expr <- call_parseExpression rec ;;
    (* If followed by comma, it's a tuple *)
    If check lexer.COMMA Then parseTupleRest startTok (Some expr)
    Else
      (* Single expression in parentheses *)
      expect lexer.RPAREN ;;
      ret expr.

Definition parseArrayLiteral : M ast.Node :=
  startTok <- advance ;; (* [ *)
  components <- (If ! check lexer.RBRACK Then parseExpressionList
                 Else ret []) ;;
  expect lexer.RBRACK ;;
  prev <- previous ;;
  setLocation
    (ast.new ast.NodeTupleExpression
       (ast.TupleExpression (map Some components) true))
    startTok prev.

Definition parseNewExpression : M ast.Node :=
  startTok <- advance ;; (* new *)
  typeName <- parseTypeName ;;
  prev <- previous ;;
  setLocation (ast.new ast.NodeNewExpression (ast.NewExpression typeName))
    startTok prev.

Definition parseTypeExpression : M ast.Node :=
  advance ;; (* type *)
  expect lexer.LPAREN ;;
  typeName <- parseTypeName ;;
  expect lexer.RPAREN ;;
  (* Return the type name as a member access: type(T) *)
  ret (ast.new ast.NodeFunctionCall
         (ast.FunctionCall (newIdentifier "type") [typeName] [] [])).

Definition parsePayableConversion : M ast.Node :=
  startTok <- advance ;; (* payable *)
  expect lexer.LPAREN ;;
  expr <- call_parseExpression rec ;;
  expect lexer.RPAREN ;;
  prev <- previous ;;
  setLocation
    (ast.new ast.NodeFunctionCall
       (ast.FunctionCall
          (ast.new ast.NodeElementaryTypeName
             (ast.ElementaryTypeName "address" "payable"))
          [expr] [] []))
    startTok prev.

Definition parsePrimary : M ast.Node :=
  tok <- gets peek ;;
  match lexer.Type_ tok with
  | lexer.IDENTIFIER =>
      advance ;; ret (newIdentifier (lexer.Value tok))
  (* Contextual keywords can also be used as identifiers in
     expressions *)
  | lexer.FROM | lexer.ERROR | lexer.REVERT | lexer.GLOBAL
  | lexer.TRANSIENT | lexer.LAYOUT | lexer.AT =>
      advance ;; ret (newIdentifier (lexer.Value tok))
  | lexer.NUMBER =>
      advance ;; parseNumberLiteral tok
  | lexer.HEX_NUMBER =>
      advance ;;
      ret (ast.new ast.NodeNumberLiteral
             (ast.NumberLiteral (lexer.Value tok) ""))
  | lexer.STRING | lexer.HEX_STRING | lexer.UNICODE_STRING =>
      parseStringLiteral
  | lexer.TRUE =>
      advance ;; ret (ast.new ast.NodeBooleanLiteral (ast.BooleanLiteral true))
  | lexer.FALSE =>
      advance ;;
      ret (ast.new ast.NodeBooleanLiteral (ast.BooleanLiteral false))
  | lexer.LPAREN => parseTupleOrParenthesized
  | lexer.LBRACK => parseArrayLiteral
  | lexer.NEW => parseNewExpression
  | lexer.TYPE => parseTypeExpression
  | lexer.PAYABLE => parsePayableConversion
  (* Elementary type names as expressions *)
  | lexer.ADDRESS | lexer.BOOL | lexer.STRING_TYPE | lexer.BYTES
  | lexer.INT | lexer.UINT | lexer.BYTE | lexer.BYTES_N
  | lexer.FIXED | lexer.UFIXED | lexer.FIXED_N | lexer.UFIXED_N =>
      parseElementaryTypeName
  | _ =>
      addError "expected expression" ;;
      advance ;;
      ret (newIdentifier "")
  end.

(** The [name: value] entries shared by named call arguments and call
    options, up to the closing brace. *)
Definition parseNamedValues : M (list string * list ast.Node) :=
  for_ (fun acc : list string * list ast.Node =>
    If ! check lexer.RBRACE &&& ! isAtEnd Then
      nameTok <- expect lexer.IDENTIFIER ;;
      expect lexer.COLON ;;
      value <- call_parseExpression rec ;;
      (If ! check lexer.RBRACE Then expect lexer.COMMA ;; ret tt
       Else ret tt) ;;
      continue_ (fst acc ++ [lexer.Value nameTok], snd acc ++ [value])
    Else break_ acc) ([], []).

Definition parseFunctionCall (callee : ast.Node) : M ast.Node :=
  expect lexer.LPAREN ;;
  (* Check for named arguments *)
  na <- (If check lexer.LBRACE Then
           advance ;; (* { *)
           r <- parseNamedValues ;;
           expect lexer.RBRACE ;;
           ret r
         Else
           args <- parseExpressionList ;;
           ret ([], args)) ;;
  expect lexer.RPAREN ;;
  ret (ast.new ast.NodeFunctionCall
         (ast.FunctionCall callee (snd na) (fst na) [])).

Definition parseFunctionCallOptions (expr : ast.Node) : M ast.Node :=
  expect lexer.LBRACE ;;
  r <- parseNamedValues ;;
  expect lexer.RBRACE ;;
  ret (ast.new ast.NodeFunctionCallOptions
         (ast.FunctionCallOptions expr (fst r) (snd r))).

(** [expr[...]] after the opening bracket has been seen. *)
Definition parseIndex (expr : ast.Node) : M ast.Node :=
  advance ;; (* [ *)
  indexStart <- (If ! check lexer.COLON &&& ! check lexer.RBRACK
                 Then e <- call_parseExpression rec ;; ret (Some e)
                 Else ret None) ;;
  range <- (If check lexer.COLON Then
              advance ;; (* : *)
              indexEnd <- (If ! check lexer.RBRACK
                           Then e <- call_parseExpression rec ;;
                                ret (Some e)
                           Else ret None) ;;
              ret (true, indexEnd)
            Else ret (false, None)) ;;
  expect lexer.RBRACK ;;
  if fst range : bool then
    ret (ast.new ast.NodeIndexRangeAccess
           (ast.IndexRangeAccess expr indexStart (snd range)))
  else
    ret (ast.new ast.NodeIndexAccess (ast.IndexAccess expr indexStart)).

Definition parseMember (expr : ast.Node) : M ast.Node :=
  advance ;; (* . *)
  memberTok <- advance ;;
  ret (ast.new ast.NodeMemberAccess
         (ast.MemberAccess expr (lexer.Value memberTok))).

Definition parseCallMemberIndex : M ast.Node :=
  expr <- parsePrimary ;;
  for_ (fun expr =>
    If check lexer.PERIOD Then e <- parseMember expr ;; continue_ e
    Else If check lexer.LBRACK Then e <- parseIndex expr ;; continue_ e
    Else If check lexer.LPAREN Then
      e <- parseFunctionCall expr ;; continue_ e
    Else If check lexer.LBRACE Then
      (* Named arguments for function call options *)
      e <- parseFunctionCallOptions expr ;; continue_ e
    Else break_ expr) expr.

Definition parsePostfix : M ast.Node :=
  expr <- parseCallMemberIndex ;;
  for_ (fun expr =>
    If check lexer.INC ||| check lexer.DEC Then
      opTok <- advance ;;
      continue_ (ast.new ast.NodeUnaryOperation
                   (ast.UnaryOperation (lexer.Value opTok) expr false))
    Else break_ expr) expr.

Definition isUnaryOperator : Builder -> bool :=
  check lexer.NOT ||| check lexer.BIT_NOT ||| check lexer.SUB
  ||| check lexer.ADD ||| check lexer.INC ||| check lexer.DEC
  ||| check lexer.DELETE.

Definition parseUnary : M ast.Node :=
  If isUnaryOperator Then
    opTok <- advance ;;
    expr <- call_parseUnary rec ;;
    ret (ast.new ast.NodeUnaryOperation
           (ast.UnaryOperation (lexer.Value opTok) expr true))
  Else parsePostfix.

Definition newBinaryOperation (op : string) (left right : ast.Node)
  : ast.Node :=
  ast.new ast.NodeBinaryOperation (ast.BinaryOperation op left right).

Definition parseExponentiation : M ast.Node :=
  left <- parseUnary ;;
  If check lexer.EXP Then
    opTok <- advance ;;
    right <- call_parseExponentiation rec ;; (* Right associative *)
    ret (newBinaryOperation (lexer.Value opTok) left right)
  Else ret left.

(** The nine left-associative levels are the same method with another
    operator test and another operand method:
    [left := operand(); for isOp() { op := advance().Value;
     right := operand(); left = BinaryOperation{op, left, right} }]. *)
Definition parseBinaryLeft (isOp : Builder -> bool) (operand : M ast.Node)
  : M ast.Node :=
  left <- operand ;;
  for_ (fun left =>
    If isOp Then
      opTok <- advance ;;
      right <- operand ;;
      continue_ (newBinaryOperation (lexer.Value opTok) left right)
    Else break_ left) left.

Definition parseMultiplicative : M ast.Node :=
  parseBinaryLeft (check lexer.MUL ||| check lexer.DIV ||| check lexer.MOD)
    parseExponentiation.

Definition parseAdditive : M ast.Node :=
  parseBinaryLeft (check lexer.ADD ||| check lexer.SUB) parseMultiplicative.

Definition parseShift : M ast.Node :=
  parseBinaryLeft (check lexer.SHL ||| check lexer.SHR ||| check lexer.SAR)
    parseAdditive.

Definition parseBitwiseAnd : M ast.Node :=
  parseBinaryLeft (check lexer.BIT_AND) parseShift.

Definition parseBitwiseXor : M ast.Node :=
  parseBinaryLeft (check lexer.BIT_XOR) parseBitwiseAnd.

Definition parseBitwiseOr : M ast.Node :=
  parseBinaryLeft (check lexer.BIT_OR) parseBitwiseXor.

Definition parseRelational : M ast.Node :=
  parseBinaryLeft
    (check lexer.LT ||| check lexer.GT ||| check lexer.LTE
     ||| check lexer.GTE)
    parseBitwiseOr.

Definition parseEquality : M ast.Node :=
  parseBinaryLeft (check lexer.EQ ||| check lexer.NEQ) parseRelational.

Definition parseLogicalAnd : M ast.Node :=
  parseBinaryLeft (check lexer.AND) parseEquality.

Definition parseLogicalOr : M ast.Node :=
  parseBinaryLeft (check lexer.OR) parseLogicalAnd.

Definition parseTernary : M ast.Node :=
  condition <- parseLogicalOr ;;
  If check lexer.QUESTION Then
    advance ;; (* ? *)
    trueExpr <- call_parseExpression rec ;;
    expect lexer.COLON ;;
    falseExpr <- call_parseTernary rec ;;
    ret (ast.new ast.NodeConditional
           (ast.Conditional condition trueExpr falseExpr))
  Else ret condition.

Definition parseAssignment : M ast.Node :=
  left <- parseTernary ;;
  If isAssignmentOperator Then
    opTok <- advance ;;
    right <- call_parseAssignment rec ;;
    ret (newBinaryOperation (lexer.Value opTok) left right)
  Else ret left.

Definition parseExpression : M ast.Node := parseAssignment.

(** ** Statements (statements.go) *)

Definition parseBlock : M ast.Node :=
  startTok <- expect lexer.LBRACE ;;
  statements <- for_ (fun statements =>
    If ! check lexer.RBRACE &&& ! isAtEnd Then
      stmt <- call_parseStatement rec ;;
      continue_ (statements ++ [stmt])
    Else break_ statements) [] ;;
  endTok <- expect lexer.RBRACE ;;
  setLocation (ast.new ast.NodeBlock (ast.Block statements)) startTok endTok.

(** [b.pos = savedPos] *)
Definition restore (savedPos : nat) : M unit :=
  fun b => Some (tt, set_pos b savedPos).

(** [looksLikeVariableDeclaration]: the deferred [b.pos = savedPos] runs
    on both returns that follow it. *)
Definition looksLikeVariableDeclaration : M bool :=
  (* Elementary types are definitely type names *)
  If isElementaryTypeName Then ret true
  (* mapping and function type keywords *)
  Else If check lexer.MAPPING ||| check lexer.FUNCTION Then ret true
  (* For identifiers, we need to look ahead *)
  Else If ! check lexer.IDENTIFIER Then ret false
  Else
    (* Save position for backtracking *)
    savedPos <- gets pos ;;
    (* Skip the identifier (potential type name) *)
    advance ;;
    (* Skip array dimensions like [10] or [] *)
    for_ (fun _ : unit =>
      If check lexer.LBRACK Then
        advance ;; (* [ *)
        for_ (fun _ : unit =>
          If ! check lexer.RBRACK &&& ! isAtEnd
          Then advance ;; continue_ tt
          Else break_ tt) tt ;;
        (If check lexer.RBRACK Then advance ;; ret tt Else ret tt) ;;
        continue_ tt
      Else break_ tt) tt ;;
    (* Skip type path like A.B.C *)
    for_ (fun _ : unit =>
      If check lexer.PERIOD Then
        advance ;; (* . *)
        (If check lexer.IDENTIFIER Then advance ;; ret tt Else ret tt) ;;
        continue_ tt
      Else break_ tt) tt ;;
    (* Skip storage location (memory, storage, calldata) *)
    (If isStorageLocation Then advance ;; ret tt Else ret tt) ;;
    (* If followed by identifier, it's a variable declaration *)
    result <- gets (check lexer.IDENTIFIER) ;;
    restore savedPos ;;
    ret result.

Definition parseExpressionStatement : M ast.Node :=
  startTok <- gets peek ;;
  expr <- parseExpression ;;
  endTok <- expect lexer.SEMICOLON ;;
  setLocation
    (ast.new ast.NodeExpressionStatement (ast.ExpressionStatement expr))
    startTok endTok.

(** [if b.check(lexer.ASSIGN) { b.advance(); ... = b.parseExpression() }] *)
Definition parseInitialValue : M (option ast.Node) :=
  If check lexer.ASSIGN Then
    advance ;; (* = *)
    e <- parseExpression ;; ret (Some e)
  Else ret None.

Definition parseVariableDeclarationStatement : M ast.Node :=
  startTok <- gets peek ;;
  varDecl <- parseVariableDeclaration ;;
  initialValue <- parseInitialValue ;;
  endTok <- expect lexer.SEMICOLON ;;
  setLocation
    (ast.new ast.NodeVariableDeclarationStatement
       (ast.VariableDeclarationStatement [Some varDecl] initialValue))
    startTok endTok.

Definition parseTupleVariableDeclarationOrExpression : M ast.Node :=
  startTok <- gets peek ;;
  (* Look ahead to determine if this is a tuple declaration *)
  expect lexer.LPAREN ;;
  (* Try to parse as tuple declaration first *)
  savedPos <- gets pos ;;
  r <- for_ (fun acc : list (option ast.Node) * bool =>
         let (variables, hasTypes) := acc in
         If ! check lexer.RPAREN &&& ! isAtEnd Then
           If check lexer.COMMA Then
             advance ;;
             continue_ (variables ++ [None], hasTypes)
           Else If isTypeName Then
             varDecl <- parseVariableDeclaration ;;
             let variables := variables ++ [Some varDecl] in
             If ! check lexer.RPAREN &&& ! check lexer.COMMA
             Then break_ (variables, true)
             Else
               (If check lexer.COMMA Then advance ;; ret tt Else ret tt) ;;
               continue_ (variables, true)
           Else break_ (variables, hasTypes)
         Else break_ acc) ([], false) ;;
  let (variables, hasTypes) := r in
  If (fun b => hasTypes && check lexer.RPAREN b) Then
    expect lexer.RPAREN ;;
    initialValue <- parseInitialValue ;;
    endTok <- expect lexer.SEMICOLON ;;
    setLocation
      (ast.new ast.NodeVariableDeclarationStatement
         (ast.VariableDeclarationStatement variables initialValue))
      startTok endTok
  Else
    (* Not a tuple declaration, restore and parse as expression *)
    restore savedPos ;;
    parseExpressionStatement.

Definition parseIfStatement : M ast.Node :=
  startTok <- advance ;; (* if *)
  expect lexer.LPAREN ;;
  condition <- parseExpression ;;
  expect lexer.RPAREN ;;
  trueBody <- call_parseStatement rec ;;
  falseBody <- (If check lexer.ELSE Then
                  advance ;; (* else *)
                  s <- call_parseStatement rec ;; ret (Some s)
                Else ret None) ;;
  prev <- previous ;;
  setLocation
    (ast.new ast.NodeIfStatement
       (ast.IfStatement condition trueBody falseBody))
    startTok prev.

Definition parseForStatement : M ast.Node :=
  startTok <- advance ;; (* for *)
  expect lexer.LPAREN ;;
  (* Init *)
  init <- (If ! check lexer.SEMICOLON Then
             If isTypeName
             Then s <- parseVariableDeclarationStatement ;; ret (Some s)
             Else s <- parseExpressionStatement ;; ret (Some s)
           Else advance ;; (* ; *) ret None) ;;
  (* Condition *)
  cond <- (If ! check lexer.SEMICOLON
           Then e <- parseExpression ;; ret (Some e)
           Else ret None) ;;
  expect lexer.SEMICOLON ;;
  (* Loop expression *)
  loopExpr <- (If ! check lexer.RPAREN
               Then e <- parseExpression ;; ret (Some e)
               Else ret None) ;;
  expect lexer.RPAREN ;;
  body <- call_parseStatement rec ;;
  prev <- previous ;;
  setLocation
    (ast.new ast.NodeForStatement (ast.ForStatement init cond loopExpr body))
    startTok prev.

Definition parseWhileStatement : M ast.Node :=
  startTok <- advance ;; (* while *)
  expect lexer.LPAREN ;;
  condition <- parseExpression ;;
  expect lexer.RPAREN ;;
  body <- call_parseStatement rec ;;
  prev <- previous ;;
  setLocation
    (ast.new ast.NodeWhileStatement (ast.WhileStatement condition body))
    startTok prev.

Definition parseDoWhileStatement : M ast.Node :=
  startTok <- advance ;; (* do *)
  body <- call_parseStatement rec ;;
  expect lexer.WHILE ;;
  expect lexer.LPAREN ;;
  condition <- parseExpression ;;
  expect lexer.RPAREN ;;
  expect lexer.SEMICOLON ;;
  prev <- previous ;;
  setLocation
    (ast.new ast.NodeDoWhileStatement (ast.DoWhileStatement condition body))
    startTok prev.

Definition parseContinueStatement : M ast.Node :=
  startTok <- advance ;; (* continue *)
  endTok <- expect lexer.SEMICOLON ;;
  setLocation (ast.new ast.NodeContinueStatement ast.ContinueStatement)
    startTok endTok.

Definition parseBreakStatement : M ast.Node :=
  startTok <- advance ;; (* break *)
  endTok <- expect lexer.SEMICOLON ;;
  setLocation (ast.new ast.NodeBreakStatement ast.BreakStatement)
    startTok endTok.

Definition parseReturnStatement : M ast.Node :=
  startTok <- advance ;; (* return *)
  expression <- (If ! check lexer.SEMICOLON
                 Then e <- parseExpression ;; ret (Some e)
                 Else ret None) ;;
  endTok <- expect lexer.SEMICOLON ;;
  setLocation
    (ast.new ast.NodeReturnStatement (ast.ReturnStatement expression))
    startTok endTok.

Definition parseEmitStatement : M ast.Node :=
  startTok <- advance ;; (* emit *)
  eventCall <- parseExpression ;;
  endTok <- expect lexer.SEMICOLON ;;
  setLocation (ast.new ast.NodeEmitStatement (ast.EmitStatement eventCall))
    startTok endTok.

Definition parseRevertStatement : M ast.Node :=
  startTok <- advance ;; (* revert *)
  revertCall <- (If ! check lexer.SEMICOLON
                 Then e <- parseExpression ;; ret (Some e)
                 Else ret None) ;;
  endTok <- expect lexer.SEMICOLON ;;
  setLocation
    (ast.new ast.NodeRevertStatement (ast.RevertStatement revertCall))
    startTok endTok.

(** [parseTryCallMemberIndex]: as [parseCallMemberIndex], but a brace is
    not taken as call options. *)
Definition parseTryCallMemberIndex : M ast.Node :=
  expr <- parsePrimary ;;
  for_ (fun expr =>
    If check lexer.PERIOD Then e <- parseMember expr ;; continue_ e
    Else If check lexer.LBRACK Then e <- parseIndex expr ;; continue_ e
    Else If check lexer.LPAREN Then
      e <- parseFunctionCall expr ;; continue_ e
    Else
      (* Don't parse { as FunctionCallOptions in try context *)
      break_ expr) expr.

Definition parseTryExpression : M ast.Node := parseTryCallMemberIndex.

Definition parseCatchClause : M ast.Node :=
  startTok <- advance ;; (* catch *)
  (* Optional catch identifier and parameters *)
  kind <- (If check lexer.IDENTIFIER
           Then kindTok <- advance ;; ret (lexer.Value kindTok)
           Else ret "") ;;
  parameters <- (If check lexer.LPAREN Then parseParameterList
                 Else ret []) ;;
  body <- parseBlock ;;
  prev <- previous ;;
  setLocation
    (ast.new ast.NodeCatchClause
       (ast.CatchClause (String.eqb kind "Error") kind parameters body))
    startTok prev.

Definition parseTryStatement : M ast.Node :=
  startTok <- advance ;; (* try *)
  (* Parse try expression but don't consume { which is the body block *)
  expr <- parseTryExpression ;;
  returnParameters <- (If check lexer.RETURNS
                       Then advance ;; parseParameterList
                       Else ret []) ;;
  body <- parseBlock ;;
  (* Catch clauses *)
  catchClauses <- for_ (fun clauses =>
    If check lexer.CATCH Then
      clause <- parseCatchClause ;; continue_ (clauses ++ [clause])
    Else break_ clauses) [] ;;
  prev <- previous ;;
  setLocation
    (ast.new ast.NodeTryStatement
       (ast.TryStatement expr returnParameters body catchClauses))
    startTok prev.

(** *** Inline assembly *)

Definition assemblyLiteralKind (t : lexer.TokenType) : string :=
  match t with
  | lexer.NUMBER | lexer.HEX_NUMBER => "number"
  | lexer.STRING => "string"
  | lexer.TRUE | lexer.FALSE => "boolean"
  | _ => "number"
  end.

Definition parseAssemblyLiteral : M ast.Node :=
  tok <- advance ;;
  setLocation
    (ast.new ast.NodeAssemblyLiteral
       (ast.AssemblyLiteral (assemblyLiteralKind (lexer.Type_ tok))
          (lexer.Value tok)))
    tok tok.

Definition parseAssemblyCall (name : string) (startTok : lexer.Token)
  : M ast.Node :=
  expect lexer.LPAREN ;;
  arguments <- for_ (fun arguments =>
    If ! check lexer.RPAREN &&& ! isAtEnd Then
      arg <- call_parseAssemblyExpression rec ;;
      (If ! check lexer.RPAREN Then expect lexer.COMMA ;; ret tt
       Else ret tt) ;;
      continue_ (arguments ++ [arg])
    Else break_ arguments) [] ;;
  expect lexer.RPAREN ;;
  prev <- previous ;;
  setLocation
    (ast.new ast.NodeAssemblyCall (ast.AssemblyCall name arguments))
    startTok prev.

Definition parseAssemblyExpression : M ast.Node :=
  tok <- gets peek ;;
  if lexer.eqb (lexer.Type_ tok) lexer.IDENTIFIER then
    startTok <- advance ;;
    If check lexer.LPAREN
    Then parseAssemblyCall (lexer.Value startTok) startTok
    Else
      setLocation
        (ast.new ast.NodeAssemblyIdentifier
           (ast.AssemblyIdentifier (lexer.Value startTok)))
        startTok startTok
  else parseAssemblyLiteral.

Definition parseAssemblyBlock : M ast.Node :=
  startTok <- expect lexer.LBRACE ;;
  operations <- for_ (fun operations =>
    If ! check lexer.RBRACE &&& ! isAtEnd Then
      op <- call_parseAssemblyStatement_ rec ;;
      continue_ (match op with
                 | Some o => operations ++ [o]
                 | None => operations
                 end)
    Else break_ operations) [] ;;
  endTok <- expect lexer.RBRACE ;;
  setLocation (ast.new ast.NodeAssemblyBlock (ast.AssemblyBlock operations))
    startTok endTok.

(** [for { nameTok := b.expect(IDENTIFIER); names = append(...);
    if !b.check(COMMA) { break }; b.advance() }] *)
Definition parseAssemblyNames : M (list ast.Node) :=
  for_ (fun names =>
    nameTok <- expect lexer.IDENTIFIER ;;
    let names := names ++ [newIdentifier (lexer.Value nameTok)] in
    If ! check lexer.COMMA Then break_ names
    Else advance ;; (* , *) continue_ names) [].

Definition parseAssemblyLocalDefinition : M ast.Node :=
  startTok <- advance ;; (* let *)
  (* Parse identifier list *)
  names <- parseAssemblyNames ;;
  expression <- (If check lexer.ASSIGN Then
                   advance ;; (* := *)
                   e <- parseAssemblyExpression ;; ret (Some e)
                 Else ret None) ;;
  prev <- previous ;;
  setLocation
    (ast.new ast.NodeAssemblyLocalDefinition
       (ast.AssemblyLocalDefinition names expression))
    startTok prev.

Definition parseAssemblyIf : M ast.Node :=
  startTok <- advance ;; (* if *)
  condition <- parseAssemblyExpression ;;
  body <- parseAssemblyBlock ;;
  prev <- previous ;;
  setLocation (ast.new ast.NodeAssemblyIf (ast.AssemblyIf condition body))
    startTok prev.

Definition parseAssemblyFor : M ast.Node :=
  startTok <- advance ;; (* for *)
  pre <- parseAssemblyBlock ;;
  condition <- parseAssemblyExpression ;;
  post <- parseAssemblyBlock ;;
  body <- parseAssemblyBlock ;;
  prev <- previous ;;
  setLocation
    (ast.new ast.NodeAssemblyFor (ast.AssemblyFor pre condition post body))
    startTok prev.

Definition parseAssemblySwitch : M ast.Node :=
  startTok <- advance ;; (* switch *)
  expr <- parseAssemblyExpression ;;
  cases <- for_ (fun cases =>
    If check lexer.CASE ||| check lexer.DEFAULT Then
      isDefault <- gets (check lexer.DEFAULT) ;;
      advance ;; (* case/default *)
      value <- (if negb isDefault
                then v <- parseAssemblyLiteral ;; ret (Some v)
                else ret None) ;;
      body <- parseAssemblyBlock ;;
      continue_ (cases ++ [ast.new ast.NodeAssemblyCase
                             (ast.AssemblyCase value body isDefault)])
    Else break_ cases) [] ;;
  prev <- previous ;;
  setLocation
    (ast.new ast.NodeAssemblySwitch (ast.AssemblySwitch expr cases))
    startTok prev.

Definition parseAssemblyFunctionDefinition : M ast.Node :=
  startTok <- advance ;; (* function *)
  nameTok <- expect lexer.IDENTIFIER ;;
  expect lexer.LPAREN ;;
  (* Arguments *)
  arguments <- for_ (fun arguments =>
    If ! check lexer.RPAREN &&& ! isAtEnd Then
      argTok <- expect lexer.IDENTIFIER ;;
      (If ! check lexer.RPAREN Then expect lexer.COMMA ;; ret tt
       Else ret tt) ;;
      continue_ (arguments ++ [newIdentifier (lexer.Value argTok)])
    Else break_ arguments) [] ;;
  expect lexer.RPAREN ;;
  (* Return values *)
  returnArguments <- (If check lexer.ARROW Then
                        advance ;; (* -> *)
                        parseAssemblyNames
                      Else ret []) ;;
  body <- parseAssemblyBlock ;;
  prev <- previous ;;
  setLocation
    (ast.new ast.NodeAssemblyFunctionDefinition
       (ast.AssemblyFunctionDefinition (lexer.Value nameTok) arguments
          returnArguments body))
    startTok prev.

Definition parseAssemblyExpressionOrAssignment : M ast.Node :=
  startTok <- gets peek ;;
  (* Parse identifier(s) *)
  names <- parseAssemblyNames ;;
  (* Check for assignment *)
  If check lexer.ASSIGN Then
    advance ;; (* := *)
    expr <- parseAssemblyExpression ;;
    prev <- previous ;;
    setLocation
      (ast.new ast.NodeAssemblyAssignment
         (ast.AssemblyAssignment names expr))
      startTok prev
  Else
    (* Function call or just identifier *)
    if length names =? 1 then
      If check lexer.LPAREN
      Then name <- index0 names ;;
           parseAssemblyCall (ast.Name_of name) startTok
      Else index0 names
    else
      (* Return first identifier if no assignment *)
      index0 names.

Definition parseAssemblyStatement_ : M (option ast.Node) :=
  tok <- gets peek ;;
  match lexer.Type_ tok with
  | lexer.LBRACE => n <- parseAssemblyBlock ;; ret (Some n)
  | lexer.LET => n <- parseAssemblyLocalDefinition ;; ret (Some n)
  | lexer.IF => n <- parseAssemblyIf ;; ret (Some n)
  | lexer.FOR => n <- parseAssemblyFor ;; ret (Some n)
  | lexer.SWITCH => n <- parseAssemblySwitch ;; ret (Some n)
  | lexer.FUNCTION => n <- parseAssemblyFunctionDefinition ;; ret (Some n)
  | lexer.IDENTIFIER =>
      n <- parseAssemblyExpressionOrAssignment ;; ret (Some n)
  | lexer.RBRACE => ret None
  | _ => advance ;; ret None
  end.

Definition parseAssemblyStatement : M ast.Node :=
  startTok <- advance ;; (* assembly *)
  (* Optional dialect string *)
  language <- (If check lexer.STRING
               Then t <- advance ;; ret (lexer.Value t)
               Else ret "") ;;
  body <- parseAssemblyBlock ;;
  prev <- previous ;;
  setLocation
    (ast.new ast.NodeInlineAssembly (ast.InlineAssembly language body))
    startTok prev.

Definition parseUncheckedBlock : M ast.Node :=
  startTok <- advance ;; (* unchecked *)
  body <- parseBlock ;;
  prev <- previous ;;
  setLocation (ast.new ast.NodeUncheckedBlock (ast.UncheckedBlock body))
    startTok prev.

(** The [default] case of [parseStatement]. *)
Definition parseDeclarationOrExpressionStatement : M ast.Node :=
  (* Variable declaration or expression statement *)
  isDecl <- looksLikeVariableDeclaration ;;
  if isDecl : bool then parseVariableDeclarationStatement
  else
    If check lexer.LPAREN Then
      (* Could be tuple declaration *)
      parseTupleVariableDeclarationOrExpression
    Else parseExpressionStatement.

Definition parseStatement : M ast.Node :=
  tok <- gets peek ;;
  match lexer.Type_ tok with
  | lexer.LBRACE => parseBlock
  | lexer.IF => parseIfStatement
  | lexer.FOR => parseForStatement
  | lexer.WHILE => parseWhileStatement
  | lexer.DO => parseDoWhileStatement
  | lexer.CONTINUE => parseContinueStatement
  | lexer.BREAK => parseBreakStatement
  | lexer.RETURN => parseReturnStatement
  | lexer.EMIT => parseEmitStatement
  | lexer.REVERT => parseRevertStatement
  | lexer.TRY => parseTryStatement
  | lexer.ASSEMBLY => parseAssemblyStatement
  | lexer.UNCHECKED => parseUncheckedBlock
  | _ => parseDeclarationOrExpressionStatement
  end.

(** ** Definitions (builder.go) *)

Definition parsePragmaDirective : M ast.Node :=
  startTok <- advance ;; (* pragma *)
  nameTok <- advance ;;
  (* Read pragma value until semicolon *)
  valueParts <- for_ (fun valueParts =>
    If ! check lexer.SEMICOLON &&& ! isAtEnd Then
      t <- advance ;; continue_ (valueParts ++ [lexer.Value t])
    Else break_ valueParts) [] ;;
  endTok <- expect lexer.SEMICOLON ;;
  setLocation
    (ast.new ast.NodePragmaDirective
       (ast.PragmaDirective (lexer.Value nameTok) (Join valueParts " ")))
    startTok endTok.

(** [b.expectKeyword("from"); pathTok := b.expect(lexer.STRING)] *)
Definition parseFromPath : M string :=
  expectKeyword "from" ;;
  pathTok <- expect lexer.STRING ;;
  ret (lexer.Value pathTok).

Definition parseImportDirective : M ast.Node :=
  startTok <- advance ;; (* import *)
  (* the node's Path, UnitAlias and SymbolAliases *)
  r <- (If check lexer.STRING Then
          (* import "path"; *)
          pathTok <- advance ;;
          unitAlias <- (If check lexer.AS Then
                          advance ;; (* as *)
                          aliasTok <- expect lexer.IDENTIFIER ;;
                          ret (lexer.Value aliasTok)
                        Else ret "") ;;
          ret (lexer.Value pathTok, unitAlias, [])
        Else If check lexer.MUL Then
          (* import * as alias from "path"; *)
          advance ;; (* * *)
          expect lexer.AS ;;
          aliasTok <- expect lexer.IDENTIFIER ;;
          path <- parseFromPath ;;
          ret (path, lexer.Value aliasTok, [])
        Else If check lexer.LBRACE Then
          (* import { sym1, sym2 as alias } from "path"; *)
          advance ;; (* { *)
          symbolAliases <- for_ (fun symbolAliases =>
            If ! check lexer.RBRACE &&& ! isAtEnd Then
              symTok <- expect lexer.IDENTIFIER ;;
              alias <- (If check lexer.AS Then
                          advance ;; (* as *)
                          aliasTok <- expect lexer.IDENTIFIER ;;
                          ret (lexer.Value aliasTok)
                        Else ret "") ;;
              (If ! check lexer.RBRACE Then expect lexer.COMMA ;; ret tt
               Else ret tt) ;;
              continue_
                (symbolAliases ++
                 [{| ast.Symbol := lexer.Value symTok;
                     ast.Alias := alias |}])
            Else break_ symbolAliases) [] ;;
          expect lexer.RBRACE ;;
          path <- parseFromPath ;;
          ret (path, "", symbolAliases)
        Else If check lexer.IDENTIFIER Then
          (* import Identifier from "path"; *)
          nameTok <- advance ;;
          path <- parseFromPath ;;
          ret (path, lexer.Value nameTok, [])
        Else ret ("", "", [])) ;;
  let '(path, unitAlias, symbolAliases) := r in
  endTok <- expect lexer.SEMICOLON ;;
  setLocation
    (ast.new ast.NodeImportDirective
       (ast.ImportDirective path None unitAlias None symbolAliases []))
    startTok endTok.

Definition parseInheritanceSpecifier : M ast.Node :=
  startTok <- gets peek ;;
  baseName <- parseUserDefinedTypeName ;;
  (* Constructor arguments *)
  arguments <- (If check lexer.LPAREN Then
                  advance ;; (* ( *)
                  args <- parseExpressionList ;;
                  expect lexer.RPAREN ;;
                  ret args
                Else ret []) ;;
  prev <- previous ;;
  setLocation
    (ast.new ast.NodeInheritanceSpecifier
       (ast.InheritanceSpecifier baseName arguments))
    startTok prev.

(** [override] followed by an optional parenthesized list of type
    names, appended to the node's [Override]. *)
Definition parseOverrideSpecifier (override : list ast.Node)
  : M (list ast.Node) :=
  advance ;; (* override *)
  (* Parse override specifier if present *)
  If check lexer.LPAREN Then
    advance ;;
    override <- for_ (fun override =>
      If ! check lexer.RPAREN &&& ! isAtEnd Then
        typeName <- parseUserDefinedTypeName ;;
        (If ! check lexer.RPAREN Then expect lexer.COMMA ;; ret tt
         Else ret tt) ;;
        continue_ (override ++ [typeName])
      Else break_ override) override ;;
    expect lexer.RPAREN ;;
    ret override
  Else ret override.

Definition parseModifierInvocation : M ast.Node :=
  startTok <- advance ;; (* identifier *)
  arguments <- (If check lexer.LPAREN Then
                  advance ;; (* ( *)
                  args <- parseExpressionList ;;
                  expect lexer.RPAREN ;;
                  ret args
                Else ret []) ;;
  prev <- previous ;;
  setLocation
    (ast.new ast.NodeModifierInvocation
       (ast.ModifierInvocation (lexer.Value startTok) arguments))
    startTok prev.

(** The fields of a [*ast.FunctionDefinition] that
    [parseFunctionModifiers] assigns. *)
Record FunctionModifiers : Type := mkFunctionModifiers {
  Visibility      : string;
  StateMutability : string;
  IsVirtual       : bool;
  Override        : list ast.Node;
  Modifiers       : list ast.Node
}.

Definition noFunctionModifiers : FunctionModifiers :=
  {| Visibility := ""; StateMutability := ""; IsVirtual := false;
     Override := []; Modifiers := [] |}.

Definition set_Visibility (v : string) (m : FunctionModifiers) :=
  {| Visibility := v; StateMutability := StateMutability m;
     IsVirtual := IsVirtual m; Override := Override m;
     Modifiers := Modifiers m |}.
Definition set_StateMutability (v : string) (m : FunctionModifiers) :=
  {| Visibility := Visibility m; StateMutability := v;
     IsVirtual := IsVirtual m; Override := Override m;
     Modifiers := Modifiers m |}.
Definition set_IsVirtual (v : bool) (m : FunctionModifiers) :=
  {| Visibility := Visibility m; StateMutability := StateMutability m;
     IsVirtual := v; Override := Override m; Modifiers := Modifiers m |}.
Definition set_Override (v : list ast.Node) (m : FunctionModifiers) :=
  {| Visibility := Visibility m; StateMutability := StateMutability m;
     IsVirtual := IsVirtual m; Override := v; Modifiers := Modifiers m |}.
Definition set_Modifiers (v : list ast.Node) (m : FunctionModifiers) :=
  {| Visibility := Visibility m; StateMutability := StateMutability m;
     IsVirtual := IsVirtual m; Override := Override m; Modifiers := v |}.

(** [func (b *Builder) parseFunctionModifiers(node
    *ast.FunctionDefinition)] *)
Definition parseFunctionModifiers (node : FunctionModifiers)
  : M FunctionModifiers :=
  for_ (fun node =>
    tok <- gets peek ;;
    match lexer.Type_ tok with
    | lexer.PUBLIC => advance ;; continue_ (set_Visibility "public" node)
    | lexer.PRIVATE => advance ;; continue_ (set_Visibility "private" node)
    | lexer.INTERNAL =>
        advance ;; continue_ (set_Visibility "internal" node)
    | lexer.EXTERNAL =>
        advance ;; continue_ (set_Visibility "external" node)
    | lexer.PURE => advance ;; continue_ (set_StateMutability "pure" node)
    | lexer.VIEW => advance ;; continue_ (set_StateMutability "view" node)
    | lexer.PAYABLE =>
        advance ;; continue_ (set_StateMutability "payable" node)
    | lexer.VIRTUAL => advance ;; continue_ (set_IsVirtual true node)
    | lexer.OVERRIDE =>
        override <- parseOverrideSpecifier (Override node) ;;
        continue_ (set_Override override node)
    | lexer.IDENTIFIER =>
        (* Modifier invocation *)
        mod_ <- parseModifierInvocation ;;
        continue_ (set_Modifiers (Modifiers node ++ [mod_]) node)
    | _ => break_ node
    end) node.

(** [if b.check(lexer.LBRACE) { node.Body = b.parseBlock() } else {
    b.expect(lexer.SEMICOLON) }] *)
Definition parseBodyOrSemicolon : M (option ast.Node) :=
  If check lexer.LBRACE Then body <- parseBlock ;; ret (Some body)
  Else expect lexer.SEMICOLON ;; ret None.

Definition parseReturnParameters : M (list ast.Node) :=
  If check lexer.RETURNS Then advance ;; (* returns *) parseParameterList
  Else ret [].

Definition newFunctionDefinition (name : string)
  (parameters returnParameters : list ast.Node) (body : option ast.Node)
  (m : FunctionModifiers) (isConstructor isFallback isReceiveEther : bool)
  : ast.Node :=
  ast.new ast.NodeFunctionDefinition
    (ast.FunctionDefinition name parameters returnParameters body
       (Visibility m) (Modifiers m) (Override m)
       isConstructor isFallback isReceiveEther (IsVirtual m)
       (StateMutability m)).

Definition parseFunctionDefinition : M ast.Node :=
  startTok <- advance ;; (* function *)
  (* Function name (optional for fallback/receive) *)
  name <- (If check lexer.IDENTIFIER ||| check lexer.FALLBACK
              ||| check lexer.RECEIVE
           Then nameTok <- advance ;;
                ret (lexer.Value nameTok,
                     lexer.eqb (lexer.Type_ nameTok) lexer.FALLBACK,
                     negb (lexer.eqb (lexer.Type_ nameTok) lexer.FALLBACK)
                     && lexer.eqb (lexer.Type_ nameTok) lexer.RECEIVE)
           Else ret ("", false, false)) ;;
  let '(name, isFallback, isReceiveEther) := name in
  (* Parameters *)
  parameters <- parseParameterList ;;
  (* Modifiers, visibility, state mutability *)
  m <- parseFunctionModifiers noFunctionModifiers ;;
  (* Return parameters *)
  returnParameters <- parseReturnParameters ;;
  (* Body or semicolon *)
  body <- parseBodyOrSemicolon ;;
  prev <- previous ;;
  setLocation
    (newFunctionDefinition name parameters returnParameters body m
       false isFallback isReceiveEther)
    startTok prev.

Definition parseConstructorDefinition : M ast.Node :=
  startTok <- advance ;; (* constructor *)
  parameters <- parseParameterList ;;
  m <- parseFunctionModifiers noFunctionModifiers ;;
  body <- parseBlock ;;
  prev <- previous ;;
  setLocation
    (newFunctionDefinition "" parameters [] (Some body) m true false false)
    startTok prev.

Definition parseFallbackDefinition : M ast.Node :=
  startTok <- advance ;; (* fallback *)
  parameters <- parseParameterList ;;
  m <- parseFunctionModifiers noFunctionModifiers ;;
  returnParameters <- parseReturnParameters ;;
  body <- parseBodyOrSemicolon ;;
  prev <- previous ;;
  setLocation
    (newFunctionDefinition "" parameters returnParameters body m
       false true false)
    startTok prev.

Definition parseReceiveDefinition : M ast.Node :=
  startTok <- advance ;; (* receive *)
  parameters <- parseParameterList ;;
  m <- parseFunctionModifiers noFunctionModifiers ;;
  body <- parseBodyOrSemicolon ;;
  prev <- previous ;;
  setLocation
    (newFunctionDefinition "" parameters [] body m false false true)
    startTok prev.

Definition parseModifierDefinition : M ast.Node :=
  startTok <- advance ;; (* modifier *)
  nameTok <- expect lexer.IDENTIFIER ;;
  parameters <- (If check lexer.LPAREN Then parseParameterList
                 Else ret []) ;;
  (* virtual/override *)
  vo <- for_ (fun vo : bool * list ast.Node =>
          If check lexer.VIRTUAL Then advance ;; continue_ (true, snd vo)
          Else If check lexer.OVERRIDE Then
            override <- parseOverrideSpecifier (snd vo) ;;
            continue_ (fst vo, override)
          Else break_ vo) (false, []) ;;
  body <- parseBodyOrSemicolon ;;
  prev <- previous ;;
  setLocation
    (ast.new ast.NodeModifierDefinition
       (ast.ModifierDefinition (lexer.Value nameTok) parameters body
          (fst vo) (snd vo)))
    startTok prev.

(** The fields of the [varDecl] of [parseStateVariableDeclaration] that
    its modifier loop assigns. *)
Record StateVarModifiers : Type := mkStateVarModifiers {
  sv_Visibility      : string;
  sv_IsDeclaredConst : bool;
  sv_IsImmutable     : bool;
  sv_StorageLocation : string;
  sv_Override        : list ast.Node
}.

Definition parseStateVariableDeclaration : M ast.Node :=
  startTok <- gets peek ;;
  typeName <- parseTypeName ;;
  (* Modifiers *)
  m <- for_ (fun m =>
         If check lexer.PUBLIC Then advance ;;
           continue_ {| sv_Visibility := "public";
                        sv_IsDeclaredConst := sv_IsDeclaredConst m;
                        sv_IsImmutable := sv_IsImmutable m;
                        sv_StorageLocation := sv_StorageLocation m;
                        sv_Override := sv_Override m |}
         Else If check lexer.PRIVATE Then advance ;;
           continue_ {| sv_Visibility := "private";
                        sv_IsDeclaredConst := sv_IsDeclaredConst m;
                        sv_IsImmutable := sv_IsImmutable m;
                        sv_StorageLocation := sv_StorageLocation m;
                        sv_Override := sv_Override m |}
         Else If check lexer.INTERNAL Then advance ;;
           continue_ {| sv_Visibility := "internal";
                        sv_IsDeclaredConst := sv_IsDeclaredConst m;
                        sv_IsImmutable := sv_IsImmutable m;
                        sv_StorageLocation := sv_StorageLocation m;
                        sv_Override := sv_Override m |}
         Else If check lexer.CONSTANT Then advance ;;
           continue_ {| sv_Visibility := sv_Visibility m;
                        sv_IsDeclaredConst := true;
                        sv_IsImmutable := sv_IsImmutable m;
                        sv_StorageLocation := sv_StorageLocation m;
                        sv_Override := sv_Override m |}
         Else If check lexer.IMMUTABLE Then advance ;;
           continue_ {| sv_Visibility := sv_Visibility m;
                        sv_IsDeclaredConst := sv_IsDeclaredConst m;
                        sv_IsImmutable := true;
                        sv_StorageLocation := sv_StorageLocation m;
                        sv_Override := sv_Override m |}
         Else If check lexer.TRANSIENT Then
           (* Transient storage location (Solidity 0.8.24+) *)
           advance ;;
           continue_ {| sv_Visibility := sv_Visibility m;
                        sv_IsDeclaredConst := sv_IsDeclaredConst m;
                        sv_IsImmutable := sv_IsImmutable m;
                        sv_StorageLocation := "transient";
                        sv_Override := sv_Override m |}
         Else If check lexer.OVERRIDE Then
           override <- parseOverrideSpecifier (sv_Override m) ;;
           continue_ {| sv_Visibility := sv_Visibility m;
                        sv_IsDeclaredConst := sv_IsDeclaredConst m;
                        sv_IsImmutable := sv_IsImmutable m;
                        sv_StorageLocation := sv_StorageLocation m;
                        sv_Override := override |}
         Else break_ m)
       {| sv_Visibility := ""; sv_IsDeclaredConst := false;
          sv_IsImmutable := false; sv_StorageLocation := "";
          sv_Override := [] |} ;;
  (* Name *)
  nameTok <- expect lexer.IDENTIFIER ;;
  (* Initial value *)
  initialValue <- parseInitialValue ;;
  endTok <- expect lexer.SEMICOLON ;;
  (* [varDecl] is the element of [node.Variables]; both get the same
     location *)
  varDecl <- setLocation
    (ast.new ast.NodeVariableDeclaration
       (ast.VariableDeclaration typeName (lexer.Value nameTok)
          (Some (newIdentifier (lexer.Value nameTok)))
          (sv_StorageLocation m) true false (sv_IsImmutable m)
          (sv_Override m) (sv_Visibility m) (sv_IsDeclaredConst m) None))
    startTok endTok ;;
  setLocation
    (ast.new ast.NodeStateVariableDeclaration
       (ast.StateVariableDeclaration [varDecl] initialValue))
    startTok endTok.

Definition parseConstantVariableDeclaration : M ast.Node :=
  parseStateVariableDeclaration.

Definition parseStructDefinition : M ast.Node :=
  startTok <- advance ;; (* struct *)
  nameTok <- expect lexer.IDENTIFIER ;;
  expect lexer.LBRACE ;;
  members <- for_ (fun members =>
    If ! check lexer.RBRACE &&& ! isAtEnd Then
      typeName <- parseTypeName ;;
      memberNameTok <- expect lexer.IDENTIFIER ;;
      expect lexer.SEMICOLON ;;
      continue_
        (members ++
         [ast.new ast.NodeVariableDeclaration
            (ast.VariableDeclaration typeName (lexer.Value memberNameTok)
               (Some (newIdentifier (lexer.Value memberNameTok)))
               "" false false false [] "" false None)])
    Else break_ members) [] ;;
  endTok <- expect lexer.RBRACE ;;
  setLocation
    (ast.new ast.NodeStructDefinition
       (ast.StructDefinition (lexer.Value nameTok) members))
    startTok endTok.

Definition parseEnumDefinition : M ast.Node :=
  startTok <- advance ;; (* enum *)
  nameTok <- expect lexer.IDENTIFIER ;;
  expect lexer.LBRACE ;;
  members <- for_ (fun members =>
    If ! check lexer.RBRACE &&& ! isAtEnd Then
      valueTok <- expect lexer.IDENTIFIER ;;
      (If ! check lexer.RBRACE Then expect lexer.COMMA ;; ret tt
       Else ret tt) ;;
      continue_
        (members ++
         [ast.new ast.NodeEnumValue (ast.EnumValue (lexer.Value valueTok))])
    Else break_ members) [] ;;
  endTok <- expect lexer.RBRACE ;;
  setLocation
    (ast.new ast.NodeEnumDefinition
       (ast.EnumDefinition (lexer.Value nameTok) members))
    startTok endTok.

(** A parameter without location, as the event and error parameter
    loops build it. *)
Definition newParameter (typeName : ast.Node) (isIndexed : bool)
  (name : string * option ast.Node) : ast.Node :=
  ast.new ast.NodeVariableDeclaration
    (ast.VariableDeclaration typeName (fst name) (snd name) "" false
       isIndexed false [] "" false None).

Definition parseEventDefinition : M ast.Node :=
  startTok <- advance ;; (* event *)
  nameTok <- expect lexer.IDENTIFIER ;;
  expect lexer.LPAREN ;;
  parameters <- for_ (fun parameters =>
    If ! check lexer.RPAREN &&& ! isAtEnd Then
      typeName <- parseTypeName ;;
      (* indexed *)
      isIndexed <- (If check lexer.INDEXED Then advance ;; ret true
                    Else ret false) ;;
      (* name (optional) - can be identifier or contextual keyword like
         'from' *)
      name <- (If check lexer.IDENTIFIER ||| isContextualKeyword
               Then paramNameTok <- advance ;;
                    ret (lexer.Value paramNameTok,
                         Some (newIdentifier (lexer.Value paramNameTok)))
               Else ret ("", None)) ;;
      (If check lexer.COMMA Then advance ;; ret tt
       Else If ! check lexer.RPAREN Then
         (* Unexpected token, skip it to avoid infinite loop *)
         advance ;; ret tt
       Else ret tt) ;;
      continue_ (parameters ++ [newParameter typeName isIndexed name])
    Else break_ parameters) [] ;;
  expect lexer.RPAREN ;;
  (* anonymous *)
  isAnonymous <- (If check lexer.ANONYMOUS Then advance ;; ret true
                  Else ret false) ;;
  endTok <- expect lexer.SEMICOLON ;;
  setLocation
    (ast.new ast.NodeEventDefinition
       (ast.EventDefinition (lexer.Value nameTok) parameters isAnonymous))
    startTok endTok.

Definition parseErrorDefinition : M ast.Node :=
  startTok <- advance ;; (* error *)
  nameTok <- expect lexer.IDENTIFIER ;;
  expect lexer.LPAREN ;;
  parameters <- for_ (fun parameters =>
    If ! check lexer.RPAREN &&& ! isAtEnd Then
      typeName <- parseTypeName ;;
      (* name (optional) *)
      name <- (If check lexer.IDENTIFIER
               Then paramNameTok <- advance ;;
                    ret (lexer.Value paramNameTok,
                         Some (newIdentifier (lexer.Value paramNameTok)))
               Else ret ("", None)) ;;
      (If ! check lexer.RPAREN Then expect lexer.COMMA ;; ret tt
       Else ret tt) ;;
      continue_ (parameters ++ [newParameter typeName false name])
    Else break_ parameters) [] ;;
  expect lexer.RPAREN ;;
  endTok <- expect lexer.SEMICOLON ;;
  setLocation
    (ast.new ast.NodeErrorDefinition
       (ast.ErrorDefinition (lexer.Value nameTok) parameters))
    startTok endTok.

Definition parseUsingDirective : M ast.Node :=
  startTok <- advance ;; (* using *)
  (* the node's Functions, Operators and LibraryName *)
  r <- (If check lexer.LBRACE Then
          (* using { func1, func2 } for Type *)
          advance ;; (* { *)
          fo <- for_ (fun fo : list string * list string =>
            If ! check lexer.RBRACE &&& ! isAtEnd Then
              funcTok <- expect lexer.IDENTIFIER ;;
              (* Check for operator *)
              operators <- (If check lexer.AS Then
                              advance ;; (* as *)
                              opTok <- advance ;;
                              ret (snd fo ++ [lexer.Value opTok])
                            Else ret (snd fo)) ;;
              (If ! check lexer.RBRACE Then expect lexer.COMMA ;; ret tt
               Else ret tt) ;;
              continue_ (fst fo ++ [lexer.Value funcTok], operators)
            Else break_ fo) ([], []) ;;
          expect lexer.RBRACE ;;
          ret (fst fo, snd fo, "")
        Else
          (* using Library for Type *)
          libName <- parseUserDefinedTypeName ;;
          ret ([], [], ast.NamePath_of libName)) ;;
  let '(functions, operators, libraryName) := r in
  expectKeyword "for" ;;
  typeName <- (If check lexer.MUL Then advance ;; (* * *) ret None
               Else t <- parseTypeName ;; ret (Some t)) ;;
  (* global *)
  isGlobal <- (If check lexer.GLOBAL Then advance ;; ret true
               Else ret false) ;;
  endTok <- expect lexer.SEMICOLON ;;
  setLocation
    (ast.new ast.NodeUsingForDeclaration
       (ast.UsingForDeclaration typeName functions operators libraryName
          isGlobal))
    startTok endTok.

Definition parseUserDefinedValueTypeDefinition : M ast.Node :=
  startTok <- advance ;; (* type *)
  nameTok <- expect lexer.IDENTIFIER ;;
  expect lexer.IS ;;
  underlyingType <- parseElementaryTypeName ;;
  endTok <- expect lexer.SEMICOLON ;;
  setLocation
    (ast.new ast.NodeUserDefinedValueTypeDefinition
       (ast.UserDefinedValueTypeDefinition (lexer.Value nameTok)
          underlyingType))
    startTok endTok.

Definition unexpected (what value : string) : string :=
  (what ++ value)%string.

Definition parseContractBodyElement : M (option ast.Node) :=
  tok <- gets peek ;;
  match lexer.Type_ tok with
  | lexer.FUNCTION => n <- parseFunctionDefinition ;; ret (Some n)
  | lexer.CONSTRUCTOR => n <- parseConstructorDefinition ;; ret (Some n)
  | lexer.MODIFIER => n <- parseModifierDefinition ;; ret (Some n)
  | lexer.FALLBACK => n <- parseFallbackDefinition ;; ret (Some n)
  | lexer.RECEIVE => n <- parseReceiveDefinition ;; ret (Some n)
  | lexer.STRUCT => n <- parseStructDefinition ;; ret (Some n)
  | lexer.ENUM => n <- parseEnumDefinition ;; ret (Some n)
  | lexer.EVENT => n <- parseEventDefinition ;; ret (Some n)
  | lexer.ERROR => n <- parseErrorDefinition ;; ret (Some n)
  | lexer.USING => n <- parseUsingDirective ;; ret (Some n)
  | lexer.TYPE => n <- parseUserDefinedValueTypeDefinition ;; ret (Some n)
  | _ =>
      (* State variable *)
      If isTypeName Then n <- parseStateVariableDeclaration ;; ret (Some n)
      Else
        addError (unexpected "unexpected token in contract body: "
                    (lexer.Value tok)) ;;
        advance ;;
        ret None
  end.

Definition parseContractDefinition (kind : string) : M ast.Node :=
  startTok <- (if String.eqb kind "abstract" then
                 t <- previous ;;
                 advance ;; (* skip 'contract' keyword *)
                 ret t
               else advance (* contract/interface/library *)) ;;
  nameTok <- expect lexer.IDENTIFIER ;;
  (* Layout directive (Solidity 0.8.24+): contract Foo layout at 0x100 *)
  (If check lexer.LAYOUT Then
     advance ;; (* layout *)
     expect lexer.AT ;;
     (* Parse the layout expression - just a primary expression *)
     parsePrimary ;; ret tt
   Else ret tt) ;;
  (* Inheritance *)
  baseContracts <- (If check lexer.IS Then
    advance ;; (* is *)
    for_ (fun baseContracts =>
      base <- parseInheritanceSpecifier ;;
      let baseContracts := baseContracts ++ [base] in
      If ! check lexer.COMMA Then break_ baseContracts
      Else advance ;; (* , *) continue_ baseContracts) []
   Else ret []) ;;
  expect lexer.LBRACE ;;
  (* Contract body *)
  subNodes <- for_ (fun subNodes =>
    If ! check lexer.RBRACE &&& ! isAtEnd Then
      subNode <- parseContractBodyElement ;;
      continue_ (match subNode with
                 | Some n => subNodes ++ [n]
                 | None => subNodes
                 end)
    Else break_ subNodes) [] ;;
  endTok <- expect lexer.RBRACE ;;
  setLocation
    (ast.new ast.NodeContractDefinition
       (ast.ContractDefinition (lexer.Value nameTok) baseContracts subNodes
          kind))
    startTok endTok.

Definition parseSourceUnitElement : M (option ast.Node) :=
  tok <- gets peek ;;
  match lexer.Type_ tok with
  | lexer.PRAGMA => n <- parsePragmaDirective ;; ret (Some n)
  | lexer.IMPORT => n <- parseImportDirective ;; ret (Some n)
  | lexer.CONTRACT => n <- parseContractDefinition "contract" ;; ret (Some n)
  | lexer.ABSTRACT =>
      advance ;; (* abstract *)
      If check lexer.CONTRACT
      Then n <- parseContractDefinition "abstract" ;; ret (Some n)
      Else addError "expected 'contract' after 'abstract'" ;; ret None
  | lexer.INTERFACE =>
      n <- parseContractDefinition "interface" ;; ret (Some n)
  | lexer.LIBRARY => n <- parseContractDefinition "library" ;; ret (Some n)
  | lexer.STRUCT => n <- parseStructDefinition ;; ret (Some n)
  | lexer.ENUM => n <- parseEnumDefinition ;; ret (Some n)
  | lexer.FUNCTION => n <- parseFunctionDefinition ;; ret (Some n)
  | lexer.EVENT => n <- parseEventDefinition ;; ret (Some n)
  | lexer.ERROR => n <- parseErrorDefinition ;; ret (Some n)
  | lexer.USING => n <- parseUsingDirective ;; ret (Some n)
  | lexer.TYPE => n <- parseUserDefinedValueTypeDefinition ;; ret (Some n)
  | lexer.EOF => ret None
  | _ =>
      (* Try to parse as constant variable *)
      If isTypeName
      Then n <- parseConstantVariableDeclaration ;; ret (Some n)
      Else
        addError (unexpected "unexpected token: " (lexer.Value tok)) ;;
        advance ;;
        ret None
  end.

(** The location [Build] gives the root: only [Loc], only when asked
    for, and only from a first and a last child that both have one. *)
Definition sourceUnitLoc (o : Options) (children : list ast.Node)
  : option ast.Location :=
  if Loc o then
    match children with
    | [] => None
    | first :: _ =>
        match ast.GetLocation first,
              ast.GetLocation (last children first) with
        | Some f, Some l =>
            Some {| ast.Start := ast.Start f; ast.End := ast.End l |}
        | _, _ => None
        end
    end
  else None.

(** [func (b *Builder) Build()], returning a [*ast.SourceUnit] and an
    [error]; each of the two is [nil] or not, here [None] or [Some]. *)
Definition BuildWith : M (option ast.Node * option Error) :=
  r <- for_ (fun children : list ast.Node =>
         If isAtEnd Then break_ (inl children)
         Else
           node <- parseSourceUnitElement ;;
           let children := match node with
                           | Some n => children ++ [n]
                           | None => children
                           end in
           If (fun b => (0 <? length (errors b))
                        && negb (Tolerant (options b)))
           Then e <- gets (fun b => hd_error (errors b)) ;;
                break_ (inr e)
           Else continue_ children) [] ;;
  match r with
  | inr e => ret (None, e)
  | inl children =>
      loc <- gets (fun b => sourceUnitLoc (options b) children) ;;
      ret (Some (ast.MkNode {| ast.Type_ := ast.NodeSourceUnit;
                               ast.Loc := loc; ast.Range_ := None |}
                            (ast.SourceUnit children)),
           None)
  end.

End Methods.

(** ** Tying the recursion *)

Definition bottom : Rec :=
  {| call_parseTypeName := fun _ => None;
     call_parseExpression := fun _ => None;
     call_parseAssignment := fun _ => None;
     call_parseTernary := fun _ => None;
     call_parseExponentiation := fun _ => None;
     call_parseUnary := fun _ => None;
     call_parseStatement := fun _ => None;
     call_parseAssemblyExpression := fun _ => None;
     call_parseAssemblyStatement_ := fun _ => None |}.

(** [methods fuel]: the methods, with calls nested at most [fuel] deep
    through [Rec]. *)
Fixpoint methods (fuel : nat) : Rec :=
  match fuel with
  | 0 => bottom
  | S fuel' =>
      let rec := methods fuel' in
      {| call_parseTypeName := parseTypeName rec;
         call_parseExpression := parseExpression rec;
         call_parseAssignment := parseAssignment rec;
         call_parseTernary := parseTernary rec;
         call_parseExponentiation := parseExponentiation rec;
         call_parseUnary := parseUnary rec;
         call_parseStatement := parseStatement rec;
         call_parseAssemblyExpression := parseAssemblyExpression rec;
         call_parseAssemblyStatement_ := parseAssemblyStatement_ rec |}
  end.

(** A call through [Rec] happens after a token has been consumed, so the
    nesting is at most the number of tokens (lemma [Build_ok]), and
    more nesting gives the same result (lemma [Build_fuel]). *)
Definition fuel_for (b : Builder) : nat := length (tokens b).

Definition Build (b : Builder)
  : option ((option ast.Node * option Error) * Builder) :=
  BuildWith (methods (fuel_for b)) b.

(** [func (b *Builder) Errors() []*Error] *)
Definition Errors (b : Builder) : list Error := errors b.

End builder.

(* ================================================================== *)
(** * Package parser *)
(* ================================================================== *)

Module parser.

(** [type Options struct] *)
Record Options : Type := mkOptions {
  Tolerant : bool;
  Loc      : bool;
  Range    : bool
}.

(** [type Error struct] *)
Record Error : Type := mkError {
  Message : string;
  Line    : nat;
  Column  : nat
}.

(** [type ParserError struct] *)
Record ParserError : Type := mkParserError {
  Errors : list Error
}.

Definition convert (e : builder.Error) : Error :=
  {| Message := builder.Message e; Line := builder.Line e;
     Column := builder.Column e |}.

(** [func Parse(input string, opts *Options)], returning a
    [*ast.SourceUnit] and an [error]; the outer [option] is [None] where
    the builder does not return. *)
Definition Parse (input : string) (opts : option Options)
  : option (option ast.Node * option ParserError) :=
  let opts := match opts with
              | Some o => o
              | None => {| Tolerant := false; Loc := false; Range := false |}
              end in
  let b := builder.New input
             (Some {| builder.Tolerant := Tolerant opts;
                      builder.Loc := Loc opts;
                      builder.Range := Range opts |}) in
  match builder.Build b with
  | None => None
  | Some ((_, Some builderErr), _) =>
      Some (None, Some {| Errors := [convert builderErr] |})
  | Some ((result, None), b') =>
      (* Check for collected errors in tolerant mode *)
      if (0 <? length (builder.Errors b')) && negb (Tolerant opts)
      then Some (None, Some {| Errors := map convert (builder.Errors b') |})
      else Some (result, None)
  end.

(** [func Visit(node ast.Node, visitor ast.Visitor)] and
    [func VisitSimple(node ast.Node, visitor *ast.SimpleVisitor)], for a
    [node] that is not [nil]. *)
Definition Visit {S : Type} (node : ast.Node) (visitor : ast.Visitor S)
  : ast.Walker :=
  ast.Walk visitor node.

Definition VisitSimple {S : Type} (node : ast.Node)
  (visitor : ast.SimpleVisitor S) : ast.Walker :=
  ast.WalkSimple visitor node.

(** [func (e *Error) Error() string] *)
Definition Error_Error (e : Error) : string := Message e.

(** [func (e *ParserError) Error() string] *)
Definition ParserError_Error (e : ParserError) : string :=
  match Errors e with
  | [] => "parsing error"
  | first :: _ => Error_Error first
  end.

End parser.

(* ================================================================== *)
(** * Package version *)
(* ================================================================== *)

Module version.

Local Open Scope Z_scope.

(** [type Version struct]; the three [int] fields are only ever
    compared, so they are integers. *)
Record Version : Type := mkVersion {
  Major : Z;
  Minor : Z;
  Patch : Z
}.

(** [func New(major, minor, patch int) Version] *)
Definition New (major minor patch : Z) : Version :=
  {| Major := major; Minor := minor; Patch := patch |}.

(** [func (v Version) Compare(other Version) int] *)
Definition Compare (v other : Version) : Z :=
  if negb (Major v =? Major other) then
    if Major v <? Major other then -1 else 1
  else if negb (Minor v =? Minor other) then
    if Minor v <? Minor other then -1 else 1
  else if negb (Patch v =? Patch other) then
    if Patch v <? Patch other then -1 else 1
  else 0.

(** [func (v Version) LessThan(other Version) bool] *)
Definition LessThan (v other : Version) : bool := Compare v other <? 0.

(** [func (v Version) LessThanOrEqual(other Version) bool] *)
Definition LessThanOrEqual (v other : Version) : bool :=
  Compare v other <=? 0.

(** [func (v Version) GreaterThan(other Version) bool] *)
Definition GreaterThan (v other : Version) : bool := Compare v other >? 0.

(** [func (v Version) GreaterThanOrEqual(other Version) bool] *)
Definition GreaterThanOrEqual (v other : Version) : bool :=
  Compare v other >=? 0.

(** [func (v Version) Equal(other Version) bool] *)
Definition Equal (v other : Version) : bool := Compare v other =? 0.

(** [func (v Version) IsZero() bool] *)
Definition IsZero (v : Version) : bool :=
  (Major v =? 0) && (Minor v =? 0) && (Patch v =? 0).

End version.

(* ================================================================== *)
(** * Vocabulary of the statements *)
(* ================================================================== *)

(** ** The scanner

    [scanned l l']: the scanner has moved from [l] to [l'], on the same
    input, forwards, and not beyond the end. *)
Definition scanned (l l' : lexer.Lexer) : Prop :=
  lexer.input l' = lexer.input l /\ lexer.pos l <= lexer.pos l' /\
  (lexer.pos l <= lexer.len l -> lexer.pos l' <= lexer.len l').

Import builder.

(** ** Termination of the builder *)

(** The number of tokens the cursor can still move over. *)
Definition mu (b : Builder) : nat :=
  if isAtEnd b then 0 else length (tokens b) - pos b.

(** The cursor is within the token list. *)
Definition wf (b : Builder) : Prop := pos b <= length (tokens b).

(** [b'] is a later state of [b]: same tokens and options, no more
    tokens left than before, cursor within the token list. *)
Definition ext (b b' : Builder) : Prop :=
  tokens b' = tokens b /\ options b' = options b /\ mu b' <= mu b
  /\ wf b'.

(** ... and at least one token has been consumed, unless there was none. *)
Definition adv (b b' : Builder) : Prop :=
  ext b b' /\ (mu b <> 0 -> mu b' < mu b).

(** [m] returns from [b] with a result and a state that satisfy [Q]. *)
Definition ok {A : Type} (m : M A) (b : Builder)
  (Q : A -> Builder -> Prop) : Prop :=
  exists x b', m b = Some (x, b') /\ Q x b'.

(** What the callees behind [Rec] must do for states with fewer than [n]
    tokens left. *)
Record Specs (n : nat) (rec : Rec) : Prop := mkSpecs {
  spec_parseTypeName : forall b, wf b -> mu b < n ->
    ok (call_parseTypeName rec) b (fun _ b' => adv b b');
  spec_parseExpression : forall b, wf b -> mu b < n ->
    ok (call_parseExpression rec) b (fun _ b' => adv b b');
  spec_parseAssignment : forall b, wf b -> mu b < n ->
    ok (call_parseAssignment rec) b (fun _ b' => adv b b');
  spec_parseTernary : forall b, wf b -> mu b < n ->
    ok (call_parseTernary rec) b (fun _ b' => adv b b');
  spec_parseExponentiation : forall b, wf b -> mu b < n ->
    ok (call_parseExponentiation rec) b (fun _ b' => adv b b');
  spec_parseUnary : forall b, wf b -> mu b < n ->
    ok (call_parseUnary rec) b (fun _ b' => adv b b');
  spec_parseStatement : forall b, wf b -> mu b < n ->
    ok (call_parseStatement rec) b (fun _ b' => adv b b');
  spec_parseAssemblyExpression : forall b, wf b -> mu b < n ->
    ok (call_parseAssemblyExpression rec) b (fun _ b' => adv b b');
  spec_parseAssemblyStatement_ : forall b, wf b -> mu b < n ->
    ok (call_parseAssemblyStatement_ rec) b
       (fun _ b' => ext b b' /\
          (lexer.Type_ (peek b) <> lexer.RBRACE -> mu b <> 0 ->
           mu b' < mu b))
}.

(** ** Independence of the recursion bound *)

(** [m'] returns whatever [m] returns. *)
Definition mle {A : Type} (m m' : M A) : Prop :=
  forall b r, m b = Some r -> m' b = Some r.

(** The callees behind [rec'] return whatever those behind [rec]
    return. *)
Record Rle (rec rec' : Rec) : Prop := mkRle {
  le_parseTypeName :
    mle (call_parseTypeName rec) (call_parseTypeName rec');
  le_parseExpression :
    mle (call_parseExpression rec) (call_parseExpression rec');
  le_parseAssignment :
    mle (call_parseAssignment rec) (call_parseAssignment rec');
  le_parseTernary :
    mle (call_parseTernary rec) (call_parseTernary rec');
  le_parseExponentiation :
    mle (call_parseExponentiation rec) (call_parseExponentiation rec');
  le_parseUnary :
    mle (call_parseUnary rec) (call_parseUnary rec');
  le_parseStatement :
    mle (call_parseStatement rec) (call_parseStatement rec');
  le_parseAssemblyExpression :
    mle (call_parseAssemblyExpression rec)
        (call_parseAssemblyExpression rec');
  le_parseAssemblyStatement_ :
    mle (call_parseAssemblyStatement_ rec)
        (call_parseAssemblyStatement_ rec')
}.

(** ** Results of [Build] *)

(** The root node [Build] returns. *)
Definition isSourceUnit (n : ast.Node) : Prop :=
  ast.GetType n = ast.NodeSourceUnit /\
  exists children, ast.payload n = ast.SourceUnit children.

(** The outcome of [Build] as the mode prescribes it: in tolerant mode a
    tree and no error; in strict mode the first recorded error and no
    tree if an error was recorded, and a tree and no error otherwise. *)
Definition outcome_ok (tolerant : bool) (errs : list Error)
  (res : option ast.Node * option Error) : Prop :=
  if tolerant then
    exists su, res = (Some su, None) /\ isSourceUnit su
  else
    match errs with
    | [] => exists su, res = (Some su, None) /\ isSourceUnit su
    | e :: _ => res = (None, Some e)
    end.

(** One run of the builder on a source text: [New], [Build], and the
    error list [Errors] then exposes. *)
Definition Run (input : string) (opts : option Options)
  (res : option ast.Node * option Error) (errs : list Error) : Prop :=
  exists b', Build (New input opts) = Some (res, b') /\ Errors b' = errs.


(** [New(input, opts).Build()], the builder left aside. *)
Definition build (input : string) (opts : option Options)
  : option (option ast.Node * option Error) :=
  option_map fst (Build (New input opts)).

(** [New(input, nil).parseExpression()] *)
Definition parse_expression (input : string) : option ast.Node :=
  let b := New input None in
  option_map fst (parseExpression (methods (fuel_for b)) b).

(** ** Source texts and the trees the builder returns for them *)

(** A node with the location [setLocation] gives it under both
    options, from [line:c1] to [line:c2], bytes [c1] to [c2] (the texts
    below are one line long, so columns and offsets agree). *)
Definition located (t : ast.NodeType) (c1 c2 : nat) (p : ast.Payload)
  : ast.Node :=
  ast.MkNode
    {| ast.Type_ := t;
       ast.Loc := Some {| ast.Start := {| ast.Line := 1; ast.Column := c1 |};
                          ast.End := {| ast.Line := 1; ast.Column := c2 |} |};
       ast.Range_ := Some (c1, c2) |}
    p.

(** [contract C { function f() public <body> }], without locations. *)
Definition contract_with_function (name : string) (body : list ast.Node)
  : ast.Node :=
  ast.new ast.NodeSourceUnit
    (ast.SourceUnit
       [ast.new ast.NodeContractDefinition
          (ast.ContractDefinition "C" []
             [ast.new ast.NodeFunctionDefinition
                (ast.FunctionDefinition name [] []
                   (Some (ast.new ast.NodeBlock (ast.Block body)))
                   "public" [] [] false false false false "")]
             "contract")]).

Definition sum_input : string :=
  "contract C { function f() public { a + b; } }".

Definition sum_operation : ast.Node :=
  newBinaryOperation "+" (newIdentifier "a") (newIdentifier "b").

Definition sum_tree : ast.Node :=
  ast.MkNode
    {| ast.Type_ := ast.NodeSourceUnit;
       ast.Loc := Some {| ast.Start := {| ast.Line := 1; ast.Column := 0 |};
                          ast.End := {| ast.Line := 1; ast.Column := 45 |} |};
       ast.Range_ := None |}
    (ast.SourceUnit
       [located ast.NodeContractDefinition 0 45
          (ast.ContractDefinition "C" []
             [located ast.NodeFunctionDefinition 13 43
                (ast.FunctionDefinition "f" [] []
                   (Some (located ast.NodeBlock 33 43
                            (ast.Block
                               [located ast.NodeExpressionStatement 35 41
                                  (ast.ExpressionStatement sum_operation)])))
                   "public" [] [] false false false false "")]
             "contract")]).

Definition assembly_input : string :=
  "contract C { function f() public { assembly { let x := add(1, 2) } } }".

Definition assembly_call : ast.Node :=
  ast.new ast.NodeAssemblyCall
    (ast.AssemblyCall "add"
       [ast.new ast.NodeAssemblyLiteral (ast.AssemblyLiteral "number" "1");
        ast.new ast.NodeAssemblyLiteral (ast.AssemblyLiteral "number" "2")]).

(** The operations the builder returns for the assembly block. *)
Definition assembly_operations : list ast.Node :=
  [ast.new ast.NodeAssemblyLocalDefinition
     (ast.AssemblyLocalDefinition [newIdentifier "x"] None);
   assembly_call].

Definition assembly_tree : ast.Node :=
  contract_with_function "f"
    [ast.new ast.NodeInlineAssembly
       (ast.InlineAssembly ""
          (ast.new ast.NodeAssemblyBlock
             (ast.AssemblyBlock assembly_operations)))].

Definition product_input : string :=
  "contract C { function f() public { (a + b) * c; } }".

(** The builder of [product_input] with the cursor on the [(] that
    begins the statement, its tenth token. *)
Definition product_statement : Builder :=
  set_pos (New product_input None) 9.

Definition pragma_input : string := "pragma solidity ^0.8.0;".

Definition pragma_tree : ast.Node :=
  ast.new ast.NodeSourceUnit
    (ast.SourceUnit
       [ast.new ast.NodePragmaDirective
          (ast.PragmaDirective "solidity" "^ 0.8 .0")]).

Definition invalid_input : string := "contract Test { invalid syntax here }".

(** What the builder keeps of [invalid_input] in tolerant mode. *)
Definition invalid_tree : ast.Node :=
  ast.new ast.NodeSourceUnit
    (ast.SourceUnit
       [ast.new ast.NodeContractDefinition
          (ast.ContractDefinition "Test" []
             [ast.new ast.NodeStateVariableDeclaration
                (ast.StateVariableDeclaration
                   [ast.new ast.NodeVariableDeclaration
                      (ast.VariableDeclaration
                         (ast.new ast.NodeUserDefinedTypeName
                            (ast.UserDefinedTypeName "invalid"))
                         "syntax" (Some (newIdentifier "syntax")) "" true
                         false false [] "" false None)]
                   None)]
             "contract")]).

Definition invalid_error : Error :=
  {| Message := "expected ';', got 'here'"; Line := 1; Column := 31 |}.



Definition unnamed_input : string := "contract C { function () public {} }".

Definition byte_input : string := "contract C { byte b; }".

Definition byte_tree : ast.Node :=
  ast.new ast.NodeSourceUnit
    (ast.SourceUnit
       [ast.new ast.NodeContractDefinition
          (ast.ContractDefinition "C" []
             [ast.new ast.NodeStateVariableDeclaration
                (ast.StateVariableDeclaration
                   [ast.new ast.NodeVariableDeclaration
                      (ast.VariableDeclaration
                         (ast.new ast.NodeUserDefinedTypeName
                            (ast.UserDefinedTypeName "byte"))
                         "b" (Some (newIdentifier "b")) "" true false false
                         [] "" false None)]
                   None)]
             "contract")]).

(** ** Expressions over the identifiers [a], [b], [c] *)

Definition bin (op : string) (l r : ast.Node) : ast.Node :=
  newBinaryOperation op l r.

Definition prefix_op (op : string) (e : ast.Node) : ast.Node :=
  ast.new ast.NodeUnaryOperation (ast.UnaryOperation op e true).

Definition postfix_op (op : string) (e : ast.Node) : ast.Node :=
  ast.new ast.NodeUnaryOperation (ast.UnaryOperation op e false).

Definition member (e : ast.Node) (name : string) : ast.Node :=
  ast.new ast.NodeMemberAccess (ast.MemberAccess e name).

Definition a_ : ast.Node := newIdentifier "a".
Definition b_ : ast.Node := newIdentifier "b".
Definition c_ : ast.Node := newIdentifier "c".

(** The precedence table in examples: rows for neighbouring levels,
    and rows for the associativity within a level. *)
Definition precedence_table : list (string * ast.Node) :=
  [ ("a = b = c",   bin "=" a_ (bin "=" b_ c_));
    ("a += b ? c : a",
       bin "+=" a_ (ast.new ast.NodeConditional (ast.Conditional b_ c_ a_)));
    ("a ? b : c || a",
       ast.new ast.NodeConditional (ast.Conditional a_ b_ (bin "||" c_ a_)));
    ("a || b || c", bin "||" (bin "||" a_ b_) c_);
    ("a || b && c", bin "||" a_ (bin "&&" b_ c_));
    ("a && b && c", bin "&&" (bin "&&" a_ b_) c_);
    ("a && b == c", bin "&&" a_ (bin "==" b_ c_));
    ("a == b != c", bin "!=" (bin "==" a_ b_) c_);
    ("a == b < c",  bin "==" a_ (bin "<" b_ c_));
    ("a < b >= c",  bin ">=" (bin "<" a_ b_) c_);
    ("a < b | c",   bin "<" a_ (bin "|" b_ c_));
    ("a | b | c",   bin "|" (bin "|" a_ b_) c_);
    ("a | b ^ c",   bin "|" a_ (bin "^" b_ c_));
    ("a ^ b ^ c",   bin "^" (bin "^" a_ b_) c_);
    ("a ^ b & c",   bin "^" a_ (bin "&" b_ c_));
    ("a & b & c",   bin "&" (bin "&" a_ b_) c_);
    ("a & b << c",  bin "&" a_ (bin "<<" b_ c_));
    ("a << b >> c", bin ">>" (bin "<<" a_ b_) c_);
    ("a >>> b + c", bin ">>>" a_ (bin "+" b_ c_));
    ("a - b + c",   bin "+" (bin "-" a_ b_) c_);
    ("a + b * c",   bin "+" a_ (bin "*" b_ c_));
    ("a * b + c",   bin "+" (bin "*" a_ b_) c_);
    ("a / b % c",   bin "%" (bin "/" a_ b_) c_);
    ("a * b ** c",  bin "*" a_ (bin "**" b_ c_));
    ("a ** b ** c", bin "**" a_ (bin "**" b_ c_));
    ("-a ** b",     bin "**" (prefix_op "-" a_) b_);
    ("-a++",        prefix_op "-" (postfix_op "++" a_));
    ("!a.b",        prefix_op "!" (member a_ "b"));
    ("a.b++",       postfix_op "++" (member a_ "b"));
    ("a.b.c",       member (member a_ "b") "c");
    ("a ? b : c ? a : b",
       ast.new ast.NodeConditional
         (ast.Conditional a_ b_
            (ast.new ast.NodeConditional (ast.Conditional c_ a_ b_)))) ].

(** ** Function definitions *)

(** The name and the three flags of a [FunctionDefinition]:
    [IsConstructor], [IsFallback], [IsReceiveEther]. *)
Definition function_flags (n : ast.Node)
  : option (string * bool * bool * bool) :=
  match ast.payload n with
  | ast.FunctionDefinition name _ _ _ _ _ _ c f r _ _ => Some (name, c, f, r)
  | _ => None
  end.

(** At most one of the three flags is set. *)
Definition at_most_one (c f r : bool) : bool :=
  negb ((c && f) || (c && r) || (f && r)).

Definition flags_ok (n : ast.Node) : Prop :=
  match function_flags n with
  | Some (_, c, f, r) => at_most_one c f r = true
  | None => False
  end.

(** Every result [m] returns satisfies [Q]. *)
Definition returns {A : Type} (m : M A) (Q : A -> Prop) : Prop :=
  forall b x b', m b = Some (x, b') -> Q x.

Definition unnamed_function : ast.Node :=
  ast.new ast.NodeFunctionDefinition
    (ast.FunctionDefinition "" [] []
       (Some (ast.new ast.NodeBlock (ast.Block [])))
       "public" [] [] false false false false "").

Definition unnamed_tree : ast.Node :=
  ast.new ast.NodeSourceUnit
    (ast.SourceUnit
       [ast.new ast.NodeContractDefinition
          (ast.ContractDefinition "C" [] [unnamed_function] "contract")]).

(** ** Numeric literals *)

Definition hex_input : string := "0x1_0".

(** The builder with the cursor at [p] on the tokens of [input]. *)
Definition builder_at (input : string) (opts : Options) (errs : list Error)
  (p : nat) : Builder :=
  {| tokens := lexer.Tokenize (lexer.New input); pos := p; errors := errs;
     options := opts |}.

(** ** The tests of the repository

    The inputs of [parser_test.go] and [lexer_test.go], and what the
    tests require of the results. *)

(** A double quote, for the inputs that hold string literals. *)
Definition dquote : string := String lexer.double_quote EmptyString.

Definition Children_of (n : ast.Node) : list ast.Node :=
  match ast.payload n with
  | ast.SourceUnit children => children
  | _ => []
  end.

Definition SubNodes_of (n : ast.Node) : list ast.Node :=
  match ast.payload n with
  | ast.ContractDefinition _ _ subNodes _ => subNodes
  | _ => []
  end.

(** [err == nil], and the tree. *)
Definition parsed (r : option (option ast.Node * option parser.ParserError))
  : option ast.Node :=
  match r with
  | Some (Some root, None) => Some root
  | _ => None
  end.

(** The first child of a tree parsed without an error. *)
Definition first_child
  (r : option (option ast.Node * option parser.ParserError))
  : option ast.Payload :=
  match parsed r with
  | Some root => option_map ast.payload (hd_error (Children_of root))
  | None => None
  end.

(** The first member of the first child, a contract. *)
Definition first_member
  (r : option (option ast.Node * option parser.ParserError))
  : option ast.Payload :=
  match parsed r with
  | Some root =>
      match hd_error (Children_of root) with
      | Some contract =>
          option_map ast.payload (hd_error (SubNodes_of contract))
      | None => None
      end
  | None => None
  end.

(** [err == nil], [result != nil] and [len(result.Children) != 0]. *)
Definition produces_ast
  (r : option (option ast.Node * option parser.ParserError)) : bool :=
  match parsed r with
  | Some root => negb (length (Children_of root) =? 0)
  | None => false
  end.

Definition tolerant : option parser.Options :=
  Some {| parser.Tolerant := true; parser.Loc := false;
          parser.Range := false |}.

Definition simple_contract_input : string :=
  "
		pragma solidity ^0.8.0;
		
		contract SimpleStorage {
			uint256 public value;
			
			function setValue(uint256 _value) public {
				value = _value;
			}
			
			function getValue() public view returns (uint256) {
				return value;
			}
		}
	".

Definition simple_contract_ok
  (r : option (option ast.Node * option parser.ParserError)) : bool :=
  match parsed r with
  | Some root =>
      String.eqb (ast.GetType root) ast.NodeSourceUnit
      && (2 <=? length (Children_of root))
      && match Children_of root with
         | pragma :: contract :: _ =>
             match ast.payload pragma, ast.payload contract with
             | ast.PragmaDirective name _,
               ast.ContractDefinition cname _ _ kind =>
                 String.eqb name "solidity"
                 && String.eqb cname "SimpleStorage"
                 && String.eqb kind "contract"
             | _, _ => false
             end
         | _ => false
         end
  | None => false
  end.

Definition has_loc (p : option (option ast.Location)) : bool :=
  match p with
  | Some (Some loc) => ast.Line (ast.Start loc) =? 1
  | _ => false
  end.

Definition first_child_node
  (r : option (option ast.Node * option parser.ParserError))
  : option ast.Node :=
  match parsed r with
  | Some root => hd_error (Children_of root)
  | None => None
  end.

Definition import_inputs : list string :=
  [ ("import " ++ dquote ++ "./Other.sol" ++ dquote ++ ";")%string;
    ("import " ++ dquote ++ "./Other.sol" ++ dquote ++ " as Other;")%string;
    ("import * as Other from " ++ dquote ++ "./Other.sol" ++ dquote ++ ";")%string;
    ("import { Symbol } from " ++ dquote ++ "./Other.sol" ++ dquote ++ ";")%string ].

Definition import_path (r : option (option ast.Node * option parser.ParserError))
  : option string :=
  match first_child r with
  | Some (ast.ImportDirective path _ _ _ _ _) => Some path
  | _ => None
  end.

Definition function_input : string :=
  "
		contract Test {
			function publicFunc() public {}
			function privateFunc() private pure returns (uint256) { return 0; }
			function externalFunc(uint256 a, string memory b) external view {}
		}
	".

Definition function_ok
  (r : option (option ast.Node * option parser.ParserError)) : bool :=
  match parsed r with
  | Some root =>
      match Children_of root with
      | contract :: _ =>
          (length (SubNodes_of contract) =? 3)
          && match option_map ast.payload (hd_error (SubNodes_of contract)) with
             | Some (ast.FunctionDefinition name _ _ _ visibility _ _ _ _ _ _ _) =>
                 String.eqb name "publicFunc" && String.eqb visibility "public"
             | _ => false
             end
      | [] => false
      end
  | None => false
  end.

Definition struct_input : string :=
  "
		contract Test {
			struct Person {
				string name;
				uint256 age;
				address wallet;
			}
		}
	".

Definition enum_input : string :=
  "
		contract Test {
			enum Status { Pending, Active, Completed }
		}
	".

Definition event_input : string :=
  "
		contract Test {
			event Transfer(address indexed from, address indexed to, uint256 value);
		}
	".

Definition IsIndexed_of (n : ast.Node) : bool :=
  match ast.payload n with
  | ast.VariableDeclaration _ _ _ _ _ isIndexed _ _ _ _ _ => isIndexed
  | _ => false
  end.

Definition mapping_input : string :=
  "
		contract Test {
			mapping(address => uint256) public balances;
			mapping(address => mapping(address => uint256)) public allowances;
		}
	".

Definition inheritance_input : string :=
  "contract Child is Parent, Ownable {}".

Definition interface_input : string :=
  "
		interface IERC20 {
			function totalSupply() external view returns (uint256);
		}
	".

Definition library_input : string :=
  "
		library SafeMath {
			function add(uint256 a, uint256 b) internal pure returns (uint256) {
				return a + b;
			}
		}
	".

Definition solidity04_inputs : list string :=
  [ "pragma solidity ^0.4.0; contract Test { function Test() {} }";
    "pragma solidity ^0.4.0; contract Test { uint256 oneYear = 1 years; }" ].

Definition solidity05_inputs : list string :=
  [ "pragma solidity ^0.5.0; contract Test { constructor() public {} }";
    "pragma solidity ^0.5.0; contract Test { address payable public owner; }";
    "pragma solidity ^0.5.0; contract Test { event E(); function f() public { emit E(); } }";
    "pragma solidity ^0.5.0; contract Test { function f(bytes calldata d) external pure {} }" ].

Definition solidity06_inputs : list string :=
  [ "pragma solidity ^0.6.0; abstract contract A { function f() public virtual; }";
    "pragma solidity ^0.6.0; contract B { function f() public virtual {} } contract C is B { function f() public override {} }";
    "pragma solidity ^0.6.0; contract Test { receive() external payable {} }";
    "pragma solidity ^0.6.0; contract Test { fallback() external payable {} }";
    "pragma solidity ^0.6.0; interface I { function f() external; } contract Test { function t(I i) public { try i.f() {} catch {} } }" ].

Definition solidity07_inputs : list string :=
  [ "pragma solidity ^0.7.0; contract Test { uint256 x = 20 gwei; }";
    "pragma solidity ^0.7.0; contract Test { constructor() {} }";
    "pragma solidity ^0.7.0; function helper(uint256 x) pure returns (uint256) { return x; } contract Test {}";
    "pragma solidity ^0.7.0; contract Test { uint256 immutable x; constructor() { x = 1; } }" ].

Definition solidity08_inputs : list string :=
  [ "pragma solidity ^0.8.0; contract Test { function f() public pure returns (uint256) { unchecked { return 1 + 1; } } }";
    "pragma solidity ^0.8.4; error MyError(uint256 x); contract Test { function f() public { revert MyError(1); } }";
    "pragma solidity ^0.8.8; type Price is uint128; contract Test {}";
    "pragma solidity ^0.8.18; contract Test { mapping(address account => uint256 balance) public balances; }";
    "pragma solidity ^0.8.24; contract Test { uint256 transient x; }";
    "pragma solidity ^0.8.24; contract Test layout at 256 { uint256 x; }" ].

Definition complex_input : string :=
  "
		// SPDX-License-Identifier: MIT
		pragma solidity ^0.8.20;

		error Unauthorized(address caller);
		type TokenId is uint256;

		interface IERC20 {
			function transfer(address to, uint256 amount) external returns (bool);
		}

		abstract contract Ownable {
			address public owner;
			modifier onlyOwner() virtual {
				if (msg.sender != owner) revert Unauthorized(msg.sender);
				_;
			}
		}

		contract Token is Ownable, IERC20 {
			mapping(address account => uint256 balance) public balances;
			uint256 immutable totalSupply;
			uint256 transient processingLock;
			
			event Transfer(address indexed from, address indexed to, uint256 value);
			
			constructor(uint256 _supply) {
				totalSupply = _supply;
				owner = msg.sender;
			}
			
			function transfer(address to, uint256 amount) external override returns (bool) {
				unchecked {
					balances[msg.sender] -= amount;
					balances[to] += amount;
				}
				emit Transfer(msg.sender, to, amount);
				return true;
			}
			
			receive() external payable {}
			fallback() external payable {}
		}
	".

(** The kinds the test counts among the children: pragmas, and
    contracts by kind. *)
Definition child_kinds (root : ast.Node) : list string :=
  map (fun child =>
         match ast.payload child with
         | ast.PragmaDirective _ _ => "pragma"
         | ast.ContractDefinition _ _ _ kind => kind
         | ast.ErrorDefinition _ _ => "error"
         | ast.UserDefinedValueTypeDefinition _ _ => "type"
         | _ => EmptyString
         end)
      (Children_of root).

(** [lexer_test.go] *)
Definition token_types (input : string) : list lexer.TokenType :=
  map lexer.Type_ (lexer.Tokenize (lexer.New input)).

Definition first_type (input : string) : lexer.TokenType :=
  lexer.Type_ (fst (lexer.NextToken (lexer.New input))).

(* ================================================================== *)
(** * Vocabulary of the further properties *)
(* ================================================================== *)

(** ** Positions in the source text *)

(** The line and the column of the byte offset [n] of [s], counted from
    [line] and [col] at offset 0: a line feed starts a new line at
    column 0, every other byte is one column. *)
Fixpoint position_from (s : string) (n line col : nat) {struct n}
  : nat * nat :=
  match n, s with
  | S n', String c rest =>
      if Ascii.eqb c lexer.newline then position_from rest n' (S line) 0
      else position_from rest n' line (S col)
  | _, _ => (line, col)
  end.

(** Lines are counted from 1, columns from 0. *)
Definition position_of (s : string) (offset : nat) : nat * nat :=
  position_from s offset 1 0.

(** Two scanner states that differ at most in the [start] field. *)
Definition same_scan (l l' : lexer.Lexer) : Prop :=
  lexer.input l' = lexer.input l /\ lexer.pos l' = lexer.pos l /\
  lexer.line l' = lexer.line l /\ lexer.column l' = lexer.column l.

(** [l'] is [l] after some calls of [advance]. *)
Definition moved (l l' : lexer.Lexer) : Prop :=
  exists k, same_scan (Nat.iter k lexer.advance_ l) l'.

(** The scanner's line and column are those of its offset. *)
Definition coherent (l : lexer.Lexer) : Prop :=
  lexer.pos l <= lexer.len l /\
  (lexer.line l, lexer.column l)
    = position_of (lexer.input l) (lexer.pos l).

(** The tokens of a source text. *)
Definition scan (input : string) : list lexer.Token :=
  lexer.Tokenize (lexer.New input).

(** The tokens lie one after the other, from offset [p] on: each starts
    at or after the end of the one before. *)
Fixpoint ordered_from (p : nat) (ts : list lexer.Token) : Prop :=
  match ts with
  | [] => True
  | t :: rest =>
      p <= lexer.Start t /\ lexer.Start t <= lexer.End t /\
      ordered_from (lexer.End t) rest
  end.

(** What a reading method of the scanner returns, called at [l] with the
    line and column of [l]: a token with that line and column, that
    starts at the offset of [l] and ends at the offset the method
    leaves. *)
Definition reads (l : lexer.Lexer) (line column : nat)
  (r : lexer.Token * lexer.Lexer) : Prop :=
  moved l (snd r) /\
  lexer.Line (fst r) = line /\ lexer.Column (fst r) = column /\
  lexer.Start (fst r) = lexer.pos l /\ lexer.End (fst r) = lexer.pos (snd r).

(** ** The kinds of tokens *)

(** The types [readIdentifier] gives a word: those of the keyword
    table, the sized types, and [IDENTIFIER]. *)
Definition word_types : list lexer.TokenType :=
  map snd lexer.keywords
  ++ [lexer.INT; lexer.UINT; lexer.BYTES_N; lexer.FIXED; lexer.UFIXED;
      lexer.FIXED_N; lexer.UFIXED_N; lexer.IDENTIFIER].

(** The types [readOperator] gives. *)
Definition operator_types : list lexer.TokenType :=
  [lexer.ASSIGN_SAR; lexer.SAR; lexer.ASSIGN_SHR; lexer.ASSIGN_SHL;
   lexer.ARROW; lexer.RIGHT_ARROW; lexer.EQ; lexer.NEQ; lexer.LTE;
   lexer.GTE; lexer.AND; lexer.OR; lexer.SHL; lexer.SHR; lexer.EXP;
   lexer.INC; lexer.DEC; lexer.ASSIGN_ADD; lexer.ASSIGN_SUB;
   lexer.ASSIGN_MUL; lexer.ASSIGN_DIV; lexer.ASSIGN_MOD; lexer.ASSIGN_AND;
   lexer.ASSIGN_OR; lexer.ASSIGN_XOR;
   lexer.LPAREN; lexer.RPAREN; lexer.LBRACK; lexer.RBRACK; lexer.LBRACE;
   lexer.RBRACE; lexer.COLON; lexer.SEMICOLON; lexer.PERIOD; lexer.COMMA;
   lexer.QUESTION; lexer.ASSIGN; lexer.LT; lexer.GT; lexer.NOT;
   lexer.BIT_AND; lexer.BIT_OR; lexer.BIT_XOR; lexer.BIT_NOT; lexer.ADD;
   lexer.SUB; lexer.MUL; lexer.DIV; lexer.MOD; lexer.ILLEGAL].

(** The types of the tokens that are not the final [EOF]. *)
Definition token_types_scanned : list lexer.TokenType :=
  word_types ++ [lexer.HEX_NUMBER; lexer.NUMBER; lexer.STRING]
  ++ operator_types.

(** Membership in a list of token types, as a test. *)
Definition type_in (ts : list lexer.TokenType) (t : lexer.TokenType) : bool :=
  existsb (lexer.eqb t) ts.

(** The text of a token as its value gives it, for the token types that
    keep the source text: all but [NUMBER] (underscores removed),
    [STRING] (escape sequences decoded) and [ILLEGAL] (the offending
    byte, as a code point). *)
Definition keeps_text (t : lexer.TokenType) : bool :=
  match t with
  | lexer.NUMBER | lexer.STRING | lexer.ILLEGAL => false
  | _ => true
  end.

(** The text of a string literal decoded, from behind its opening
    [quote] on: up to the closing quote, a backslash and the byte after
    it give one byte ([\n], [\r] and [\t] the control characters, any
    other the byte itself), every other byte stands for itself (and so
    does a backslash that is the last byte of the source text). *)
Fixpoint decode (quote : ascii) (s : string) : string :=
  match s with
  | EmptyString => EmptyString
  | String c rest =>
      if Ascii.eqb c quote then EmptyString
      else if Ascii.eqb c lexer.backslash then
        match rest with
        | String e rest' => String (lexer.unescape e) (decode quote rest')
        | EmptyString => String c EmptyString
        end
      else String c (decode quote rest)
  end.

(** The decoded string literal [text]; its first byte is the quote. *)
Definition decoded (text : string) : string :=
  match text with
  | String quote body => decode quote body
  | EmptyString => EmptyString
  end.

(** The token types whose name ([TokenType.String]) is the text of
    their tokens: the keywords and the operators. *)
Definition named_by_text (t : lexer.TokenType) : bool :=
  (type_in (map snd lexer.keywords) t
   || type_in [lexer.FIXED; lexer.UFIXED] t
   || type_in operator_types t)
  && negb (lexer.eqb t lexer.ILLEGAL).

(** The words of the keyword table. *)
Definition keyword_words : list string := map fst lexer.keywords.

(** Membership in a list of strings, as a test. *)
Definition word_in (ws : list string) (w : string) : bool :=
  existsb (String.eqb w) ws.

(** ** The parser package *)

(** The builder options [Parse] makes of its own ([nil] is [None]). *)
Definition builder_options (opts : option parser.Options)
  : builder.Options :=
  match opts with
  | Some o => {| builder.Tolerant := parser.Tolerant o;
                 builder.Loc := parser.Loc o;
                 builder.Range := parser.Range o |}
  | None => {| builder.Tolerant := false; builder.Loc := false;
               builder.Range := false |}
  end.

(** ** Error recovery *)

(** The token before the cursor is a [;]. *)
Definition after_semicolon (b : builder.Builder) : Prop :=
  exists t, builder.previous b = Some (t, b) /\
            lexer.Type_ t = lexer.SEMICOLON.

(** Where [synchronize] stops: at the end of the tokens, after a [;], or
    before a token that starts a declaration. *)
Definition recovered (b : builder.Builder) : Prop :=
  builder.isAtEnd b = true \/ after_semicolon b \/
  builder.isSyncPoint (lexer.Type_ (builder.peek b)) = true.

(** A source text with a syntax error, and the builder in front of its
    third token. *)
Definition stray_input : string := "uint x y ; contract C { }".
Definition stray_builder : builder.Builder :=
  builder.set_pos (builder.New stray_input None) 2.

(* ================================================================== *)
(** * Trees and walks *)
(* ================================================================== *)

Definition opt {A : Type} (o : option A) : list A :=
  match o with
  | Some x => [x]
  | None => []
  end.

Fixpoint somes {A : Type} (xs : list (option A)) : list A :=
  match xs with
  | [] => []
  | Some x :: rest => x :: somes rest
  | None :: rest => somes rest
  end.

(** The nodes a node holds in its fields, in the order of the fields. *)
Definition children (p : ast.Payload) : list ast.Node :=
  match p with
  | ast.SourceUnit Children => Children
  | ast.PragmaDirective _ _ => []
  | ast.ImportDirective _ PathLiteral _ UnitAliasIdentifier _
        SymbolAliasesIdentifiers => opt PathLiteral ++ opt
        UnitAliasIdentifier ++ somes (map fst SymbolAliasesIdentifiers) ++
        somes (map snd SymbolAliasesIdentifiers)
  | ast.ContractDefinition _ BaseContracts SubNodes _ => BaseContracts ++
        SubNodes
  | ast.InheritanceSpecifier BaseName Arguments => [BaseName] ++ Arguments
  | ast.FunctionDefinition _ Parameters ReturnParameters Body _ Modifiers
        Override _ _ _ _ _ => Parameters ++ ReturnParameters ++ opt Body ++
        Modifiers ++ Override
  | ast.ModifierDefinition _ Parameters Body _ Override => Parameters ++ opt
        Body ++ Override
  | ast.ModifierInvocation _ Arguments => Arguments
  | ast.StateVariableDeclaration Variables InitialValue => Variables ++ opt
        InitialValue
  | ast.VariableDeclaration TypeName _ Identifier_ _ _ _ _ Override _ _
        Expression => [TypeName] ++ opt Identifier_ ++ Override ++ opt
        Expression
  | ast.VariableDeclarationStatement Variables InitialValue => somes
        Variables ++ opt InitialValue
  | ast.StructDefinition _ Members => Members
  | ast.EnumDefinition _ Members => Members
  | ast.EnumValue _ => []
  | ast.EventDefinition _ Parameters _ => Parameters
  | ast.ErrorDefinition _ Parameters => Parameters
  | ast.UserDefinedValueTypeDefinition _ UnderlyingType => [UnderlyingType]
  | ast.UsingForDeclaration TypeName _ _ _ _ => opt TypeName
  | ast.ElementaryTypeName _ _ => []
  | ast.UserDefinedTypeName _ => []
  | ast.Mapping KeyType KeyName ValueType ValueName => [KeyType] ++ opt
        KeyName ++ [ValueType] ++ opt ValueName
  | ast.ArrayTypeName BaseTypeName Length => [BaseTypeName] ++ opt Length
  | ast.FunctionTypeName ParameterTypes ReturnTypes _ _ => ParameterTypes ++
        ReturnTypes
  | ast.Block Statements => Statements
  | ast.UncheckedBlock Body => [Body]
  | ast.ExpressionStatement Expression => [Expression]
  | ast.IfStatement Condition TrueBody FalseBody => [Condition] ++ [TrueBody]
        ++ opt FalseBody
  | ast.WhileStatement Condition Body => [Condition] ++ [Body]
  | ast.DoWhileStatement Condition Body => [Condition] ++ [Body]
  | ast.ForStatement InitExpression ConditionExpression LoopExpression Body
        => opt InitExpression ++ opt ConditionExpression ++ opt
        LoopExpression ++ [Body]
  | ast.ContinueStatement => []
  | ast.BreakStatement => []
  | ast.ReturnStatement Expression => opt Expression
  | ast.EmitStatement EventCall => [EventCall]
  | ast.RevertStatement RevertCall => opt RevertCall
  | ast.TryStatement Expression ReturnParameters Body CatchClauses =>
        [Expression] ++ ReturnParameters ++ [Body] ++ CatchClauses
  | ast.CatchClause _ _ Parameters Body => Parameters ++ [Body]
  | ast.BinaryOperation _ Left Right => [Left] ++ [Right]
  | ast.UnaryOperation _ SubExpression _ => [SubExpression]
  | ast.Conditional Condition TrueExpression FalseExpression => [Condition]
        ++ [TrueExpression] ++ [FalseExpression]
  | ast.FunctionCall Expression Arguments _ Identifiers => [Expression] ++
        Arguments ++ Identifiers
  | ast.FunctionCallOptions Expression _ Options => [Expression] ++ Options
  | ast.MemberAccess Expression _ => [Expression]
  | ast.IndexAccess Base Index => [Base] ++ opt Index
  | ast.IndexRangeAccess Base IndexStart IndexEnd => [Base] ++ opt IndexStart
        ++ opt IndexEnd
  | ast.NewExpression TypeName => [TypeName]
  | ast.TupleExpression Components _ => somes Components
  | ast.NameValueExpression Expression Arguments => [Expression] ++ opt
        Arguments
  | ast.NameValueList _ Identifiers Arguments => Identifiers ++ Arguments
  | ast.Identifier _ => []
  | ast.NumberLiteral _ _ => []
  | ast.BooleanLiteral _ => []
  | ast.StringLiteral _ _ _ => []
  | ast.HexLiteral _ _ => []
  | ast.InlineAssembly _ Body => [Body]
  | ast.AssemblyBlock Operations => Operations
  | ast.AssemblyCall _ Arguments => Arguments
  | ast.AssemblyLocalDefinition Names Expression => Names ++ opt Expression
  | ast.AssemblyAssignment Names Expression => Names ++ [Expression]
  | ast.AssemblyIdentifier _ => []
  | ast.AssemblyLiteral _ _ => []
  | ast.AssemblyIf Condition Body => [Condition] ++ [Body]
  | ast.AssemblySwitch Expression Cases => [Expression] ++ Cases
  | ast.AssemblyCase Value Body _ => opt Value ++ [Body]
  | ast.AssemblyFor Pre Condition Post Body => [Pre] ++ [Condition] ++ [Post]
        ++ [Body]
  | ast.AssemblyFunctionDefinition _ Arguments ReturnArguments Body =>
        Arguments ++ ReturnArguments ++ [Body]
  end.

(** The visitor that calls the callback of a [SimpleVisitor], if there
    is one, and always descends. *)
Definition visitor_of {S : Type} (fns : ast.SimpleVisitor S)
  : ast.Visitor S :=
  fun method n s =>
    (true, match fns method with
           | Some fn => fn n s
           | None => s
           end).

(** One call of a callback: the method, and the pointer it is given. *)
Definition Call : Type := (ast.NodeType * option ast.Node)%type.

Definition run_call {S : Type} (fns : ast.SimpleVisitor S) (s : S)
  (c : Call) : S :=
  match fns (fst c) with
  | Some fn => fn (snd c) s
  | None => s
  end.

(** The calls of a walk in their order: a node before the nodes in its
    fields, these in the order in which [Walk] takes the fields. *)
Fixpoint calls (node : ast.Node) : list Call :=
  match ast.payload node with
  | ast.SourceUnit Children =>
      (ast.NodeSourceUnit, Some node) :: flat_map calls Children
  | ast.PragmaDirective _ _ =>
      (ast.NodePragmaDirective, Some node) :: []
  | ast.ImportDirective _ _ _ _ _ _ =>
      (ast.NodeImportDirective, Some node) :: []
  | ast.ContractDefinition _ BaseContracts SubNodes _ =>
      (ast.NodeContractDefinition, Some node) :: flat_map calls BaseContracts
        ++ (flat_map calls SubNodes)
  | ast.InheritanceSpecifier BaseName Arguments =>
      (ast.NodeInheritanceSpecifier, Some node) :: calls BaseName ++
        (flat_map calls Arguments)
  | ast.FunctionDefinition _ Parameters ReturnParameters Body _ Modifiers _ _
        _ _ _ _ =>
      (ast.NodeFunctionDefinition, Some node) :: flat_map calls Parameters ++
        (flat_map calls ReturnParameters ++ (flat_map calls Modifiers ++
        (match Body with Some c => calls c | None => [] end)))
  | ast.ModifierDefinition _ Parameters Body _ _ =>
      (ast.NodeModifierDefinition, Some node) :: flat_map calls Parameters ++
        (match Body with Some c => calls c | None => [] end)
  | ast.ModifierInvocation _ Arguments =>
      (ast.NodeModifierInvocation, Some node) :: flat_map calls Arguments
  | ast.StateVariableDeclaration Variables InitialValue =>
      (ast.NodeStateVariableDeclaration, Some node) :: flat_map calls
        Variables ++ (match InitialValue with Some c => calls c | None => []
        end)
  | ast.VariableDeclaration TypeName _ _ _ _ _ _ _ _ _ Expression =>
      (ast.NodeVariableDeclaration, Some node) :: calls TypeName ++ (match
        Expression with Some c => calls c | None => [] end)
  | ast.VariableDeclarationStatement Variables InitialValue =>
      (ast.NodeVariableDeclarationStatement, Some node) :: flat_map (fun o =>
        match o with Some c => calls c | None => [] end) Variables ++ (match
        InitialValue with Some c => calls c | None => [] end)
  | ast.StructDefinition _ Members =>
      (ast.NodeStructDefinition, Some node) :: flat_map calls Members
  | ast.EnumDefinition _ Members =>
      (ast.NodeEnumDefinition, Some node) :: flat_map calls Members
  | ast.EnumValue _ =>
      (ast.NodeEnumValue, Some node) :: []
  | ast.EventDefinition _ Parameters _ =>
      (ast.NodeEventDefinition, Some node) :: flat_map calls Parameters
  | ast.ErrorDefinition _ Parameters =>
      (ast.NodeErrorDefinition, Some node) :: flat_map calls Parameters
  | ast.UserDefinedValueTypeDefinition _ UnderlyingType =>
      (ast.NodeUserDefinedValueTypeDefinition, Some node) :: calls
        UnderlyingType
  | ast.UsingForDeclaration TypeName _ _ _ _ =>
      (ast.NodeUsingForDeclaration, Some node) :: (match TypeName with Some c
        => calls c | None => [] end)
  | ast.ElementaryTypeName _ _ =>
      (ast.NodeElementaryTypeName, Some node) :: []
  | ast.UserDefinedTypeName _ =>
      (ast.NodeUserDefinedTypeName, Some node) :: []
  | ast.Mapping KeyType _ ValueType _ =>
      (ast.NodeMapping, Some node) :: calls KeyType ++ (calls ValueType)
  | ast.ArrayTypeName BaseTypeName Length =>
      (ast.NodeArrayTypeName, Some node) :: calls BaseTypeName ++ (match
        Length with Some c => calls c | None => [] end)
  | ast.FunctionTypeName ParameterTypes ReturnTypes _ _ =>
      (ast.NodeFunctionTypeName, Some node) :: flat_map calls ParameterTypes
        ++ (flat_map calls ReturnTypes)
  | ast.Block Statements =>
      (ast.NodeBlock, Some node) :: flat_map calls Statements
  | ast.UncheckedBlock Body =>
      (ast.NodeUncheckedBlock, Some node) :: calls Body
  | ast.ExpressionStatement Expression =>
      (ast.NodeExpressionStatement, Some node) :: calls Expression
  | ast.IfStatement Condition TrueBody FalseBody =>
      (ast.NodeIfStatement, Some node) :: calls Condition ++ (calls TrueBody
        ++ (match FalseBody with Some c => calls c | None => [] end))
  | ast.WhileStatement Condition Body =>
      (ast.NodeWhileStatement, Some node) :: calls Condition ++ (calls Body)
  | ast.DoWhileStatement Condition Body =>
      (ast.NodeDoWhileStatement, Some node) :: calls Condition ++ (calls Body)
  | ast.ForStatement InitExpression ConditionExpression LoopExpression Body =>
      (ast.NodeForStatement, Some node) :: (match InitExpression with Some c
        => calls c | None => [] end) ++ ((match ConditionExpression with Some
        c => calls c | None => [] end) ++ ((match LoopExpression with Some c
        => calls c | None => [] end) ++ (calls Body)))
  | ast.ContinueStatement =>
      (ast.NodeContinueStatement, Some node) :: []
  | ast.BreakStatement =>
      (ast.NodeBreakStatement, Some node) :: []
  | ast.ReturnStatement Expression =>
      (ast.NodeReturnStatement, Some node) :: (match Expression with Some c
        => calls c | None => [] end)
  | ast.EmitStatement EventCall =>
      (ast.NodeEmitStatement, Some node) :: calls EventCall
  | ast.RevertStatement RevertCall =>
      (ast.NodeRevertStatement, Some node) :: (match RevertCall with Some c
        => calls c | None => [] end)
  | ast.TryStatement Expression _ Body CatchClauses =>
      (ast.NodeTryStatement, Some node) :: calls Expression ++ (calls Body ++
        (flat_map calls CatchClauses))
  | ast.CatchClause _ _ Parameters Body =>
      (ast.NodeCatchClause, Some node) :: flat_map calls Parameters ++ (calls
        Body)
  | ast.BinaryOperation _ Left Right =>
      (ast.NodeBinaryOperation, Some node) :: calls Left ++ (calls Right)
  | ast.UnaryOperation _ SubExpression _ =>
      (ast.NodeUnaryOperation, Some node) :: calls SubExpression
  | ast.Conditional Condition TrueExpression FalseExpression =>
      (ast.NodeConditional, Some node) :: calls Condition ++ (calls
        TrueExpression ++ (calls FalseExpression))
  | ast.FunctionCall Expression Arguments _ _ =>
      (ast.NodeFunctionCall, Some node) :: calls Expression ++ (flat_map
        calls Arguments)
  | ast.FunctionCallOptions Expression _ Options =>
      (ast.NodeFunctionCallOptions, Some node) :: calls Expression ++
        (flat_map calls Options)
  | ast.MemberAccess Expression _ =>
      (ast.NodeMemberAccess, Some node) :: calls Expression
  | ast.IndexAccess Base Index =>
      (ast.NodeIndexAccess, Some node) :: calls Base ++ (match Index with
        Some c => calls c | None => [] end)
  | ast.IndexRangeAccess Base IndexStart IndexEnd =>
      (ast.NodeIndexRangeAccess, Some node) :: calls Base ++ ((match
        IndexStart with Some c => calls c | None => [] end) ++ (match
        IndexEnd with Some c => calls c | None => [] end))
  | ast.NewExpression TypeName =>
      (ast.NodeNewExpression, Some node) :: calls TypeName
  | ast.TupleExpression Components _ =>
      (ast.NodeTupleExpression, Some node) :: flat_map (fun o => match o with
        Some c => calls c | None => [] end) Components
  | ast.NameValueExpression Expression _ =>
      (ast.NodeNameValueExpression, Some node) :: calls Expression
  | ast.NameValueList _ _ _ => []
  | ast.Identifier _ =>
      (ast.NodeIdentifier, Some node) :: []
  | ast.NumberLiteral _ _ =>
      (ast.NodeNumberLiteral, Some node) :: []
  | ast.BooleanLiteral _ =>
      (ast.NodeBooleanLiteral, Some node) :: []
  | ast.StringLiteral _ _ _ =>
      (ast.NodeStringLiteral, Some node) :: []
  | ast.HexLiteral _ _ =>
      (ast.NodeHexLiteral, Some node) :: []
  | ast.InlineAssembly _ Body =>
      (ast.NodeInlineAssembly, Some node) :: calls Body
  | ast.AssemblyBlock Operations =>
      (ast.NodeAssemblyBlock, Some node) :: flat_map calls Operations
  | ast.AssemblyCall _ Arguments =>
      (ast.NodeAssemblyCall, Some node) :: flat_map calls Arguments
  | ast.AssemblyLocalDefinition _ Expression =>
      (ast.NodeAssemblyLocalDefinition, Some node) :: (match Expression with
        Some c => calls c | None => [] end)
  | ast.AssemblyAssignment _ Expression =>
      (ast.NodeAssemblyAssignment, Some node) :: calls Expression
  | ast.AssemblyIdentifier _ =>
      (ast.NodeAssemblyIdentifier, Some node) :: []
  | ast.AssemblyLiteral _ _ =>
      (ast.NodeAssemblyLiteral, Some node) :: []
  | ast.AssemblyIf Condition Body =>
      (ast.NodeAssemblyIf, Some node) :: calls Condition ++ (calls Body)
  | ast.AssemblySwitch Expression Cases =>
      (ast.NodeAssemblySwitch, Some node) :: calls Expression ++ (flat_map
        calls Cases)
  | ast.AssemblyCase Value Body _ =>
      (ast.NodeAssemblyCase, Some node) :: (match Value with Some c => calls
        c | None => [] end) ++ (calls Body)
  | ast.AssemblyFor Pre Condition Post Body =>
      (ast.NodeAssemblyFor, Some node) :: calls Pre ++ (calls Condition ++
        (calls Post ++ (calls Body)))
  | ast.AssemblyFunctionDefinition _ _ _ Body =>
      (ast.NodeAssemblyFunctionDefinition, Some node) :: calls Body
  end.

(** No field of pointer type that a walk takes is [nil], in the node or
    below it. *)
Fixpoint complete (node : ast.Node) : bool :=
  match ast.payload node with
  | ast.SourceUnit Children =>
      forallb complete Children
  | ast.PragmaDirective _ _ =>
      true
  | ast.ImportDirective _ _ _ _ _ _ =>
      true
  | ast.ContractDefinition _ BaseContracts SubNodes _ =>
      forallb complete BaseContracts && (forallb complete SubNodes)
  | ast.InheritanceSpecifier BaseName Arguments =>
      complete BaseName && (forallb complete Arguments)
  | ast.FunctionDefinition _ Parameters ReturnParameters Body _ Modifiers _ _
        _ _ _ _ =>
      forallb complete Parameters && (forallb complete ReturnParameters &&
        (forallb complete Modifiers && (match Body with Some c => complete c
        | None => false end)))
  | ast.ModifierDefinition _ Parameters Body _ _ =>
      forallb complete Parameters && (match Body with Some c => complete c |
        None => false end)
  | ast.ModifierInvocation _ Arguments =>
      forallb complete Arguments
  | ast.StateVariableDeclaration Variables InitialValue =>
      forallb complete Variables && (match InitialValue with Some c =>
        complete c | None => true end)
  | ast.VariableDeclaration TypeName _ _ _ _ _ _ _ _ _ Expression =>
      complete TypeName && (match Expression with Some c => complete c | None
        => true end)
  | ast.VariableDeclarationStatement Variables InitialValue =>
      forallb (fun o => match o with Some c => complete c | None => false
        end) Variables && (match InitialValue with Some c => complete c |
        None => true end)
  | ast.StructDefinition _ Members =>
      forallb complete Members
  | ast.EnumDefinition _ Members =>
      forallb complete Members
  | ast.EnumValue _ =>
      true
  | ast.EventDefinition _ Parameters _ =>
      forallb complete Parameters
  | ast.ErrorDefinition _ Parameters =>
      forallb complete Parameters
  | ast.UserDefinedValueTypeDefinition _ UnderlyingType =>
      complete UnderlyingType
  | ast.UsingForDeclaration TypeName _ _ _ _ =>
      match TypeName with Some c => complete c | None => true end
  | ast.ElementaryTypeName _ _ =>
      true
  | ast.UserDefinedTypeName _ =>
      true
  | ast.Mapping KeyType _ ValueType _ =>
      complete KeyType && (complete ValueType)
  | ast.ArrayTypeName BaseTypeName Length =>
      complete BaseTypeName && (match Length with Some c => complete c | None
        => true end)
  | ast.FunctionTypeName ParameterTypes ReturnTypes _ _ =>
      forallb complete ParameterTypes && (forallb complete ReturnTypes)
  | ast.Block Statements =>
      forallb complete Statements
  | ast.UncheckedBlock Body =>
      complete Body
  | ast.ExpressionStatement Expression =>
      complete Expression
  | ast.IfStatement Condition TrueBody FalseBody =>
      complete Condition && (complete TrueBody && (match FalseBody with Some
        c => complete c | None => true end))
  | ast.WhileStatement Condition Body =>
      complete Condition && (complete Body)
  | ast.DoWhileStatement Condition Body =>
      complete Condition && (complete Body)
  | ast.ForStatement InitExpression ConditionExpression LoopExpression Body =>
      (match InitExpression with Some c => complete c | None => true end) &&
        ((match ConditionExpression with Some c => complete c | None => true
        end) && ((match LoopExpression with Some c => complete c | None =>
        true end) && (complete Body)))
  | ast.ContinueStatement =>
      true
  | ast.BreakStatement =>
      true
  | ast.ReturnStatement Expression =>
      match Expression with Some c => complete c | None => true end
  | ast.EmitStatement EventCall =>
      complete EventCall
  | ast.RevertStatement RevertCall =>
      match RevertCall with Some c => complete c | None => true end
  | ast.TryStatement Expression _ Body CatchClauses =>
      complete Expression && (complete Body && (forallb complete
        CatchClauses))
  | ast.CatchClause _ _ Parameters Body =>
      forallb complete Parameters && (complete Body)
  | ast.BinaryOperation _ Left Right =>
      complete Left && (complete Right)
  | ast.UnaryOperation _ SubExpression _ =>
      complete SubExpression
  | ast.Conditional Condition TrueExpression FalseExpression =>
      complete Condition && (complete TrueExpression && (complete
        FalseExpression))
  | ast.FunctionCall Expression Arguments _ _ =>
      complete Expression && (forallb complete Arguments)
  | ast.FunctionCallOptions Expression _ Options =>
      complete Expression && (forallb complete Options)
  | ast.MemberAccess Expression _ =>
      complete Expression
  | ast.IndexAccess Base Index =>
      complete Base && (match Index with Some c => complete c | None => true
        end)
  | ast.IndexRangeAccess Base IndexStart IndexEnd =>
      complete Base && ((match IndexStart with Some c => complete c | None =>
        true end) && (match IndexEnd with Some c => complete c | None => true
        end))
  | ast.NewExpression TypeName =>
      complete TypeName
  | ast.TupleExpression Components _ =>
      forallb (fun o => match o with Some c => complete c | None => true end)
        Components
  | ast.NameValueExpression Expression _ =>
      complete Expression
  | ast.NameValueList _ _ _ => true
  | ast.Identifier _ =>
      true
  | ast.NumberLiteral _ _ =>
      true
  | ast.BooleanLiteral _ =>
      true
  | ast.StringLiteral _ _ _ =>
      true
  | ast.HexLiteral _ _ =>
      true
  | ast.InlineAssembly _ Body =>
      complete Body
  | ast.AssemblyBlock Operations =>
      forallb complete Operations
  | ast.AssemblyCall _ Arguments =>
      forallb complete Arguments
  | ast.AssemblyLocalDefinition _ Expression =>
      match Expression with Some c => complete c | None => true end
  | ast.AssemblyAssignment _ Expression =>
      complete Expression
  | ast.AssemblyIdentifier _ =>
      true
  | ast.AssemblyLiteral _ _ =>
      true
  | ast.AssemblyIf Condition Body =>
      complete Condition && (complete Body)
  | ast.AssemblySwitch Expression Cases =>
      complete Expression && (forallb complete Cases)
  | ast.AssemblyCase Value Body _ =>
      (match Value with Some c => complete c | None => true end) && (complete
        Body)
  | ast.AssemblyFor Pre Condition Post Body =>
      complete Pre && (complete Condition && (complete Post && (complete
        Body)))
  | ast.AssemblyFunctionDefinition _ _ _ Body =>
      complete Body
  end.

(** The calls [cs] made one after the other from a state of the
    visitor, if [ok]; a panic otherwise. *)
Definition replay {S : Type} (fns : ast.SimpleVisitor S) (ok : bool)
  (cs : list Call) : ast.Walker :=
  fun s => if ok then Some (fold_left (run_call fns) cs s) else None.

(** A tree to walk: an interface, whose function has no body. *)
Definition bodyless_input : string :=
  "interface I { function f() external; }".

(** The visitor of [TestVisitor]: it collects the names of the
    functions. *)
Definition collect_function_names : ast.SimpleVisitor (list string) :=
  fun method =>
    if String.eqb method ast.NodeFunctionDefinition then
      Some (fun node names =>
              match node with
              | Some n =>
                  match ast.payload n with
                  | ast.FunctionDefinition name _ _ _ _ _ _ _ _ _ _ _ =>
                      names ++ [name]
                  | _ => names
                  end
              | None => names
              end)
    else None.

(** A walk that ends, from every state of the visitor. *)
Definition safe {S : Type} (w : ast.Walker (S:=S)) : Prop :=
  forall s, exists s', w s = Some s'.

(** The source text of [TestVisitor], and its tree. *)
Definition visitor_input : string :=
  "
		contract Test {
			function foo() public {}
			function bar() private {}
		}
	".

Definition tree_of (input : string) : ast.Node :=
  match parsed (parser.Parse input None) with
  | Some root => root
  | None => ast.new ast.NodeSourceUnit (ast.SourceUnit [])
  end.

Definition visitor_tree : ast.Node :=
  Eval vm_compute in tree_of visitor_input.

(* ================================================================== *)
(** * The precedence table *)
(* ================================================================== *)

Definition is_some {A : Type} (x : option A) : bool :=
  match x with
  | Some _ => true
  | None => false
  end.

(** The levels of the binary operators, lowest first, as the
    specification numbers them, with their operators; [true] marks a
    right-associative level (level 2 is the ternary operator, the levels
    from 14 on are the unary operators and the primaries). *)
Definition binary_levels : list (nat * list string * bool) :=
  [ (1, ["="; "+="; "-="; "*="; "/="; "%="; "&="; "|="; "^="; "<<=";
         ">>="; ">>>="], true);
    (3, ["||"], false);
    (4, ["&&"], false);
    (5, ["=="; "!="], false);
    (6, ["<"; "<="; ">"; ">="], false);
    (7, ["|"], false);
    (8, ["^"], false);
    (9, ["&"], false);
    (10, ["<<"; ">>"; ">>>"], false);
    (11, ["+"; "-"], false);
    (12, ["*"; "/"; "%"], false);
    (13, ["**"], true) ].

(** The row of an operator. *)
Definition row_of (op : string) : option (nat * list string * bool) :=
  find (fun row => word_in (snd (fst row)) op) binary_levels.

(** The level of an operator, if it is one of the table. *)
Definition level (op : string) : option nat :=
  option_map (fun row => fst (fst row)) (row_of op).

(** An expression of identifiers and binary operators. *)
Inductive expression : Type :=
  | Name (name : string)
  | Binary (op : string) (left right : expression).

(** The tree of such an expression, as the builder makes its nodes. *)
Fixpoint node_of (e : expression) : ast.Node :=
  match e with
  | Name name => newIdentifier name
  | Binary op l r => newBinaryOperation op (node_of l) (node_of r)
  end.

(** The identifiers and operators of an expression, from left to
    right. *)
Inductive item : Type :=
  | Identifier_ (name : string)
  | Operator_ (op : string).

Fixpoint in_order (e : expression) : list item :=
  match e with
  | Name name => [Identifier_ name]
  | Binary op l r => in_order l ++ Operator_ op :: in_order r
  end.

(** The level of an expression: that of its operator; an identifier is
    a primary, level 16. *)
Definition level_of (e : expression) : nat :=
  match e with
  | Name _ => 16
  | Binary op _ _ => match level op with
                     | Some n => n
                     | None => 0
                     end
  end.

(** An expression is nested as the table says when each operand of an
    operator of level [n] is of a higher level than [n], or of level [n]
    itself on the side to which the level associates: the left operand
    of a left-associative operator, the right operand of a
    right-associative one. *)
Fixpoint follows_table (e : expression) : bool :=
  match e with
  | Name _ => true
  | Binary op l r =>
      match row_of op with
      | Some (n, _, to_right) =>
          follows_table l && follows_table r
          && (if to_right then (n <? level_of l) && (n <=? level_of r)
              else (n <=? level_of l) && (n <? level_of r))
      | None => false
      end
  end.

(** The tokens of the operands and of the operators: an identifier; a
    token whose type is named by an operator of the table. *)
Definition operand (t : lexer.Token) : bool :=
  lexer.eqb (lexer.Type_ t) lexer.IDENTIFIER.

Definition operator (t : lexer.Token) : bool :=
  is_some (level (lexer.String_ (lexer.Type_ t))).

(** The identifier or operator a token of an expression stands for. *)
Definition item_of (t : lexer.Token) : item :=
  if operand t then Identifier_ (lexer.Value t)
  else Operator_ (lexer.Value t).

(** The level of an operator among the items; an identifier is a
    primary. *)
Definition item_level (i : item) : nat :=
  match i with
  | Identifier_ _ => 16
  | Operator_ op => match level op with
                    | Some n => n
                    | None => 0
                    end
  end.

(** Operators and operands in turn, up to the final [EOF]. *)
Fixpoint operators_and_operands (ts : list lexer.Token) : bool :=
  match ts with
  | [e] => lexer.eqb (lexer.Type_ e) lexer.EOF
  | o :: x :: rest => operator o && operand x && operators_and_operands rest
  | _ => false
  end.

(** The tokens of an expression of identifiers and binary operators:
    an operand, then operators and operands in turn, then [EOF]. *)
Definition expression_chain (ts : list lexer.Token) : bool :=
  match ts with
  | x :: rest => operand x && operators_and_operands rest
  | [] => false
  end.

(** A chain with operators of ten levels. *)
Definition chain_input : string :=
  "a = b || c && d == e < f | g ^ h & i << j - k * l ** m ** n / o >= p".

(** The tokens from the cursor on. *)
Definition ahead (b : Builder) : list lexer.Token :=
  skipn (pos b) (tokens b).

(** The operators among the tokens have their text as value (as the
    scanner makes them). *)
Definition named (ts : list lexer.Token) : Prop :=
  Forall (fun t => operator t = true ->
                   lexer.Value t = lexer.String_ (lexer.Type_ t)) ts.

(** The next token is not an operator of level [n] or higher. *)
Definition stops (n : nat) (ts : list lexer.Token) : Prop :=
  forall t rest m, ts = t :: rest ->
    level (lexer.String_ (lexer.Type_ t)) = Some m -> m < n.

(** The next token is an operator of level [n]. *)
Definition at_level (n : nat) (b : Builder) : bool :=
  match level (lexer.String_ (lexer.Type_ (peek b))) with
  | Some m => m =? n
  | None => false
  end.

(** What a method does in front of the operand [x] and the tokens
    [rest]: it returns the tree of an expression [e] of level [n] or
    higher, made of the tokens [used] it has consumed, and stops in
    front of [rest'], which no operator of level [s] or higher starts;
    it leaves the tokens, the errors and the options alone. *)
Definition parsed_to (n s : nat) (b : Builder) (x : lexer.Token)
  (rest : list lexer.Token) (node : ast.Node) (b' : Builder) : Prop :=
  exists e used rest',
    node = node_of e /\
    tokens b' = tokens b /\ errors b' = errors b /\
    options b' = options b /\
    ahead b' = rest' /\ x :: rest = used ++ rest' /\
    length rest' <= length rest /\
    in_order e = map item_of used /\
    follows_table e = true /\ n <= level_of e /\
    operators_and_operands rest' = true /\ named rest' /\
    stops s rest'.

(** What a method of level [n] does: the expression is of level [n] or
    higher and no operator of level [n] or higher is left in front. *)
Definition level_parsed (n : nat) := parsed_to n n.

(** A method of level [n]: it does so whenever at most [k] tokens follow
    the operand. *)
Definition parses_level (n : nat) (m : M ast.Node) (k : nat) : Prop :=
  forall b x rest,
    ahead b = x :: rest -> operand x = true ->
    operators_and_operands rest = true -> named rest ->
    length rest <= k ->
    ok m b (level_parsed n b x rest).

(** The two right-associative levels are reached through [Rec]. *)
Definition rec_parses (k : nat) (rec : Rec) : Prop :=
  (forall j, j < k -> parses_level 13 (call_parseExponentiation rec) j) /\
  (forall j, j < k -> parses_level 1 (call_parseAssignment rec) j).

(* ================================================================== *)
(** * What the builder keeps *)
(* ================================================================== *)

(** The name of the struct of a node, as the [NodeType] constant of the
    struct gives it. *)
Definition struct_name (p : ast.Payload) : ast.NodeType :=
  match p with
  | ast.SourceUnit _ => ast.NodeSourceUnit
  | ast.PragmaDirective _ _ => ast.NodePragmaDirective
  | ast.ImportDirective _ _ _ _ _ _ => ast.NodeImportDirective
  | ast.ContractDefinition _ _ _ _ => ast.NodeContractDefinition
  | ast.InheritanceSpecifier _ _ => ast.NodeInheritanceSpecifier
  | ast.FunctionDefinition _ _ _ _ _ _ _ _ _ _ _ _ => ast.NodeFunctionDefinition
  | ast.ModifierDefinition _ _ _ _ _ => ast.NodeModifierDefinition
  | ast.ModifierInvocation _ _ => ast.NodeModifierInvocation
  | ast.StateVariableDeclaration _ _ => ast.NodeStateVariableDeclaration
  | ast.VariableDeclaration _ _ _ _ _ _ _ _ _ _ _ => ast.NodeVariableDeclaration
  | ast.VariableDeclarationStatement _ _ => ast.NodeVariableDeclarationStatement
  | ast.StructDefinition _ _ => ast.NodeStructDefinition
  | ast.EnumDefinition _ _ => ast.NodeEnumDefinition
  | ast.EnumValue _ => ast.NodeEnumValue
  | ast.EventDefinition _ _ _ => ast.NodeEventDefinition
  | ast.ErrorDefinition _ _ => ast.NodeErrorDefinition
  | ast.UserDefinedValueTypeDefinition _ _ => ast.NodeUserDefinedValueTypeDefinition
  | ast.UsingForDeclaration _ _ _ _ _ => ast.NodeUsingForDeclaration
  | ast.ElementaryTypeName _ _ => ast.NodeElementaryTypeName
  | ast.UserDefinedTypeName _ => ast.NodeUserDefinedTypeName
  | ast.Mapping _ _ _ _ => ast.NodeMapping
  | ast.ArrayTypeName _ _ => ast.NodeArrayTypeName
  | ast.FunctionTypeName _ _ _ _ => ast.NodeFunctionTypeName
  | ast.Block _ => ast.NodeBlock
  | ast.UncheckedBlock _ => ast.NodeUncheckedBlock
  | ast.ExpressionStatement _ => ast.NodeExpressionStatement
  | ast.IfStatement _ _ _ => ast.NodeIfStatement
  | ast.WhileStatement _ _ => ast.NodeWhileStatement
  | ast.DoWhileStatement _ _ => ast.NodeDoWhileStatement
  | ast.ForStatement _ _ _ _ => ast.NodeForStatement
  | ast.ContinueStatement => ast.NodeContinueStatement
  | ast.BreakStatement => ast.NodeBreakStatement
  | ast.ReturnStatement _ => ast.NodeReturnStatement
  | ast.EmitStatement _ => ast.NodeEmitStatement
  | ast.RevertStatement _ => ast.NodeRevertStatement
  | ast.TryStatement _ _ _ _ => ast.NodeTryStatement
  | ast.CatchClause _ _ _ _ => ast.NodeCatchClause
  | ast.BinaryOperation _ _ _ => ast.NodeBinaryOperation
  | ast.UnaryOperation _ _ _ => ast.NodeUnaryOperation
  | ast.Conditional _ _ _ => ast.NodeConditional
  | ast.FunctionCall _ _ _ _ => ast.NodeFunctionCall
  | ast.FunctionCallOptions _ _ _ => ast.NodeFunctionCallOptions
  | ast.MemberAccess _ _ => ast.NodeMemberAccess
  | ast.IndexAccess _ _ => ast.NodeIndexAccess
  | ast.IndexRangeAccess _ _ _ => ast.NodeIndexRangeAccess
  | ast.NewExpression _ => ast.NodeNewExpression
  | ast.TupleExpression _ _ => ast.NodeTupleExpression
  | ast.NameValueExpression _ _ => ast.NodeNameValueExpression
  | ast.NameValueList _ _ _ => "NameValueList"
  | ast.Identifier _ => ast.NodeIdentifier
  | ast.NumberLiteral _ _ => ast.NodeNumberLiteral
  | ast.BooleanLiteral _ => ast.NodeBooleanLiteral
  | ast.StringLiteral _ _ _ => ast.NodeStringLiteral
  | ast.HexLiteral _ _ => ast.NodeHexLiteral
  | ast.InlineAssembly _ _ => ast.NodeInlineAssembly
  | ast.AssemblyBlock _ => ast.NodeAssemblyBlock
  | ast.AssemblyCall _ _ => ast.NodeAssemblyCall
  | ast.AssemblyLocalDefinition _ _ => ast.NodeAssemblyLocalDefinition
  | ast.AssemblyAssignment _ _ => ast.NodeAssemblyAssignment
  | ast.AssemblyIdentifier _ => ast.NodeAssemblyIdentifier
  | ast.AssemblyLiteral _ _ => ast.NodeAssemblyLiteral
  | ast.AssemblyIf _ _ => ast.NodeAssemblyIf
  | ast.AssemblySwitch _ _ => ast.NodeAssemblySwitch
  | ast.AssemblyCase _ _ _ => ast.NodeAssemblyCase
  | ast.AssemblyFor _ _ _ _ => ast.NodeAssemblyFor
  | ast.AssemblyFunctionDefinition _ _ _ _ => ast.NodeAssemblyFunctionDefinition
  end.

(** A node is as the builder makes it: its [Type] is the name of its
    struct, it has a [Loc] only if the [Loc] option is set, and a
    [Range] only if the [Range] option is set. *)
Definition node_ok (o : Options) (n : ast.Node) : bool :=
  String.eqb (ast.GetType n) (struct_name (ast.payload n))
  && implb (is_some (ast.GetLocation n)) (Loc o)
  && implb (is_some (ast.GetRange n)) (Range o).

(** [P] holds of a node and of all the nodes below it. *)
Inductive Everywhere (P : ast.Node -> Prop) : ast.Node -> Prop :=
  | everywhere (n : ast.Node) :
      P n ->
      (forall c, In c (children (ast.payload n)) -> Everywhere P c) ->
      Everywhere P n.

Definition tree_ok (o : Options) : ast.Node -> Prop :=
  Everywhere (fun n => node_ok o n = true).

(** An error that carries the line and the column of one of the
    tokens. *)
Definition at_token (T : list lexer.Token) (e : Error) : Prop :=
  exists t, In t T /\ Line e = lexer.Line t /\ Column e = lexer.Column t.

Definition ends_with_EOF (T : list lexer.Token) : Prop :=
  exists ts t, T = ts ++ [t] /\ lexer.Type_ t = lexer.EOF.

(** The builder at work on the tokens [T] with the options [o]: the
    cursor is on a token, the errors recorded are at tokens. *)
Definition state_ok (o : Options) (T : list lexer.Token) (b : Builder)
  : Prop :=
  options b = o /\ tokens b = T /\ pos b < length T /\
  Forall (at_token T) (errors b).

(** What a value a method returns must satisfy, by its type: the trees
    in it are [tree_ok], the errors at tokens, the saved cursors on a
    token. *)
Class Good (A : Type) : Type :=
  good : Options -> list lexer.Token -> A -> Prop.

#[export] Instance good_node : Good ast.Node := fun o _ => tree_ok o.
#[export] Instance good_error : Good Error := fun _ T => at_token T.
#[export] Instance good_nat : Good nat := fun _ T p => p < length T.
#[export] Instance good_token : Good lexer.Token := fun _ _ _ => True.
#[export] Instance good_string : Good string := fun _ _ _ => True.
#[export] Instance good_bool : Good bool := fun _ _ _ => True.
#[export] Instance good_unit : Good unit := fun _ _ _ => True.
#[export] Instance good_symbol : Good ast.ImportSymbol := fun _ _ _ => True.
#[export] Instance good_list {A : Type} {G : Good A} : Good (list A) :=
  fun o T => Forall (good o T).
#[export] Instance good_option {A : Type} {G : Good A} : Good (option A) :=
  fun o T x => match x with
               | Some y => good o T y
               | None => True
               end.
#[export] Instance good_prod {A B : Type} {G : Good A} {H : Good B}
  : Good (A * B) :=
  fun o T x => good o T (fst x) /\ good o T (snd x).
#[export] Instance good_sum {A B : Type} {G : Good A} {H : Good B}
  : Good (A + B) :=
  fun o T x => match x with
               | inl y => good o T y
               | inr z => good o T z
               end.
#[export] Instance good_location : Good ast.Location :=
  fun o _ _ => Loc o = true.
#[export] Instance good_statevar : Good StateVarModifiers :=
  fun o T m => good o T (sv_Override m).
#[export] Instance good_modifiers : Good FunctionModifiers :=
  fun o T m => good o T (Override m) /\ good o T (Modifiers m).

(** [m] keeps the state as [state_ok] wants it and returns a [good]
    value. *)
Definition keeps (o : Options) (T : list lexer.Token) {A : Type}
  {G : Good A} (m : M A) : Prop :=
  forall b x b', state_ok o T b -> m b = Some (x, b') ->
                 state_ok o T b' /\ good o T x.

(** The same of the callees behind [Rec]. *)
Record RecKeeps (o : Options) (T : list lexer.Token) (rec : Rec) : Prop :=
  mkRecKeeps {
    keeps_parseTypeName : keeps o T (call_parseTypeName rec);
    keeps_parseExpression : keeps o T (call_parseExpression rec);
    keeps_parseAssignment : keeps o T (call_parseAssignment rec);
    keeps_parseTernary : keeps o T (call_parseTernary rec);
    keeps_parseExponentiation : keeps o T (call_parseExponentiation rec);
    keeps_parseUnary : keeps o T (call_parseUnary rec);
    keeps_parseStatement : keeps o T (call_parseStatement rec);
    keeps_parseAssemblyExpression :
      keeps o T (call_parseAssemblyExpression rec);
    keeps_parseAssemblyStatement_ :
      keeps o T (call_parseAssemblyStatement_ rec)
  }.

(** * The scanner *)

Module lexer_facts.
Import lexer.

(** ** Token types *)

Lemma eqb_eq t u : eqb t u = true <-> t = u.
Proof.
  split.
  - unfold eqb. intros H. apply Nat.eqb_eq in H.
    assert (inv : forall x, nth (code x)
      [EOF; ILLEGAL; COMMENT; IDENTIFIER;
       NUMBER; HEX_NUMBER; STRING; HEX_STRING;
       UNICODE_STRING; ABSTRACT; ADDRESS;
       ANONYMOUS; AS; ASSEMBLY; BOOL; BREAK;
       BYTES; CALLDATA; CASE; CATCH;
       CONSTANT; CONSTRUCTOR; CONTINUE; CONTRACT;
       DEFAULT; DELETE; DO; ELSE; EMIT;
       ENUM; ERROR; EVENT; EXTERNAL;
       FALLBACK; FALSE; FIXED; FOR; FROM;
       FUNCTION; GLOBAL; HEX; IF; IMMUTABLE;
       IMPORT; INDEXED; INTERFACE; INTERNAL;
       IS; LET; LIBRARY; MAPPING; MEMORY;
       MODIFIER; NEW; OVERRIDE; PAYABLE;
       PRAGMA; PRIVATE; PUBLIC; PURE;
       RECEIVE; RETURN; RETURNS; REVERT;
       STORAGE; STRING_TYPE; STRUCT; SWITCH;
       TRANSIENT; TRUE; TRY; TYPE; UFIXED;
       UNCHECKED; UNICODE; USING; VIEW;
       VIRTUAL; WHILE; LAYOUT; AT; INT;
       UINT; BYTE; BYTES_N; FIXED_N;
       UFIXED_N; LPAREN; RPAREN; LBRACK;
       RBRACK; LBRACE; RBRACE; COLON;
       SEMICOLON; PERIOD; COMMA; QUESTION;
       ARROW; RIGHT_ARROW; ASSIGN; ASSIGN_ADD;
       ASSIGN_SUB; ASSIGN_MUL; ASSIGN_DIV;
       ASSIGN_MOD; ASSIGN_AND; ASSIGN_OR;
       ASSIGN_XOR; ASSIGN_SHL; ASSIGN_SHR;
       ASSIGN_SAR; EQ; NEQ; LT; GT;
       LTE; GTE; AND; OR; NOT;
       BIT_AND; BIT_OR; BIT_XOR; BIT_NOT;
       SHL; SHR; SAR; ADD; SUB; MUL;
       DIV; MOD; EXP; INC; DEC] EOF
      = x) by (intros x; destruct x; reflexivity).
    rewrite <- (inv t), <- (inv u), H. reflexivity.
  - intros ->. unfold eqb. apply Nat.eqb_refl.
Qed.

(** ** The bounds of the scanner's loops *)

Lemma scanned_refl l : scanned l l.
Proof. unfold scanned. auto. Qed.

Lemma scanned_trans a b c : scanned a b -> scanned b c -> scanned a c.
Proof.
  unfold scanned, len. intros (Hi & Hp & Hb) (Hi' & Hp' & Hb').
  rewrite Hi' in *. rewrite Hi in *. repeat split; auto; lia.
Qed.

Lemma len_le l l' : scanned l l' -> len l' = len l.
Proof. unfold scanned, len. intros (-> & _). reflexivity. Qed.

Lemma remaining_le l l' : scanned l l' -> remaining l' <= remaining l.
Proof.
  intros H. pose proof (len_le _ _ H) as E. destruct H as (_ & Hp & _).
  unfold remaining. lia.
Qed.

Lemma advance_pos l :
  input (advance_ l) = input l /\
  pos (advance_ l) = (if pos l <? len l then S (pos l) else pos l).
Proof.
  unfold advance_, advance.
  destruct (len l <=? pos l) eqn:E.
  - apply Nat.leb_le in E. simpl.
    destruct (pos l <? len l) eqn:F; [apply Nat.ltb_lt in F; lia | auto].
  - apply Nat.leb_gt in E.
    destruct (pos l <? len l) eqn:F; [|apply Nat.ltb_ge in F; lia].
    destruct (Ascii.eqb _ _); simpl; auto.
Qed.

Lemma advance_le l : scanned l (advance_ l).
Proof.
  destruct (advance_pos l) as [Hi Hp]. unfold scanned, len. rewrite Hi, Hp.
  destruct (pos l <? len l) eqn:F.
  - apply Nat.ltb_lt in F. unfold len in F. repeat split; lia.
  - repeat split; lia.
Qed.

(** An [advance] before the end consumes one byte. *)
Lemma advance_lt l : pos l < len l -> remaining (advance_ l) < remaining l.
Proof.
  intros H. destruct (advance_pos l) as [Hi Hp].
  unfold remaining, len in *. rewrite Hi, Hp.
  destruct (pos l <? String.length (input l)) eqn:F.
  - lia.
  - apply Nat.ltb_ge in F. lia.
Qed.

Lemma fst_advance_le l : scanned l (snd (advance l)).
Proof. apply advance_le. Qed.

Lemma advanceWhile_le cond n : forall l, scanned l (advanceWhile n cond l).
Proof.
  induction n as [|n IH]; intros l; simpl; [apply scanned_refl|].
  destruct (_ && _); [|apply scanned_refl].
  eapply scanned_trans; [apply advance_le | apply IH].
Qed.

(** The loop stops by its own test within [remaining l] rounds: more
    rounds change nothing. *)
Lemma advanceWhile_bound cond n :
  forall l k, remaining l <= n ->
    advanceWhile (n + k) cond l = advanceWhile n cond l.
Proof.
  induction n as [|n IH]; intros l k H.
  - destruct k as [|k]; [reflexivity|]. simpl.
    destruct (pos l <? len l) eqn:F; [|reflexivity].
    apply Nat.ltb_lt in F. unfold remaining in H. lia.
  - simpl. destruct (pos l <? len l) eqn:F; [|reflexivity].
    destruct (cond (peek l)); [|reflexivity]. simpl.
    apply IH. apply Nat.ltb_lt in F. pose proof (advance_lt l F). lia.
Qed.

Lemma skipBlockComment_le n : forall l, scanned l (skipBlockComment n l).
Proof.
  induction n as [|n IH]; intros l; simpl; [apply scanned_refl|].
  destruct (pos l <? len l); [|apply scanned_refl].
  destruct (_ && _).
  - eapply scanned_trans; apply advance_le.
  - eapply scanned_trans; [apply advance_le | apply IH].
Qed.

Lemma skipBlockComment_bound n :
  forall l k, remaining l <= n ->
    skipBlockComment (n + k) l = skipBlockComment n l.
Proof.
  induction n as [|n IH]; intros l k H.
  - destruct k as [|k]; [reflexivity|]. simpl.
    destruct (pos l <? len l) eqn:F; [|reflexivity].
    apply Nat.ltb_lt in F. unfold remaining in H. lia.
  - simpl. destruct (pos l <? len l) eqn:F; [|reflexivity].
    destruct (_ && _); [reflexivity|].
    apply IH. apply Nat.ltb_lt in F. pose proof (advance_lt l F). lia.
Qed.

Lemma skipLoop_le n : forall l, scanned l (skipLoop n l).
Proof.
  induction n as [|n IH]; intros l; simpl; [apply scanned_refl|].
  destruct (pos l <? len l); [|apply scanned_refl].
  destruct (isWhitespace (peek l)).
  { eapply scanned_trans; [apply advance_le | apply IH]. }
  destruct (_ && _).
  { eapply scanned_trans; [|apply IH].
    eapply scanned_trans; [|apply advanceWhile_le].
    eapply scanned_trans; apply advance_le. }
  destruct (_ && _); [|apply scanned_refl].
  eapply scanned_trans; [|apply IH].
  eapply scanned_trans; [|apply skipBlockComment_le].
  eapply scanned_trans; apply advance_le.
Qed.

Lemma skipLoop_bound n :
  forall l k, remaining l <= n -> skipLoop (n + k) l = skipLoop n l.
Proof.
  induction n as [|n IH]; intros l k H.
  - destruct k as [|k]; [reflexivity|]. simpl.
    destruct (pos l <? len l) eqn:F; [|reflexivity].
    apply Nat.ltb_lt in F. unfold remaining in H. lia.
  - simpl. destruct (pos l <? len l) eqn:F; [|reflexivity].
    apply Nat.ltb_lt in F. pose proof (advance_lt l F) as Hlt.
    destruct (isWhitespace (peek l)); [apply IH; lia|].
    destruct (_ && _).
    { apply IH.
      pose proof (remaining_le _ _ (advance_le (advance_ l))).
      pose proof (remaining_le _ _
        (advanceWhile_le (fun c => negb (Ascii.eqb c newline))
           (remaining (advance_ (advance_ l))) (advance_ (advance_ l)))).
      lia. }
    destruct (_ && _); [|reflexivity].
    apply IH.
    pose proof (remaining_le _ _ (advance_le (advance_ l))).
    pose proof (remaining_le _ _
      (skipBlockComment_le (remaining (advance_ (advance_ l)))
         (advance_ (advance_ l)))).
    lia.
Qed.

Lemma skipWhitespaceAndComments_le l : scanned l (skipWhitespaceAndComments l).
Proof. apply skipLoop_le. Qed.

Lemma readStringLoop_le quote n :
  forall sb l, scanned l (snd (readStringLoop n quote sb l)).
Proof.
  induction n as [|n IH]; intros sb l; simpl; [apply scanned_refl|].
  destruct (pos l <? len l); [|apply scanned_refl].
  destruct (Ascii.eqb (peek l) quote); [apply advance_le|].
  destruct (_ && _).
  { destruct (advance (advance_ l)) as [escaped l2] eqn:E.
    eapply scanned_trans; [|apply IH].
    eapply scanned_trans; [apply advance_le|].
    change l2 with (snd (escaped, l2)). rewrite <- E. apply advance_le. }
  destruct (_ || _); [apply scanned_refl|].
  destruct (advance l) as [c l1] eqn:E.
  eapply scanned_trans; [|apply IH].
  change l1 with (snd (c, l1)). rewrite <- E. apply advance_le.
Qed.

Lemma readStringLoop_bound quote n :
  forall sb l k, remaining l <= n ->
    readStringLoop (n + k) quote sb l = readStringLoop n quote sb l.
Proof.
  induction n as [|n IH]; intros sb l k H.
  - destruct k as [|k]; [reflexivity|]. simpl.
    destruct (pos l <? len l) eqn:F; [|reflexivity].
    apply Nat.ltb_lt in F. unfold remaining in H. lia.
  - simpl. destruct (pos l <? len l) eqn:F; [|reflexivity].
    apply Nat.ltb_lt in F. pose proof (advance_lt l F) as Hlt.
    destruct (Ascii.eqb (peek l) quote); [reflexivity|].
    destruct (_ && _).
    { destruct (advance (advance_ l)) as [escaped l2] eqn:E.
      apply IH.
      assert (Hl : scanned (advance_ l) l2).
      { change l2 with (snd (escaped, l2)). rewrite <- E. apply advance_le. }
      pose proof (remaining_le _ _ Hl). lia. }
    destruct (_ || _); [reflexivity|].
    destruct (advance l) as [c l1] eqn:E.
    apply IH. change l1 with (snd (c, l1)). rewrite <- E.
    fold (advance_ l). lia.
Qed.

(** ** Every token but the last consumes input *)

Lemma advanceWhile_stuck cond n l :
  cond (peek l) = false -> advanceWhile n cond l = l.
Proof.
  intros H. destruct n as [|n]; [reflexivity|]. simpl. rewrite H.
  rewrite andb_false_r. reflexivity.
Qed.

Lemma advanceWhile_lt cond l :
  pos l < len l -> cond (peek l) = true ->
  remaining (advanceWhile (remaining l) cond l) < remaining l.
Proof.
  intros Hlt Hc. destruct (remaining l) as [|n] eqn:E;
    [unfold remaining in E; lia|].
  simpl. rewrite Hc. apply Nat.ltb_lt in Hlt. rewrite Hlt. simpl.
  apply Nat.ltb_lt in Hlt.
  pose proof (remaining_le _ _ (advanceWhile_le cond n (advance_ l))).
  pose proof (advance_lt l Hlt). lia.
Qed.

Lemma readIdentifier_scanned l line column :
  scanned l (snd (readIdentifier l line column)).
Proof. apply advanceWhile_le. Qed.

Lemma readIdentifier_lt l line column :
  pos l < len l -> isIdentifierStart (peek l) = true ->
  remaining (snd (readIdentifier l line column)) < remaining l.
Proof.
  intros Hlt Hc. apply advanceWhile_lt; [exact Hlt|].
  unfold isIdentifierPart. rewrite Hc. reflexivity.
Qed.

Lemma readNumber_scanned l line column :
  scanned l (snd (readNumber l line column)).
Proof.
  unfold readNumber. cbv beta zeta iota delta [snd].
  set (l1 := advanceWhile (remaining l) isDigitOrUnderscore l).
  assert (H1 : scanned l l1) by apply advanceWhile_le.
  set (l2 := if _ && _ then _ else l1).
  assert (H2 : scanned l1 l2).
  { subst l2. destruct (_ && _); [|apply scanned_refl].
    eapply scanned_trans; [apply advance_le | apply advanceWhile_le]. }
  assert (H3 : scanned l2
    (if Ascii.eqb (peek l2) "e" || Ascii.eqb (peek l2) "E"
     then let la := advance_ l2 in
          let lb := if Ascii.eqb (peek la) "+" || Ascii.eqb (peek la) "-"
                    then advance_ la else la in
          advanceWhile (remaining lb) isDigitOrUnderscore lb
     else l2)).
  { destruct (_ || _); [|apply scanned_refl]. cbv zeta.
    eapply scanned_trans; [apply advance_le|].
    eapply scanned_trans; [|apply advanceWhile_le].
    destruct (_ || _); [apply advance_le | apply scanned_refl]. }
  eapply scanned_trans; [exact H1|]. eapply scanned_trans; [exact H2|].
  exact H3.
Qed.

Lemma isDigit_not_period c : isDigit c = true -> Ascii.eqb c "." = false.
Proof.
  intros H. destruct (Ascii.eqb c ".") eqn:E; [|reflexivity].
  apply Ascii.eqb_eq in E. subst c. discriminate H.
Qed.

Lemma peekAt_0 l : peekAt l 0 = peek l.
Proof. unfold peekAt, peek. rewrite Nat.add_0_r. reflexivity. Qed.

Lemma peek_advance l : pos l < len l -> peek (advance_ l) = peekAt l 1.
Proof.
  intros H. destruct (advance_pos l) as [Hi Hp].
  apply Nat.ltb_lt in H. rewrite H in Hp.
  unfold peek, peekAt, len. rewrite Hi, Hp, Nat.add_1_r. reflexivity.
Qed.

Lemma readNumber_lt l line column :
  pos l < len l ->
  isDigit (peek l)
  || (Ascii.eqb (peek l) "." && (S (pos l) <? len l)
      && isDigit (peekAt l 1)) = true ->
  remaining (snd (readNumber l line column)) < remaining l.
Proof.
  intros Hlt Hc. unfold readNumber. cbv beta zeta iota delta [snd].
  set (l1 := advanceWhile (remaining l) isDigitOrUnderscore l).
  set (l2 := if _ && _ then _ else l1).
  set (l3 := if Ascii.eqb (peek l2) "e" || _ then _ else l2).
  assert (H1 : scanned l l1) by apply advanceWhile_le.
  assert (H2 : scanned l1 l2).
  { clear Hc. subst l2. destruct (_ && _); [|apply scanned_refl].
    eapply scanned_trans; [apply advance_le | apply advanceWhile_le]. }
  assert (H3 : scanned l2 l3).
  { clear Hc. subst l3. destruct (_ || _); [|apply scanned_refl]. cbv zeta.
    eapply scanned_trans; [apply advance_le|].
    eapply scanned_trans; [|apply advanceWhile_le].
    destruct (_ || _); [apply advance_le | apply scanned_refl]. }
  pose proof (remaining_le _ _ H2). pose proof (remaining_le _ _ H3).
  apply orb_true_iff in Hc. destruct Hc as [Hd | Hp].
  - assert (remaining l1 < remaining l); [|lia].
    apply advanceWhile_lt; [exact Hlt|].
    unfold isDigitOrUnderscore. rewrite Hd. reflexivity.
  - apply andb_true_iff in Hp. destruct Hp as [Hp Hd].
    apply andb_true_iff in Hp. destruct Hp as [Hp _].
    assert (E1 : l1 = l).
    { apply advanceWhile_stuck. apply Ascii.eqb_eq in Hp. rewrite Hp.
      reflexivity. }
    assert (remaining l2 < remaining l); [|lia].
    subst l2. rewrite E1, Hp, (isDigit_not_period _ Hd). simpl.
    pose proof (advance_lt l Hlt).
    pose proof (remaining_le _ _
      (advanceWhile_le isDigitOrUnderscore (remaining (advance_ l))
         (advance_ l))).
    lia.
Qed.

Lemma readHexNumber_scanned l line column :
  scanned l (snd (readHexNumber l line column)).
Proof.
  unfold readHexNumber. cbv zeta. simpl snd.
  eapply scanned_trans; [|apply advanceWhile_le].
  eapply scanned_trans; apply advance_le.
Qed.

Lemma readHexNumber_lt l line column :
  pos l < len l ->
  remaining (snd (readHexNumber l line column)) < remaining l.
Proof.
  intros Hlt. unfold readHexNumber. cbv zeta. simpl snd.
  pose proof (advance_lt l Hlt).
  pose proof (remaining_le _ _ (advance_le (advance_ l))).
  pose proof (remaining_le _ _
    (advanceWhile_le isHexDigitOrUnderscore
       (remaining (advance_ (advance_ l))) (advance_ (advance_ l)))).
  lia.
Qed.

Lemma readString_scanned l line column :
  scanned (advance_ l) (snd (readString l line column)).
Proof.
  unfold readString, advance_. cbv zeta.
  destruct (advance l) as [quote l1]. simpl snd.
  pose proof (readStringLoop_le quote (remaining l1) [] l1) as H.
  destruct (readStringLoop (remaining l1) quote [] l1) as [sb l2].
  exact H.
Qed.

Lemma readString_lt l line column :
  pos l < len l ->
  remaining (snd (readString l line column)) < remaining l.
Proof.
  intros Hlt. pose proof (advance_lt l Hlt).
  pose proof (remaining_le _ _ (readString_scanned l line column)). lia.
Qed.

Lemma readOperatorShort_scanned ch l1 line column start :
  scanned l1 (snd (readOperatorShort ch l1 line column start)).
Proof.
  unfold readOperatorShort, tok. cbv zeta.
  destruct (if pos l1 <? len l1 then _ else None); simpl snd.
  - apply advance_le.
  - destruct (singleCharType ch); apply scanned_refl.
Qed.

Lemma readOperator_scanned l line column :
  scanned (advance_ l) (snd (readOperator l line column)).
Proof.
  unfold readOperator, advance_, tok. cbv zeta.
  destruct (advance l) as [ch l1]. simpl snd.
  pose proof (advance_le l1) as A1.
  pose proof (advance_le (advance_ l1)) as A2.
  pose proof (advance_le (advance_ (advance_ l1))) as A3.
  pose proof (scanned_trans _ _ _ A1 A2) as A12.
  pose proof (scanned_trans _ _ _ A12 A3) as A123.
  repeat match goal with
         | |- context [if ?c then _ else _] => destruct c
         end; simpl snd;
    first [ assumption | apply readOperatorShort_scanned ].
Qed.

Lemma readOperator_lt l line column :
  pos l < len l ->
  remaining (snd (readOperator l line column)) < remaining l.
Proof.
  intros Hlt. pose proof (advance_lt l Hlt).
  pose proof (remaining_le _ _ (readOperator_scanned l line column)). lia.
Qed.

(** [NextToken] after the white space: the branch that is not at the
    end of the input. *)
Lemma NextToken_scanned l : scanned l (snd (NextToken l)).
Proof.
  unfold NextToken. cbv zeta.
  pose proof (skipWhitespaceAndComments_le l) as Hs.
  set (ls := skipWhitespaceAndComments l) in *.
  destruct (len ls <=? pos ls); [exact Hs|].
  set (l1 := {| input := input ls; pos := pos ls; line := line ls;
                column := column ls; start := pos ls |}).
  assert (H1 : scanned l l1).
  { destruct Hs as (Hi & Hp & Hb). unfold scanned, len. simpl.
    repeat split; assumption. }
  eapply scanned_trans; [exact H1|].
  destruct (isIdentifierStart _); [apply readIdentifier_scanned|].
  destruct (_ && _); [apply readHexNumber_scanned|].
  destruct (_ || _); [apply readNumber_scanned|].
  destruct (_ || _).
  - eapply scanned_trans; [apply advance_le | apply readString_scanned].
  - eapply scanned_trans; [apply advance_le | apply readOperator_scanned].
Qed.

Lemma NextToken_lt l :
  Type_ (fst (NextToken l)) = EOF \/
  remaining (snd (NextToken l)) < remaining l.
Proof.
  unfold NextToken. cbv zeta.
  pose proof (skipWhitespaceAndComments_le l) as Hs.
  set (ls := skipWhitespaceAndComments l) in *.
  destruct (len ls <=? pos ls) eqn:E; [left; reflexivity|]. right.
  apply Nat.leb_gt in E.
  set (l1 := {| input := input ls; pos := pos ls; line := line ls;
                column := column ls; start := pos ls |}).
  assert (Hr : remaining l1 <= remaining l)
    by (apply (remaining_le _ _ Hs)).
  assert (Hlt : pos l1 < len l1) by exact E.
  destruct (isIdentifierStart (peek l1)) eqn:C1.
  { exact (Nat.lt_le_trans _ _ _ (readIdentifier_lt l1 (line l1) (column l1) Hlt C1) Hr). }
  destruct (Ascii.eqb (peek l1) "0" && _ && _).
  { exact (Nat.lt_le_trans _ _ _ (readHexNumber_lt l1 (line l1) (column l1) Hlt) Hr). }
  destruct (isDigit (peek l1) || _) eqn:C3.
  { exact (Nat.lt_le_trans _ _ _ (readNumber_lt l1 (line l1) (column l1) Hlt C3) Hr). }
  destruct (Ascii.eqb (peek l1) double_quote || _).
  - exact (Nat.lt_le_trans _ _ _ (readString_lt l1 (line l1) (column l1) Hlt) Hr).
  - exact (Nat.lt_le_trans _ _ _ (readOperator_lt l1 (line l1) (column l1) Hlt) Hr).
Qed.

(** ** [Tokenize] reaches the end of the input *)

Lemma tokenizeLoop_EOF n :
  forall l, remaining l < n ->
    exists ts t, tokenizeLoop n l = ts ++ [t] /\ Type_ t = EOF /\
                 Forall (fun t => Type_ t <> EOF) ts.
Proof.
  induction n as [|n IH]; intros l H; [lia|]. simpl.
  pose proof (NextToken_lt l) as Hlt.
  destruct (NextToken l) as [t l']. simpl in Hlt.
  destruct (eqb (Type_ t) EOF) eqn:F.
  - apply eqb_eq in F. exists [], t. repeat split; auto.
  - assert (Hne : Type_ t <> EOF).
    { intros E. rewrite E in F. discriminate F. }
    destruct Hlt as [E | Hlt]; [contradiction|].
    destruct (IH l' ltac:(lia)) as (ts & t' & E & Ht' & Hts).
    exists (t :: ts), t'. rewrite E. repeat split; auto.
Qed.

Lemma tokenizeLoop_bound n :
  forall l k, remaining l < n -> tokenizeLoop (n + k) l = tokenizeLoop n l.
Proof.
  induction n as [|n IH]; intros l k H; [lia|]. simpl.
  pose proof (NextToken_lt l) as Hlt.
  destruct (NextToken l) as [t l']. simpl in Hlt.
  destruct (eqb (Type_ t) EOF) eqn:F; [reflexivity|].
  destruct Hlt as [E | Hlt]; [rewrite E in F; discriminate F|].
  f_equal. apply IH. lia.
Qed.

(** The list [Tokenize] returns ends with the one [EOF] token it holds;
    the bound of its loop is not what ends it. *)
Lemma Tokenize_ends_with_EOF l :
  exists ts t, Tokenize l = ts ++ [t] /\ Type_ t = EOF /\
               Forall (fun t => Type_ t <> EOF) ts.
Proof. apply tokenizeLoop_EOF. lia. Qed.

Lemma Tokenize_bound l k :
  tokenizeLoop (S (remaining l) + k) l = Tokenize l.
Proof. apply tokenizeLoop_bound. lia. Qed.

(** ** The token types the scanner produces *)

Lemma lookup_forallb (P : TokenType -> bool) table key v :
  forallb (fun kv => P (snd kv)) table = true ->
  lookup table key = Some v -> P v = true.
Proof.
  induction table as [|[k w] rest IH]; simpl; [discriminate|].
  intros H. apply andb_true_iff in H. destruct H as [Hw Hrest].
  destruct (String.eqb k key).
  - intros [= <-]. exact Hw.
  - apply IH. exact Hrest.
Qed.

Lemma classify_not_BYTE value : classify value <> BYTE.
Proof.
  unfold classify. destruct (lookup keywords value) as [kw|] eqn:E.
  - assert (K : forallb (fun kv => negb (eqb (snd kv) BYTE)) keywords = true)
      by reflexivity.
    pose proof (lookup_forallb (fun t => negb (eqb t BYTE)) _ _ _ K E) as H.
    intros ->. discriminate H.
  - repeat match goal with
           | |- context [if ?c then _ else _] => destruct c
           end; discriminate.
Qed.

Lemma twoCharType_not_BYTE two t : twoCharType two = Some t -> t <> BYTE.
Proof.
  unfold twoCharType.
  repeat match goal with
         | |- context [if ?c then _ else _] => destruct c
         end; intros [= <-] || discriminate; discriminate.
Qed.

Lemma singleCharType_not_BYTE ch t : singleCharType ch = Some t -> t <> BYTE.
Proof.
  unfold singleCharType.
  repeat match goal with
         | |- context [if ?c then _ else _] => destruct c
         end; intros [= <-] || discriminate; discriminate.
Qed.

Lemma readOperatorShort_not_BYTE ch l1 line column start :
  Type_ (fst (readOperatorShort ch l1 line column start)) <> BYTE.
Proof.
  unfold readOperatorShort, tok. cbv zeta.
  destruct (if pos l1 <? len l1 then _ else None) as [t|] eqn:E.
  - simpl. destruct (pos l1 <? len l1); [|discriminate E].
    exact (twoCharType_not_BYTE _ _ E).
  - destruct (singleCharType ch) as [t|] eqn:F; simpl.
    + exact (singleCharType_not_BYTE _ _ F).
    + discriminate.
Qed.

Lemma readOperator_not_BYTE l line column :
  Type_ (fst (readOperator l line column)) <> BYTE.
Proof.
  unfold readOperator, tok. cbv zeta.
  destruct (advance l) as [ch l1].
  repeat match goal with
         | |- context [if ?c then _ else _] => destruct c
         end;
    first [ apply readOperatorShort_not_BYTE | simpl; discriminate ].
Qed.

Lemma readString_not_BYTE l line column :
  Type_ (fst (readString l line column)) <> BYTE.
Proof.
  unfold readString. cbv zeta. destruct (advance l) as [quote l1].
  destruct (readStringLoop _ _ _ _) as [sb l2]. simpl. discriminate.
Qed.

Lemma NextToken_not_BYTE l : Type_ (fst (NextToken l)) <> BYTE.
Proof.
  unfold NextToken. cbv zeta.
  destruct (len _ <=? pos _); [simpl; discriminate|].
  destruct (isIdentifierStart _); [apply classify_not_BYTE|].
  destruct (_ && _); [simpl; discriminate|].
  destruct (_ || _); [simpl; discriminate|].
  destruct (_ || _); [apply readString_not_BYTE | apply readOperator_not_BYTE].
Qed.

Lemma tokenizeLoop_not_BYTE n :
  forall l, Forall (fun t => Type_ t <> BYTE) (tokenizeLoop n l).
Proof.
  induction n as [|n IH]; intros l; simpl; [constructor|].
  pose proof (NextToken_not_BYTE l) as H.
  destruct (NextToken l) as [t l']. simpl in H.
  destruct (eqb (Type_ t) EOF); repeat constructor; auto.
Qed.

End lexer_facts.

(** * Termination: the monad *)

Lemma ok_ret {A} (x : A) b (Q : A -> Builder -> Prop) :
  Q x b -> ok (ret x) b Q.
Proof. intros H. exists x, b. split; [reflexivity | exact H]. Qed.

Lemma ok_bind {A B} (m : M A) (k : A -> M B) b P Q :
  ok m b P -> (forall x b', P x b' -> ok (k x) b' Q) -> ok (bind m k) b Q.
Proof.
  intros (x & b' & Hm & HP) Hk.
  destruct (Hk x b' HP) as (y & b'' & Hk' & HQ).
  exists y, b''. split; [|exact HQ].
  unfold bind. rewrite Hm. exact Hk'.
Qed.

Lemma ok_gets {A} (f : Builder -> A) b (Q : A -> Builder -> Prop) :
  Q (f b) b -> ok (gets f) b Q.
Proof. intros H. exists (f b), b. split; [reflexivity | exact H]. Qed.

Lemma ok_ifM {A} (c : Builder -> bool) (t e : M A) b Q :
  (c b = true -> ok t b Q) -> (c b = false -> ok e b Q) ->
  ok (ifM c t e) b Q.
Proof.
  intros Ht He. unfold ok, ifM in *.
  destruct (c b); [apply Ht | apply He]; reflexivity.
Qed.

Lemma ok_weaken {A} (m : M A) b (P Q : A -> Builder -> Prop) :
  ok m b P -> (forall x b', P x b' -> Q x b') -> ok m b Q.
Proof.
  intros (x & b' & Hm & HP) H. exists x, b'. split; [exact Hm | auto].
Qed.

(** * Termination: the measure *)

Lemma isAtEnd_true b : isAtEnd b = true -> mu b = 0.
Proof. unfold mu. intros ->. reflexivity. Qed.

Lemma isAtEnd_false b :
  isAtEnd b = false -> mu b = length (tokens b) - pos b /\ pos b < length (tokens b).
Proof.
  unfold mu. intros H. rewrite H. split; [reflexivity|].
  unfold isAtEnd, peek in H.
  destruct (length (tokens b) <=? pos b) eqn:E.
  - discriminate H.
  - apply Nat.leb_gt in E. exact E.
Qed.

Lemma mu_pos b : isAtEnd b = false -> 1 <= mu b.
Proof. intros H. apply isAtEnd_false in H. lia. Qed.

Lemma mu_le b : mu b <= length (tokens b) - pos b.
Proof. unfold mu. destruct (isAtEnd b); lia. Qed.

Lemma mu_set_pos b b0 :
  tokens b = tokens b0 -> mu (set_pos b (pos b0)) = mu b0.
Proof.
  intros H. unfold mu, isAtEnd, peek, set_pos. simpl. rewrite H. reflexivity.
Qed.

Lemma ext_refl b : wf b -> ext b b.
Proof. unfold ext. intros H. repeat split; auto. Qed.

Lemma ext_trans a b c : ext a b -> ext b c -> ext a c.
Proof.
  unfold ext. intros (Ht & Ho & Hm & Hp) (Ht' & Ho' & Hm' & Hp').
  repeat split; try congruence; try lia.
Qed.

Lemma step_adv b : wf b -> adv b (step b).
Proof.
  intros Hwf. unfold step. destruct (isAtEnd b) eqn:E.
  - split; [apply ext_refl; exact Hwf|]. apply isAtEnd_true in E. lia.
  - destruct (isAtEnd_false b E) as [Hm Hlt].
    assert (Hm' : mu (set_pos b (S (pos b))) <= length (tokens b) - S (pos b))
      by (pose proof (mu_le (set_pos b (S (pos b)))) as H; simpl in H; exact H).
    unfold adv, ext, wf. simpl. repeat split; lia.
Qed.

(** [b.tokens[b.pos-1]] is in range while the cursor is within the
    tokens. *)
Lemma ok_previous b : wf b -> ok previous b (fun _ b' => b' = b).
Proof.
  unfold wf, ok, previous. intros Hw. destruct (pos b) as [|p].
  - eexists _, _. split; reflexivity.
  - destruct (nth_error (tokens b) p) as [t|] eqn:E.
    + eexists _, _. split; reflexivity.
    + apply nth_error_None in E. lia.
Qed.

Lemma ok_bind_previous {A} (k : lexer.Token -> M A) b Q :
  wf b -> (forall t, ok (k t) b Q) -> ok (bind previous k) b Q.
Proof.
  intros Hw Hk. destruct (ok_previous b Hw) as (t & b' & E & ->).
  destruct (Hk t) as (y & b'' & Hy & HQ).
  exists y, b''. split; [|exact HQ]. unfold bind. rewrite E. exact Hy.
Qed.

(** [xs[0]] is in range for a slice that is not empty. *)
Lemma ok_index0 {A} (xs : list A) b (Q : A -> Builder -> Prop) :
  xs <> [] -> (forall x, Q x b) -> ok (index0 xs) b Q.
Proof.
  intros Hne HQ. destruct xs as [|x xs]; [congruence|].
  exists x, b. split; [reflexivity | apply HQ].
Qed.

Lemma ok_bind_index0 {A B} (xs : list A) (k : A -> M B) b Q :
  xs <> [] -> (forall x, ok (k x) b Q) -> ok (bind (index0 xs) k) b Q.
Proof.
  intros Hne Hk. destruct xs as [|x xs]; [congruence|].
  destruct (Hk x) as (y & b' & Hy & HQ).
  exists y, b'. split; [|exact HQ]. exact Hy.
Qed.

Lemma ok_advance b : wf b -> ok advance b (fun _ b' => adv b b').
Proof.
  intros Hwf. unfold advance. pose proof (step_adv b Hwf) as Ha.
  destruct (ok_previous (step b)) as (t & b' & E & ->); [apply Ha|].
  exists t, (step b). split; [exact E | exact Ha].
Qed.

Lemma ok_loop {V R} (body : V -> M (V + R)) (Inv : V -> Builder -> Prop)
  (Q : R -> Builder -> Prop) :
  (forall s b, Inv s b ->
     ok (body s) b (fun r b' => match r with
                                | inl s' => Inv s' b' /\ mu b' < mu b
                                | inr r' => Q r' b'
                                end)) ->
  forall n s b, mu b < n -> Inv s b -> ok (loop n body s) b Q.
Proof.
  intros Hbody. induction n as [|n IH]; intros s b Hn HI; [lia|].
  destruct (Hbody s b HI) as (r & b' & Hr & Hpost).
  destruct r as [s'|r'].
  - destruct Hpost as [HI' Hlt].
    destruct (IH s' b' ltac:(lia) HI') as (x & b'' & Hl & HQ).
    exists x, b''. split; [|exact HQ]. simpl. rewrite Hr. exact Hl.
  - exists r', b'. split; [|exact Hpost]. simpl. rewrite Hr. reflexivity.
Qed.

Lemma ok_for {V R} (body : V -> M (V + R)) (Inv : V -> Builder -> Prop)
  (Q : R -> Builder -> Prop) s b :
  Inv s b ->
  (forall s b, Inv s b ->
     ok (body s) b (fun r b' => match r with
                                | inl s' => Inv s' b' /\ mu b' < mu b
                                | inr r' => Q r' b'
                                end)) ->
  ok (for_ body s) b Q.
Proof.
  intros HI Hbody. unfold for_.
  apply (ok_loop body Inv Q Hbody); [|exact HI].
  pose proof (mu_le b). lia.
Qed.

(** The same, with the first round treated apart. *)
Lemma ok_for_first {V R} (body : V -> M (V + R))
  (Inv : V -> Builder -> Prop) (Q : R -> Builder -> Prop) s b :
  ok (body s) b (fun r b' => match r with
                             | inl s' => Inv s' b' /\ mu b' < mu b
                             | inr r' => Q r' b'
                             end) ->
  (forall s b, Inv s b ->
     ok (body s) b (fun r b' => match r with
                                | inl s' => Inv s' b' /\ mu b' < mu b
                                | inr r' => Q r' b'
                                end)) ->
  ok (for_ body s) b Q.
Proof.
  intros (r & b' & Hr & Hpost) Hbody. unfold for_.
  destruct r as [s'|r'].
  - destruct Hpost as [HI' Hlt].
    destruct (ok_loop body Inv Q Hbody (length (tokens b) - pos b) s' b')
      as (x & b'' & Hl & HQ); [pose proof (mu_le b); lia | exact HI' |].
    exists x, b''. split; [|exact HQ]. simpl. rewrite Hr. exact Hl.
  - exists r', b'. split; [|exact Hpost]. simpl. rewrite Hr. reflexivity.
Qed.

Lemma ok_continue {V R} (s : V) b (Q : V + R -> Builder -> Prop) :
  Q (inl s) b -> ok (continue_ s) b Q.
Proof. apply ok_ret. Qed.

Lemma ok_break {V R} (r : R) b (Q : V + R -> Builder -> Prop) :
  Q (inr r) b -> ok (break_ r) b Q.
Proof. apply ok_ret. Qed.

Lemma ok_bind_gets {A B} (f : Builder -> A) (k : A -> M B) b Q :
  ok (k (f b)) b Q -> ok (bind (gets f) k) b Q.
Proof.
  intros (y & b' & Hk & HQ). exists y, b'. split; [|exact HQ].
  unfold bind, gets. exact Hk.
Qed.

Lemma ok_bind_ret {A B} (x : A) (k : A -> M B) b Q :
  ok (k x) b Q -> ok (bind (ret x) k) b Q.
Proof.
  intros (y & b' & Hk & HQ). exists y, b'. split; [|exact HQ].
  unfold bind, ret. exact Hk.
Qed.

(** * Termination: the helpers *)

Lemma check_pos t b : check t b = true -> 1 <= mu b.
Proof.
  unfold check. destruct (isAtEnd b) eqn:E; [discriminate|].
  intros _. apply mu_pos. exact E.
Qed.

Lemma peek_type_pos b :
  lexer.Type_ (peek b) <> lexer.EOF -> 1 <= mu b.
Proof.
  intros H. apply mu_pos. unfold isAtEnd.
  destruct (lexer.eqb (lexer.Type_ (peek b)) lexer.EOF) eqn:E;
    [|reflexivity].
  apply lexer_facts.eqb_eq in E. contradiction.
Qed.

Lemma peek_type_end b :
  lexer.Type_ (peek b) = lexer.EOF -> mu b = 0.
Proof.
  intros H. apply isAtEnd_true. unfold isAtEnd. rewrite H. reflexivity.
Qed.

Lemma isElementaryTypeName_pos b : isElementaryTypeName b = true -> 1 <= mu b.
Proof.
  unfold isElementaryTypeName. intros H. apply peek_type_pos.
  intros E. rewrite E in H. discriminate H.
Qed.

Lemma isContextualKeyword_pos b : isContextualKeyword b = true -> 1 <= mu b.
Proof.
  unfold isContextualKeyword. intros H. apply peek_type_pos.
  intros E. rewrite E in H. discriminate H.
Qed.

(** Facts about the measure from what is known about the state. *)
Ltac pos_of H :=
  lazymatch type of H with
  | isAtEnd ?b = false => assert (1 <= mu b) by (exact (mu_pos _ H))
  | isAtEnd ?b = true => assert (mu b = 0) by (exact (isAtEnd_true _ H))
  | lexer.Type_ (peek ?b) = lexer.EOF =>
      assert (mu b = 0) by (exact (peek_type_end _ H))
  | lexer.Type_ (peek ?b) = _ =>
      assert (1 <= mu b) by
        (apply peek_type_pos; rewrite H; discriminate)
  | _ ?b = _ =>
      first
        [ assert (1 <= mu b) by
            (clear - H; revert H;
             cbv [orb_ andb_ negb_ isTypeName isStorageLocation
                  isAssignmentOperator isUnaryOperator isStringToken
                  isClosing checkNumberUnit];
             repeat match goal with
               | |- context [isElementaryTypeName b] =>
                   let E := fresh in
                   destruct (isElementaryTypeName b) eqn:E;
                   [ intros _; exact (isElementaryTypeName_pos _ E) | ]
               | |- context [isContextualKeyword b] =>
                   let E := fresh in
                   destruct (isContextualKeyword b) eqn:E;
                   [ intros _; exact (isContextualKeyword_pos _ E) | ]
               | |- context [check ?t b] =>
                   let E := fresh in
                   destruct (check t b) eqn:E;
                   [ intros _; exact (check_pos _ _ E) | ]
               | |- context [isAtEnd b] =>
                   let E := fresh in
                   destruct (isAtEnd b) eqn:E;
                   [ | intros _; exact (mu_pos _ E) ]
               end;
             simpl; let H' := fresh in intros H'; discriminate H')
        | idtac ]
  | _ => idtac
  end.

(** Linear arithmetic on the measure; the pending "progress unless at
    the end" facts are first resolved or set aside. *)
Ltac lia0 :=
  repeat match goal with H : _ <> _ -> _ |- _ => clear H end; lia.

Ltac resolve :=
  repeat match goal with
    | H : mu ?b <> 0 -> _ |- _ =>
        let P := fresh in
        assert (P : mu b <> 0) by lia0; specialize (H P); clear P
    end.

Ltac split_ext H :=
  let Ht := fresh "Ht" in
  let Ho := fresh "Ho" in
  let Hm := fresh "Hm" in
  let Hw := fresh "Hw" in
  destruct H as (Ht & Ho & Hm & Hw).

Ltac facts :=
  repeat match goal with
    | H : adv _ _ |- _ =>
        let H1 := fresh in let H2 := fresh in
        destruct H as [H1 H2]; split_ext H1
    | H : ext _ _ |- _ => split_ext H
    | H : _ /\ _ |- _ => destruct H
    end;
  resolve.

Ltac fin1 :=
  lazymatch goal with
  | |- wf _ => assumption
  | |- tokens _ = tokens _ => congruence
  | |- options _ = options _ => congruence
  | |- _ ++ [_] <> [] =>
      let H := fresh in intros H; symmetry in H; exact (app_cons_not_nil _ _ _ H)
  | |- _ <> _ -> _ => intro; resolve; lia0
  | |- _ => first [ assumption | lia0 | congruence | reflexivity ]
  end.

Ltac fin_core :=
  cbv beta; facts; unfold adv, ext;
  repeat match goal with |- _ /\ _ => split end;
  fin1.
Ltac fin := fin_core.

Create HintDb okdb discriminated.

Ltac intro_fact :=
  let H := fresh "H" in intros H; try pos_of H; resolve.

Ltac intro_post :=
  let x := fresh "x" in let b' := fresh "b" in let H := fresh "H" in
  cbv beta zeta; intros x b' H; cbv beta in H; facts.

(** Symbolic run of a method body: each step applies the rule of the
    construct at the head, the lemma of the callee, or case analysis. *)
Ltac call_core := solve [ eauto 4 with okdb nocore ].
Ltac call := call_core.

Ltac go_extra := fail.

Ltac go :=
  lazymatch goal with
  | |- ok (bind (addError _) (fun _ => bind advance _)) _ _ => go_extra
  | |- ok (bind (restore _) _) _ _ => go_extra
  | |- ok (ret _) _ _ => apply ok_ret; fin
  | |- ok (continue_ _) _ _ => apply ok_continue; fin
  | |- ok (break_ _) _ _ => apply ok_break; fin
  | |- ok (gets _) _ _ => apply ok_gets; fin
  | |- ok (bind (gets _) _) _ _ => apply ok_bind_gets; cbv beta zeta; go
  | |- ok (bind previous _) _ _ =>
      apply ok_bind_previous; [ assumption | intros ?; cbv beta zeta; go ]
  | |- ok (bind (index0 _) _) _ _ =>
      apply ok_bind_index0; [ assumption | intros ?; cbv beta zeta; go ]
  | |- ok (index0 _) _ _ =>
      apply ok_index0; [ assumption | intros ?; fin ]
  | |- ok (bind (ret _) _) _ _ => apply ok_bind_ret; cbv beta zeta; go
  | |- ok (bind (for_ _ _) _) ?b _ =>
      eapply ok_bind;
      [ apply (ok_for _ (fun _ b' => ext b b') (fun _ b' => ext b b'));
        [ fin
        | intro_post; cbv beta zeta; go ]
      | cbv beta zeta; intro_post; go ]
  | |- ok (for_ _ _) ?b _ =>
      eapply ok_weaken;
      [ apply (ok_for _ (fun _ b' => ext b b') (fun _ b' => ext b b'));
        [ fin
        | intro_post; cbv beta zeta; go ]
      | cbv beta zeta; intros ? ? ?; fin ]
  | |- ok (bind (ifM _ _ _) _) ?b _ => go_block b
  | |- ok (bind (bind _ _) _) ?b _ => go_block b
  | |- ok (bind (if _ then _ else _) _) ?b _ => go_block b
  | |- ok (bind (match _ with _ => _ end) _) ?b _ => go_block b
  | |- ok (bind _ _) _ _ =>
      eapply ok_bind;
      [ call
      | cbv beta zeta; intro_post; go ]
  | |- ok (ifM _ _ _) _ _ => apply ok_ifM; cbv beta zeta; intro_fact; go
  | |- ok (if ?c then _ else _) _ _ =>
      let E := fresh "E" in destruct c eqn:E; go
  | |- ok (let (_, _) := ?p in _) _ _ => destruct p; go
  | |- ok (match ?x with _ => _ end) _ _ =>
      let E := fresh "E" in destruct x eqn:E; try pos_of E; resolve; go
  | |- ok _ _ _ =>
      eapply ok_weaken; [ call | cbv beta zeta; intros ? ? ?; fin ]
  end
with go_block b :=
  first
    [ eapply ok_bind with (P := fun _ b' => adv b b');
      [ solve [go]
      | cbv beta zeta; intro_post; go ]
    | eapply ok_bind with (P := fun _ b' => ext b b');
      [ go
      | cbv beta zeta; intro_post; go ] ].

Lemma ok_setLocation node s e b :
  wf b -> ok (setLocation node s e) b (fun _ b' => ext b b').
Proof. intros H. unfold setLocation. apply ok_gets. apply ext_refl, H. Qed.
#[export] Hint Resolve ok_advance ok_setLocation : okdb.

Lemma ok_restore b0 b :
  wf b0 -> tokens b = tokens b0 -> options b = options b0 ->
  ok (restore (pos b0)) b (fun _ b' => mu b' = mu b0 /\ ext b0 b').
Proof.
  intros Hw Ht Ho. unfold restore. eexists _, _. split; [reflexivity|].
  assert (E : mu (set_pos b (pos b0)) = mu b0) by (apply mu_set_pos; exact Ht).
  split; [exact E|]. unfold ext, wf. rewrite E. simpl. rewrite Ht.
  repeat split; auto.
Qed.

Lemma mu_eq b b' : tokens b' = tokens b -> pos b' = pos b -> mu b' = mu b.
Proof.
  intros Ht Hp. unfold mu, isAtEnd, peek. rewrite Ht, Hp. reflexivity.
Qed.

Lemma ext_same b b' :
  wf b -> tokens b' = tokens b -> options b' = options b -> pos b' = pos b ->
  ext b b' /\ mu b' = mu b.
Proof.
  intros Hw Ht Ho Hp. pose proof (mu_eq b b' Ht Hp) as E.
  unfold ext, wf. rewrite E, Ht, Hp. repeat split; auto.
Qed.

Lemma ok_synchronize b : wf b -> ok synchronize b (fun _ b' => adv b b').
Proof. intros Hw. unfold synchronize. go. Qed.
#[export] Hint Resolve ok_synchronize : okdb.

Lemma ok_addError msg b :
  wf b -> ok (addError msg) b (fun _ b' => ext b b').
Proof.
  intros Hw. unfold addError. apply ok_bind_gets.
  eapply ok_bind with (P := fun _ b' => ext b b' /\ mu b' = mu b).
  - eexists _, _. split; [reflexivity|]. apply ext_same; auto.
  - cbv beta. intro_post. go.
Qed.
#[export] Hint Resolve ok_addError : okdb.

(** In tolerant mode the error handling advances ([synchronize]), in
    strict mode [expect] itself does. *)
Lemma ok_addError_tolerant msg b :
  wf b -> Tolerant (options b) = true ->
  ok (addError msg) b (fun _ b' => adv b b').
Proof.
  intros Hw HT. unfold addError. apply ok_bind_gets.
  eapply ok_bind with
    (P := fun _ b' => ext b b' /\ mu b' = mu b /\ Tolerant (options b') = true).
  - eexists _, _. split; [reflexivity|].
    rewrite <- and_assoc. split; [apply ext_same; auto | exact HT].
  - cbv beta. intros ? b1 (He & Hmu & HT1). apply ok_ifM; cbv beta; intros Hc.
    + facts. eapply ok_weaken; [apply ok_synchronize; assumption|].
      cbv beta. intros ? ? ?. fin.
    + congruence.
Qed.

Lemma ok_addError_strict msg b :
  wf b -> Tolerant (options b) = false ->
  ok (addError msg) b
     (fun _ b' => ext b b' /\ mu b' = mu b
                  /\ Tolerant (options b') = false).
Proof.
  intros Hw HT. unfold addError. apply ok_bind_gets.
  eapply ok_bind with
    (P := fun _ b' => ext b b' /\ mu b' = mu b
                      /\ Tolerant (options b') = false).
  - eexists _, _. split; [reflexivity|].
    rewrite <- and_assoc. split; [apply ext_same; auto | exact HT].
  - cbv beta. intros ? b1 (He & Hmu & HT1). apply ok_ifM; cbv beta; intros Hc.
    + congruence.
    + apply ok_ret. auto.
Qed.

Lemma ok_expect t b : wf b -> ok (expect t) b (fun _ b' => adv b b').
Proof.
  intros Hw. unfold expect. apply ok_ifM; intro_fact; [go|].
  apply ok_bind_gets.
  destruct (Tolerant (options b)) eqn:HT.
  - eapply ok_bind; [apply ok_addError_tolerant; auto|].
    cbv beta. intro_post. go.
  - eapply ok_bind; [apply ok_addError_strict; auto|].
    cbv beta. intros ? b1 (He & Hmu & HT1).
    facts.
    eapply ok_bind with (P := fun _ b' => adv b1 b').
    + apply ok_ifM; cbv beta; intros Hc; [go|].
      rewrite HT1 in Hc. discriminate.
    + cbv beta. intro_post. go.
Qed.

Lemma ok_expectKeyword k b :
  wf b -> ok (expectKeyword k) b (fun _ b' => adv b b').
Proof.
  intros Hw. unfold expectKeyword. apply ok_ifM; intro_fact; [go|].
  apply ok_bind_gets.
  destruct (Tolerant (options b)) eqn:HT.
  - eapply ok_bind; [apply ok_addError_tolerant; auto|].
    cbv beta. intro_post. go.
  - eapply ok_bind; [apply ok_addError_strict; auto|].
    cbv beta. intros ? b1 (He & Hmu & HT1).
    facts.
    eapply ok_bind with (P := fun _ b' => adv b1 b').
    + apply ok_ifM; cbv beta; intros Hc; [go|].
      rewrite HT1 in Hc. discriminate.
    + cbv beta. intro_post. go.
Qed.
#[export] Hint Resolve ok_expect ok_expectKeyword : okdb.

(** Reporting an unexpected token and skipping it. *)
Lemma ok_addError_advance {A} msg (k : M A) b Q :
  wf b -> (forall b', adv b b' -> ok k b' Q) ->
  ok (bind (addError msg) (fun _ => bind advance (fun _ => k))) b Q.
Proof.
  intros Hw Hk.
  destruct (Tolerant (options b)) eqn:HT.
  - eapply ok_bind; [apply ok_addError_tolerant; auto|].
    cbv beta. intro_post.
    eapply ok_bind; [apply ok_advance; assumption|].
    cbv beta. intro_post. apply Hk. fin.
  - eapply ok_bind; [apply ok_addError_strict; auto|].
    cbv beta. intro_post.
    eapply ok_bind; [apply ok_advance; assumption|].
    cbv beta. intro_post. apply Hk. fin.
Qed.

Ltac go_extra ::=
  lazymatch goal with
  | |- ok (bind (addError _) (fun _ => bind advance _)) _ _ =>
      apply ok_addError_advance;
      [ assumption
      | let b' := fresh "b" in let H := fresh "H" in
        intros b' H; facts; go ]
  | |- ok (bind (restore (pos ?b0)) _) _ _ =>
      eapply ok_bind;
      [ apply ok_restore; [assumption | congruence | congruence]
      | intro_post; go ]
  end.

#[export] Hint Extern 1 (_ < _) => lia0 : okdb.
#[export] Hint Extern 1 (_ <= _) => lia0 : okdb.
#[export] Hint Extern 1 (ok (call_parseTypeName _) _ _) =>
  eapply spec_parseTypeName; [eassumption | assumption | lia0] : okdb.
#[export] Hint Extern 1 (ok (call_parseExpression _) _ _) =>
  eapply spec_parseExpression; [eassumption | assumption | lia0] : okdb.
#[export] Hint Extern 1 (ok (call_parseAssignment _) _ _) =>
  eapply spec_parseAssignment; [eassumption | assumption | lia0] : okdb.
#[export] Hint Extern 1 (ok (call_parseTernary _) _ _) =>
  eapply spec_parseTernary; [eassumption | assumption | lia0] : okdb.
#[export] Hint Extern 1 (ok (call_parseExponentiation _) _ _) =>
  eapply spec_parseExponentiation; [eassumption | assumption | lia0] : okdb.
#[export] Hint Extern 1 (ok (call_parseUnary _) _ _) =>
  eapply spec_parseUnary; [eassumption | assumption | lia0] : okdb.
#[export] Hint Extern 1 (ok (call_parseStatement _) _ _) =>
  eapply spec_parseStatement; [eassumption | assumption | lia0] : okdb.
#[export] Hint Extern 1 (ok (call_parseAssemblyExpression _) _ _) =>
  eapply spec_parseAssemblyExpression; [eassumption | assumption | lia0] : okdb.
#[export] Hint Extern 1 (ok (call_parseAssemblyStatement_ _) _ _) =>
  eapply spec_parseAssemblyStatement_; [eassumption | assumption | lia0] : okdb.

(** * Termination: types *)

Lemma parseElementaryTypeName_ok b :
  wf b -> ok parseElementaryTypeName b (fun _ b' => adv b b').
Proof. intros Hw. unfold parseElementaryTypeName. go. Qed.
#[export] Hint Resolve parseElementaryTypeName_ok : okdb.

Lemma parseUserDefinedTypeName_ok b :
  wf b -> ok parseUserDefinedTypeName b (fun _ b' => adv b b').
Proof. intros Hw. unfold parseUserDefinedTypeName. go. Qed.
#[export] Hint Resolve parseUserDefinedTypeName_ok : okdb.

Lemma finishVariableDeclaration_ok s t b :
  wf b -> ok (finishVariableDeclaration s t) b (fun _ b' => ext b b').
Proof. intros Hw. unfold finishVariableDeclaration. go. Qed.
#[export] Hint Resolve finishVariableDeclaration_ok : okdb.

Section Types.
Variable rec : Rec.
Variable n : nat.
Hypothesis Hrec : Specs n rec.

Lemma parseParameter_ok b :
  wf b -> mu b < n -> ok (parseParameter rec) b (fun _ b' => adv b b').
Proof. intros Hw Hn. unfold parseParameter. go. Qed.
Hint Resolve parseParameter_ok : okdb.

Lemma parseParameterList_ok b :
  wf b -> mu b <= n -> ok (parseParameterList rec) b (fun _ b' => adv b b').
Proof. intros Hw Hn. unfold parseParameterList. go. Qed.
Hint Resolve parseParameterList_ok : okdb.

Lemma parseFunctionTypeName_ok b :
  wf b -> mu b <= n -> 1 <= mu b ->
  ok (parseFunctionTypeName rec) b (fun _ b' => adv b b').
Proof. intros Hw Hn Hpos. unfold parseFunctionTypeName. go. Qed.
Hint Resolve parseFunctionTypeName_ok : okdb.

Lemma parseMappingType_ok b :
  wf b -> mu b <= n -> 1 <= mu b ->
  ok (parseMappingType rec) b (fun _ b' => adv b b').
Proof. intros Hw Hn Hpos. unfold parseMappingType. go. Qed.
Hint Resolve parseMappingType_ok : okdb.

Lemma parseTypeName_ok b :
  wf b -> mu b <= n -> ok (parseTypeName rec) b (fun _ b' => adv b b').
Proof. intros Hw Hn. unfold parseTypeName. go. Qed.
Hint Resolve parseTypeName_ok : okdb.

Lemma parseVariableDeclaration_ok b :
  wf b -> mu b <= n -> ok (parseVariableDeclaration rec) b (fun _ b' => adv b b').
Proof. intros Hw Hn. unfold parseVariableDeclaration. go. Qed.

End Types.
#[export] Hint Resolve parseParameterList_ok parseTypeName_ok
  parseVariableDeclaration_ok : okdb.

(** * Termination: expressions *)

Lemma parseNumberLiteral_ok tok b :
  wf b -> ok (parseNumberLiteral tok) b (fun _ b' => ext b b').
Proof. intros Hw. unfold parseNumberLiteral. go. Qed.
#[export] Hint Resolve parseNumberLiteral_ok : okdb.

Lemma parseStringLiteral_ok b :
  wf b -> isStringToken b = true ->
  ok parseStringLiteral b (fun _ b' => adv b b').
Proof.
  intros Hw Hs. pos_of Hs. unfold parseStringLiteral.
  eapply ok_bind with
    (P := fun acc b' => fst (fst acc) <> [] /\ ext b b' /\ mu b' < mu b).
  - apply (ok_for_first _
      (fun acc b' => fst (fst acc) <> [] /\ ext b b' /\ mu b' < mu b)).
    + cbv zeta. apply ok_ifM; intros Hc; [|congruence].
      eapply ok_bind; [call|]. intro_post.
      apply ok_continue. simpl fst. fin.
    + intros [[parts isUnicode] isHex] bi Hi; simpl fst in Hi; facts.
      apply ok_ifM; intros Hc; [pos_of Hc; resolve|go].
      eapply ok_bind; [call|]. intro_post.
      apply ok_continue. simpl fst. fin.
  - intros [[parts isUnicode] isHex] bi Hi; simpl fst in Hi; facts.
    destruct isHex; go.
Qed.

Ltac token_cond :=
  lazymatch goal with
  | E : lexer.Type_ (peek ?b) = _ |- _ ?b = true =>
      cbv [isStringToken orb_ check isAtEnd]; rewrite E; reflexivity
  end.
#[export] Hint Extern 1 (_ = true) => token_cond : okdb.
#[export] Hint Resolve parseStringLiteral_ok : okdb.

Section Expressions.
Variable rec : Rec.
Variable n : nat.
Hypothesis Hrec : Specs n rec.

Lemma parseExpressionList_ok b :
  wf b -> mu b < n -> ok (parseExpressionList rec) b (fun _ b' => ext b b').
Proof. intros Hw Hn. unfold parseExpressionList. go. Qed.
Hint Resolve parseExpressionList_ok : okdb.

Lemma parseTupleRest_ok s f b :
  wf b -> mu b <= n -> ok (parseTupleRest rec s f) b (fun _ b' => ext b b').
Proof. intros Hw Hn. unfold parseTupleRest. go. Qed.
Hint Resolve parseTupleRest_ok : okdb.

Lemma parseTupleOrParenthesized_ok b :
  wf b -> mu b <= n -> 1 <= mu b ->
  ok (parseTupleOrParenthesized rec) b (fun _ b' => adv b b').
Proof. intros Hw Hn Hp. unfold parseTupleOrParenthesized. go. Qed.
Hint Resolve parseTupleOrParenthesized_ok : okdb.

Lemma parseArrayLiteral_ok b :
  wf b -> mu b <= n -> 1 <= mu b ->
  ok (parseArrayLiteral rec) b (fun _ b' => adv b b').
Proof. intros Hw Hn Hp. unfold parseArrayLiteral. go. Qed.
Hint Resolve parseArrayLiteral_ok : okdb.

Lemma parseNewExpression_ok b :
  wf b -> mu b <= n -> 1 <= mu b ->
  ok (parseNewExpression rec) b (fun _ b' => adv b b').
Proof. intros Hw Hn Hp. unfold parseNewExpression. go. Qed.
Hint Resolve parseNewExpression_ok : okdb.

Lemma parseTypeExpression_ok b :
  wf b -> mu b <= n -> 1 <= mu b ->
  ok (parseTypeExpression rec) b (fun _ b' => adv b b').
Proof. intros Hw Hn Hp. unfold parseTypeExpression. go. Qed.
Hint Resolve parseTypeExpression_ok : okdb.

Lemma parsePayableConversion_ok b :
  wf b -> mu b <= n -> 1 <= mu b ->
  ok (parsePayableConversion rec) b (fun _ b' => adv b b').
Proof. intros Hw Hn Hp. unfold parsePayableConversion. go. Qed.
Hint Resolve parsePayableConversion_ok : okdb.

Lemma parsePrimary_ok b :
  wf b -> mu b <= n -> ok (parsePrimary rec) b (fun _ b' => adv b b').
Proof. intros Hw Hn. unfold parsePrimary. go. Qed.
Hint Resolve parsePrimary_ok : okdb.

Lemma parseNamedValues_ok b :
  wf b -> mu b <= n -> ok (parseNamedValues rec) b (fun _ b' => ext b b').
Proof. intros Hw Hn. unfold parseNamedValues. go. Qed.
Hint Resolve parseNamedValues_ok : okdb.

Lemma parseFunctionCall_ok callee b :
  wf b -> mu b <= n -> 1 <= mu b ->
  ok (parseFunctionCall rec callee) b (fun _ b' => adv b b').
Proof. intros Hw Hn Hp. unfold parseFunctionCall. go. Qed.
Hint Resolve parseFunctionCall_ok : okdb.

Lemma parseFunctionCallOptions_ok expr b :
  wf b -> mu b <= n ->
  ok (parseFunctionCallOptions rec expr) b (fun _ b' => adv b b').
Proof. intros Hw Hn. unfold parseFunctionCallOptions. go. Qed.
Hint Resolve parseFunctionCallOptions_ok : okdb.

Lemma parseIndex_ok expr b :
  wf b -> mu b <= n -> 1 <= mu b ->
  ok (parseIndex rec expr) b (fun _ b' => adv b b').
Proof. intros Hw Hn Hp. unfold parseIndex. go. Qed.
Hint Resolve parseIndex_ok : okdb.

Lemma parseMember_ok expr b :
  wf b -> ok (parseMember expr) b (fun _ b' => adv b b').
Proof. intros Hw. unfold parseMember. go. Qed.
Hint Resolve parseMember_ok : okdb.

Lemma parseCallMemberIndex_ok b :
  wf b -> mu b <= n ->
  ok (parseCallMemberIndex rec) b (fun _ b' => adv b b').
Proof. intros Hw Hn. unfold parseCallMemberIndex. go. Qed.
Hint Resolve parseCallMemberIndex_ok : okdb.

Lemma parsePostfix_ok b :
  wf b -> mu b <= n -> ok (parsePostfix rec) b (fun _ b' => adv b b').
Proof. intros Hw Hn. unfold parsePostfix. go. Qed.
Hint Resolve parsePostfix_ok : okdb.

Lemma parseUnary_ok b :
  wf b -> mu b <= n -> ok (parseUnary rec) b (fun _ b' => adv b b').
Proof. intros Hw Hn. unfold parseUnary. go. Qed.
Hint Resolve parseUnary_ok : okdb.

Lemma parseExponentiation_ok b :
  wf b -> mu b <= n -> ok (parseExponentiation rec) b (fun _ b' => adv b b').
Proof. intros Hw Hn. unfold parseExponentiation. go. Qed.
Hint Resolve parseExponentiation_ok : okdb.

Lemma parseBinaryLeft_ok (isOp : Builder -> bool) (operand : M ast.Node) :
  (forall b, isOp b = true -> 1 <= mu b) ->
  (forall b, wf b -> mu b <= n -> ok operand b (fun _ b' => adv b b')) ->
  forall b, wf b -> mu b <= n ->
  ok (parseBinaryLeft isOp operand) b (fun _ b' => adv b b').
Proof.
  intros Hop Hoperand b Hw Hn. unfold parseBinaryLeft.
  eapply ok_bind; [apply Hoperand; assumption|].
  intro_post.
  eapply ok_weaken.
  - apply (ok_for _ (fun _ b' => ext b0 b') (fun _ b' => ext b0 b')); [fin|].
    intro_post. apply ok_ifM; intros Hc; [|go].
    apply Hop in Hc. resolve.
    eapply ok_bind; [call|]. intro_post.
    eapply ok_bind; [apply Hoperand; [assumption | lia0]|]. intro_post. go.
  - intro_post. fin.
Qed.

Ltac binary_level lower :=
  intros; apply parseBinaryLeft_ok;
  [ let H := fresh in intros ? H; pos_of H; assumption
  | intros; apply lower; assumption
  | assumption | assumption ].

Lemma parseMultiplicative_ok b :
  wf b -> mu b <= n -> ok (parseMultiplicative rec) b (fun _ b' => adv b b').
Proof. binary_level parseExponentiation_ok. Qed.

Lemma parseAdditive_ok b :
  wf b -> mu b <= n -> ok (parseAdditive rec) b (fun _ b' => adv b b').
Proof. binary_level parseMultiplicative_ok. Qed.

Lemma parseShift_ok b :
  wf b -> mu b <= n -> ok (parseShift rec) b (fun _ b' => adv b b').
Proof. binary_level parseAdditive_ok. Qed.

Lemma parseBitwiseAnd_ok b :
  wf b -> mu b <= n -> ok (parseBitwiseAnd rec) b (fun _ b' => adv b b').
Proof. binary_level parseShift_ok. Qed.

Lemma parseBitwiseXor_ok b :
  wf b -> mu b <= n -> ok (parseBitwiseXor rec) b (fun _ b' => adv b b').
Proof. binary_level parseBitwiseAnd_ok. Qed.

Lemma parseBitwiseOr_ok b :
  wf b -> mu b <= n -> ok (parseBitwiseOr rec) b (fun _ b' => adv b b').
Proof. binary_level parseBitwiseXor_ok. Qed.

Lemma parseRelational_ok b :
  wf b -> mu b <= n -> ok (parseRelational rec) b (fun _ b' => adv b b').
Proof. binary_level parseBitwiseOr_ok. Qed.

Lemma parseEquality_ok b :
  wf b -> mu b <= n -> ok (parseEquality rec) b (fun _ b' => adv b b').
Proof. binary_level parseRelational_ok. Qed.

Lemma parseLogicalAnd_ok b :
  wf b -> mu b <= n -> ok (parseLogicalAnd rec) b (fun _ b' => adv b b').
Proof. binary_level parseEquality_ok. Qed.

Lemma parseLogicalOr_ok b :
  wf b -> mu b <= n -> ok (parseLogicalOr rec) b (fun _ b' => adv b b').
Proof. binary_level parseLogicalAnd_ok. Qed.
Hint Resolve parseLogicalOr_ok : okdb.

Lemma parseTernary_ok b :
  wf b -> mu b <= n -> ok (parseTernary rec) b (fun _ b' => adv b b').
Proof. intros Hw Hn. unfold parseTernary. go. Qed.
Hint Resolve parseTernary_ok : okdb.

Lemma parseAssignment_ok b :
  wf b -> mu b <= n -> ok (parseAssignment rec) b (fun _ b' => adv b b').
Proof. intros Hw Hn. unfold parseAssignment. go. Qed.

Lemma parseExpression_ok b :
  wf b -> mu b <= n -> ok (parseExpression rec) b (fun _ b' => adv b b').
Proof. exact (parseAssignment_ok b). Qed.

End Expressions.
#[export] Hint Resolve parseExpressionList_ok parsePrimary_ok
  parseFunctionCall_ok parseIndex_ok parseMember_ok parseExpression_ok : okdb.

(** * Termination: statements *)

Lemma looksLikeVariableDeclaration_ok b :
  wf b ->
  ok looksLikeVariableDeclaration b (fun _ b' => ext b b' /\ mu b' = mu b).
Proof. intros Hw. unfold looksLikeVariableDeclaration. go. Qed.
#[export] Hint Resolve looksLikeVariableDeclaration_ok : okdb.

Lemma parseAssemblyLiteral_ok b :
  wf b -> ok parseAssemblyLiteral b (fun _ b' => adv b b').
Proof. intros Hw. unfold parseAssemblyLiteral. go. Qed.
#[export] Hint Resolve parseAssemblyLiteral_ok : okdb.

Lemma parseAssemblyNames_ok b :
  wf b ->
  ok parseAssemblyNames b (fun names b' => names <> [] /\ adv b b').
Proof.
  intros Hw. unfold parseAssemblyNames.
  apply (ok_for_first _ (fun _ b' => adv b b')).
  - go.
  - intro_post. go.
Qed.
#[export] Hint Resolve parseAssemblyNames_ok : okdb.

Section Statements.
Variable rec : Rec.
Variable n : nat.
Hypothesis Hrec : Specs n rec.

Lemma parseBlock_ok b :
  wf b -> mu b <= n -> ok (parseBlock rec) b (fun _ b' => adv b b').
Proof. intros Hw Hn. unfold parseBlock. go. Qed.
Hint Resolve parseBlock_ok : okdb.

Lemma parseExpressionStatement_ok b :
  wf b -> mu b <= n ->
  ok (parseExpressionStatement rec) b (fun _ b' => adv b b').
Proof. intros Hw Hn. unfold parseExpressionStatement. go. Qed.
Hint Resolve parseExpressionStatement_ok : okdb.

Lemma parseInitialValue_ok b :
  wf b -> mu b <= n -> ok (parseInitialValue rec) b (fun _ b' => ext b b').
Proof. intros Hw Hn. unfold parseInitialValue. go. Qed.
Hint Resolve parseInitialValue_ok : okdb.

Lemma parseVariableDeclarationStatement_ok b :
  wf b -> mu b <= n ->
  ok (parseVariableDeclarationStatement rec) b (fun _ b' => adv b b').
Proof. intros Hw Hn. unfold parseVariableDeclarationStatement. go. Qed.
Hint Resolve parseVariableDeclarationStatement_ok : okdb.

Lemma parseTupleVariableDeclarationOrExpression_ok b :
  wf b -> mu b <= n -> 1 <= mu b ->
  ok (parseTupleVariableDeclarationOrExpression rec) b
     (fun _ b' => adv b b').
Proof.
  intros Hw Hn Hp. unfold parseTupleVariableDeclarationOrExpression. go.
Qed.
Hint Resolve parseTupleVariableDeclarationOrExpression_ok : okdb.

Lemma parseIfStatement_ok b :
  wf b -> mu b <= n -> 1 <= mu b ->
  ok (parseIfStatement rec) b (fun _ b' => adv b b').
Proof. intros Hw Hn Hp. unfold parseIfStatement. go. Qed.
Hint Resolve parseIfStatement_ok : okdb.

Lemma parseForStatement_ok b :
  wf b -> mu b <= n -> 1 <= mu b ->
  ok (parseForStatement rec) b (fun _ b' => adv b b').
Proof. intros Hw Hn Hp. unfold parseForStatement. go. Qed.
Hint Resolve parseForStatement_ok : okdb.

Lemma parseWhileStatement_ok b :
  wf b -> mu b <= n -> 1 <= mu b ->
  ok (parseWhileStatement rec) b (fun _ b' => adv b b').
Proof. intros Hw Hn Hp. unfold parseWhileStatement. go. Qed.
Hint Resolve parseWhileStatement_ok : okdb.

Lemma parseDoWhileStatement_ok b :
  wf b -> mu b <= n -> 1 <= mu b ->
  ok (parseDoWhileStatement rec) b (fun _ b' => adv b b').
Proof. intros Hw Hn Hp. unfold parseDoWhileStatement. go. Qed.
Hint Resolve parseDoWhileStatement_ok : okdb.

Lemma parseContinueStatement_ok b :
  wf b -> ok parseContinueStatement b (fun _ b' => adv b b').
Proof. intros Hw. unfold parseContinueStatement. go. Qed.
Hint Resolve parseContinueStatement_ok : okdb.

Lemma parseBreakStatement_ok b :
  wf b -> ok parseBreakStatement b (fun _ b' => adv b b').
Proof. intros Hw. unfold parseBreakStatement. go. Qed.
Hint Resolve parseBreakStatement_ok : okdb.

Lemma parseReturnStatement_ok b :
  wf b -> mu b <= n ->
  ok (parseReturnStatement rec) b (fun _ b' => adv b b').
Proof. intros Hw Hn. unfold parseReturnStatement. go. Qed.
Hint Resolve parseReturnStatement_ok : okdb.

Lemma parseEmitStatement_ok b :
  wf b -> mu b <= n ->
  ok (parseEmitStatement rec) b (fun _ b' => adv b b').
Proof. intros Hw Hn. unfold parseEmitStatement. go. Qed.
Hint Resolve parseEmitStatement_ok : okdb.

Lemma parseRevertStatement_ok b :
  wf b -> mu b <= n ->
  ok (parseRevertStatement rec) b (fun _ b' => adv b b').
Proof. intros Hw Hn. unfold parseRevertStatement. go. Qed.
Hint Resolve parseRevertStatement_ok : okdb.

Lemma parseTryCallMemberIndex_ok b :
  wf b -> mu b <= n ->
  ok (parseTryCallMemberIndex rec) b (fun _ b' => adv b b').
Proof. intros Hw Hn. unfold parseTryCallMemberIndex. go. Qed.

Lemma parseTryExpression_ok b :
  wf b -> mu b <= n ->
  ok (parseTryExpression rec) b (fun _ b' => adv b b').
Proof. exact (parseTryCallMemberIndex_ok b). Qed.
Hint Resolve parseTryExpression_ok : okdb.

Lemma parseCatchClause_ok b :
  wf b -> mu b <= n -> ok (parseCatchClause rec) b (fun _ b' => adv b b').
Proof. intros Hw Hn. unfold parseCatchClause. go. Qed.
Hint Resolve parseCatchClause_ok : okdb.

Lemma parseTryStatement_ok b :
  wf b -> mu b <= n -> ok (parseTryStatement rec) b (fun _ b' => adv b b').
Proof. intros Hw Hn. unfold parseTryStatement. go. Qed.
Hint Resolve parseTryStatement_ok : okdb.

(** ** Inline assembly *)

Lemma parseAssemblyCall_ok name s b :
  wf b -> mu b <= n ->
  ok (parseAssemblyCall rec name s) b (fun _ b' => adv b b').
Proof. intros Hw Hn. unfold parseAssemblyCall. go. Qed.
Hint Resolve parseAssemblyCall_ok : okdb.

Lemma parseAssemblyExpression_ok b :
  wf b -> mu b <= n ->
  ok (parseAssemblyExpression rec) b (fun _ b' => adv b b').
Proof. intros Hw Hn. unfold parseAssemblyExpression. go. Qed.
Hint Resolve parseAssemblyExpression_ok : okdb.

Lemma not_RBRACE b :
  check lexer.RBRACE b = false -> isAtEnd b = false ->
  lexer.Type_ (peek b) <> lexer.RBRACE.
Proof.
  unfold check. intros Hc He. rewrite He in Hc. intros E.
  rewrite E in Hc. discriminate Hc.
Qed.

Lemma parseAssemblyBlock_ok b :
  wf b -> mu b <= n -> ok (parseAssemblyBlock rec) b (fun _ b' => adv b b').
Proof.
  intros Hw Hn. unfold parseAssemblyBlock.
  eapply ok_bind; [call|]. intro_post.
  eapply ok_bind.
  - apply (ok_for _ (fun _ b' => ext b0 b') (fun _ b' => ext b0 b')); [fin|].
    intro_post. apply ok_ifM; intros Hc; [|go].
    pos_of Hc. resolve.
    assert (Hnb : lexer.Type_ (peek b1) <> lexer.RBRACE).
    { unfold andb_, negb_ in Hc. apply andb_true_iff in Hc.
      destruct Hc as [Hc1 Hc2]. apply negb_true_iff in Hc1, Hc2.
      apply not_RBRACE; assumption. }
    eapply ok_bind; [call|]. intro_post.
    match goal with H : _ <> lexer.RBRACE -> _ |- _ => specialize (H Hnb) end.
    resolve. go.
  - intro_post. go.
Qed.
Hint Resolve parseAssemblyBlock_ok : okdb.

Lemma parseAssemblyLocalDefinition_ok b :
  wf b -> mu b <= n ->
  ok (parseAssemblyLocalDefinition rec) b (fun _ b' => adv b b').
Proof. intros Hw Hn. unfold parseAssemblyLocalDefinition. go. Qed.
Hint Resolve parseAssemblyLocalDefinition_ok : okdb.

Lemma parseAssemblyIf_ok b :
  wf b -> mu b <= n -> ok (parseAssemblyIf rec) b (fun _ b' => adv b b').
Proof. intros Hw Hn. unfold parseAssemblyIf. go. Qed.
Hint Resolve parseAssemblyIf_ok : okdb.

Lemma parseAssemblyFor_ok b :
  wf b -> mu b <= n -> ok (parseAssemblyFor rec) b (fun _ b' => adv b b').
Proof. intros Hw Hn. unfold parseAssemblyFor. go. Qed.
Hint Resolve parseAssemblyFor_ok : okdb.

Lemma parseAssemblySwitch_ok b :
  wf b -> mu b <= n ->
  ok (parseAssemblySwitch rec) b (fun _ b' => adv b b').
Proof. intros Hw Hn. unfold parseAssemblySwitch. go. Qed.
Hint Resolve parseAssemblySwitch_ok : okdb.

Lemma parseAssemblyFunctionDefinition_ok b :
  wf b -> mu b <= n ->
  ok (parseAssemblyFunctionDefinition rec) b (fun _ b' => adv b b').
Proof. intros Hw Hn. unfold parseAssemblyFunctionDefinition. go. Qed.
Hint Resolve parseAssemblyFunctionDefinition_ok : okdb.

Lemma parseAssemblyExpressionOrAssignment_ok b :
  wf b -> mu b <= n ->
  ok (parseAssemblyExpressionOrAssignment rec) b (fun _ b' => adv b b').
Proof. intros Hw Hn. unfold parseAssemblyExpressionOrAssignment. go. Qed.
Hint Resolve parseAssemblyExpressionOrAssignment_ok : okdb.

Lemma parseAssemblyStatement__ok b :
  wf b -> mu b <= n ->
  ok (parseAssemblyStatement_ rec) b
     (fun _ b' => ext b b' /\
        (lexer.Type_ (peek b) <> lexer.RBRACE -> mu b <> 0 ->
         mu b' < mu b)).
Proof.
  intros Hw Hn. unfold parseAssemblyStatement_. apply ok_bind_gets.
  destruct (lexer.Type_ (peek b)) eqn:E; try pos_of E;
    try (eapply ok_bind; [call|]; intro_post; apply ok_ret;
         split; [fin | intros _ ?; resolve; lia0]).
  apply ok_ret. split; [fin | intros Hne; congruence].
Qed.

Lemma parseAssemblyStatement_ok b :
  wf b -> mu b <= n ->
  ok (parseAssemblyStatement rec) b (fun _ b' => adv b b').
Proof. intros Hw Hn. unfold parseAssemblyStatement. go. Qed.
Hint Resolve parseAssemblyStatement_ok : okdb.

Lemma parseUncheckedBlock_ok b :
  wf b -> mu b <= n ->
  ok (parseUncheckedBlock rec) b (fun _ b' => adv b b').
Proof. intros Hw Hn. unfold parseUncheckedBlock. go. Qed.
Hint Resolve parseUncheckedBlock_ok : okdb.

Lemma parseDeclarationOrExpressionStatement_ok b :
  wf b -> mu b <= n ->
  ok (parseDeclarationOrExpressionStatement rec) b (fun _ b' => adv b b').
Proof. intros Hw Hn. unfold parseDeclarationOrExpressionStatement. go. Qed.
Hint Resolve parseDeclarationOrExpressionStatement_ok : okdb.

Lemma parseStatement_ok b :
  wf b -> mu b <= n -> ok (parseStatement rec) b (fun _ b' => adv b b').
Proof. intros Hw Hn. unfold parseStatement. go. Qed.

End Statements.
#[export] Hint Resolve parseBlock_ok parseInitialValue_ok
  parseStatement_ok parseAssemblyExpression_ok : okdb.

(** * Termination: definitions *)

Lemma parsePragmaDirective_ok b :
  wf b -> ok parsePragmaDirective b (fun _ b' => adv b b').
Proof. intros Hw. unfold parsePragmaDirective. go. Qed.

Lemma parseFromPath_ok b :
  wf b -> ok parseFromPath b (fun _ b' => adv b b').
Proof. intros Hw. unfold parseFromPath. go. Qed.
#[export] Hint Resolve parsePragmaDirective_ok parseFromPath_ok : okdb.

Lemma parseImportDirective_ok b :
  wf b -> ok parseImportDirective b (fun _ b' => adv b b').
Proof. intros Hw. unfold parseImportDirective. go. Qed.

Lemma parseOverrideSpecifier_ok o b :
  wf b -> ok (parseOverrideSpecifier o) b (fun _ b' => adv b b').
Proof. intros Hw. unfold parseOverrideSpecifier. go. Qed.

Lemma parseEnumDefinition_ok b :
  wf b -> ok parseEnumDefinition b (fun _ b' => adv b b').
Proof. intros Hw. unfold parseEnumDefinition. go. Qed.

Lemma parseUserDefinedValueTypeDefinition_ok b :
  wf b -> ok parseUserDefinedValueTypeDefinition b (fun _ b' => adv b b').
Proof. intros Hw. unfold parseUserDefinedValueTypeDefinition. go. Qed.
#[export] Hint Resolve parseImportDirective_ok parseOverrideSpecifier_ok
  parseEnumDefinition_ok parseUserDefinedValueTypeDefinition_ok : okdb.

Section Definitions.
Variable rec : Rec.
Variable n : nat.
Hypothesis Hrec : Specs n rec.

Lemma parseInheritanceSpecifier_ok b :
  wf b -> mu b <= n ->
  ok (parseInheritanceSpecifier rec) b (fun _ b' => adv b b').
Proof. intros Hw Hn. unfold parseInheritanceSpecifier. go. Qed.
Hint Resolve parseInheritanceSpecifier_ok : okdb.

Lemma parseModifierInvocation_ok b :
  wf b -> mu b <= n ->
  ok (parseModifierInvocation rec) b (fun _ b' => adv b b').
Proof. intros Hw Hn. unfold parseModifierInvocation. go. Qed.
Hint Resolve parseModifierInvocation_ok : okdb.

Lemma parseFunctionModifiers_ok m b :
  wf b -> mu b <= n ->
  ok (parseFunctionModifiers rec m) b (fun _ b' => ext b b').
Proof. intros Hw Hn. unfold parseFunctionModifiers. go. Qed.
Hint Resolve parseFunctionModifiers_ok : okdb.

Lemma parseBodyOrSemicolon_ok b :
  wf b -> mu b <= n ->
  ok (parseBodyOrSemicolon rec) b (fun _ b' => adv b b').
Proof. intros Hw Hn. unfold parseBodyOrSemicolon. go. Qed.
Hint Resolve parseBodyOrSemicolon_ok : okdb.

Lemma parseReturnParameters_ok b :
  wf b -> mu b <= n ->
  ok (parseReturnParameters rec) b (fun _ b' => ext b b').
Proof. intros Hw Hn. unfold parseReturnParameters. go. Qed.
Hint Resolve parseReturnParameters_ok : okdb.

Lemma parseFunctionDefinition_ok b :
  wf b -> mu b <= n ->
  ok (parseFunctionDefinition rec) b (fun _ b' => adv b b').
Proof. intros Hw Hn. unfold parseFunctionDefinition. go. Qed.

Lemma parseConstructorDefinition_ok b :
  wf b -> mu b <= n ->
  ok (parseConstructorDefinition rec) b (fun _ b' => adv b b').
Proof. intros Hw Hn. unfold parseConstructorDefinition. go. Qed.

Lemma parseFallbackDefinition_ok b :
  wf b -> mu b <= n ->
  ok (parseFallbackDefinition rec) b (fun _ b' => adv b b').
Proof. intros Hw Hn. unfold parseFallbackDefinition. go. Qed.

Lemma parseReceiveDefinition_ok b :
  wf b -> mu b <= n ->
  ok (parseReceiveDefinition rec) b (fun _ b' => adv b b').
Proof. intros Hw Hn. unfold parseReceiveDefinition. go. Qed.

Lemma parseModifierDefinition_ok b :
  wf b -> mu b <= n ->
  ok (parseModifierDefinition rec) b (fun _ b' => adv b b').
Proof. intros Hw Hn. unfold parseModifierDefinition. go. Qed.

Lemma parseStateVariableDeclaration_ok b :
  wf b -> mu b <= n ->
  ok (parseStateVariableDeclaration rec) b (fun _ b' => adv b b').
Proof. intros Hw Hn. unfold parseStateVariableDeclaration. go. Qed.

Lemma parseConstantVariableDeclaration_ok b :
  wf b -> mu b <= n ->
  ok (parseConstantVariableDeclaration rec) b (fun _ b' => adv b b').
Proof. exact (parseStateVariableDeclaration_ok b). Qed.

Lemma parseStructDefinition_ok b :
  wf b -> mu b <= n ->
  ok (parseStructDefinition rec) b (fun _ b' => adv b b').
Proof. intros Hw Hn. unfold parseStructDefinition. go. Qed.

Lemma parseEventDefinition_ok b :
  wf b -> mu b <= n ->
  ok (parseEventDefinition rec) b (fun _ b' => adv b b').
Proof. intros Hw Hn. unfold parseEventDefinition. go. Qed.

Lemma parseErrorDefinition_ok b :
  wf b -> mu b <= n ->
  ok (parseErrorDefinition rec) b (fun _ b' => adv b b').
Proof. intros Hw Hn. unfold parseErrorDefinition. go. Qed.

Lemma parseUsingDirective_ok b :
  wf b -> mu b <= n ->
  ok (parseUsingDirective rec) b (fun _ b' => adv b b').
Proof. intros Hw Hn. unfold parseUsingDirective. go. Qed.

Hint Resolve parseFunctionDefinition_ok parseConstructorDefinition_ok
  parseFallbackDefinition_ok parseReceiveDefinition_ok
  parseModifierDefinition_ok parseStateVariableDeclaration_ok
  parseConstantVariableDeclaration_ok parseStructDefinition_ok
  parseEventDefinition_ok parseErrorDefinition_ok parseUsingDirective_ok
  : okdb.

Lemma parseContractBodyElement_ok b :
  wf b -> mu b <= n ->
  ok (parseContractBodyElement rec) b (fun _ b' => adv b b').
Proof. intros Hw Hn. unfold parseContractBodyElement. go. Qed.
Hint Resolve parseContractBodyElement_ok : okdb.

Lemma parseContractDefinition_ok kind b :
  wf b -> mu b <= n ->
  ok (parseContractDefinition rec kind) b (fun _ b' => adv b b').
Proof. intros Hw Hn. unfold parseContractDefinition. go. Qed.
Hint Resolve parseContractDefinition_ok : okdb.

Lemma parseSourceUnitElement_ok b :
  wf b -> mu b <= n ->
  ok (parseSourceUnitElement rec) b (fun _ b' => adv b b').
Proof. intros Hw Hn. unfold parseSourceUnitElement. go. Qed.
Hint Resolve parseSourceUnitElement_ok : okdb.

Lemma BuildWith_ok b :
  wf b -> mu b <= n -> ok (BuildWith rec) b (fun _ b' => ext b b').
Proof. intros Hw Hn. unfold BuildWith. go. Qed.

End Definitions.

(** * Termination: the recursion *)

Lemma methods_spec fuel : Specs fuel (methods fuel).
Proof.
  induction fuel as [|fuel IH].
  - constructor; intros b _ H; inversion H.
  - constructor; intros b Hw Hlt; simpl.
    + apply (parseTypeName_ok _ fuel IH); [assumption | lia].
    + apply (parseExpression_ok _ fuel IH); [assumption | lia].
    + apply (parseAssignment_ok _ fuel IH); [assumption | lia].
    + apply (parseTernary_ok _ fuel IH); [assumption | lia].
    + apply (parseExponentiation_ok _ fuel IH); [assumption | lia].
    + apply (parseUnary_ok _ fuel IH); [assumption | lia].
    + apply (parseStatement_ok _ fuel IH); [assumption | lia].
    + apply (parseAssemblyExpression_ok _ fuel IH); [assumption | lia].
    + apply (parseAssemblyStatement__ok _ fuel IH); [assumption | lia].
Qed.

Lemma wf_New input opts : wf (New input opts).
Proof. unfold wf, New. simpl. lia. Qed.

Lemma Build_ok b :
  wf b -> ok Build b (fun _ b' => ext b b').
Proof.
  intros Hw. unfold Build.
  apply (BuildWith_ok _ (fuel_for b) (methods_spec (fuel_for b)));
    [assumption|].
  unfold fuel_for. pose proof (mu_le b). lia.
Qed.

(** * What [Build] returns in the two modes *)

Lemma BuildWith_result rec n (Hrec : Specs n rec) b :
  wf b -> mu b <= n ->
  (Tolerant (options b) = false -> errors b = []) ->
  ok (BuildWith rec) b
     (fun res b' => ext b b' /\
        outcome_ok (Tolerant (options b)) (errors b') res).
Proof.
  intros Hw Hn Hinit. unfold BuildWith.
  eapply ok_bind with
    (P := fun r b' => ext b b' /\
       match r with
       | inl _ => Tolerant (options b) = false -> errors b' = []
       | inr e => Tolerant (options b) = false /\
                  exists e0 rest, errors b' = e0 :: rest /\ e = Some e0
       end).
  - apply (ok_for _
      (fun _ b' => ext b b' /\
         (Tolerant (options b) = false -> errors b' = []))).
    + split; [fin | exact Hinit].
    + intros children bi [Hext Herr]. facts.
      apply ok_ifM; intros Hend.
      * apply ok_break. split; [fin | exact Herr].
      * pos_of Hend.
        eapply ok_bind;
          [apply (parseSourceUnitElement_ok rec n Hrec); [assumption | lia0]|].
        intros node b1 Hadv. cbv beta zeta. cbv beta in Hadv. facts.
        apply ok_ifM; cbv beta; intros Hc.
        -- apply ok_bind_gets. apply ok_break.
           apply andb_true_iff in Hc. destruct Hc as [Hlen Htol].
           apply negb_true_iff in Htol.
           split; [fin|]. split; [congruence|].
           destruct (errors b1) as [|e0 rest]; [discriminate Hlen|].
           exists e0, rest. split; reflexivity.
        -- apply ok_continue. split; [|lia0].
           split; [fin|]. intros Htol.
           apply andb_false_iff in Hc. destruct Hc as [Hlen | Hc].
           ++ destruct (errors b1); [reflexivity | discriminate Hlen].
           ++ apply negb_false_iff in Hc. congruence.
  - intros [children | e] b1 [Hext Hres].
    + apply ok_bind_gets. apply ok_ret. split; [fin|].
      unfold outcome_ok.
      assert (Hsu : forall loc, exists su,
        (Some (ast.MkNode {| ast.Type_ := ast.NodeSourceUnit;
                             ast.Loc := loc; ast.Range_ := None |}
                          (ast.SourceUnit children)), @None Error)
        = (Some su, None) /\ isSourceUnit su).
      { intros loc. eexists. split; [reflexivity|].
        split; [reflexivity | eexists; reflexivity]. }
      destruct (Tolerant (options b)) eqn:HT; [apply Hsu|].
      rewrite (Hres eq_refl). apply Hsu.
    + destruct Hres as (HT & e0 & rest & He & ->).
      apply ok_ret. split; [fin|].
      unfold outcome_ok. rewrite HT, He. reflexivity.
Qed.

Lemma Build_result b :
  wf b -> errors b = [] ->
  ok Build b
     (fun res b' => ext b b' /\
        outcome_ok (Tolerant (options b)) (errors b') res).
Proof.
  intros Hw He. unfold Build.
  apply (BuildWith_result _ (fuel_for b) (methods_spec (fuel_for b)));
    [assumption | | intros _; exact He].
  unfold fuel_for. pose proof (mu_le b). lia.
Qed.

(** C3: in tolerant mode [Build] returns a [SourceUnit] and no error,
    whatever errors it has recorded, and [Errors] exposes them; in strict
    mode it returns the first recorded error and no tree when an error
    was recorded (and a [SourceUnit] and no error otherwise). *)
Theorem Build_tolerant_and_strict (input : string) (loc range : bool) :
  (exists su errs,
     Run input (Some {| Tolerant := true; Loc := loc; Range := range |})
         (Some su, None) errs /\ isSourceUnit su)
  /\
  (exists res errs,
     Run input (Some {| Tolerant := false; Loc := loc; Range := range |})
         res errs /\
     match errs with
     | [] => exists su, res = (Some su, None) /\ isSourceUnit su
     | e :: _ => res = (None, Some e)
     end).
Proof.
  split.
  - destruct (Build_result
                (New input (Some {| Tolerant := true; Loc := loc;
                                    Range := range |}))
                (wf_New _ _) eq_refl)
      as (res & b' & HB & _ & Hout).
    simpl in Hout. destruct Hout as (su & -> & Hsu).
    exists su, (Errors b'). split; [|exact Hsu].
    exists b'. split; [exact HB | reflexivity].
  - destruct (Build_result
                (New input (Some {| Tolerant := false; Loc := loc;
                                    Range := range |}))
                (wf_New _ _) eq_refl)
      as (res & b' & HB & _ & Hout).
    simpl in Hout.
    exists res, (Errors b'). split; [|exact Hout].
    exists b'. split; [exact HB | reflexivity].
Qed.

(** The two modes on a text with a syntax error: a tree and two
    recorded errors in tolerant mode, the first of them and no tree in
    strict mode. *)
Lemma modes_on_invalid_input :
  Run invalid_input
      (Some {| Tolerant := true; Loc := false; Range := false |})
      (Some invalid_tree, None)
      [invalid_error;
       {| Message := "expected '}', got ''"; Line := 1; Column := 37 |}]
  /\ Run invalid_input None (None, Some invalid_error) [invalid_error].
Proof.
  split; eexists; (split; [vm_compute; reflexivity | reflexivity]).
Qed.

(** Every input has a run. *)
Lemma Run_total (input : string) (opts : option Options) :
  exists res errs, Run input opts res errs.
Proof.
  destruct (Build_ok (New input opts) (wf_New _ _)) as (res & b' & HB & _).
  exists res, (Errors b'), b'. split; [exact HB | reflexivity].
Qed.

(** C8: [Build] terminates: for every input and every options value the
    scanner delivers a token list that ends with [EOF], and [Build]
    returns on it, with the tokens unchanged and the cursor within
    them. *)
Theorem Build_terminates (input : string) (opts : option Options) :
  (exists ts t, tokens (New input opts) = ts ++ [t] /\
                lexer.Type_ t = lexer.EOF) /\
  exists res b',
    Build (New input opts) = Some (res, b') /\
    tokens b' = tokens (New input opts) /\
    pos b' <= length (tokens b').
Proof.
  split.
  - destruct (lexer_facts.Tokenize_ends_with_EOF (lexer.New input))
      as (ts & t & E & Ht & _).
    exists ts, t. split; [exact E | exact Ht].
  - destruct (Build_ok (New input opts) (wf_New _ _))
      as (res & b' & HB & Ht & _ & _ & Hw).
    exists res, b'. repeat split; assumption.
Qed.

(** * Independence of the recursion bound

    A method that returns with the callees [rec] returns the same with
    callees that return whatever those of [rec] return; so the result of
    [Build] is the same for every bound from the number of tokens on. *)

Lemma mle_refl {A} (m : M A) : mle m m.
Proof. intros b r H. exact H. Qed.

Lemma mle_bind {A B} (m m' : M A) (k k' : A -> M B) :
  mle m m' -> (forall x, mle (k x) (k' x)) -> mle (bind m k) (bind m' k').
Proof.
  intros Hm Hk b r H. unfold bind in *.
  destruct (m b) as [[x b1]|] eqn:E; [|discriminate H].
  rewrite (Hm _ _ E). exact (Hk x _ _ H).
Qed.

Lemma mle_ifM {A} (c : Builder -> bool) (t t' e e' : M A) :
  mle t t' -> mle e e' -> mle (ifM c t e) (ifM c t' e').
Proof.
  intros Ht He b r H. unfold ifM in *.
  destruct (c b); [exact (Ht _ _ H) | exact (He _ _ H)].
Qed.

Lemma mle_loop {V R} (body body' : V -> M (V + R)) :
  (forall s, mle (body s) (body' s)) ->
  forall n s, mle (loop n body s) (loop n body' s).
Proof.
  intros Hb. induction n as [|n IH]; intros s b r H; [discriminate H|].
  simpl in *. destruct (body s b) as [[[s'|r'] b1]|] eqn:E;
    try discriminate H; rewrite (Hb _ _ _ E); [exact (IH _ _ _ H) | exact H].
Qed.

Lemma mle_for {V R} (body body' : V -> M (V + R)) s :
  (forall s, mle (body s) (body' s)) -> mle (for_ body s) (for_ body' s).
Proof. intros Hb b r H. unfold for_ in *. exact (mle_loop _ _ Hb _ _ _ _ H). Qed.

(** A loop that returns within its bound returns the same within every
    larger bound. *)
Lemma loop_fuel {V R} (body : V -> M (V + R)) n k :
  forall s b r, loop n body s b = Some r -> loop (n + k) body s b = Some r.
Proof.
  induction n as [|n IH]; intros s b r H; [discriminate H|].
  simpl in *. destruct (body s b) as [[[s'|r'] b1]|]; try discriminate H.
  - exact (IH _ _ _ H).
  - exact H.
Qed.

Create HintDb monodb discriminated.

Ltac mono :=
  lazymatch goal with
  | |- mle ?m ?m' =>
      first
        [ constr_eq m m'; apply mle_refl
        | lazymatch goal with
          | |- mle (bind _ _) (bind _ _) =>
              apply mle_bind; [ mono | intros ?; cbv beta zeta; mono ]
          | |- mle (ifM _ _ _) (ifM _ _ _) => apply mle_ifM; mono
          | |- mle (for_ _ _) (for_ _ _) =>
              apply mle_for; intros ?; cbv beta zeta; mono
          | |- mle (if ?c then _ else _) _ => destruct c; mono
          | |- mle (match ?x with _ => _ end) _ => destruct x; mono
          | |- _ => solve [ eauto 3 with monodb nocore ]
          end ]
  end.

Lemma parseBinaryLeft_mono (isOp : Builder -> bool)
  (operand operand' : M ast.Node) :
  mle operand operand' ->
  mle (parseBinaryLeft isOp operand) (parseBinaryLeft isOp operand').
Proof.
  intros H. unfold parseBinaryLeft.
  apply mle_bind; [exact H | intros left].
  apply mle_for. intros left'. apply mle_ifM; [|apply mle_refl].
  apply mle_bind; [apply mle_refl | intros opTok].
  apply mle_bind; [exact H | intros right]. apply mle_refl.
Qed.

Section Monotone.
Variables rec rec' : Rec.
Hypothesis Hle : Rle rec rec'.

Hint Extern 1 (mle (call_parseTypeName _) _) =>
  exact (le_parseTypeName _ _ Hle) : monodb.
Hint Extern 1 (mle (call_parseExpression _) _) =>
  exact (le_parseExpression _ _ Hle) : monodb.
Hint Extern 1 (mle (call_parseAssignment _) _) =>
  exact (le_parseAssignment _ _ Hle) : monodb.
Hint Extern 1 (mle (call_parseTernary _) _) =>
  exact (le_parseTernary _ _ Hle) : monodb.
Hint Extern 1 (mle (call_parseExponentiation _) _) =>
  exact (le_parseExponentiation _ _ Hle) : monodb.
Hint Extern 1 (mle (call_parseUnary _) _) =>
  exact (le_parseUnary _ _ Hle) : monodb.
Hint Extern 1 (mle (call_parseStatement _) _) =>
  exact (le_parseStatement _ _ Hle) : monodb.
Hint Extern 1 (mle (call_parseAssemblyExpression _) _) =>
  exact (le_parseAssemblyExpression _ _ Hle) : monodb.
Hint Extern 1 (mle (call_parseAssemblyStatement_ _) _) =>
  exact (le_parseAssemblyStatement_ _ _ Hle) : monodb.

Lemma parseParameter_mono :
  mle (parseParameter rec) (parseParameter rec').
Proof. unfold parseParameter. mono. Qed.
Hint Resolve parseParameter_mono : monodb.

Lemma parseParameterList_mono :
  mle (parseParameterList rec) (parseParameterList rec').
Proof. unfold parseParameterList. mono. Qed.
Hint Resolve parseParameterList_mono : monodb.

Lemma parseFunctionTypeName_mono :
  mle (parseFunctionTypeName rec) (parseFunctionTypeName rec').
Proof. unfold parseFunctionTypeName. mono. Qed.
Hint Resolve parseFunctionTypeName_mono : monodb.

Lemma parseMappingType_mono :
  mle (parseMappingType rec) (parseMappingType rec').
Proof. unfold parseMappingType. mono. Qed.
Hint Resolve parseMappingType_mono : monodb.

Lemma parseTypeName_mono :
  mle (parseTypeName rec) (parseTypeName rec').
Proof. unfold parseTypeName. mono. Qed.
Hint Resolve parseTypeName_mono : monodb.

Lemma parseVariableDeclaration_mono :
  mle (parseVariableDeclaration rec) (parseVariableDeclaration rec').
Proof. unfold parseVariableDeclaration. mono. Qed.
Hint Resolve parseVariableDeclaration_mono : monodb.

Lemma parseExpressionList_mono :
  mle (parseExpressionList rec) (parseExpressionList rec').
Proof. unfold parseExpressionList. mono. Qed.
Hint Resolve parseExpressionList_mono : monodb.

Lemma parseTupleRest_mono (x0 : lexer.Token) (x1 : option ast.Node) :
  mle (parseTupleRest rec x0 x1) (parseTupleRest rec' x0 x1).
Proof. unfold parseTupleRest. mono. Qed.
Hint Resolve parseTupleRest_mono : monodb.

Lemma parseTupleOrParenthesized_mono :
  mle (parseTupleOrParenthesized rec) (parseTupleOrParenthesized rec').
Proof. unfold parseTupleOrParenthesized. mono. Qed.
Hint Resolve parseTupleOrParenthesized_mono : monodb.

Lemma parseArrayLiteral_mono :
  mle (parseArrayLiteral rec) (parseArrayLiteral rec').
Proof. unfold parseArrayLiteral. mono. Qed.
Hint Resolve parseArrayLiteral_mono : monodb.

Lemma parseNewExpression_mono :
  mle (parseNewExpression rec) (parseNewExpression rec').
Proof. unfold parseNewExpression. mono. Qed.
Hint Resolve parseNewExpression_mono : monodb.

Lemma parseTypeExpression_mono :
  mle (parseTypeExpression rec) (parseTypeExpression rec').
Proof. unfold parseTypeExpression. mono. Qed.
Hint Resolve parseTypeExpression_mono : monodb.

Lemma parsePayableConversion_mono :
  mle (parsePayableConversion rec) (parsePayableConversion rec').
Proof. unfold parsePayableConversion. mono. Qed.
Hint Resolve parsePayableConversion_mono : monodb.

Lemma parsePrimary_mono :
  mle (parsePrimary rec) (parsePrimary rec').
Proof. unfold parsePrimary. mono. Qed.
Hint Resolve parsePrimary_mono : monodb.

Lemma parseNamedValues_mono :
  mle (parseNamedValues rec) (parseNamedValues rec').
Proof. unfold parseNamedValues. mono. Qed.
Hint Resolve parseNamedValues_mono : monodb.

Lemma parseFunctionCall_mono (x0 : ast.Node) :
  mle (parseFunctionCall rec x0) (parseFunctionCall rec' x0).
Proof. unfold parseFunctionCall. mono. Qed.
Hint Resolve parseFunctionCall_mono : monodb.

Lemma parseFunctionCallOptions_mono (x0 : ast.Node) :
  mle (parseFunctionCallOptions rec x0) (parseFunctionCallOptions rec' x0).
Proof. unfold parseFunctionCallOptions. mono. Qed.
Hint Resolve parseFunctionCallOptions_mono : monodb.

Lemma parseIndex_mono (x0 : ast.Node) :
  mle (parseIndex rec x0) (parseIndex rec' x0).
Proof. unfold parseIndex. mono. Qed.
Hint Resolve parseIndex_mono : monodb.

Lemma parseCallMemberIndex_mono :
  mle (parseCallMemberIndex rec) (parseCallMemberIndex rec').
Proof. unfold parseCallMemberIndex. mono. Qed.
Hint Resolve parseCallMemberIndex_mono : monodb.

Lemma parsePostfix_mono :
  mle (parsePostfix rec) (parsePostfix rec').
Proof. unfold parsePostfix. mono. Qed.
Hint Resolve parsePostfix_mono : monodb.

Lemma parseUnary_mono :
  mle (parseUnary rec) (parseUnary rec').
Proof. unfold parseUnary. mono. Qed.
Hint Resolve parseUnary_mono : monodb.

Lemma parseExponentiation_mono :
  mle (parseExponentiation rec) (parseExponentiation rec').
Proof. unfold parseExponentiation. mono. Qed.
Hint Resolve parseExponentiation_mono : monodb.

Lemma parseMultiplicative_mono :
  mle (parseMultiplicative rec) (parseMultiplicative rec').
Proof. apply parseBinaryLeft_mono, parseExponentiation_mono. Qed.
Hint Resolve parseMultiplicative_mono : monodb.

Lemma parseAdditive_mono :
  mle (parseAdditive rec) (parseAdditive rec').
Proof. apply parseBinaryLeft_mono, parseMultiplicative_mono. Qed.
Hint Resolve parseAdditive_mono : monodb.

Lemma parseShift_mono :
  mle (parseShift rec) (parseShift rec').
Proof. apply parseBinaryLeft_mono, parseAdditive_mono. Qed.
Hint Resolve parseShift_mono : monodb.

Lemma parseBitwiseAnd_mono :
  mle (parseBitwiseAnd rec) (parseBitwiseAnd rec').
Proof. apply parseBinaryLeft_mono, parseShift_mono. Qed.
Hint Resolve parseBitwiseAnd_mono : monodb.

Lemma parseBitwiseXor_mono :
  mle (parseBitwiseXor rec) (parseBitwiseXor rec').
Proof. apply parseBinaryLeft_mono, parseBitwiseAnd_mono. Qed.
Hint Resolve parseBitwiseXor_mono : monodb.

Lemma parseBitwiseOr_mono :
  mle (parseBitwiseOr rec) (parseBitwiseOr rec').
Proof. apply parseBinaryLeft_mono, parseBitwiseXor_mono. Qed.
Hint Resolve parseBitwiseOr_mono : monodb.

Lemma parseRelational_mono :
  mle (parseRelational rec) (parseRelational rec').
Proof. apply parseBinaryLeft_mono, parseBitwiseOr_mono. Qed.
Hint Resolve parseRelational_mono : monodb.

Lemma parseEquality_mono :
  mle (parseEquality rec) (parseEquality rec').
Proof. apply parseBinaryLeft_mono, parseRelational_mono. Qed.
Hint Resolve parseEquality_mono : monodb.

Lemma parseLogicalAnd_mono :
  mle (parseLogicalAnd rec) (parseLogicalAnd rec').
Proof. apply parseBinaryLeft_mono, parseEquality_mono. Qed.
Hint Resolve parseLogicalAnd_mono : monodb.

Lemma parseLogicalOr_mono :
  mle (parseLogicalOr rec) (parseLogicalOr rec').
Proof. apply parseBinaryLeft_mono, parseLogicalAnd_mono. Qed.
Hint Resolve parseLogicalOr_mono : monodb.

Lemma parseTernary_mono :
  mle (parseTernary rec) (parseTernary rec').
Proof. unfold parseTernary. mono. Qed.
Hint Resolve parseTernary_mono : monodb.

Lemma parseAssignment_mono :
  mle (parseAssignment rec) (parseAssignment rec').
Proof. unfold parseAssignment. mono. Qed.
Hint Resolve parseAssignment_mono : monodb.

Lemma parseExpression_mono :
  mle (parseExpression rec) (parseExpression rec').
Proof. exact parseAssignment_mono. Qed.
Hint Resolve parseExpression_mono : monodb.

Lemma parseBlock_mono :
  mle (parseBlock rec) (parseBlock rec').
Proof. unfold parseBlock. mono. Qed.
Hint Resolve parseBlock_mono : monodb.

Lemma parseExpressionStatement_mono :
  mle (parseExpressionStatement rec) (parseExpressionStatement rec').
Proof. unfold parseExpressionStatement. mono. Qed.
Hint Resolve parseExpressionStatement_mono : monodb.

Lemma parseInitialValue_mono :
  mle (parseInitialValue rec) (parseInitialValue rec').
Proof. unfold parseInitialValue. mono. Qed.
Hint Resolve parseInitialValue_mono : monodb.

Lemma parseVariableDeclarationStatement_mono :
  mle (parseVariableDeclarationStatement rec) (parseVariableDeclarationStatement rec').
Proof. unfold parseVariableDeclarationStatement. mono. Qed.
Hint Resolve parseVariableDeclarationStatement_mono : monodb.

Lemma parseTupleVariableDeclarationOrExpression_mono :
  mle (parseTupleVariableDeclarationOrExpression rec) (parseTupleVariableDeclarationOrExpression rec').
Proof. unfold parseTupleVariableDeclarationOrExpression. mono. Qed.
Hint Resolve parseTupleVariableDeclarationOrExpression_mono : monodb.

Lemma parseIfStatement_mono :
  mle (parseIfStatement rec) (parseIfStatement rec').
Proof. unfold parseIfStatement. mono. Qed.
Hint Resolve parseIfStatement_mono : monodb.

Lemma parseForStatement_mono :
  mle (parseForStatement rec) (parseForStatement rec').
Proof. unfold parseForStatement. mono. Qed.
Hint Resolve parseForStatement_mono : monodb.

Lemma parseWhileStatement_mono :
  mle (parseWhileStatement rec) (parseWhileStatement rec').
Proof. unfold parseWhileStatement. mono. Qed.
Hint Resolve parseWhileStatement_mono : monodb.

Lemma parseDoWhileStatement_mono :
  mle (parseDoWhileStatement rec) (parseDoWhileStatement rec').
Proof. unfold parseDoWhileStatement. mono. Qed.
Hint Resolve parseDoWhileStatement_mono : monodb.

Lemma parseReturnStatement_mono :
  mle (parseReturnStatement rec) (parseReturnStatement rec').
Proof. unfold parseReturnStatement. mono. Qed.
Hint Resolve parseReturnStatement_mono : monodb.

Lemma parseEmitStatement_mono :
  mle (parseEmitStatement rec) (parseEmitStatement rec').
Proof. unfold parseEmitStatement. mono. Qed.
Hint Resolve parseEmitStatement_mono : monodb.

Lemma parseRevertStatement_mono :
  mle (parseRevertStatement rec) (parseRevertStatement rec').
Proof. unfold parseRevertStatement. mono. Qed.
Hint Resolve parseRevertStatement_mono : monodb.

Lemma parseTryCallMemberIndex_mono :
  mle (parseTryCallMemberIndex rec) (parseTryCallMemberIndex rec').
Proof. unfold parseTryCallMemberIndex. mono. Qed.
Hint Resolve parseTryCallMemberIndex_mono : monodb.

Lemma parseTryExpression_mono :
  mle (parseTryExpression rec) (parseTryExpression rec').
Proof. unfold parseTryExpression. mono. Qed.
Hint Resolve parseTryExpression_mono : monodb.

Lemma parseCatchClause_mono :
  mle (parseCatchClause rec) (parseCatchClause rec').
Proof. unfold parseCatchClause. mono. Qed.
Hint Resolve parseCatchClause_mono : monodb.

Lemma parseTryStatement_mono :
  mle (parseTryStatement rec) (parseTryStatement rec').
Proof. unfold parseTryStatement. mono. Qed.
Hint Resolve parseTryStatement_mono : monodb.

Lemma parseAssemblyCall_mono (x0 : string) (x1 : lexer.Token) :
  mle (parseAssemblyCall rec x0 x1) (parseAssemblyCall rec' x0 x1).
Proof. unfold parseAssemblyCall. mono. Qed.
Hint Resolve parseAssemblyCall_mono : monodb.

Lemma parseAssemblyExpression_mono :
  mle (parseAssemblyExpression rec) (parseAssemblyExpression rec').
Proof. unfold parseAssemblyExpression. mono. Qed.
Hint Resolve parseAssemblyExpression_mono : monodb.

Lemma parseAssemblyBlock_mono :
  mle (parseAssemblyBlock rec) (parseAssemblyBlock rec').
Proof. unfold parseAssemblyBlock. mono. Qed.
Hint Resolve parseAssemblyBlock_mono : monodb.

Lemma parseAssemblyLocalDefinition_mono :
  mle (parseAssemblyLocalDefinition rec) (parseAssemblyLocalDefinition rec').
Proof. unfold parseAssemblyLocalDefinition. mono. Qed.
Hint Resolve parseAssemblyLocalDefinition_mono : monodb.

Lemma parseAssemblyIf_mono :
  mle (parseAssemblyIf rec) (parseAssemblyIf rec').
Proof. unfold parseAssemblyIf. mono. Qed.
Hint Resolve parseAssemblyIf_mono : monodb.

Lemma parseAssemblyFor_mono :
  mle (parseAssemblyFor rec) (parseAssemblyFor rec').
Proof. unfold parseAssemblyFor. mono. Qed.
Hint Resolve parseAssemblyFor_mono : monodb.

Lemma parseAssemblySwitch_mono :
  mle (parseAssemblySwitch rec) (parseAssemblySwitch rec').
Proof. unfold parseAssemblySwitch. mono. Qed.
Hint Resolve parseAssemblySwitch_mono : monodb.

Lemma parseAssemblyFunctionDefinition_mono :
  mle (parseAssemblyFunctionDefinition rec) (parseAssemblyFunctionDefinition rec').
Proof. unfold parseAssemblyFunctionDefinition. mono. Qed.
Hint Resolve parseAssemblyFunctionDefinition_mono : monodb.

Lemma parseAssemblyExpressionOrAssignment_mono :
  mle (parseAssemblyExpressionOrAssignment rec) (parseAssemblyExpressionOrAssignment rec').
Proof. unfold parseAssemblyExpressionOrAssignment. mono. Qed.
Hint Resolve parseAssemblyExpressionOrAssignment_mono : monodb.

Lemma parseAssemblyStatement__mono :
  mle (parseAssemblyStatement_ rec) (parseAssemblyStatement_ rec').
Proof. unfold parseAssemblyStatement_. mono. Qed.
Hint Resolve parseAssemblyStatement__mono : monodb.

Lemma parseAssemblyStatement_mono :
  mle (parseAssemblyStatement rec) (parseAssemblyStatement rec').
Proof. unfold parseAssemblyStatement. mono. Qed.
Hint Resolve parseAssemblyStatement_mono : monodb.

Lemma parseUncheckedBlock_mono :
  mle (parseUncheckedBlock rec) (parseUncheckedBlock rec').
Proof. unfold parseUncheckedBlock. mono. Qed.
Hint Resolve parseUncheckedBlock_mono : monodb.

Lemma parseDeclarationOrExpressionStatement_mono :
  mle (parseDeclarationOrExpressionStatement rec) (parseDeclarationOrExpressionStatement rec').
Proof. unfold parseDeclarationOrExpressionStatement. mono. Qed.
Hint Resolve parseDeclarationOrExpressionStatement_mono : monodb.

Lemma parseStatement_mono :
  mle (parseStatement rec) (parseStatement rec').
Proof. unfold parseStatement. mono. Qed.
Hint Resolve parseStatement_mono : monodb.

Lemma parseInheritanceSpecifier_mono :
  mle (parseInheritanceSpecifier rec) (parseInheritanceSpecifier rec').
Proof. unfold parseInheritanceSpecifier. mono. Qed.
Hint Resolve parseInheritanceSpecifier_mono : monodb.

Lemma parseModifierInvocation_mono :
  mle (parseModifierInvocation rec) (parseModifierInvocation rec').
Proof. unfold parseModifierInvocation. mono. Qed.
Hint Resolve parseModifierInvocation_mono : monodb.

Lemma parseFunctionModifiers_mono (x0 : FunctionModifiers) :
  mle (parseFunctionModifiers rec x0) (parseFunctionModifiers rec' x0).
Proof. unfold parseFunctionModifiers. mono. Qed.
Hint Resolve parseFunctionModifiers_mono : monodb.

Lemma parseBodyOrSemicolon_mono :
  mle (parseBodyOrSemicolon rec) (parseBodyOrSemicolon rec').
Proof. unfold parseBodyOrSemicolon. mono. Qed.
Hint Resolve parseBodyOrSemicolon_mono : monodb.

Lemma parseReturnParameters_mono :
  mle (parseReturnParameters rec) (parseReturnParameters rec').
Proof. unfold parseReturnParameters. mono. Qed.
Hint Resolve parseReturnParameters_mono : monodb.

Lemma parseFunctionDefinition_mono :
  mle (parseFunctionDefinition rec) (parseFunctionDefinition rec').
Proof. unfold parseFunctionDefinition. mono. Qed.
Hint Resolve parseFunctionDefinition_mono : monodb.

Lemma parseConstructorDefinition_mono :
  mle (parseConstructorDefinition rec) (parseConstructorDefinition rec').
Proof. unfold parseConstructorDefinition. mono. Qed.
Hint Resolve parseConstructorDefinition_mono : monodb.

Lemma parseFallbackDefinition_mono :
  mle (parseFallbackDefinition rec) (parseFallbackDefinition rec').
Proof. unfold parseFallbackDefinition. mono. Qed.
Hint Resolve parseFallbackDefinition_mono : monodb.

Lemma parseReceiveDefinition_mono :
  mle (parseReceiveDefinition rec) (parseReceiveDefinition rec').
Proof. unfold parseReceiveDefinition. mono. Qed.
Hint Resolve parseReceiveDefinition_mono : monodb.

Lemma parseModifierDefinition_mono :
  mle (parseModifierDefinition rec) (parseModifierDefinition rec').
Proof. unfold parseModifierDefinition. mono. Qed.
Hint Resolve parseModifierDefinition_mono : monodb.

Lemma parseStateVariableDeclaration_mono :
  mle (parseStateVariableDeclaration rec) (parseStateVariableDeclaration rec').
Proof. unfold parseStateVariableDeclaration. mono. Qed.
Hint Resolve parseStateVariableDeclaration_mono : monodb.

Lemma parseConstantVariableDeclaration_mono :
  mle (parseConstantVariableDeclaration rec) (parseConstantVariableDeclaration rec').
Proof. unfold parseConstantVariableDeclaration. mono. Qed.
Hint Resolve parseConstantVariableDeclaration_mono : monodb.

Lemma parseStructDefinition_mono :
  mle (parseStructDefinition rec) (parseStructDefinition rec').
Proof. unfold parseStructDefinition. mono. Qed.
Hint Resolve parseStructDefinition_mono : monodb.

Lemma parseEventDefinition_mono :
  mle (parseEventDefinition rec) (parseEventDefinition rec').
Proof. unfold parseEventDefinition. mono. Qed.
Hint Resolve parseEventDefinition_mono : monodb.

Lemma parseErrorDefinition_mono :
  mle (parseErrorDefinition rec) (parseErrorDefinition rec').
Proof. unfold parseErrorDefinition. mono. Qed.
Hint Resolve parseErrorDefinition_mono : monodb.

Lemma parseUsingDirective_mono :
  mle (parseUsingDirective rec) (parseUsingDirective rec').
Proof. unfold parseUsingDirective. mono. Qed.
Hint Resolve parseUsingDirective_mono : monodb.

Lemma parseContractBodyElement_mono :
  mle (parseContractBodyElement rec) (parseContractBodyElement rec').
Proof. unfold parseContractBodyElement. mono. Qed.
Hint Resolve parseContractBodyElement_mono : monodb.

Lemma parseContractDefinition_mono (x0 : string) :
  mle (parseContractDefinition rec x0) (parseContractDefinition rec' x0).
Proof. unfold parseContractDefinition. mono. Qed.
Hint Resolve parseContractDefinition_mono : monodb.

Lemma parseSourceUnitElement_mono :
  mle (parseSourceUnitElement rec) (parseSourceUnitElement rec').
Proof. unfold parseSourceUnitElement. mono. Qed.
Hint Resolve parseSourceUnitElement_mono : monodb.

Lemma BuildWith_mono :
  mle (BuildWith rec) (BuildWith rec').
Proof. unfold BuildWith. mono. Qed.
Hint Resolve BuildWith_mono : monodb.

End Monotone.

Lemma methods_mono fuel : Rle (methods fuel) (methods (S fuel)).
Proof.
  induction fuel as [|fuel IH].
  - constructor; intros b r H; discriminate H.
  - constructor; simpl.
    + exact (parseTypeName_mono _ _ IH).
    + exact (parseExpression_mono _ _ IH).
    + exact (parseAssignment_mono _ _ IH).
    + exact (parseTernary_mono _ _ IH).
    + exact (parseExponentiation_mono _ _ IH).
    + exact (parseUnary_mono _ _ IH).
    + exact (parseStatement_mono _ _ IH).
    + exact (parseAssemblyExpression_mono _ _ IH).
    + exact (parseAssemblyStatement__mono _ _ IH).
Qed.

Lemma BuildWith_fuel b r fuel k :
  BuildWith (methods fuel) b = Some r ->
  BuildWith (methods (fuel + k)) b = Some r.
Proof.
  intros H. induction k as [|k IH].
  - rewrite Nat.add_0_r. exact H.
  - rewrite Nat.add_succ_r.
    exact (BuildWith_mono _ _ (methods_mono (fuel + k)) _ _ IH).
Qed.

(** The result of [Build] is the result for every larger bound. *)
Lemma Build_fuel b k :
  wf b -> BuildWith (methods (fuel_for b + k)) b = Build b.
Proof.
  intros Hw. destruct (Build_ok b Hw) as (r & b' & E & _).
  rewrite E. apply BuildWith_fuel. exact E.
Qed.





(** * The builder on concrete source texts *)

(** C1: with both the loc and the range option, the tree for
    [contract C { function f() public { a + b; } }] has no range on its
    root, and neither location nor range on the [BinaryOperation] and on
    the [Identifier]s under it, while the statement around them has
    both. *)
Theorem locations_missing_on_expressions :
  build sum_input (Some {| Tolerant := false; Loc := true; Range := true |})
    = Some (Some sum_tree, None)
  /\ ast.GetRange sum_tree = None
  /\ ast.GetLocation sum_operation = None
  /\ ast.GetRange sum_operation = None
  /\ ast.GetLocation (newIdentifier "a") = None
  /\ ast.GetRange (newIdentifier "a") = None.
Proof. repeat split; vm_compute; reflexivity. Qed.

(** The root has no location either when there is nothing to parse. *)
Lemma empty_input_no_location :
  build "" (Some {| Tolerant := false; Loc := true; Range := true |})
    = Some (Some (ast.new ast.NodeSourceUnit (ast.SourceUnit [])), None).
Proof. vm_compute. reflexivity. Qed.

(** The scanner has no token for [:=]: it is a [COLON] and an
    [ASSIGN]. *)
Lemma colon_assign_tokens :
  map lexer.Type_ (lexer.Tokenize (lexer.New "x := 1"))
    = [lexer.IDENTIFIER; lexer.COLON; lexer.ASSIGN; lexer.NUMBER; lexer.EOF].
Proof. vm_compute. reflexivity. Qed.

(** C2: for the assembly block [{ let x := add(1, 2) }] the builder
    returns two operations, a local definition of [x] without an
    expression and the call [add(1, 2)] as an operation of its own, and
    records no error. *)
Theorem assembly_let_two_operations :
  build assembly_input None = Some (Some assembly_tree, None)
  /\ length assembly_operations = 2
  /\ nth_error assembly_operations 0
       = Some (ast.new ast.NodeAssemblyLocalDefinition
                 (ast.AssemblyLocalDefinition [newIdentifier "x"] None))
  /\ nth_error assembly_operations 1 = Some assembly_call.
Proof. repeat split; vm_compute; reflexivity. Qed.

(** C4: on the statement [(a + b) * c;] the cursor is restored to the
    token after the [(], not to the [(]: the statement comes out as
    [a + b] with the error [expected ';', got ')'], while parsing the same
    tokens as an expression statement gives [(a + b) * c] and no error;
    in strict mode [Build] returns that error. *)
Theorem tuple_restore_skips_paren :
  lexer.Type_ (peek product_statement) = lexer.LPAREN
  /\ option_map (fun r => (fst r, errors (snd r)))
       (parseTupleVariableDeclarationOrExpression
          (methods (fuel_for product_statement)) product_statement)
     = Some (ast.new ast.NodeExpressionStatement
               (ast.ExpressionStatement
                  (newBinaryOperation "+" (newIdentifier "a")
                     (newIdentifier "b"))),
             [{| Message := "expected ';', got ')'"; Line := 1;
                 Column := 41 |}])
  /\ option_map (fun r => (fst r, errors (snd r)))
       (parseExpressionStatement
          (methods (fuel_for product_statement)) product_statement)
     = Some (ast.new ast.NodeExpressionStatement
               (ast.ExpressionStatement
                  (newBinaryOperation "*"
                     (newBinaryOperation "+" (newIdentifier "a")
                        (newIdentifier "b"))
                     (newIdentifier "c"))),
             [])
  /\ build product_input None
     = Some (None, Some {| Message := "expected ';', got ')'"; Line := 1;
                           Column := 41 |}).
Proof. repeat split; vm_compute; reflexivity. Qed.

(** ** Numeric literals *)

(** What [readNumber] returns: a [NUMBER] whose value is the text it
    has read, the underscores removed. *)
Lemma readNumber_value l line column :
  let t := fst (lexer.readNumber l line column) in
  lexer.Type_ t = lexer.NUMBER /\
  lexer.Value t = lexer.removeUnderscores
                    (lexer.slice (lexer.input l) (lexer.Start t) (lexer.End t)).
Proof.
  pose proof (lexer_facts.readNumber_scanned l line column) as (Hi & _).
  revert Hi. unfold lexer.readNumber. cbv beta zeta iota delta [fst snd].
  intros ->. split; reflexivity.
Qed.

Lemma removeUnderscores_clean s :
  ~ In "_"%char (list_ascii_of_string (lexer.removeUnderscores s)).
Proof.
  induction s as [|c s IH]; simpl; [tauto|].
  destruct (Ascii.eqb c "_") eqn:E; [exact IH|].
  simpl. intros [H | H]; [|exact (IH H)].
  subst c. discriminate E.
Qed.

(** What [readHexNumber] returns: a [HEX_NUMBER] whose value is the text
    it has read, as it is. *)
Lemma readHexNumber_value l line column :
  let t := fst (lexer.readHexNumber l line column) in
  lexer.Type_ t = lexer.HEX_NUMBER /\
  lexer.Value t = lexer.slice (lexer.input l) (lexer.Start t) (lexer.End t).
Proof.
  pose proof (lexer_facts.readHexNumber_scanned l line column) as (Hi & _).
  revert Hi. unfold lexer.readHexNumber. cbv beta zeta iota delta [fst snd].
  intros ->. split; reflexivity.
Qed.

(** C6: the scanner reads [0x1_0] as one [HEX_NUMBER] and keeps the
    underscore in its value, [0x1_0] and not [0x10]; the value of the
    [NUMBER] for [1_000] is [1000]. *)
Theorem hex_number_keeps_underscores :
  lexer.Tokenize (lexer.New hex_input)
    = [ {| lexer.Type_ := lexer.HEX_NUMBER; lexer.Value := "0x1_0";
           lexer.Line := 1; lexer.Column := 0; lexer.Start := 0;
           lexer.End := 5 |};
        {| lexer.Type_ := lexer.EOF; lexer.Value := ""; lexer.Line := 1;
           lexer.Column := 5; lexer.Start := 5; lexer.End := 5 |} ]
  /\ lexer.removeUnderscores hex_input = "0x10"
  /\ map (fun t => (lexer.Type_ t, lexer.Value t))
       (lexer.Tokenize (lexer.New "1_000"))
     = [(lexer.NUMBER, "1000"); (lexer.EOF, "")].
Proof. repeat split; vm_compute; reflexivity. Qed.

(** ** Function definitions *)

Lemma returns_ret {A} (x : A) (Q : A -> Prop) : Q x -> returns (ret x) Q.
Proof. intros H b y b' [= <- _]. exact H. Qed.

Lemma returns_bind {A B} (m : M A) (k : A -> M B) (R : A -> Prop)
  (Q : B -> Prop) :
  returns m R -> (forall x, R x -> returns (k x) Q) -> returns (bind m k) Q.
Proof.
  intros Hm Hk b y b' H. unfold bind in H.
  destruct (m b) as [[x b1]|] eqn:E; [|discriminate H].
  exact (Hk x (Hm _ _ _ E) _ _ _ H).
Qed.

Lemma returns_any {A} (m : M A) : returns m (fun _ => True).
Proof. intros b x b' _. exact I. Qed.

Lemma returns_ifM {A} (c : Builder -> bool) (t e : M A) (Q : A -> Prop) :
  returns t Q -> returns e Q -> returns (ifM c t e) Q.
Proof.
  intros Ht He b x b' H. unfold ifM in H.
  destruct (c b); [exact (Ht _ _ _ H) | exact (He _ _ _ H)].
Qed.

(** [setLocation] leaves the fields of the node as they are. *)
Lemma returns_setLocation node s e (Q : ast.Node -> Prop) :
  (forall n, ast.payload n = ast.payload node -> Q n) ->
  returns (setLocation node s e) Q.
Proof.
  intros H b x b' [= <- _]. apply H. unfold setLocation_.
  destruct (negb _ && negb _); [reflexivity|].
  destruct (hasLocationCase _); reflexivity.
Qed.

Lemma flags_ok_payload n n' :
  ast.payload n' = ast.payload n -> flags_ok n -> flags_ok n'.
Proof. unfold flags_ok, function_flags. intros ->. auto. Qed.

Ltac skip_binds :=
  repeat (eapply returns_bind; [apply returns_any | intros ? _; cbv beta zeta]).

Ltac flags_done :=
  apply returns_setLocation; intros n Hn;
  apply (flags_ok_payload _ _ Hn); unfold flags_ok; simpl.

(** Each of the four methods that build a [FunctionDefinition] sets at
    most one of its three flags. *)
Lemma function_definitions_flags rec :
  returns (parseFunctionDefinition rec) flags_ok /\
  returns (parseConstructorDefinition rec) flags_ok /\
  returns (parseFallbackDefinition rec) flags_ok /\
  returns (parseReceiveDefinition rec) flags_ok.
Proof.
  repeat split.
  - unfold parseFunctionDefinition.
    eapply returns_bind; [apply returns_any | intros startTok _].
    eapply returns_bind with
      (R := fun name => at_most_one false (snd (fst name)) (snd name) = true).
    + apply returns_ifM.
      * eapply returns_bind; [apply returns_any | intros nameTok _].
        apply returns_ret. simpl.
        destruct (lexer.eqb (lexer.Type_ nameTok) lexer.FALLBACK);
          reflexivity.
      * apply returns_ret. reflexivity.
    + intros [[name isFallback] isReceiveEther] H. simpl in H.
      skip_binds. flags_done. exact H.
  - unfold parseConstructorDefinition. skip_binds. flags_done. reflexivity.
  - unfold parseFallbackDefinition. skip_binds. flags_done. reflexivity.
  - unfold parseReceiveDefinition. skip_binds. flags_done. reflexivity.
Qed.

(** C7: for [function () public {}] the builder returns a
    [FunctionDefinition] without a name and with all three flags
    [false]. *)
Theorem unnamed_function_flags :
  build unnamed_input None = Some (Some unnamed_tree, None)
  /\ function_flags unnamed_function = Some ("", false, false, false).
Proof. split; vm_compute; reflexivity. Qed.

(** ** The token type [BYTE] *)

Lemma peek_In b :
  peek b = eofToken \/ In (peek b) (tokens b).
Proof.
  unfold peek. destruct (length (tokens b) <=? pos b) eqn:E; [left; reflexivity|].
  right. apply nth_In. apply Nat.leb_gt in E. exact E.
Qed.

(** C10: the scanner never emits a [BYTE] token; [byte] is not in the
    keyword table and is an [IDENTIFIER]; the type of [byte b;] is a
    [UserDefinedTypeName]; on scanned tokens the builder never sees a
    [BYTE] under its cursor. *)
Theorem scanner_never_emits_BYTE :
  (forall input,
     Forall (fun t => lexer.Type_ t <> lexer.BYTE)
            (lexer.Tokenize (lexer.New input)))
  /\ lexer.lookup lexer.keywords "byte" = None
  /\ lexer.classify "byte" = lexer.IDENTIFIER
  /\ build byte_input None = Some (Some byte_tree, None)
  /\ (forall input opts errs p,
        lexer.Type_ (peek (builder_at input opts errs p)) <> lexer.BYTE).
Proof.
  split; [|split; [|split; [|split]]].
  - intros input. apply lexer_facts.tokenizeLoop_not_BYTE.
  - vm_compute. reflexivity.
  - vm_compute. reflexivity.
  - vm_compute. reflexivity.
  - intros input opts errs p.
    destruct (peek_In (builder_at input opts errs p)) as [-> | H].
    + discriminate.
    + pose proof (lexer_facts.tokenizeLoop_not_BYTE
                    (S (lexer.remaining (lexer.New input)))
                    (lexer.New input)) as HF.
      rewrite Forall_forall in HF. apply HF. exact H.
Qed.

(** * The tests of the repository

    The embedding passes the tests of [parser_test.go] and
    [lexer_test.go]. *)

Lemma TestParseSimpleContract :
  simple_contract_ok (parser.Parse simple_contract_input None) = true.
Proof. vm_compute. reflexivity. Qed.

Lemma TestParseWithLocation :
  has_loc (option_map ast.GetLocation
             (first_child_node
                (parser.Parse pragma_input
                   (Some {| parser.Tolerant := false; parser.Loc := true;
                            parser.Range := false |})))) = true.
Proof. vm_compute. reflexivity. Qed.

Lemma TestParseWithRange :
  option_map ast.GetRange
    (first_child_node
       (parser.Parse pragma_input
          (Some {| parser.Tolerant := false; parser.Loc := false;
                   parser.Range := true |})))
  = Some (Some (0, 23)).
Proof. vm_compute. reflexivity. Qed.

Lemma TestTolerantMode :
  (exists e, parser.Parse invalid_input None = Some (None, Some e)) /\
  (exists root, parser.Parse invalid_input tolerant = Some (Some root, None)).
Proof. split; eexists; vm_compute; reflexivity. Qed.

Lemma TestParseImport :
  map (fun input => import_path (parser.Parse input None)) import_inputs
    = map (fun _ => Some "./Other.sol") import_inputs.
Proof. vm_compute. reflexivity. Qed.

Lemma TestParseFunction :
  function_ok (parser.Parse function_input None) = true.
Proof. vm_compute. reflexivity. Qed.

Lemma TestParseStruct :
  match first_member (parser.Parse struct_input None) with
  | Some (ast.StructDefinition name members) =>
      name = "Person" /\ length members = 3
  | _ => False
  end.
Proof. vm_compute. split; reflexivity. Qed.

Lemma TestParseEnum :
  match first_member (parser.Parse enum_input None) with
  | Some (ast.EnumDefinition name members) =>
      name = "Status" /\ length members = 3
  | _ => False
  end.
Proof. vm_compute. split; reflexivity. Qed.

Lemma TestParseEvent :
  match first_member (parser.Parse event_input None) with
  | Some (ast.EventDefinition name parameters _) =>
      name = "Transfer" /\ length parameters = 3 /\
      option_map IsIndexed_of (hd_error parameters) = Some true
  | _ => False
  end.
Proof. vm_compute. repeat split; reflexivity. Qed.

Lemma TestParseMapping :
  option_map (fun root => map (fun c => length (SubNodes_of c))
                            (Children_of root))
    (parsed (parser.Parse mapping_input None))
  = Some [2].
Proof. vm_compute. reflexivity. Qed.

Lemma TestParseInheritance :
  match first_child (parser.Parse inheritance_input None) with
  | Some (ast.ContractDefinition _ baseContracts _ _) =>
      length baseContracts = 2
  | _ => False
  end.
Proof. vm_compute. reflexivity. Qed.

Lemma TestParseInterface :
  match first_child (parser.Parse interface_input None) with
  | Some (ast.ContractDefinition _ _ _ kind) => kind = "interface"
  | _ => False
  end.
Proof. vm_compute. reflexivity. Qed.

Lemma TestParseLibrary :
  match first_child (parser.Parse library_input None) with
  | Some (ast.ContractDefinition _ _ _ kind) => kind = "library"
  | _ => False
  end.
Proof. vm_compute. reflexivity. Qed.

Lemma TestSolidity04x :
  forallb (fun input => produces_ast (parser.Parse input tolerant))
    solidity04_inputs = true.
Proof. vm_compute. reflexivity. Qed.

Lemma TestSolidity05x :
  forallb (fun input => produces_ast (parser.Parse input None))
    solidity05_inputs = true.
Proof. vm_compute. reflexivity. Qed.

Lemma TestSolidity06x :
  forallb (fun input => produces_ast (parser.Parse input None))
    solidity06_inputs = true.
Proof. vm_compute. reflexivity. Qed.

Lemma TestSolidity07x :
  forallb (fun input => produces_ast (parser.Parse input None))
    solidity07_inputs = true.
Proof. vm_compute. reflexivity. Qed.

Lemma TestSolidity08x :
  forallb (fun input => produces_ast (parser.Parse input tolerant))
    solidity08_inputs = true.
Proof. vm_compute. reflexivity. Qed.

Lemma TestComplexContract :
  option_map child_kinds (parsed (parser.Parse complex_input tolerant))
  = Some ["pragma"; "error"; "type"; "interface"; "abstract"; "contract"].
Proof. vm_compute. reflexivity. Qed.

Lemma TestEventLexing :
  token_types "event Transfer(address indexed from);"
  = [lexer.EVENT; lexer.IDENTIFIER; lexer.LPAREN; lexer.ADDRESS;
     lexer.INDEXED; lexer.FROM; lexer.RPAREN; lexer.SEMICOLON; lexer.EOF].
Proof. vm_compute. reflexivity. Qed.

Lemma TestTransientKeyword :
  token_types "uint256 transient x"
  = [lexer.UINT; lexer.TRANSIENT; lexer.IDENTIFIER; lexer.EOF].
Proof. vm_compute. reflexivity. Qed.

Lemma TestHexNumber : first_type "0x100" = lexer.HEX_NUMBER.
Proof. vm_compute. reflexivity. Qed.

Lemma TestBasicTypes :
  map first_type
    ["address"; "bool"; "string"; "bytes"; "uint256"; "int256"; "bytes32";
     "indexed"; "transient"]
  = [lexer.ADDRESS; lexer.BOOL; lexer.STRING_TYPE; lexer.BYTES; lexer.UINT;
     lexer.INT; lexer.BYTES_N; lexer.INDEXED; lexer.TRANSIENT].
Proof. vm_compute. reflexivity. Qed.

(** * The scanner: offsets, lines and columns of the tokens *)

Module lexer_moves.
Import lexer.
Import lexer_facts.

Lemma same_scan_refl l : same_scan l l.
Proof. unfold same_scan. auto. Qed.

Lemma same_scan_trans a b c : same_scan a b -> same_scan b c -> same_scan a c.
Proof.
  unfold same_scan. intros (A1 & A2 & A3 & A4) (B1 & B2 & B3 & B4).
  repeat split; congruence.
Qed.

Lemma advance_same a b :
  same_scan a b -> same_scan (advance_ a) (advance_ b).
Proof.
  intros (Hi & Hp & Hl & Hc). unfold advance_, advance, len.
  rewrite Hi, Hp.
  destruct (String.length (input a) <=? pos a); simpl;
    [unfold same_scan; auto|].
  destruct (Ascii.eqb _ _); unfold same_scan; simpl; repeat split;
    congruence.
Qed.

Lemma iter_same k : forall a b,
  same_scan a b -> same_scan (Nat.iter k advance_ a) (Nat.iter k advance_ b).
Proof.
  induction k as [|k IH]; intros a b H; simpl; [exact H|].
  apply advance_same, IH, H.
Qed.

Lemma moved_refl l : moved l l.
Proof. exists 0. apply same_scan_refl. Qed.

Lemma moved_same l l' : same_scan l l' -> moved l l'.
Proof. intros H. exists 0. exact H. Qed.

Lemma moved_trans a b c : moved a b -> moved b c -> moved a c.
Proof.
  intros [k1 H1] [k2 H2]. exists (k2 + k1). rewrite Nat.iter_add.
  eapply same_scan_trans; [apply iter_same, H1 | exact H2].
Qed.

Lemma moved_advance l : moved l (advance_ l).
Proof. exists 1. apply same_scan_refl. Qed.

Lemma moved_start l s :
  moved l {| input := input l; pos := pos l; line := line l;
             column := column l; start := s |}.
Proof. apply moved_same. unfold same_scan. simpl. auto. Qed.

(** What [moved] keeps: the input, the order of the offsets, and the
    agreement of line and column with the offset. *)
Lemma moved_scanned l l' : moved l l' -> scanned l l'.
Proof.
  intros [k H].
  assert (S : scanned l (Nat.iter k advance_ l)).
  { clear H. induction k as [|k IH]; simpl; [apply scanned_refl|].
    eapply scanned_trans; [exact IH | apply advance_le]. }
  destruct H as (Hi & Hp & _). destruct S as (Si & Sp & Sb).
  unfold scanned, len in *. rewrite Hi, Hp. auto.
Qed.

Lemma position_from_step s : forall p ln c,
  p < String.length s ->
  position_from s (S p) ln c
  = (let (ln', c') := position_from s p ln c in
     if Ascii.eqb (byte_at s p) newline then (S ln', 0) else (ln', S c')).
Proof.
  induction s as [|a rest IH]; intros p ln c H; simpl in H; [lia|].
  destruct p as [|p].
  - simpl. unfold byte_at. simpl.
    destruct (Ascii.eqb a newline); destruct rest; reflexivity.
  - change (position_from (String a rest) (S (S p)) ln c)
      with (if Ascii.eqb a newline
            then position_from rest (S p) (S ln) 0
            else position_from rest (S p) ln (S c)).
    change (position_from (String a rest) (S p) ln c)
      with (if Ascii.eqb a newline
            then position_from rest p (S ln) 0
            else position_from rest p ln (S c)).
    change (byte_at (String a rest) (S p)) with (byte_at rest p).
    destruct (Ascii.eqb a newline); apply IH; lia.
Qed.

Lemma advance_coherent l : coherent l -> coherent (advance_ l).
Proof.
  intros [Hp Hc]. unfold advance_, advance.
  destruct (len l <=? pos l) eqn:E; [exact (conj Hp Hc)|].
  apply Nat.leb_gt in E. unfold coherent, position_of, len in *.
  destruct (Ascii.eqb (byte_at (input l) (pos l)) newline) eqn:N;
    cbn [snd pos input line column];
    (split; [lia|]); rewrite (position_from_step _ _ _ _ E), <- Hc, N;
    reflexivity.
Qed.

Lemma same_coherent l l' : same_scan l l' -> coherent l -> coherent l'.
Proof.
  intros (Hi & Hp & Hl & Hc). unfold coherent, len.
  rewrite Hi, Hp, Hl, Hc. auto.
Qed.

Lemma moved_coherent l l' : moved l l' -> coherent l -> coherent l'.
Proof.
  intros [k H] C. apply (same_coherent _ _ H). clear H.
  induction k as [|k IH]; simpl; [exact C | apply advance_coherent, IH].
Qed.

Lemma New_coherent s : coherent (New s).
Proof. split; simpl; [lia | reflexivity]. Qed.

(** ** The states the scanning loops leave *)

Lemma advanceWhile_moved cond n : forall l, moved l (advanceWhile n cond l).
Proof.
  induction n as [|n IH]; intros l; simpl; [apply moved_refl|].
  destruct (_ && _); [|apply moved_refl].
  eapply moved_trans; [apply moved_advance | apply IH].
Qed.

Lemma skipBlockComment_moved n : forall l, moved l (skipBlockComment n l).
Proof.
  induction n as [|n IH]; intros l; simpl; [apply moved_refl|].
  destruct (pos l <? len l); [|apply moved_refl].
  destruct (_ && _).
  - eapply moved_trans; apply moved_advance.
  - eapply moved_trans; [apply moved_advance | apply IH].
Qed.

Lemma skipLoop_moved n : forall l, moved l (skipLoop n l).
Proof.
  induction n as [|n IH]; intros l; simpl; [apply moved_refl|].
  destruct (pos l <? len l); [|apply moved_refl].
  destruct (isWhitespace (peek l)).
  { eapply moved_trans; [apply moved_advance | apply IH]. }
  destruct (_ && _).
  { eapply moved_trans; [|apply IH].
    eapply moved_trans; [|apply advanceWhile_moved].
    eapply moved_trans; apply moved_advance. }
  destruct (_ && _); [|apply moved_refl].
  eapply moved_trans; [|apply IH].
  eapply moved_trans; [|apply skipBlockComment_moved].
  eapply moved_trans; apply moved_advance.
Qed.

Lemma snd_advance l : snd (advance l) = advance_ l.
Proof. reflexivity. Qed.

Lemma readStringLoop_moved quote n :
  forall sb l, moved l (snd (readStringLoop n quote sb l)).
Proof.
  induction n as [|n IH]; intros sb l; simpl; [apply moved_refl|].
  destruct (pos l <? len l); [|apply moved_refl].
  destruct (Ascii.eqb (peek l) quote); [apply moved_advance|].
  destruct (_ && _).
  { destruct (advance (advance_ l)) as [escaped l2] eqn:E.
    eapply moved_trans; [|apply IH].
    eapply moved_trans; [apply moved_advance|].
    change l2 with (snd (escaped, l2)). rewrite <- E. apply moved_advance. }
  destruct (_ || _); [apply moved_refl|].
  destruct (advance l) as [c l1] eqn:E.
  eapply moved_trans; [|apply IH].
  change l1 with (snd (c, l1)). rewrite <- E. apply moved_advance.
Qed.

(** ** One token *)

Lemma readIdentifier_reads l line column :
  reads l line column (readIdentifier l line column).
Proof.
  unfold reads, readIdentifier. cbv zeta. simpl.
  repeat split; try reflexivity. apply advanceWhile_moved.
Qed.

Lemma readNumber_moved l line column :
  moved l (snd (readNumber l line column)).
Proof.
  unfold readNumber. cbv beta zeta iota delta [snd].
  set (l1 := advanceWhile (remaining l) isDigitOrUnderscore l).
  assert (H1 : moved l l1) by apply advanceWhile_moved.
  set (l2 := if _ && _ then _ else l1).
  assert (H2 : moved l1 l2).
  { subst l2. destruct (_ && _); [|apply moved_refl].
    eapply moved_trans; [apply moved_advance | apply advanceWhile_moved]. }
  assert (H3 : moved l2
    (if Ascii.eqb (peek l2) "e" || Ascii.eqb (peek l2) "E"
     then let la := advance_ l2 in
          let lb := if Ascii.eqb (peek la) "+" || Ascii.eqb (peek la) "-"
                    then advance_ la else la in
          advanceWhile (remaining lb) isDigitOrUnderscore lb
     else l2)).
  { destruct (_ || _); [|apply moved_refl]. cbv zeta.
    eapply moved_trans; [apply moved_advance|].
    eapply moved_trans; [|apply advanceWhile_moved].
    destruct (_ || _); [apply moved_advance | apply moved_refl]. }
  eapply moved_trans; [exact H1|]. eapply moved_trans; [exact H2|].
  exact H3.
Qed.

Lemma readNumber_reads l line column :
  reads l line column (readNumber l line column).
Proof.
  split; [apply readNumber_moved|].
  unfold readNumber. cbv beta zeta iota delta [fst snd].
  repeat split; reflexivity.
Qed.

Lemma readHexNumber_reads l line column :
  reads l line column (readHexNumber l line column).
Proof.
  unfold reads, readHexNumber. cbv zeta. simpl.
  repeat split; try reflexivity.
  eapply moved_trans; [|apply advanceWhile_moved].
  eapply moved_trans; apply moved_advance.
Qed.

Lemma readString_reads l line column :
  reads l line column (readString l line column).
Proof.
  unfold reads, readString. cbv zeta.
  pose proof (moved_advance l) as A. unfold advance_ in A.
  destruct (advance l) as [quote l1]. simpl snd in A.
  pose proof (readStringLoop_moved quote (remaining l1) [] l1) as H.
  destruct (readStringLoop (remaining l1) quote [] l1) as [sb l2].
  simpl in *. repeat split; try reflexivity.
  eapply moved_trans; eassumption.
Qed.

Lemma tok_reads l t v line column l' :
  moved l l' -> reads l line column (tok t v line column (pos l) l').
Proof. intros H. unfold reads, tok. simpl. auto. Qed.

Lemma readOperatorShort_reads l ch l1 line column :
  moved l l1 ->
  reads l line column (readOperatorShort ch l1 line column (pos l)).
Proof.
  intros H. unfold readOperatorShort. cbv zeta.
  destruct (if pos l1 <? len l1 then _ else None).
  - apply tok_reads. eapply moved_trans; [exact H | apply moved_advance].
  - destruct (singleCharType ch); apply tok_reads; exact H.
Qed.

Lemma readOperator_reads l line column :
  reads l line column (readOperator l line column).
Proof.
  unfold readOperator. cbv zeta.
  pose proof (moved_advance l) as A. unfold advance_ in A.
  destruct (advance l) as [ch l1]. simpl snd in A.
  pose proof (moved_trans _ _ _ A (moved_advance l1)) as A1.
  pose proof (moved_trans _ _ _ A1 (moved_advance (advance_ l1))) as A2.
  pose proof (moved_trans _ _ _ A2
                (moved_advance (advance_ (advance_ l1)))) as A3.
  repeat match goal with
         | |- context [if ?c then _ else _] => destruct c
         end;
    first [ apply tok_reads; assumption
          | apply readOperatorShort_reads; assumption ].
Qed.

(** ** The type of a token *)

Lemma type_in_In ts t : type_in ts t = true <-> In t ts.
Proof.
  unfold type_in. rewrite existsb_exists. split.
  - intros (u & Hu & E). apply eqb_eq in E. subst u. exact Hu.
  - intros H. exists t. split; [exact H | apply eqb_eq; reflexivity].
Qed.

Lemma lookup_In table key v :
  lookup table key = Some v -> In (key, v) table.
Proof.
  induction table as [|[k w] rest IH]; simpl; [discriminate|].
  destruct (String.eqb k key) eqn:E.
  - intros [= <-]. apply String.eqb_eq in E. subst k. left. reflexivity.
  - intros H. right. exact (IH H).
Qed.

Lemma classify_word value : In (classify value) word_types.
Proof.
  unfold classify, word_types.
  destruct (lookup keywords value) as [kw|] eqn:E.
  - apply in_or_app. left. apply lookup_In in E.
    exact (in_map snd _ _ E).
  - apply in_or_app. right.
    repeat match goal with
           | |- context [if ?c then _ else _] => destruct c
           end; simpl; tauto.
Qed.

Lemma twoCharType_operator two t :
  twoCharType two = Some t -> type_in operator_types t = true.
Proof.
  unfold twoCharType.
  repeat match goal with
         | |- context [if ?c then _ else _] => destruct c
         end; intros [= <-] || discriminate; reflexivity.
Qed.

Lemma singleCharType_operator ch t :
  singleCharType ch = Some t -> type_in operator_types t = true.
Proof.
  unfold singleCharType.
  repeat match goal with
         | |- context [if ?c then _ else _] => destruct c
         end; intros [= <-] || discriminate; reflexivity.
Qed.

Lemma readOperatorShort_operator ch l1 line column start :
  type_in operator_types
    (Type_ (fst (readOperatorShort ch l1 line column start))) = true.
Proof.
  unfold readOperatorShort, tok. cbv zeta.
  destruct (if pos l1 <? len l1 then _ else None) as [t|] eqn:E.
  - simpl. destruct (pos l1 <? len l1); [|discriminate E].
    exact (twoCharType_operator _ _ E).
  - destruct (singleCharType ch) as [t|] eqn:F; simpl fst; simpl Type_.
    + exact (singleCharType_operator _ _ F).
    + reflexivity.
Qed.

Lemma readOperator_operator l line column :
  type_in operator_types (Type_ (fst (readOperator l line column))) = true.
Proof.
  unfold readOperator, tok. cbv zeta.
  destruct (advance l) as [ch l1].
  repeat match goal with
         | |- context [if ?c then _ else _] => destruct c
         end;
    first [ apply readOperatorShort_operator | reflexivity ].
Qed.

Lemma readString_type l line column :
  Type_ (fst (readString l line column)) = STRING.
Proof.
  unfold readString. cbv zeta. destruct (advance l) as [quote l1].
  destruct (readStringLoop _ _ _ _) as [sb l2]. reflexivity.
Qed.

(** [NextToken] at the end of the input (after white space and
    comments) gives [EOF]; before the end it gives a token of one of the
    types of [token_types_scanned], none of which is [EOF]. *)
Lemma NextToken_type l :
  let ls := skipWhitespaceAndComments l in
  if len ls <=? pos ls
  then Type_ (fst (NextToken l)) = EOF
  else In (Type_ (fst (NextToken l))) token_types_scanned.
Proof.
  unfold NextToken. cbv zeta.
  destruct (len _ <=? pos _); [reflexivity|].
  unfold token_types_scanned.
  destruct (isIdentifierStart _).
  { apply in_or_app. left. apply classify_word. }
  apply in_or_app. right.
  destruct (_ && _); [simpl; tauto|].
  destruct (_ || _); [simpl; tauto|].
  destruct (_ || _).
  - rewrite readString_type. simpl; tauto.
  - apply in_or_app. right. apply type_in_In, readOperator_operator.
Qed.

Lemma scanned_not_EOF t : In t token_types_scanned -> t <> EOF.
Proof.
  intros H E. subst t. apply type_in_In in H. discriminate H.
Qed.

(** ** One call of [NextToken] *)

Lemma reads_start l s line column r :
  reads {| input := input l; pos := pos l; line := lexer.line l;
           column := lexer.column l; start := s |} line column r ->
  reads l line column r.
Proof.
  intros (M & H). split; [|exact H].
  eapply moved_trans; [apply (moved_start l s) | exact M].
Qed.

Lemma NextToken_reads l :
  let ls := skipWhitespaceAndComments l in
  moved l ls /\ reads ls (line ls) (column ls) (NextToken l).
Proof.
  cbv zeta. split; [apply skipLoop_moved|].
  unfold NextToken. cbv zeta.
  set (ls := skipWhitespaceAndComments l).
  destruct (len ls <=? pos ls).
  { unfold reads. simpl. repeat split; try reflexivity. apply moved_refl. }
  apply (reads_start ls (pos ls)).
  destruct (isIdentifierStart _); [apply readIdentifier_reads|].
  destruct (_ && _); [apply readHexNumber_reads|].
  destruct (_ || _); [apply readNumber_reads|].
  destruct (_ || _); [apply readString_reads | apply readOperator_reads].
Qed.

(** Before the end of the input a token takes at least one byte. *)
Lemma NextToken_progress l :
  let ls := skipWhitespaceAndComments l in
  pos ls < len ls -> pos ls < pos (snd (NextToken l)).
Proof.
  cbv zeta. intros E.
  pose proof (NextToken_reads l) as [_ (M & _)].
  apply moved_scanned in M. pose proof (len_le _ _ M) as L.
  cut (remaining (snd (NextToken l))
       < remaining (skipWhitespaceAndComments l)).
  { unfold remaining. lia. }
  clear M L. unfold NextToken. cbv zeta.
  set (ls := skipWhitespaceAndComments l) in *.
  apply Nat.leb_gt in E. rewrite E. apply Nat.leb_gt in E.
  set (l1 := {| input := input ls; pos := pos ls; line := line ls;
                column := column ls; start := pos ls |}).
  change (remaining ls) with (remaining l1).
  assert (Hlt : pos l1 < len l1) by exact E.
  destruct (isIdentifierStart (peek l1)) eqn:C1.
  { exact (readIdentifier_lt l1 (line l1) (column l1) Hlt C1). }
  destruct (Ascii.eqb (peek l1) "0" && _ && _).
  { exact (readHexNumber_lt l1 (line l1) (column l1) Hlt). }
  destruct (isDigit (peek l1) || _) eqn:C3.
  { exact (readNumber_lt l1 (line l1) (column l1) Hlt C3). }
  destruct (Ascii.eqb (peek l1) double_quote || _).
  - exact (readString_lt l1 (line l1) (column l1) Hlt).
  - exact (readOperator_lt l1 (line l1) (column l1) Hlt).
Qed.

(** ** All tokens *)

Lemma tokenizeLoop_tokens n : forall l, coherent l ->
  ordered_from (pos l) (tokenizeLoop n l) /\
  Forall (fun t =>
            End t <= len l /\
            (Line t, Column t) = position_of (input l) (Start t) /\
            (Type_ t <> EOF -> Start t < End t) /\
            (Type_ t = EOF -> Start t = len l /\ End t = len l))
         (tokenizeLoop n l).
Proof.
  induction n as [|n IH]; intros l C; simpl; [split; [exact I | constructor]|].
  pose proof (NextToken_reads l) as [M0 (M1 & Hl & Hc & Hs & He)].
  pose proof (NextToken_type l) as Ht.
  pose proof (NextToken_progress l) as Hp.
  cbv zeta in *.
  set (ls := skipWhitespaceAndComments l) in *.
  pose proof (moved_coherent _ _ M0 C) as Cs.
  pose proof (moved_coherent _ _ M1 Cs) as C'.
  pose proof (moved_scanned _ _ M0) as S0.
  pose proof (moved_scanned _ _ M1) as S1.
  pose proof (len_le _ _ S0) as L0. pose proof (len_le _ _ S1) as L1.
  destruct (NextToken l) as [t l']. simpl fst in *. simpl snd in *.
  assert (I0 : input ls = input l) by apply S0.
  assert (I1 : input l' = input ls) by apply S1.
  assert (P0 : pos l <= pos ls) by apply S0.
  assert (P1 : pos ls <= pos l') by apply S1.
  destruct Cs as [Bs Ps]. destruct C' as [B' P'].
  assert (T : End t <= len l /\
              (Line t, Column t) = position_of (input l) (Start t) /\
              (Type_ t <> EOF -> Start t < End t) /\
              (Type_ t = EOF -> Start t = len l /\ End t = len l)).
  { split; [lia|]. split; [rewrite Hl, Hc, Hs, <- I0; exact Ps|].
    destruct (len ls <=? pos ls) eqn:F.
    - apply Nat.leb_le in F. split; [intros N; contradiction|].
      intros _. lia.
    - apply Nat.leb_gt in F. specialize (Hp F).
      split; [intros _; lia|].
      intros E. exfalso. exact (scanned_not_EOF _ Ht E). }
  destruct (eqb (Type_ t) EOF).
  - split; [simpl; repeat split; lia | constructor; [exact T | constructor]].
  - destruct (IH l' (conj B' P')) as [O F].
    split.
    + simpl. rewrite He. repeat split; try lia. exact O.
    + constructor; [exact T|].
      replace (len l) with (len l') by lia.
      replace (input l) with (input l') by congruence. exact F.
Qed.

(** ** The text of a token *)

Lemma substring_0 s : forall p, substring p 0 s = ""%string.
Proof. induction s as [|a s IH]; intros [|p]; simpl; auto. Qed.

Lemma substring_S s : forall p k, p < String.length s ->
  substring p (S k) s = String (byte_at s p) (substring (S p) k s).
Proof.
  induction s as [|a s IH]; intros p k H; simpl in H; [lia|].
  destruct p as [|p].
  - reflexivity.
  - change (substring (S p) (S k) (String a s)) with (substring p (S k) s).
    change (substring (S (S p)) k (String a s)) with (substring (S p) k s).
    change (byte_at (String a s) (S p)) with (byte_at s p).
    apply IH. lia.
Qed.

Lemma advance_in l :
  pos l < len l ->
  fst (advance l) = byte_at (input l) (pos l) /\
  pos (advance_ l) = S (pos l) /\ input (advance_ l) = input l /\
  len (advance_ l) = len l.
Proof.
  intros H. unfold advance_, advance, len in *.
  apply Nat.leb_gt in H. rewrite H.
  destruct (Ascii.eqb _ _); simpl; auto.
Qed.

Lemma peek_in l : pos l < len l -> peek l = byte_at (input l) (pos l).
Proof. intros H. unfold peek. apply Nat.leb_gt in H. rewrite H. reflexivity. Qed.

Lemma peekAt_in l k :
  pos l + k < len l -> peekAt l k = byte_at (input l) (pos l + k).
Proof.
  intros H. unfold peekAt. apply Nat.leb_gt in H. rewrite H. reflexivity.
Qed.

Lemma peek_nonzero l c :
  peek l = c -> c <> Ascii.zero -> pos l < len l.
Proof.
  unfold peek. destruct (len l <=? pos l) eqn:E.
  - intros <- N. contradiction.
  - intros _ _. apply Nat.leb_gt in E. exact E.
Qed.

(** [string(ch)] is the byte itself for the bytes of ASCII, and starts
    with a byte outside ASCII for the others. *)
Lemma string_of_byte_head a s x s' :
  nat_of_ascii x < 128 ->
  (string_of_byte a ++ s)%string = String x s' -> a = x /\ s = s'.
Proof.
  intros Hx. unfold string_of_byte.
  destruct (nat_of_ascii a <? 128) eqn:E; cbn [String.append].
  - intros [= -> ->]. auto.
  - remember (192 + nat_of_ascii a / 64) as hi eqn:Hhi.
    intros [= H _]. exfalso. apply Nat.ltb_ge in E.
    pose proof (nat_ascii_bounded a) as B.
    assert (D : nat_of_ascii a / 64 <= 3).
    { apply Nat.lt_succ_r. apply Nat.Div0.div_lt_upper_bound. lia. }
    rewrite <- H in Hx. rewrite nat_ascii_embedding in Hx; lia.
Qed.

Lemma append_empty s : (s ++ "")%string = s.
Proof. induction s as [|c s IH]; simpl; [|rewrite IH]; reflexivity. Qed.

Lemma string_of_byte_2 a b x y :
  nat_of_ascii x < 128 -> nat_of_ascii y < 128 ->
  (string_of_byte a ++ string_of_byte b)%string = String x (String y "") ->
  a = x /\ b = y.
Proof.
  intros Hx Hy H. apply string_of_byte_head in H; [|exact Hx].
  destruct H as [-> H].
  rewrite <- (append_empty (string_of_byte b)) in H.
  apply string_of_byte_head in H; [|exact Hy]. destruct H as [-> _]. auto.
Qed.

Lemma string_of_byte_3 a b c x y z :
  nat_of_ascii x < 128 -> nat_of_ascii y < 128 -> nat_of_ascii z < 128 ->
  (string_of_byte a ++ string_of_byte b ++ string_of_byte c)%string
  = String x (String y (String z "")) ->
  a = x /\ b = y /\ c = z.
Proof.
  intros Hx Hy Hz H. apply string_of_byte_head in H; [|exact Hx].
  destruct H as [-> H]. apply string_of_byte_2 in H; [|exact Hy|exact Hz].
  destruct H as [-> ->]. auto.
Qed.

Ltac ascii_lt := vm_compute; lia.

(** The two-character operators are made of two bytes of ASCII. *)
Lemma twoCharType_text a b t :
  twoCharType (string_of_byte a ++ string_of_byte b) = Some t ->
  (string_of_byte a ++ string_of_byte b)%string = String a (String b "")
  /\ keeps_text t = true.
Proof.
  unfold twoCharType.
  repeat match goal with
         | |- context [if String.eqb ?two ?lit then _ else _] =>
             let E := fresh "E" in
             destruct (String.eqb two lit) eqn:E;
             [ apply String.eqb_eq in E;
               pose proof E as E';
               apply string_of_byte_2 in E'; [|ascii_lt|ascii_lt];
               destruct E' as [-> ->]; intros [= <-]; split;
               [exact E | reflexivity]
             | clear E ]
         end.
  discriminate.
Qed.

Lemma singleCharType_text ch t :
  singleCharType ch = Some t -> keeps_text t = true.
Proof.
  unfold singleCharType.
  repeat match goal with
         | |- context [if ?c then _ else _] => destruct c
         end; intros [= <-] || discriminate; reflexivity.
Qed.

Lemma slice_1 s p :
  p < String.length s -> slice s p (S p) = String (byte_at s p) "".
Proof.
  intros H. unfold slice. replace (S p - p) with 1 by lia.
  rewrite substring_S by exact H. rewrite substring_0. reflexivity.
Qed.

Lemma slice_2 s p :
  S p < String.length s ->
  slice s p (S (S p)) = String (byte_at s p) (String (byte_at s (S p)) "").
Proof.
  intros H. unfold slice. replace (S (S p) - p) with 2 by lia.
  rewrite !substring_S by lia. rewrite substring_0. reflexivity.
Qed.

Lemma slice_3 s p :
  S (S p) < String.length s ->
  slice s p (S (S (S p)))
  = String (byte_at s p) (String (byte_at s (S p))
      (String (byte_at s (S (S p))) "")).
Proof.
  intros H. unfold slice. replace (S (S (S p)) - p) with 3 by lia.
  rewrite !substring_S by lia. rewrite substring_0. reflexivity.
Qed.

Lemma slice_4 s p :
  S (S (S p)) < String.length s ->
  slice s p (S (S (S (S p))))
  = String (byte_at s p) (String (byte_at s (S p))
      (String (byte_at s (S (S p))) (String (byte_at s (S (S (S p)))) ""))).
Proof.
  intros H. unfold slice. replace (S (S (S (S p))) - p) with 4 by lia.
  rewrite !substring_S by lia. rewrite substring_0. reflexivity.
Qed.

(** What a reading method returns, as to the text: a token of a type
    that keeps the source text has the text between its offsets as its
    value. *)
Lemma readOperatorShort_text l ch l1 line column :
  pos l < len l -> ch = byte_at (input l) (pos l) -> l1 = advance_ l ->
  let r := readOperatorShort ch l1 line column (pos l) in
  keeps_text (Type_ (fst r)) = true ->
  Value (fst r) = slice (input l) (pos l) (pos (snd r)).
Proof.
  intros H Hch Hl1. destruct (advance_in l H) as (_ & P1 & I1 & L1).
  rewrite <- Hl1 in *.
  unfold readOperatorShort, tok. cbv zeta.
  destruct (pos l1 <? len l1) eqn:F.
  - destruct (twoCharType _) as [t|] eqn:T.
    + apply twoCharType_text in T. destruct T as [T K].
      simpl. intros _. apply Nat.ltb_lt in F.
      destruct (advance_in l1 F) as (_ & P2 & I2 & L2).
      rewrite P2, P1, T, (peek_in l1 F), I1, P1, Hch.
      symmetry. apply slice_2. unfold len in *. lia.
    + destruct (singleCharType ch) as [t|] eqn:S1; simpl.
      * intros _. rewrite P1, Hch. symmetry. apply slice_1. exact H.
      * discriminate.
  - destruct (singleCharType ch) as [t|] eqn:S1; simpl.
    + intros _. rewrite P1, Hch. symmetry. apply slice_1. exact H.
    + discriminate.
Qed.

Lemma readOperator_text l line column :
  pos l < len l ->
  let r := readOperator l line column in
  keeps_text (Type_ (fst r)) = true ->
  Value (fst r) = slice (input l) (pos l) (pos (snd r)).
Proof.
  intros H. destruct (advance_in l H) as (A & P1 & I1 & L1).
  pose proof (readOperatorShort_text l _ _ line column H eq_refl eq_refl)
    as Short.
  unfold readOperator. cbv zeta.
  rewrite (surjective_pairing (advance l)), A.
  change (snd (advance l)) with (advance_ l).
  set (ch := byte_at (input l) (pos l)) in *.
  set (l1 := advance_ l) in *.
  destruct (S (pos l1) <? len l1) eqn:F; [|exact Short].
  apply Nat.ltb_lt in F.
  assert (F1 : pos l1 < len l1) by lia.
  destruct (advance_in l1 F1) as (_ & P2 & I2 & L2).
  assert (F2 : pos (advance_ l1) < len (advance_ l1)) by lia.
  destruct (advance_in _ F2) as (_ & P3 & I3 & L3).
  set (l3 := advance_ (advance_ l1)) in *.
  assert (B1 : peek l1 = byte_at (input l) (S (pos l))).
  { rewrite (peek_in l1 F1), I1, P1. reflexivity. }
  assert (B2 : peekAt l1 1 = byte_at (input l) (S (S (pos l)))).
  { rewrite (peekAt_in l1 1) by lia. rewrite I1, P1. f_equal. lia. }
  assert (S3 : forall x y z,
    (string_of_byte ch ++ string_of_byte (peek l1)
     ++ string_of_byte (peekAt l1 1))%string
    = String x (String y (String z "")) ->
    nat_of_ascii x < 128 -> nat_of_ascii y < 128 -> nat_of_ascii z < 128 ->
    String x (String y (String z ""))
    = slice (input l) (pos l) (S (S (S (pos l))))).
  { intros x y z E X Y Z. apply string_of_byte_3 in E; auto.
    destruct E as (E1 & E2 & E3). rewrite <- E1, <- E2, <- E3, B1, B2.
    symmetry. apply slice_3. unfold len in *. lia. }
  destruct (String.eqb _ ">>>") eqn:E1.
  { apply String.eqb_eq in E1.
    destruct (Ascii.eqb (peek l3) "=") eqn:Q.
    - apply Ascii.eqb_eq in Q. unfold tok. simpl. intros _.
      assert (F3 : pos l3 < len l3).
      { apply (peek_nonzero _ _ Q). discriminate. }
      destruct (advance_in _ F3) as (_ & P4 & _).
      rewrite P4, P3, P2, P1.
      rewrite slice_4 by (unfold len in *; lia).
      rewrite (peek_in l3 F3), I3, I2, I1, P3, P2, P1 in Q. rewrite Q.
      apply string_of_byte_3 in E1; [|ascii_lt|ascii_lt|ascii_lt].
      destruct E1 as (E1 & E2 & E3).
      unfold ch in E1. rewrite B1 in E2. rewrite B2 in E3.
      rewrite E1, E2, E3. reflexivity.
    - unfold tok. simpl. intros _. rewrite P3, P2, P1.
      apply (S3 _ _ _ E1); ascii_lt. }
  destruct (String.eqb _ ">>=") eqn:E2.
  { apply String.eqb_eq in E2. unfold tok. simpl. intros _.
    rewrite P3, P2, P1. apply (S3 _ _ _ E2); ascii_lt. }
  destruct (String.eqb _ "<<=") eqn:E3.
  { apply String.eqb_eq in E3. unfold tok. simpl. intros _.
    rewrite P3, P2, P1. apply (S3 _ _ _ E3); ascii_lt. }
  exact Short.
Qed.

Lemma word_keeps_text t : In t word_types -> keeps_text t = true.
Proof.
  intros H.
  assert (K : forallb keeps_text word_types = true) by reflexivity.
  rewrite forallb_forall in K. exact (K _ H).
Qed.

(** [NextToken] and the text: the value of the token is the text
    between its offsets, but for the three types that transform it. *)
(** *** String literals *)

Lemma slice_empty s p : slice s p p = ""%string.
Proof. unfold slice. rewrite Nat.sub_diag. apply substring_0. Qed.

Lemma slice_S s p e :
  p < e -> p < String.length s ->
  slice s p e = String (byte_at s p) (slice s (S p) e).
Proof.
  intros H L. unfold slice. replace (e - p) with (S (e - S p)) by lia.
  apply substring_S. exact L.
Qed.

(** The loop of [readString] appends the decoded text it moves over. *)
Lemma readStringLoop_decode quote n : forall sb l,
  let r := readStringLoop n quote sb l in
  rev (fst r)
  = rev sb ++ list_ascii_of_string
                (decode quote (slice (input l) (pos l) (pos (snd r)))).
Proof.
  induction n as [|n IH]; intros sb l; cbv zeta.
  { simpl. rewrite slice_empty. simpl. rewrite app_nil_r. reflexivity. }
  cbn [readStringLoop].
  destruct (pos l <? len l) eqn:F;
    [|simpl; rewrite slice_empty; simpl; rewrite app_nil_r; reflexivity].
  apply Nat.ltb_lt in F.
  destruct (advance_in l F) as (A & P1 & I1 & L1).
  rewrite (peek_in l F).
  set (c := byte_at (input l) (pos l)) in *.
  destruct (Ascii.eqb c quote) eqn:Q.
  { simpl fst. simpl snd. rewrite P1.
    rewrite (slice_1 _ _ F). fold c. simpl. rewrite Q. simpl.
    rewrite app_nil_r. reflexivity. }
  destruct (Ascii.eqb c backslash && (S (pos l) <? len l)) eqn:B.
  { apply andb_prop in B. destruct B as [B F1].
    apply Nat.ltb_lt in F1.
    assert (F1' : pos (advance_ l) < len (advance_ l)) by lia.
    destruct (advance_in _ F1') as (A2 & P2 & I2 & L2).
    rewrite (surjective_pairing (advance (advance_ l))), A2.
    change (snd (advance (advance_ l))) with (advance_ (advance_ l)).
    set (l2 := advance_ (advance_ l)) in *.
    pose proof (lexer_facts.readStringLoop_le quote n
      (unescape (byte_at (input (advance_ l)) (pos (advance_ l))) :: sb) l2)
      as (_ & S2 & _).
    rewrite IH. cbn [rev]. rewrite <- app_assoc. f_equal.
    rewrite I2, I1, P2, P1 in *.
    rewrite (slice_S (input l) (pos l)) by (unfold len in *; lia).
    rewrite (slice_S (input l) (S (pos l))) by (unfold len in *; lia).
    fold c. cbn [decode]. rewrite Q, B. reflexivity. }
  destruct (Ascii.eqb c newline || Ascii.eqb c carriage_return).
  { simpl. rewrite slice_empty. simpl. rewrite app_nil_r. reflexivity. }
  rewrite (surjective_pairing (advance l)), A.
  change (snd (advance l)) with (advance_ l).
  pose proof (lexer_facts.readStringLoop_le quote n (c :: sb) (advance_ l))
    as (_ & S1 & _).
  rewrite IH. cbn [rev]. rewrite <- app_assoc. f_equal.
  rewrite I1, P1 in *.
  rewrite (slice_S (input l) (pos l)) by (unfold len in *; lia).
  fold c. cbn [decode]. rewrite Q.
  destruct (Ascii.eqb c backslash) eqn:B1; [|reflexivity].
  (* a backslash that is the last byte of the source text *)
  simpl in B. apply Nat.ltb_ge in B.
  assert (E : pos (snd (readStringLoop n quote (c :: sb) (advance_ l)))
              = S (pos l)).
  { pose proof (lexer_facts.readStringLoop_le quote n (c :: sb) (advance_ l))
      as (_ & _ & S3).
    rewrite P1 in S3. unfold len in *. 
    pose proof (lexer_facts.readStringLoop_le quote n (c :: sb) (advance_ l))
      as (S4 & _ & _).
    rewrite S4, I1 in S3. lia. }
  rewrite E, slice_empty. reflexivity.
Qed.

(** The value of a [STRING] is the decoded text of the token. *)
Lemma readString_text l line column :
  pos l < len l ->
  let r := readString l line column in
  Value (fst r) = decoded (slice (input l) (pos l) (pos (snd r))).
Proof.
  intros F. destruct (advance_in l F) as (A & P1 & I1 & L1).
  unfold readString. cbv zeta.
  rewrite (surjective_pairing (advance l)), A.
  change (snd (advance l)) with (advance_ l).
  pose proof (readStringLoop_decode (byte_at (input l) (pos l))
                (remaining (advance_ l)) [] (advance_ l)) as D.
  pose proof (lexer_facts.readStringLoop_le (byte_at (input l) (pos l))
                (remaining (advance_ l)) [] (advance_ l)) as (_ & S1 & _).
  cbv zeta in D.
  destruct (readStringLoop _ _ _ _) as [sb l2]. simpl fst in *.
  simpl snd in *. cbn [Value].
  rewrite D. simpl app. rewrite string_of_list_ascii_of_string.
  rewrite I1, P1 in *.
  rewrite (slice_S (input l) (pos l)) by (unfold len in *; lia).
  reflexivity.
Qed.

(** *** Bytes that start no token *)

Lemma twoCharType_legal two t : twoCharType two = Some t -> t <> ILLEGAL.
Proof.
  unfold twoCharType.
  repeat match goal with
         | |- context [if ?c then _ else _] => destruct c
         end; intros [= <-] || discriminate; discriminate.
Qed.

Lemma singleCharType_legal ch t : singleCharType ch = Some t -> t <> ILLEGAL.
Proof.
  unfold singleCharType.
  repeat match goal with
         | |- context [if ?c then _ else _] => destruct c
         end; intros [= <-] || discriminate; discriminate.
Qed.

(** The value of an [ILLEGAL] token is the one byte it spans, converted
    as a code point. *)
Lemma readOperator_illegal l line column :
  pos l < len l ->
  let r := readOperator l line column in
  Type_ (fst r) = ILLEGAL ->
  Value (fst r) = string_of_byte (byte_at (input l) (pos l)) /\
  pos (snd r) = S (pos l).
Proof.
  intros F. destruct (advance_in l F) as (A & P1 & I1 & L1).
  unfold readOperator. cbv zeta.
  rewrite (surjective_pairing (advance l)), A.
  change (snd (advance l)) with (advance_ l).
  assert (Short : let r := readOperatorShort (byte_at (input l) (pos l))
                             (advance_ l) line column (pos l) in
                  Type_ (fst r) = ILLEGAL ->
                  Value (fst r) = string_of_byte (byte_at (input l) (pos l))
                  /\ pos (snd r) = S (pos l)).
  { unfold readOperatorShort. cbv zeta.
    destruct (if pos (advance_ l) <? len (advance_ l) then _ else None)
      as [t|] eqn:T2.
    - unfold tok. simpl. intros ->.
      destruct (pos (advance_ l) <? len (advance_ l)); [|discriminate T2].
      apply twoCharType_legal in T2. contradiction.
    - destruct (singleCharType _) as [t|] eqn:T1; unfold tok; simpl.
      + intros ->. apply singleCharType_legal in T1. contradiction.
      + intros _. split; [reflexivity | exact P1]. }
  destruct (S (pos (advance_ l)) <? len (advance_ l)); [|exact Short].
  destruct (String.eqb _ ">>>");
    [destruct (Ascii.eqb _ "="); unfold tok; simpl; discriminate|].
  destruct (String.eqb _ ">>="); [unfold tok; simpl; discriminate|].
  destruct (String.eqb _ "<<="); [unfold tok; simpl; discriminate|].
  exact Short.
Qed.

Lemma NextToken_text l :
  let t := fst (NextToken l) in
  (keeps_text (Type_ t) = true ->
   Value t = slice (input l) (Start t) (End t)) /\
  (Type_ t = NUMBER ->
   Value t = removeUnderscores (slice (input l) (Start t) (End t))) /\
  (Type_ t = STRING ->
   Value t = decoded (slice (input l) (Start t) (End t))) /\
  (Type_ t = ILLEGAL ->
   Value t = string_of_byte (byte_at (input l) (Start t)) /\
   End t = S (Start t)).
Proof.
  cbv zeta.
  pose proof (moved_scanned _ _ (skipLoop_moved (remaining l) l)) as S0.
  fold (skipWhitespaceAndComments l) in S0.
  unfold NextToken. cbv zeta.
  set (ls := skipWhitespaceAndComments l) in *.
  assert (I0 : input ls = input l) by apply S0.
  destruct (len ls <=? pos ls) eqn:E.
  { simpl. split; [intros _|split; [|split]; discriminate].
    unfold slice. rewrite Nat.sub_diag, substring_0. reflexivity. }
  apply Nat.leb_gt in E.
  set (l1 := {| input := input ls; pos := pos ls; line := line ls;
                column := column ls; start := pos ls |}).
  assert (I1 : input l1 = input l) by exact I0.
  destruct (isIdentifierStart _).
  { pose proof (moved_scanned _ _
      (advanceWhile_moved isIdentifierPart (remaining l1) l1)) as S1.
    unfold readIdentifier. cbv zeta. simpl.
    destruct S1 as (-> & _).
    assert (K : forall v, keeps_text (classify v) = true)
      by (intros v; apply word_keeps_text, classify_word).
    split; [intros _; rewrite ?I1, ?I0; reflexivity|].
    split; [|split]; intros N;
      match type of N with
      | classify ?v = _ => specialize (K v); rewrite N in K; discriminate K
      end. }
  destruct (_ && _).
  { pose proof (readHexNumber_reads l1 (line l1) (column l1))
      as (M & _).
    apply moved_scanned in M. destruct M as (M & _).
    unfold readHexNumber in *. cbv zeta in *. simpl in *.
    split; [intros _; rewrite M, I0; reflexivity
           |split; [|split]; discriminate]. }
  destruct (_ || _).
  { pose proof (readNumber_moved l1 (line l1) (column l1)) as M.
    apply moved_scanned in M. destruct M as (M & _).
    unfold readNumber in *. cbv beta zeta iota delta [fst snd] in *.
    cbn [Type_ Value Start End].
    split; [discriminate|].
    split; [intros _; rewrite M, I1; reflexivity|].
    split; discriminate. }
  destruct (_ || _).
  { pose proof (readString_reads l1 (line l1) (column l1))
      as (_ & _ & _ & Hs & He).
    pose proof (readString_text l1 (line l1) (column l1) E) as Ht.
    cbv zeta in Ht. rewrite Hs, He, <- I1.
    rewrite readString_type.
    split; [discriminate|]. split; [discriminate|].
    split; [intros _; exact Ht|discriminate]. }
  pose proof (readOperator_reads l1 (line l1) (column l1))
    as (_ & _ & _ & Hs & He).
  pose proof (readOperator_operator l1 (line l1) (column l1)) as Ho.
  pose proof (readOperator_text l1 (line l1) (column l1) E) as Ht.
  pose proof (readOperator_illegal l1 (line l1) (column l1) E) as Hi.
  cbv zeta in Ht, Hi. rewrite Hs, He, <- I1.
  split; [exact Ht|].
  split; [intros N; rewrite N in Ho; discriminate Ho|].
  split; [intros N; rewrite N in Ho; discriminate Ho|].
  exact Hi.
Qed.

(** The property of the tokens as to their text. *)
Lemma tokenizeLoop_text n : forall l,
  Forall (fun t =>
            (keeps_text (Type_ t) = true ->
             Value t = slice (input l) (Start t) (End t)) /\
            (Type_ t = NUMBER ->
             Value t = removeUnderscores
                         (slice (input l) (Start t) (End t))) /\
            (Type_ t = STRING ->
             Value t = decoded (slice (input l) (Start t) (End t))) /\
            (Type_ t = ILLEGAL ->
             Value t = string_of_byte (byte_at (input l) (Start t)) /\
             End t = S (Start t)))
         (tokenizeLoop n l).
Proof.
  induction n as [|n IH]; intros l; simpl; [constructor|].
  pose proof (NextToken_text l) as T. cbv zeta in T.
  pose proof (moved_scanned _ _ (proj1 (proj2 (NextToken_reads l)))) as S1.
  pose proof (moved_scanned _ _ (proj1 (NextToken_reads l))) as S0.
  cbv zeta in S0, S1.
  destruct (NextToken l) as [t l']. simpl fst in *. simpl snd in *.
  assert (I : input l' = input l).
  { destruct S0 as (<- & _). apply S1. }
  destruct (eqb (Type_ t) EOF); constructor; try exact T; [constructor|].
  rewrite <- I. apply IH.
Qed.

(** ** The names of the token types *)

Lemma twoCharType_name two t :
  twoCharType two = Some t -> String_ t = two.
Proof.
  unfold twoCharType.
  repeat match goal with
         | |- context [if String.eqb ?two ?lit then _ else _] =>
             let E := fresh "E" in
             destruct (String.eqb two lit) eqn:E;
             [ apply String.eqb_eq in E; intros [= <-]; symmetry; exact E
             | clear E ]
         end.
  discriminate.
Qed.

Lemma singleCharType_name ch t :
  singleCharType ch = Some t -> String_ t = String ch "".
Proof.
  unfold singleCharType.
  repeat match goal with
         | |- context [if Ascii.eqb ?c ?lit then _ else _] =>
             let E := fresh "E" in
             destruct (Ascii.eqb c lit) eqn:E;
             [ apply Ascii.eqb_eq in E; intros [= <-]; rewrite E;
               reflexivity
             | clear E ]
         end.
  discriminate.
Qed.

Lemma readOperatorShort_name ch l1 line column start :
  let t := fst (readOperatorShort ch l1 line column start) in
  Type_ t <> ILLEGAL -> String_ (Type_ t) = Value t.
Proof.
  unfold readOperatorShort, tok. cbv zeta.
  destruct (if pos l1 <? len l1 then _ else None) as [t|] eqn:E.
  - simpl. intros _. destruct (pos l1 <? len l1); [|discriminate E].
    exact (twoCharType_name _ _ E).
  - destruct (singleCharType ch) as [t|] eqn:F; simpl.
    + intros _. exact (singleCharType_name _ _ F).
    + intros N. contradiction.
Qed.

Lemma readOperator_name l line column :
  let t := fst (readOperator l line column) in
  Type_ t <> ILLEGAL -> String_ (Type_ t) = Value t.
Proof.
  unfold readOperator, tok. cbv zeta.
  destruct (advance l) as [ch l1].
  repeat match goal with
         | |- context [if ?c then _ else _] => destruct c
         end;
    first [ apply readOperatorShort_name | intros _; reflexivity ].
Qed.

Lemma classify_name value :
  named_by_text (classify value) = true ->
  String_ (classify value) = value.
Proof.
  unfold classify. destruct (lookup keywords value) as [kw|] eqn:E.
  - intros _. apply lookup_In in E.
    assert (K : forallb (fun kv => String.eqb (String_ (snd kv)) (fst kv))
                  keywords = true) by reflexivity.
    rewrite forallb_forall in K. apply K in E. apply String.eqb_eq in E.
    exact E.
  - repeat match goal with
           | |- context [if ?c then _ else _] =>
               let C := fresh "C" in destruct c eqn:C
           end; try discriminate; intros _;
      match goal with
      | H : String.eqb value _ = true |- _ =>
          apply String.eqb_eq in H; subst value; reflexivity
      end.
Qed.

Lemma NextToken_name l :
  let t := fst (NextToken l) in
  named_by_text (Type_ t) = true -> String_ (Type_ t) = Value t.
Proof.
  unfold NextToken. cbv zeta.
  destruct (len _ <=? pos _); [discriminate|].
  destruct (isIdentifierStart _); [apply classify_name|].
  destruct (_ && _); [discriminate|].
  destruct (_ || _); [discriminate|].
  destruct (_ || _); [rewrite readString_type; discriminate|].
  intros N. apply readOperator_name. intros E. cbv zeta in *.
  rewrite E in N. discriminate N.
Qed.

(** ** Statements on all the tokens *)

Lemma tokenizeLoop_each (P : Lexer -> Token -> Prop) :
  (forall l, P l (fst (NextToken l))) ->
  (forall l l' t, moved l l' -> P l' t -> P l t) ->
  forall n l, Forall (P l) (tokenizeLoop n l).
Proof.
  intros H Hm. induction n as [|n IH]; intros l; simpl; [constructor|].
  pose proof (H l) as T.
  pose proof (NextToken_reads l) as [M0 (M1 & _)]. cbv zeta in *.
  pose proof (moved_trans _ _ _ M0 M1) as M.
  destruct (NextToken l) as [t l']. simpl fst in *. simpl snd in *.
  destruct (eqb (Type_ t) EOF); constructor; try exact T; [constructor|].
  eapply Forall_impl; [|apply IH]. intros u. apply Hm. exact M.
Qed.

Lemma ordered_from_app us : forall ts p,
  ordered_from p (ts ++ us) -> ordered_from p ts.
Proof.
  induction ts as [|u ts IH]; intros p; simpl; [auto|].
  intros (A & B & C). repeat split; auto.
Qed.

Lemma ordered_count L : forall ts p,
  ordered_from p ts ->
  Forall (fun t => End t <= L /\ Start t < End t) ts ->
  p <= L -> p + length ts <= L.
Proof.
  induction ts as [|t rest IH]; intros p O F Hp; simpl; [lia|].
  destruct O as (O1 & O2 & O3). inversion F as [|? ? [F1 F2] F3]; subst.
  specialize (IH (End t) O3 F3 F1). lia.
Qed.

End lexer_moves.

(** X1. The tokens of a source text lie one after the other within the
    text: each starts at or after the end of the one before, none ends
    beyond the end of the text, every token but [EOF] takes at least one
    byte; the last token, and no other, is [EOF], and it sits at the end
    of the text; so there are at most as many tokens as bytes, and one. *)
Theorem tokens_in_order (input : string) :
  ordered_from 0 (scan input) /\
  Forall (fun t =>
            lexer.End t <= String.length input /\
            (lexer.Type_ t <> lexer.EOF -> lexer.Start t < lexer.End t) /\
            (lexer.Type_ t = lexer.EOF ->
             lexer.Start t = String.length input /\
             lexer.End t = String.length input))
         (scan input) /\
  (exists ts t, scan input = ts ++ [t] /\ lexer.Type_ t = lexer.EOF /\
                Forall (fun u => lexer.Type_ u <> lexer.EOF) ts) /\
  length (scan input) <= S (String.length input).
Proof.
  destruct (lexer_moves.tokenizeLoop_tokens
              (S (lexer.remaining (lexer.New input))) (lexer.New input)
              (lexer_moves.New_coherent input)) as [O F].
  fold (lexer.Tokenize (lexer.New input)) in O, F. fold (scan input) in O, F.
  pose proof (lexer_facts.Tokenize_ends_with_EOF (lexer.New input)) as E.
  fold (scan input) in E.
  assert (F' : Forall (fun t =>
            lexer.End t <= String.length input /\
            (lexer.Type_ t <> lexer.EOF -> lexer.Start t < lexer.End t) /\
            (lexer.Type_ t = lexer.EOF ->
             lexer.Start t = String.length input /\
             lexer.End t = String.length input)) (scan input)).
  { eapply Forall_impl; [|exact F]. intros t (A & _ & B & C).
    exact (conj A (conj B C)). }
  repeat split; try assumption.
  destruct E as (ts & t & E & Ht & Hts). rewrite E in *.
  rewrite length_app. simpl.
  apply Forall_app in F'. destruct F' as [F1 _].
  pose proof (lexer_moves.ordered_from_app _ _ _ O) as O1.
  assert (F2 : Forall (fun t => lexer.End t <= String.length input /\
                                lexer.Start t < lexer.End t) ts).
  { rewrite Forall_forall in *. intros u Hu.
    destruct (F1 u Hu) as (A & B & _). split; [exact A|].
    apply B. exact (Hts u Hu). }
  pose proof (lexer_moves.ordered_count _ _ _ O1 F2 (Nat.le_0_l _)). lia.
Qed.

(** X2. The line and the column of every token are those of its start
    offset in the source text: lines are counted from 1 and are ended by
    line feeds, columns are counted in bytes from 0. *)
Theorem tokens_line_column (input : string) :
  Forall (fun t =>
            (lexer.Line t, lexer.Column t)
            = position_of input (lexer.Start t))
         (scan input).
Proof.
  destruct (lexer_moves.tokenizeLoop_tokens
              (S (lexer.remaining (lexer.New input))) (lexer.New input)
              (lexer_moves.New_coherent input)) as [_ F].
  eapply Forall_impl; [|exact F]. intros t (_ & A & _). exact A.
Qed.

(** X3. The value of a token is the source text between its start and
    end offsets, for every token type but three: the value of a [NUMBER]
    is that text with the underscores removed; that of a [STRING] is
    that text decoded (the quotes dropped, each backslash with the byte
    after it replaced by the one byte they stand for); an [ILLEGAL]
    token spans one byte, and its value is that byte converted to a
    string as a code point. *)
Theorem tokens_text (input : string) :
  Forall (fun t =>
            (keeps_text (lexer.Type_ t) = true ->
             lexer.Value t
             = lexer.slice input (lexer.Start t) (lexer.End t)) /\
            (lexer.Type_ t = lexer.NUMBER ->
             lexer.Value t
             = lexer.removeUnderscores
                 (lexer.slice input (lexer.Start t) (lexer.End t))) /\
            (lexer.Type_ t = lexer.STRING ->
             lexer.Value t
             = decoded (lexer.slice input (lexer.Start t) (lexer.End t))) /\
            (lexer.Type_ t = lexer.ILLEGAL ->
             lexer.Value t
             = lexer.string_of_byte (lexer.byte_at input (lexer.Start t)) /\
             lexer.End t = S (lexer.Start t)))
         (scan input).
Proof. apply (lexer_moves.tokenizeLoop_text _ (lexer.New input)). Qed.

(** X4. The type of every token is [EOF] or one of the types of
    [token_types_scanned]; so no token is a [COMMENT], a [HEX_STRING]
    or a [UNICODE_STRING], whatever the source text. *)
Theorem tokens_types (input : string) :
  Forall (fun t =>
            (lexer.Type_ t = lexer.EOF
             \/ In (lexer.Type_ t) token_types_scanned) /\
            lexer.Type_ t <> lexer.COMMENT /\
            lexer.Type_ t <> lexer.HEX_STRING /\
            lexer.Type_ t <> lexer.UNICODE_STRING)
         (scan input).
Proof.
  apply (lexer_moves.tokenizeLoop_each
           (fun _ t =>
              (lexer.Type_ t = lexer.EOF
               \/ In (lexer.Type_ t) token_types_scanned) /\
              lexer.Type_ t <> lexer.COMMENT /\
              lexer.Type_ t <> lexer.HEX_STRING /\
              lexer.Type_ t <> lexer.UNICODE_STRING)).
  - intros l. pose proof (lexer_moves.NextToken_type l) as H.
    cbv zeta in H. destruct (_ <=? _).
    + rewrite H. repeat split; [left; reflexivity | discriminate ..].
    + repeat split; [right; exact H | ..];
        intros E; rewrite E in H; apply lexer_moves.type_in_In in H;
        discriminate H.
  - intros l l' t _ H. exact H.
Qed.

(** X5. The name of the type of a keyword or operator token
    ([TokenType.String], as the error messages print it) is the text
    of the token. *)
Theorem tokens_named_by_text (input : string) :
  Forall (fun t =>
            named_by_text (lexer.Type_ t) = true ->
            lexer.String_ (lexer.Type_ t) = lexer.Value t)
         (scan input).
Proof.
  apply (lexer_moves.tokenizeLoop_each
           (fun _ t => named_by_text (lexer.Type_ t) = true ->
                       lexer.String_ (lexer.Type_ t) = lexer.Value t)).
  - intros l. apply lexer_moves.NextToken_name.
  - intros l l' t _ H. exact H.
Qed.

(** * [Build], [Parse] and the error recovery *)

(** [Build] leaves its loop with a list of children only at the end of
    the tokens. *)
Lemma BuildWith_end rec n (Hrec : Specs n rec) b :
  wf b -> mu b <= n ->
  ok (BuildWith rec) b
     (fun res b' => ext b b' /\ (snd res = None -> isAtEnd b' = true)).
Proof.
  intros Hw Hn. unfold BuildWith.
  eapply ok_bind with
    (P := fun r b' => ext b b' /\
       match r with
       | inl _ => isAtEnd b' = true
       | inr e => e <> None
       end).
  - apply (ok_for _ (fun _ b' => ext b b')); [fin|].
    intros children bi Hext. facts.
    apply ok_ifM; intros Hend.
    + apply ok_break. split; [fin | exact Hend].
    + pos_of Hend.
      eapply ok_bind;
        [apply (parseSourceUnitElement_ok rec n Hrec); [assumption | lia0]|].
      intros node b1 Hadv. cbv beta zeta. cbv beta in Hadv. facts.
      apply ok_ifM; cbv beta; intros Hc.
      * apply ok_bind_gets. apply ok_break. split; [fin|].
        apply andb_true_iff in Hc. destruct Hc as [Hlen _].
        destruct (errors b1); [discriminate Hlen | discriminate].
      * apply ok_continue. split; [fin | lia0].
  - intros [children | e] b1 [Hext Hres].
    + apply ok_bind_gets. apply ok_ret. split; [fin|]. intros _. exact Hres.
    + apply ok_ret. split; [fin|]. simpl. intros E. contradiction.
Qed.

(** X7. [Parse] returns either a [SourceUnit] and no error, or no tree
    and a [ParserError]; the [ParserError] holds exactly one error, the
    first one the builder has recorded (its branch that would copy all
    the errors of the builder is never taken), only in strict mode, and
    its [Error()] text is the message of that error. *)
Theorem Parse_tree_or_one_error (input : string)
  (opts : option parser.Options) :
  match parser.Parse input opts with
  | Some (Some su, None) => isSourceUnit su
  | Some (None, Some pe) =>
      Tolerant (builder_options opts) = false /\
      exists first rest,
        Run input (Some (builder_options opts)) (None, Some first)
            (first :: rest) /\
        pe = {| parser.Errors := [parser.convert first] |} /\
        parser.ParserError_Error pe = Message first
  | _ => False
  end.
Proof.
  assert (E : parser.Parse input opts
    = match Build (New input (Some (builder_options opts))) with
      | None => None
      | Some ((_, Some builderErr), _) =>
          Some (None, Some {| parser.Errors := [parser.convert builderErr] |})
      | Some ((result, None), b') =>
          if (0 <? length (Errors b'))
             && negb (Tolerant (builder_options opts))
          then Some (None, Some {| parser.Errors :=
                                     map parser.convert (Errors b') |})
          else Some (result, None)
      end).
  { destruct opts as [[t l r]|]; reflexivity. }
  rewrite E. clear E.
  destruct (Build_result (New input (Some (builder_options opts)))
              (wf_New _ _) eq_refl) as (res & b' & HB & _ & Hout).
  rewrite HB. unfold outcome_ok in Hout.
  change (options (New input (Some (builder_options opts))))
    with (builder_options opts) in Hout.
  destruct (Tolerant (builder_options opts)) eqn:T.
  - destruct Hout as (su & -> & Hsu).
    rewrite andb_false_r. exact Hsu.
  - destruct (errors b') as [|first rest] eqn:Er.
    + destruct Hout as (su & -> & Hsu).
      unfold Errors. rewrite Er. exact Hsu.
    + subst res. split; [reflexivity|].
      exists first, rest. repeat split.
      exists b'. split; [exact HB | exact Er].
Qed.

Lemma ok_previous_eq b :
  wf b -> ok previous b (fun t b' => b' = b /\ previous b = Some (t, b)).
Proof.
  unfold wf, ok, previous. intros Hw. destruct (pos b) as [|p].
  - eexists _, _. repeat split.
  - destruct (nth_error (tokens b) p) as [t|] eqn:E.
    + eexists _, _. repeat split.
    + apply nth_error_None in E. lia.
Qed.

Lemma step_errors b : errors (step b) = errors b.
Proof. unfold step. destruct (isAtEnd b); reflexivity. Qed.

Lemma advance_ok b :
  wf b -> ok advance b (fun _ b' => adv b b' /\ errors b' = errors b).
Proof.
  intros Hw. unfold advance. pose proof (step_adv b Hw) as Ha.
  destruct (ok_previous (step b)) as (t & b' & E & ->); [apply Ha|].
  exists t, (step b). split; [exact E|]. split; [exact Ha|].
  apply step_errors.
Qed.

Lemma synchronize_ok b :
  wf b ->
  ok synchronize b
     (fun _ b' => adv b b' /\ errors b' = errors b /\ recovered b').
Proof.
  intros Hw. unfold synchronize.
  eapply ok_bind; [apply advance_ok; exact Hw|].
  intros ? b0 Hadv. cbv beta in Hadv.
  apply (ok_for _ (fun _ b' => adv b b' /\ errors b' = errors b));
    [exact Hadv|].
  intros [] bi Hi. pose proof Hi as Hi'.
  destruct Hi' as [[(Ht & Ho & Hmu & Hwi) Hlt] He].
  apply ok_ifM; intros Hend.
  { apply ok_break. split; [apply Hi|]. split; [apply Hi|].
    left; exact Hend. }
  eapply ok_bind; [apply ok_previous_eq; exact Hwi|].
  intros prev b1 [-> Hprev].
  destruct (lexer.eqb (lexer.Type_ prev) lexer.SEMICOLON) eqn:Hs.
  { apply ok_break. split; [apply Hi|]. split; [apply Hi|]. right. left.
    exists prev. split; [exact Hprev|].
    apply lexer_facts.eqb_eq. exact Hs. }
  apply ok_ifM; cbv beta; intros Hp.
  { apply ok_break. split; [apply Hi|]. split; [apply Hi|].
    right. right. exact Hp. }
  eapply ok_bind; [apply advance_ok; exact Hwi|].
  intros ? b2 Hadv2. cbv beta in Hadv2.
  apply ok_continue. pose proof (mu_pos _ Hend).
  destruct Hadv2 as [[(Ht2 & Ho2 & Hmu2 & Hw2) Hlt2] He2].
  split; [|lia].
  split; [|congruence].
  split; [repeat split; try congruence; try lia; assumption|].
  intros N. specialize (Hlt N). lia.
Qed.

(** X8. Error recovery stops at a boundary: [synchronize] returns, with
    the tokens and the errors as they were and the cursor at the end of
    the tokens, just after a [;], or before a token that starts a
    declaration ([contract], [interface], [library], [function],
    [struct], [enum], [event], [error], [pragma], [import], [using]). *)
Theorem synchronize_recovers (b : Builder) :
  wf b ->
  exists b', synchronize b = Some (tt, b') /\
             tokens b' = tokens b /\ errors b' = errors b /\
             recovered b'.
Proof.
  intros Hw. destruct (synchronize_ok b Hw) as ([] & b' & E & A & Er & R).
  exists b'. repeat split; try assumption. apply A.
Qed.

Lemma synchronize_recovers_witness :
  wf stray_builder /\
  exists b', synchronize stray_builder = Some (tt, b') /\
             tokens b' = tokens stray_builder /\
             errors b' = errors stray_builder /\
             recovered b'.
Proof.
  split; [vm_compute; lia|].
  apply (synchronize_recovers stray_builder). vm_compute. lia.
Defined.

(** * Versions *)

Module version_facts.
Import version.
Local Open Scope Z_scope.

Lemma Compare_cases v w :
  (Compare v w = -1 /\
   (Major v < Major w \/
    Major v = Major w /\
    (Minor v < Minor w \/ Minor v = Minor w /\ Patch v < Patch w)))
  \/ (Compare v w = 0 /\ v = w)
  \/ (Compare v w = 1 /\
      (Major w < Major v \/
       Major v = Major w /\
       (Minor w < Minor v \/ Minor v = Minor w /\ Patch w < Patch v))).
Proof.
  unfold Compare. destruct v as [a b c], w as [a' b' c']. simpl.
  destruct (a =? a') eqn:EA; simpl.
  - apply Z.eqb_eq in EA. subst a'.
    destruct (b =? b') eqn:EB; simpl.
    + apply Z.eqb_eq in EB. subst b'.
      destruct (c =? c') eqn:EC; simpl.
      * apply Z.eqb_eq in EC. subst c'. right. left. auto.
      * apply Z.eqb_neq in EC. destruct (c <? c') eqn:LC.
        -- apply Z.ltb_lt in LC. left. split; [reflexivity|]. lia.
        -- apply Z.ltb_ge in LC. right. right. split; [reflexivity|]. lia.
    + apply Z.eqb_neq in EB. destruct (b <? b') eqn:LB.
      * apply Z.ltb_lt in LB. left. split; [reflexivity|]. lia.
      * apply Z.ltb_ge in LB. right. right. split; [reflexivity|]. lia.
  - apply Z.eqb_neq in EA. destruct (a <? a') eqn:LA.
    + apply Z.ltb_lt in LA. left. split; [reflexivity|]. lia.
    + apply Z.ltb_ge in LA. right. right. split; [reflexivity|]. lia.
Qed.

End version_facts.


(** X10. The comparison methods agree with the order: of [LessThan],
    [Equal] and [GreaterThan] exactly one holds; [Equal] holds exactly
    for equal versions; [LessThanOrEqual] is [LessThan] or [Equal] and
    the negation of [GreaterThan]; [GreaterThanOrEqual] is the negation
    of [LessThan]; [GreaterThan] is [LessThan] with the versions
    exchanged; [IsZero] is [Equal] to version 0.0.0. *)
Theorem comparisons_agree (v w : version.Version) :
  (version.LessThan v w = true /\ version.Equal v w = false
     /\ version.GreaterThan v w = false
   \/ version.LessThan v w = false /\ version.Equal v w = true
     /\ version.GreaterThan v w = false
   \/ version.LessThan v w = false /\ version.Equal v w = false
     /\ version.GreaterThan v w = true) /\
  (version.Equal v w = true <-> v = w) /\
  version.LessThanOrEqual v w
    = (version.LessThan v w || version.Equal v w) /\
  version.LessThanOrEqual v w = negb (version.GreaterThan v w) /\
  version.GreaterThanOrEqual v w = negb (version.LessThan v w) /\
  version.GreaterThan v w = version.LessThan w v /\
  version.IsZero v = version.Equal v (version.New 0 0 0).
Proof.
  unfold version.LessThan, version.Equal, version.GreaterThan,
    version.LessThanOrEqual, version.GreaterThanOrEqual.
  assert (Z0 : version.IsZero v
               = (version.Compare v (version.New 0 0 0) =? 0)%Z).
  { destruct (version_facts.Compare_cases v (version.New 0 0 0))
      as [[-> A] | [[-> A] | [-> A]]]; unfold version.IsZero;
      [| subst v; reflexivity |];
      destruct v as [a b c]; simpl in *;
      destruct (Z.eqb_spec a 0); destruct (Z.eqb_spec b 0);
      destruct (Z.eqb_spec c 0); simpl; try reflexivity; lia. }
  destruct (version_facts.Compare_cases v w) as [[E A] | [[E A] | [E A]]];
    destruct (version_facts.Compare_cases w v)
      as [[E' B] | [[E' B] | [E' B]]];
    rewrite ?E, ?E'; simpl;
    try (exfalso; subst; lia);
    (repeat split; try reflexivity; try exact Z0;
     try (intros; discriminate); try (intros; subst; lia);
     try (intros; assumption); try (intros; congruence); auto).
Qed.

(** * Walks of the tree *)

Module walk_facts.
Import ast.

Lemma in_somes {A} (x : A) xs : In (Some x) xs -> In x (somes xs).
Proof.
  induction xs as [|[y|] xs IH]; simpl; [tauto | |].
  - intros [[= ->] | H]; [left; reflexivity | right; exact (IH H)].
  - intros [H | H]; [discriminate H | exact (IH H)].
Qed.

Ltac solve_child IH :=
  lazymatch goal with
  | Hc : In _ (_ ++ _) |- _ =>
      apply in_app_or in Hc; destruct Hc as [Hc|Hc]; solve_child IH
  | Hc : False |- _ => destruct Hc
  | Hc : _ = _ \/ _ |- _ =>
      destruct Hc as [<-|Hc]; [apply IH | solve_child IH]
  | Hc : In _ [] |- _ => destruct Hc
  | Hc : In _ (_ :: _) |- _ =>
      destruct Hc as [<-|Hc]; [apply IH | solve_child IH]
  | Hc : In _ (opt ?o) |- _ =>
      destruct o; simpl in Hc; [destruct Hc as [<-|[]]; apply IH | destruct Hc]
  | Hc : In _ (somes (map _ ?l)) |- _ =>
      let IHl := fresh "IHl" in
      induction l as [|[[x|] [y|]] l IHl]; simpl in Hc;
      [ destruct Hc
      | first [ destruct Hc as [<-|Hc]; [apply IH | apply IHl; exact Hc]
              | apply IHl; exact Hc ] .. ]
  | Hc : In _ (somes ?l) |- _ =>
      let IHl := fresh "IHl" in
      induction l as [|[x|] l IHl]; simpl in Hc;
      [ destruct Hc
      | destruct Hc as [<-|Hc]; [apply IH | apply IHl; exact Hc]
      | apply IHl; exact Hc ]
  | Hc : In _ ?l |- _ =>
      let IHl := fresh "IHl" in
      induction l as [|x l IHl];
      [ destruct Hc
      | destruct Hc as [<-|Hc]; [apply IH | apply IHl; exact Hc] ]
  end.

(** Induction on trees: a property that holds of a node when it holds of
    the nodes in its fields holds of every node. *)
Lemma Node_induction (P : Node -> Prop) :
  (forall n, (forall c, In c (children (payload n)) -> P c) -> P n) ->
  forall n, P n.
Proof.
  intros H. fix IH 1. intros [base p]. apply H. cbn [payload].
  destruct p; cbn [children]; intros c Hc; solve_child IH.
Qed.

(** ** [WalkSimple] and [Walk] *)

Section Facts.
Context {S : Type}.

Lemma then_ext (f f' g g' : Walker (S:=S)) :
  (forall s, f s = f' s) -> (forall s, g s = g' s) ->
  forall s, then_ f g s = then_ f' g' s.
Proof.
  intros Hf Hg s. unfold then_. rewrite Hf.
  destruct (f' s); [apply Hg | reflexivity].
Qed.

Lemma each_ext {A} (f g : A -> Walker (S:=S)) xs :
  (forall x, In x xs -> forall s, f x s = g x s) ->
  forall s, each f xs s = each g xs s.
Proof.
  induction xs as [|x xs IH]; intros H s; simpl; [reflexivity|].
  apply then_ext.
  - intros s'. apply H. left. reflexivity.
  - apply IH. intros y Hy. apply H. right. exact Hy.
Qed.

Variable fns : SimpleVisitor S.

Lemma replay_done s : done s = replay fns true [] s.
Proof. reflexivity. Qed.

Lemma replay_crash s : crash s = replay fns false [] s.
Proof. reflexivity. Qed.

Lemma replay_then (f g : Walker) c1 l1 c2 l2 :
  (forall s, f s = replay fns c1 l1 s) ->
  (forall s, g s = replay fns c2 l2 s) ->
  forall s, then_ f g s = replay fns (c1 && c2) (l1 ++ l2) s.
Proof.
  intros Hf Hg s. unfold then_. rewrite Hf. unfold replay.
  destruct c1; simpl; [|reflexivity].
  rewrite Hg. unfold replay. destruct c2; [|reflexivity].
  rewrite fold_left_app. reflexivity.
Qed.

Lemma replay_each {A} (f : A -> Walker) ok cs xs :
  (forall x, In x xs -> forall s, f x s = replay fns (ok x) (cs x) s) ->
  forall s, each f xs s = replay fns (forallb ok xs) (flat_map cs xs) s.
Proof.
  induction xs as [|x xs IH]; intros H s; simpl; [reflexivity|].
  apply replay_then.
  - intros s'. apply H. left. reflexivity.
  - apply IH. intros y Hy. apply H. right. exact Hy.
Qed.

Lemma replay_call method n (ch : Walker) c l :
  (forall s, ch s = replay fns c l s) ->
  forall s, call fns method n ch s = replay fns c ((method, n) :: l) s.
Proof.
  intros H s. unfold call. rewrite H. unfold replay. reflexivity.
Qed.

End Facts.

Ltac in_children :=
  cbn [opt somes app];
  first [ assumption
        | left; reflexivity
        | apply in_or_app; first [ left; in_children | right; in_children ]
        | right; in_children
        | apply in_somes; assumption ].

Ltac walk_eq IH :=
  cbv beta;
  lazymatch goal with
  | |- then_ _ _ _ = then_ _ _ _ =>
      apply then_ext; intros; walk_eq IH
  | |- each _ ?l _ = each _ ?l _ =>
      apply each_ext; intros; walk_eq IH
  | |- walk_interface _ ?o _ = walk_interface _ ?o _ =>
      destruct o; cbn [walk_interface]; [walk_eq IH | reflexivity]
  | |- walk_pointer _ _ ?o _ = walk_pointer _ _ ?o _ =>
      destruct o; cbn [walk_pointer]; [walk_eq IH | reflexivity]
  | |- done _ = done _ => reflexivity
  | |- WalkSimple _ ?c _ = Walk _ ?c _ => apply IH; in_children
  end.

Lemma WalkSimple_Walk {S} (fns : SimpleVisitor S) :
  forall n s, WalkSimple fns n s = Walk (visitor_of fns) n s.
Proof.
  apply (Node_induction
           (fun n => forall s, WalkSimple fns n s
                               = Walk (visitor_of fns) n s)).
  intros [base p] IH s. cbn [payload] in IH.
  destruct p; cbn [children] in IH;
    cbn [WalkSimple Walk payload]; unfold call, visit, visitor_of;
    walk_eq IH.
Qed.

Ltac walk_replay fns IH :=
  cbv beta;
  lazymatch goal with
  | |- then_ _ _ _ = replay _ (_ && _) (_ ++ _) _ =>
      apply replay_then; intros; walk_replay fns IH
  | |- each _ ?l _ = replay _ (forallb _ ?l) (flat_map _ ?l) _ =>
      apply replay_each; intros; walk_replay fns IH
  | |- walk_interface _ ?o _ = _ =>
      destruct o; cbn [walk_interface]; [walk_replay fns IH | reflexivity]
  | |- walk_pointer _ _ ?o _ = _ =>
      destruct o; cbn [walk_pointer]; [walk_replay fns IH | reflexivity]
  | |- done _ = _ => reflexivity
  | |- WalkSimple _ ?c _ = replay _ (complete ?c) (calls ?c) _ =>
      apply IH; in_children
  end.

Lemma WalkSimple_replay {S} (fns : SimpleVisitor S) :
  forall n s, WalkSimple fns n s = replay fns (complete n) (calls n) s.
Proof.
  apply (Node_induction
           (fun n => forall s, WalkSimple fns n s
                               = replay fns (complete n) (calls n) s)).
  intros [base p] IH s. cbn [payload] in IH.
  destruct p; cbn [children] in IH;
    cbn [WalkSimple complete calls payload];
    first [ apply replay_call; intros; walk_replay fns IH | reflexivity ].
Qed.

(** ** [Walk] on complete trees *)

Lemma then_safe {S} c1 c2 (f g : Walker (S:=S)) :
  (c1 = true -> safe f) -> (c2 = true -> safe g) ->
  c1 && c2 = true -> safe (then_ f g).
Proof.
  intros Hf Hg H s. apply andb_true_iff in H. destruct H as [H1 H2].
  unfold then_. destruct (Hf H1 s) as [s1 ->]. apply (Hg H2).
Qed.

Lemma each_safe {S A} ok (f : A -> Walker (S:=S)) xs :
  (forall x, In x xs -> ok x = true -> safe (f x)) ->
  forallb ok xs = true -> safe (each f xs).
Proof.
  induction xs as [|x xs IH]; intros H F; simpl in *.
  - intros s. exists s. reflexivity.
  - apply (then_safe (ok x) (forallb ok xs)); [| |exact F].
    + apply H. left. reflexivity.
    + apply IH. intros y Hy. apply H. right. exact Hy.
Qed.

Lemma done_safe {S} : safe (done (S:=S)).
Proof. intros s. exists s. reflexivity. Qed.

Ltac walk_safe IH :=
  cbv beta;
  lazymatch goal with
  | |- _ && _ = true -> safe (then_ _ _) =>
      apply then_safe; walk_safe IH
  | |- forallb _ ?l = true -> safe (each _ ?l) =>
      apply each_safe; intros ? ?; walk_safe IH
  | |- _ -> safe (walk_interface _ ?o) =>
      destruct o; cbn [walk_interface];
      [walk_safe IH | intros _; apply done_safe]
  | |- _ -> safe (walk_pointer _ _ ?o) =>
      destruct o; cbn [walk_pointer]; [walk_safe IH | discriminate]
  | |- _ -> safe done => intros _; apply done_safe
  | |- complete ?c = true -> safe (Walk _ ?c) => apply IH; in_children
  end.

Lemma visit_safe {S} (visitor : Visitor S) method n ch :
  safe ch -> safe (visit visitor method n ch).
Proof.
  intros H s. unfold visit. destruct (visitor method n s) as [[|] s1].
  - apply H.
  - exists s1. reflexivity.
Qed.

Lemma Walk_safe {S} (visitor : Visitor S) :
  forall n, complete n = true -> safe (Walk visitor n).
Proof.
  apply (Node_induction
           (fun n => complete n = true -> safe (Walk visitor n))).
  intros [base p] IH. cbn [payload] in IH.
  destruct p; cbn [children] in IH;
    cbn [Walk complete payload];
    first [ intros _; apply done_safe
          | intros C; apply visit_safe; revert C; walk_safe IH ].
Qed.

End walk_facts.

(** X11. [WalkSimple] is [Walk] with the visitor that calls the
    callback of the node's type, if there is one, and always descends:
    the two walk the same nodes in the same order, and panic on the
    same trees. *)
Theorem WalkSimple_is_Walk {S : Type} (fns : ast.SimpleVisitor S)
  (n : ast.Node) (s : S) :
  ast.WalkSimple fns n s = ast.Walk (visitor_of fns) n s.
Proof. apply walk_facts.WalkSimple_Walk. Qed.

(** X12. [WalkSimple] on a tree in which no pointer field it takes is
    [nil] calls the callbacks once for each node it reaches, a node
    before the nodes in its fields and these in the order of the walk;
    on any other tree (a function or a modifier without a body, a tuple
    declaration with a gap) it panics. *)
Theorem WalkSimple_calls {S : Type} (fns : ast.SimpleVisitor S)
  (n : ast.Node) (s : S) :
  ast.WalkSimple fns n s
  = if complete n then Some (fold_left (run_call fns) (calls n) s)
    else None.
Proof. apply (walk_facts.WalkSimple_replay fns n s). Qed.

(** X13. [Walk] does not panic on a tree in which no pointer field it
    takes is [nil], whatever the visitor does. *)
Theorem Walk_complete {S : Type} (visitor : ast.Visitor S) (n : ast.Node)
  (s : S) :
  complete n = true -> exists s', ast.Walk visitor n s = Some s'.
Proof. intros C. exact (walk_facts.Walk_safe visitor n C s). Qed.

Lemma Walk_complete_witness :
  complete visitor_tree = true /\
  exists s', ast.Walk ast.BaseVisitor visitor_tree tt = Some s'.
Proof.
  split; [reflexivity|].
  apply (Walk_complete ast.BaseVisitor visitor_tree tt). reflexivity.
Defined.

(** [TestVisitor]: the callback for function definitions is called with
    [foo], then with [bar]. *)
Lemma TestVisitor :
  option_map
    (fun root => parser.VisitSimple root collect_function_names [])
    (parsed (parser.Parse visitor_input None))
  = Some (Some ["foo"; "bar"]).
Proof. vm_compute. reflexivity. Qed.

(** The tree of an interface is parsed without an error, and
    [VisitSimple] panics on it: the function has no body. *)
Lemma VisitSimple_interface :
  option_map
    (fun root => (complete root,
                  parser.VisitSimple root collect_function_names []))
    (parsed (parser.Parse bodyless_input None))
  = Some (false, None).
Proof. vm_compute. reflexivity. Qed.

(* ================================================================== *)
(** * Precedence: the binary levels on operand and operator chains *)
(* ================================================================== *)

Module precedence.

(** ** The cursor and the tokens ahead *)

Lemma nth_skipn {A} (d : A) (l : list A) n : nth n l d = hd d (skipn n l).
Proof.
  revert l. induction n as [|n IH]; intros [|a l]; simpl; auto.
Qed.

Lemma peek_ahead b : peek b = hd eofToken (ahead b).
Proof.
  unfold peek, ahead. destruct (_ <=? _) eqn:E.
  - apply Nat.leb_le in E. rewrite skipn_all2 by exact E. reflexivity.
  - apply nth_skipn.
Qed.

Lemma ahead_length b : length (ahead b) = length (tokens b) - pos b.
Proof. unfold ahead. apply length_skipn. Qed.

Lemma skipn_S_tl {A} (l : list A) n : skipn (S n) l = tl (skipn n l).
Proof.
  revert l. induction n as [|n IH]; intros [|a l]; try reflexivity.
  change (skipn (S (S n)) (a :: l)) with (skipn (S n) l).
  rewrite IH. reflexivity.
Qed.

Lemma ahead_step b t rest :
  ahead b = t :: rest -> ahead (set_pos b (S (pos b))) = rest.
Proof.
  unfold ahead. simpl tokens. simpl pos. intros H.
  rewrite skipn_S_tl, H. reflexivity.
Qed.

Lemma ahead_nth b t rest :
  ahead b = t :: rest -> nth_error (tokens b) (pos b) = Some t.
Proof.
  unfold ahead. generalize (pos b) (tokens b).
  intros n l. revert l. induction n as [|n IH]; intros [|a l] H;
    simpl in *; try discriminate.
  - injection H as -> _. reflexivity.
  - apply IH. exact H.
Qed.

Lemma check_peek ty b :
  check ty b = negb (lexer.eqb (lexer.Type_ (peek b)) lexer.EOF)
               && lexer.eqb (lexer.Type_ (peek b)) ty.
Proof. unfold check, isAtEnd. destruct (lexer.eqb _ lexer.EOF); reflexivity. Qed.

(** [advance] in front of a token that is not [EOF]. *)
Lemma advance_ahead b t rest :
  ahead b = t :: rest -> lexer.Type_ t <> lexer.EOF ->
  advance b = Some (t, set_pos b (S (pos b))).
Proof.
  intros H Ht. unfold advance, step, isAtEnd.
  rewrite peek_ahead, H. simpl hd.
  destruct (lexer.eqb (lexer.Type_ t) lexer.EOF) eqn:E.
  - apply lexer_facts.eqb_eq in E. contradiction.
  - unfold previous. simpl. rewrite (ahead_nth _ _ _ H). reflexivity.
Qed.

(** ** Chains *)

Lemma chain_head rest :
  operators_and_operands rest = true ->
  (exists e, rest = [e] /\ lexer.Type_ e = lexer.EOF) \/
  (exists o y rest', rest = o :: y :: rest' /\ operator o = true /\
                     operand y = true /\
                     operators_and_operands rest' = true).
Proof.
  destruct rest as [|o [|y rest']]; simpl; intros H; try discriminate.
  - left. exists o. split; [reflexivity|].
    apply lexer_facts.eqb_eq. exact H.
  - right. exists o, y, rest'.
    apply andb_prop in H. destruct H as [H H3].
    apply andb_prop in H. destruct H as [H1 H2]. auto.
Qed.

Lemma operator_level t :
  operator t = true ->
  exists n, level (lexer.String_ (lexer.Type_ t)) = Some n.
Proof.
  unfold operator. destruct (level _) as [n|]; [eauto | discriminate].
Qed.

Lemma operator_item t :
  operator t = true -> item_of t = Operator_ (lexer.Value t).
Proof.
  unfold operator, item_of, operand. intros H.
  destruct (lexer.eqb (lexer.Type_ t) lexer.IDENTIFIER) eqn:E;
    [|reflexivity].
  apply lexer_facts.eqb_eq in E. rewrite E in H. discriminate H.
Qed.

Lemma operand_item t :
  operand t = true -> item_of t = Identifier_ (lexer.Value t).
Proof. unfold item_of. intros ->. reflexivity. Qed.

Lemma operator_not_EOF t : operator t = true -> lexer.Type_ t <> lexer.EOF.
Proof. intros H E. unfold operator in H. rewrite E in H. discriminate H. Qed.

(** After an operand comes an operator or the end: no token of another
    type. *)
Lemma check_other b rest ty :
  ahead b = rest -> operators_and_operands rest = true ->
  level (lexer.String_ ty) = None -> check ty b = false.
Proof.
  intros Ha Hc Hl. rewrite check_peek, peek_ahead, Ha.
  destruct (chain_head _ Hc) as [(e & -> & He) | (o & y & r & -> & Ho & _)];
    simpl hd.
  - rewrite He. reflexivity.
  - destruct (lexer.eqb (lexer.Type_ o) ty) eqn:E;
      [|apply andb_false_r].
    apply lexer_facts.eqb_eq in E. subst ty.
    destruct (operator_level _ Ho) as (n & Hn). congruence.
Qed.

(** ** The operand: levels 14 to 16 *)

Lemma parseUnary_operand rec b x rest :
  ahead b = x :: rest -> operand x = true ->
  operators_and_operands rest = true ->
  parseUnary rec b
  = Some (newIdentifier (lexer.Value x), set_pos b (S (pos b))).
Proof.
  intros Ha Hx Hc. apply lexer_facts.eqb_eq in Hx.
  assert (Hp : peek b = x) by (rewrite peek_ahead, Ha; reflexivity).
  assert (Hadv : advance b = Some (x, set_pos b (S (pos b)))).
  { apply (advance_ahead _ _ _ Ha). rewrite Hx. discriminate. }
  pose proof (ahead_step _ _ _ Ha) as Ha'.
  pose proof (fun ty => check_other _ _ ty Ha' Hc) as Hno.
  unfold parseUnary, ifM.
  replace (isUnaryOperator b) with false.
  2:{ unfold isUnaryOperator, orb_. rewrite !check_peek, Hp, Hx.
      reflexivity. }
  unfold parsePostfix, parseCallMemberIndex, parsePrimary.
  unfold bind at 1. unfold bind at 1. unfold bind at 1. unfold gets at 1.
  rewrite Hp, Hx.
  unfold bind at 1. rewrite Hadv. unfold ret at 1.
  set (b1 := set_pos b (S (pos b))) in *.
  unfold for_ at 1. cbn [loop]. unfold ifM at 1.
  rewrite (Hno lexer.PERIOD eq_refl). unfold ifM at 1.
  rewrite (Hno lexer.LBRACK eq_refl). unfold ifM at 1.
  rewrite (Hno lexer.LPAREN eq_refl). unfold ifM at 1.
  rewrite (Hno lexer.LBRACE eq_refl). unfold break_, ret.
  unfold for_. cbn [loop]. unfold ifM, orb_.
  rewrite (Hno lexer.INC eq_refl), (Hno lexer.DEC eq_refl).
  reflexivity.
Qed.

Lemma stops_above rest n :
  (forall op m, level op = Some m -> m < n) -> stops n rest.
Proof. intros H t r m _ Hm. exact (H _ _ Hm). Qed.

(** ** The table *)

Lemma row_of_level op n :
  level op = Some n ->
  exists ops, row_of op = Some (n, ops, (n =? 1) || (n =? 13)).
Proof.
  unfold level. destruct (row_of op) as [row|] eqn:E; [|discriminate].
  simpl. intros [= <-]. apply find_some in E. destruct E as [E _].
  simpl in E.
  repeat (destruct E as [<- | E]; [eexists; reflexivity|]).
  contradiction.
Qed.

Lemma level_bound op n : level op = Some n -> 1 <= n <= 13 /\ n <> 2.
Proof.
  unfold level. destruct (row_of op) as [row|] eqn:E; [|discriminate].
  simpl. intros [= <-]. apply find_some in E. destruct E as [E _].
  simpl in E.
  repeat (destruct E as [<- | E]; [simpl; lia|]).
  contradiction.
Qed.

Lemma follows_left op n l r :
  level op = Some n -> n <> 1 -> n <> 13 ->
  follows_table l = true -> follows_table r = true ->
  n <= level_of l -> n < level_of r ->
  follows_table (Binary op l r) = true.
Proof.
  intros Hl H1 H13 Fl Fr Ll Lr.
  destruct (row_of_level _ _ Hl) as (ops & R).
  simpl. rewrite R, Fl, Fr.
  apply Nat.eqb_neq in H1, H13. rewrite H1, H13. simpl.
  apply andb_true_intro. split; [apply Nat.leb_le | apply Nat.ltb_lt]; lia.
Qed.

Lemma follows_right op n l r :
  level op = Some n -> n = 1 \/ n = 13 ->
  follows_table l = true -> follows_table r = true ->
  n < level_of l -> n <= level_of r ->
  follows_table (Binary op l r) = true.
Proof.
  intros Hl Hn Fl Fr Ll Lr.
  destruct (row_of_level _ _ Hl) as (ops & R).
  simpl. rewrite R, Fl, Fr.
  replace ((n =? 1) || (n =? 13)) with true
    by (destruct Hn as [-> | ->]; reflexivity).
  simpl.
  apply andb_true_intro. split; [apply Nat.ltb_lt | apply Nat.leb_le]; lia.
Qed.

Lemma level_of_Binary op n l r :
  level op = Some n -> level_of (Binary op l r) = n.
Proof. simpl. intros ->. reflexivity. Qed.

(** ** The table fixes the tree *)

Lemma follows_Binary op l r :
  follows_table (Binary op l r) = true ->
  exists n,
    level op = Some n /\
    follows_table l = true /\ follows_table r = true /\
    (((n = 1 \/ n = 13) /\ n < level_of l /\ n <= level_of r) \/
     ((n <> 1 /\ n <> 13) /\ n <= level_of l /\ n < level_of r)).
Proof.
  simpl. destruct (row_of op) as [[[n ops] rt]|] eqn:R; [|discriminate].
  assert (L : level op = Some n) by (unfold level; rewrite R; reflexivity).
  destruct (row_of_level _ _ L) as (ops' & R').
  rewrite R in R'. injection R' as _ ->.
  intros H. exists n. split; [exact L|].
  apply andb_prop in H. destruct H as [H H3].
  apply andb_prop in H. destruct H as [H1 H2].
  split; [exact H1|]. split; [exact H2|].
  destruct ((n =? 1) || (n =? 13)) eqn:Q;
    apply andb_prop in H3; destruct H3 as [A B].
  - left. apply Nat.ltb_lt in A. apply Nat.leb_le in B.
    apply orb_prop in Q. rewrite !Nat.eqb_eq in Q. auto.
  - right. apply Nat.leb_le in A. apply Nat.ltb_lt in B.
    apply orb_false_elim in Q. rewrite !Nat.eqb_neq in Q. auto.
Qed.

(** No operator of an expression is of a lower level than the
    expression. *)
Lemma follows_items e :
  follows_table e = true ->
  Forall (fun i => level_of e <= item_level i) (in_order e).
Proof.
  induction e as [name | op l IHl r IHr]; intros H.
  - repeat constructor.
  - destruct (follows_Binary _ _ _ H) as (n & L & Fl & Fr & Hn).
    rewrite (level_of_Binary _ _ _ _ L). simpl in_order.
    apply Forall_app. split; [|constructor].
    + eapply Forall_impl; [|exact (IHl Fl)]. simpl. intros i Hi. lia.
    + simpl. rewrite L. lia.
    + eapply Forall_impl; [|exact (IHr Fr)]. simpl. intros i Hi. lia.
Qed.

Lemma in_order_length e : 1 <= length (in_order e).
Proof.
  destruct e; simpl; [lia|]. rewrite length_app. simpl. lia.
Qed.

Lemma app_cons_same {A} (a a' : list A) x x' b b' :
  a ++ x :: b = a' ++ x' :: b' -> length a = length a' ->
  a = a' /\ x = x' /\ b = b'.
Proof.
  revert a'. induction a as [|y a IH]; intros [|y' a'] H L;
    simpl in *; try lia.
  - injection H as -> ->. auto.
  - injection H as -> H. destruct (IH a' H) as (-> & -> & ->); [lia|auto].
Qed.

Lemma app_cons_split {A} (a a' : list A) x x' b b' :
  a ++ x :: b = a' ++ x' :: b' -> length a < length a' ->
  exists c, a' = a ++ x :: c /\ b = c ++ x' :: b'.
Proof.
  revert a'. induction a as [|y a IH]; intros [|y' a'] H L;
    simpl in *; try lia.
  - injection H as -> ->. exists a'. auto.
  - injection H as -> H. destruct (IH a' H) as (c & -> & ->); [lia|].
    exists c. auto.
Qed.

Lemma item_in_middle (P : item -> Prop) a x c :
  Forall P (a ++ x :: c) -> P x.
Proof.
  intros H. apply Forall_app in H. destruct H as [_ H].
  inversion H. assumption.
Qed.

(** An expression nested as the table says is fixed by its identifiers
    and operators: the root is the operator of the lowest level, the
    last such of a left-associative level and the first of a
    right-associative one. *)
Lemma follows_unique e1 : forall e2,
  follows_table e1 = true -> follows_table e2 = true ->
  in_order e1 = in_order e2 -> e1 = e2.
Proof.
  induction e1 as [name | op1 l1 IHl r1 IHr];
    intros [name2 | op2 l2 r2] F1 F2 E; simpl in E.
  - injection E as ->. reflexivity.
  - pose proof (in_order_length l2). pose proof (in_order_length r2).
    apply (f_equal (@length item)) in E. rewrite length_app in E.
    simpl in E. lia.
  - pose proof (in_order_length l1). pose proof (in_order_length r1).
    apply (f_equal (@length item)) in E. rewrite length_app in E.
    simpl in E. lia.
  - destruct (follows_Binary _ _ _ F1) as (n1 & L1 & Fl1 & Fr1 & H1).
    destruct (follows_Binary _ _ _ F2) as (n2 & L2 & Fl2 & Fr2 & H2).
    destruct (lt_eq_lt_dec (length (in_order l1)) (length (in_order l2)))
      as [[Hlt | Heq] | Hgt].
    + exfalso.
      destruct (app_cons_split _ _ _ _ _ _ E Hlt) as (c & El & Er).
      pose proof (follows_items _ Fl2) as I2. rewrite El in I2.
      apply item_in_middle in I2. simpl in I2. rewrite L1 in I2.
      pose proof (follows_items _ Fr1) as I1. rewrite Er in I1.
      apply item_in_middle in I1. simpl in I1. rewrite L2 in I1.
      lia.
    + destruct (app_cons_same _ _ _ _ _ _ E Heq) as (El & Eo & Er).
      injection Eo as ->.
      rewrite (IHl l2 Fl1 Fl2 El), (IHr r2 Fr1 Fr2 Er). reflexivity.
    + exfalso. symmetry in E.
      destruct (app_cons_split _ _ _ _ _ _ E Hgt) as (c & El & Er).
      pose proof (follows_items _ Fl1) as I1. rewrite El in I1.
      apply item_in_middle in I1. simpl in I1. rewrite L2 in I1.
      pose proof (follows_items _ Fr2) as I2. rewrite Er in I2.
      apply item_in_middle in I2. simpl in I2. rewrite L1 in I2.
      lia.
Qed.

(** ** The operator in front *)

Lemma at_level_head n b :
  at_level n b = true ->
  operators_and_operands (ahead b) = true -> named (ahead b) ->
  exists o y rest,
    ahead b = o :: y :: rest /\ operand y = true /\
    operators_and_operands rest = true /\ named rest /\
    level (lexer.Value o) = Some n /\
    item_of o = Operator_ (lexer.Value o) /\
    advance b = Some (o, set_pos b (S (pos b))) /\
    ahead (set_pos b (S (pos b))) = y :: rest.
Proof.
  unfold at_level. rewrite peek_ahead. intros Hl Hc Hn.
  destruct (chain_head _ Hc) as [(e & E & He) | (o & y & r & E & Ho & Hy & Hr)];
    rewrite E in *; simpl hd in Hl.
  - rewrite He in Hl. discriminate Hl.
  - exists o, y, r.
    inversion Hn as [|? ? Hno Hn1]; subst.
    inversion Hn1 as [|? ? _ Hn2]; subst.
    destruct (level (lexer.String_ (lexer.Type_ o))) as [m|] eqn:Lm;
      [|discriminate].
    apply Nat.eqb_eq in Hl. subst m.
    repeat split; auto.
    + rewrite (Hno Ho). exact Lm.
    + apply operator_item. exact Ho.
    + apply (advance_ahead _ _ _ E). apply operator_not_EOF. exact Ho.
    + apply (ahead_step _ _ _ E).
Qed.

Lemma at_level_stops n b :
  at_level n b = false -> stops (S n) (ahead b) -> stops n (ahead b).
Proof.
  unfold at_level. rewrite peek_ahead.
  intros Hl Hs t r m E Hm. pose proof (Hs t r m E Hm) as Hlt.
  rewrite E in Hl. simpl in Hl. rewrite Hm in Hl.
  apply Nat.eqb_neq in Hl. lia.
Qed.

Lemma mu_ahead b : mu b <= length (ahead b).
Proof. rewrite ahead_length. apply mu_le. Qed.

Lemma mu_at_level n b : at_level n b = true -> mu b = length (ahead b).
Proof.
  intros H. rewrite ahead_length. unfold mu.
  destruct (isAtEnd b) eqn:E; [|reflexivity].
  unfold at_level in H. unfold isAtEnd in E.
  apply lexer_facts.eqb_eq in E. rewrite E in H. discriminate H.
Qed.

Lemma ok_bind_eq {A B} (m : M A) (k : A -> M B) b x b' Q :
  m b = Some (x, b') -> ok (k x) b' Q -> ok (bind m k) b Q.
Proof.
  intros Hm (y & b'' & Hk & HQ). exists y, b''. split; [|exact HQ].
  unfold bind. rewrite Hm. exact Hk.
Qed.

(** ** The levels *)

Lemma parseUnary_level rec k : parses_level 14 (parseUnary rec) k.
Proof.
  intros b x rest Ha Hx Hc Hn Hk.
  exists (newIdentifier (lexer.Value x)), (set_pos b (S (pos b))).
  split; [exact (parseUnary_operand rec _ _ _ Ha Hx Hc)|].
  exists (Name (lexer.Value x)), [x], rest.
  repeat split; auto.
  - exact (ahead_step _ _ _ Ha).
  - simpl. rewrite (operand_item _ Hx). reflexivity.
  - simpl. lia.
  - apply stops_above. intros op m H. apply level_bound in H. lia.
Qed.

(** A left-associative level:
    [left := operand(); for isOp() { ... right := operand() ... }]. *)
Lemma parseBinaryLeft_level n isOp operandM k :
  (forall b, isOp b = at_level n b) -> n <> 1 -> n <> 13 ->
  parses_level (S n) operandM k ->
  parses_level n (parseBinaryLeft isOp operandM) k.
Proof.
  intros Hop H1 H13 Hoperand b x rest Ha Hx Hc Hn Hk.
  unfold parseBinaryLeft.
  eapply ok_bind; [exact (Hoperand b x rest Ha Hx Hc Hn Hk)|].
  intros left b1 P1.
  apply (ok_for _ (fun node b' => parsed_to n (S n) b x rest node b')).
  { destruct P1 as (e & used & rest' & P). exists e, used, rest'.
    intuition lia. }
  clear left b1 P1. intros left b1 (e & used & rest' & -> & Ht & He & Ho &
    Hah & Hsplit & Hlen & Hin & Hf & Hlev & Hch & Hnm & Hst).
  apply ok_ifM; rewrite Hop; intros Hat.
  - subst rest'.
    destruct (at_level_head _ _ Hat Hch Hnm)
      as (o & y & r & Eo & Hy & Hr & Hnr & Lo & Io & Hadv & Ha2).
    apply (ok_bind_eq _ _ _ _ _ _ Hadv).
    rewrite Eo in Hlen. simpl in Hlen.
    eapply ok_bind;
      [apply (Hoperand _ y r Ha2 Hy Hr Hnr); lia|].
    intros right b3 (e2 & used2 & rest3 & -> & Ht3 & He3 & Ho3 &
      Hah3 & Hsplit3 & Hlen3 & Hin3 & Hf3 & Hlev3 & Hch3 & Hnm3 & Hst3).
    apply ok_continue. split.
    + exists (Binary (lexer.Value o) e e2), (used ++ o :: used2), rest3.
      simpl in Ht3, He3, Ho3.
      repeat split; auto; try congruence.
      * rewrite Hsplit, Eo, Hsplit3, <- app_assoc. reflexivity.
      * lia.
      * simpl. rewrite Hin, Hin3, map_app. simpl. rewrite Io. reflexivity.
      * apply (follows_left _ n); auto.
      * rewrite (level_of_Binary _ n); auto.
    + rewrite (mu_at_level _ _ Hat), Eo.
      pose proof (mu_ahead b3) as Hm. rewrite Hah3 in Hm. simpl. lia.
  - apply ok_break. exists e, used, rest'.
    repeat split; auto. subst rest'. apply at_level_stops; assumption.
Qed.

(** A right-associative level:
    [left := operand(); if isOp() { ... right := itself() ... }]. *)
Lemma parseBinaryRight_level n isOp operandM recM k :
  (forall b, isOp b = at_level n b) -> n = 1 \/ n = 13 ->
  parses_level (S n) operandM k ->
  (forall j, j < k -> parses_level n recM j) ->
  parses_level n
    (left <- operandM ;;
     If isOp Then
       opTok <- advance ;;
       right <- recM ;;
       ret (newBinaryOperation (lexer.Value opTok) left right)
     Else ret left) k.
Proof.
  intros Hop Hn1 Hoperand Hrec b x rest Ha Hx Hc Hn Hk.
  eapply ok_bind; [exact (Hoperand b x rest Ha Hx Hc Hn Hk)|].
  intros left b1 (e & used & rest' & -> & Ht & He & Ho &
    Hah & Hsplit & Hlen & Hin & Hf & Hlev & Hch & Hnm & Hst).
  apply ok_ifM; rewrite Hop; intros Hat.
  - subst rest'.
    destruct (at_level_head _ _ Hat Hch Hnm)
      as (o & y & r & Eo & Hy & Hr & Hnr & Lo & Io & Hadv & Ha2).
    apply (ok_bind_eq _ _ _ _ _ _ Hadv).
    rewrite Eo in Hlen. simpl in Hlen.
    eapply ok_bind;
      [apply (Hrec (length r) ltac:(lia) _ y r Ha2 Hy Hr Hnr); lia|].
    intros right b3 (e2 & used2 & rest3 & -> & Ht3 & He3 & Ho3 &
      Hah3 & Hsplit3 & Hlen3 & Hin3 & Hf3 & Hlev3 & Hch3 & Hnm3 & Hst3).
    apply ok_ret.
    exists (Binary (lexer.Value o) e e2), (used ++ o :: used2), rest3.
    simpl in Ht3, He3, Ho3.
    repeat split; auto; try congruence.
    + rewrite Hsplit, Eo, Hsplit3, <- app_assoc. reflexivity.
    + lia.
    + simpl. rewrite Hin, Hin3, map_app. simpl. rewrite Io. reflexivity.
    + apply (follows_right _ n); auto.
    + rewrite (level_of_Binary _ n); auto.
  - apply ok_ret. exists e, used, rest'.
    repeat split; auto; [lia|]. subst rest'.
    apply at_level_stops; assumption.
Qed.

Ltac by_type :=
  intros b; unfold isAssignmentOperator, orb_, at_level; rewrite !check_peek;
  destruct (lexer.Type_ (peek b)); reflexivity.

Section Levels.

Variable rec : Rec.
Variable k : nat.
Hypothesis Hrec : rec_parses k rec.

Lemma parseExponentiation_level :
  parses_level 13 (parseExponentiation rec) k.
Proof.
  unfold parseExponentiation.
  apply parseBinaryRight_level;
    [by_type | right; reflexivity | apply parseUnary_level | apply Hrec].
Qed.

Lemma parseMultiplicative_level :
  parses_level 12 (parseMultiplicative rec) k.
Proof.
  apply parseBinaryLeft_level;
    [by_type | discriminate | discriminate | apply parseExponentiation_level].
Qed.

Lemma parseAdditive_level : parses_level 11 (parseAdditive rec) k.
Proof.
  apply parseBinaryLeft_level;
    [by_type | discriminate | discriminate | apply parseMultiplicative_level].
Qed.

Lemma parseShift_level : parses_level 10 (parseShift rec) k.
Proof.
  apply parseBinaryLeft_level;
    [by_type | discriminate | discriminate | apply parseAdditive_level].
Qed.

Lemma parseBitwiseAnd_level : parses_level 9 (parseBitwiseAnd rec) k.
Proof.
  apply parseBinaryLeft_level;
    [by_type | discriminate | discriminate | apply parseShift_level].
Qed.

Lemma parseBitwiseXor_level : parses_level 8 (parseBitwiseXor rec) k.
Proof.
  apply parseBinaryLeft_level;
    [by_type | discriminate | discriminate | apply parseBitwiseAnd_level].
Qed.

Lemma parseBitwiseOr_level : parses_level 7 (parseBitwiseOr rec) k.
Proof.
  apply parseBinaryLeft_level;
    [by_type | discriminate | discriminate | apply parseBitwiseXor_level].
Qed.

Lemma parseRelational_level : parses_level 6 (parseRelational rec) k.
Proof.
  apply parseBinaryLeft_level;
    [by_type | discriminate | discriminate | apply parseBitwiseOr_level].
Qed.

Lemma parseEquality_level : parses_level 5 (parseEquality rec) k.
Proof.
  apply parseBinaryLeft_level;
    [by_type | discriminate | discriminate | apply parseRelational_level].
Qed.

Lemma parseLogicalAnd_level : parses_level 4 (parseLogicalAnd rec) k.
Proof.
  apply parseBinaryLeft_level;
    [by_type | discriminate | discriminate | apply parseEquality_level].
Qed.

Lemma parseLogicalOr_level : parses_level 3 (parseLogicalOr rec) k.
Proof.
  apply parseBinaryLeft_level;
    [by_type | discriminate | discriminate | apply parseLogicalAnd_level].
Qed.

(** No [?] follows in a chain, and no operator is of level 2. *)
Lemma parseTernary_level : parses_level 2 (parseTernary rec) k.
Proof.
  intros b x rest Ha Hx Hc Hn Hk. unfold parseTernary.
  eapply ok_bind; [exact (parseLogicalOr_level b x rest Ha Hx Hc Hn Hk)|].
  intros left b1 (e & used & rest' & -> & Ht & He & Ho &
    Hah & Hsplit & Hlen & Hin & Hf & Hlev & Hch & Hnm & Hst).
  apply ok_ifM; intros Hq.
  - rewrite (check_other _ _ lexer.QUESTION Hah Hch eq_refl) in Hq.
    discriminate Hq.
  - apply ok_ret. exists e, used, rest'.
    repeat split; auto; [lia|].
    intros t r m E Hm. pose proof (Hst t r m E Hm).
    apply level_bound in Hm. lia.
Qed.

Lemma parseAssignment_level : parses_level 1 (parseAssignment rec) k.
Proof.
  unfold parseAssignment.
  apply parseBinaryRight_level;
    [by_type | left; reflexivity | apply parseTernary_level | apply Hrec].
Qed.

End Levels.

Lemma parses_level_fewer n m j k :
  j <= k -> parses_level n m k -> parses_level n m j.
Proof. intros Hle H b x rest Ha Hx Hc Hn Hk. apply H; auto. lia. Qed.

(** The methods behind [Rec], nested [k] deep, parse chains of up to
    [k] tokens after the first operand. *)
Lemma methods_parse k : rec_parses k (methods k).
Proof.
  induction k as [|k IH]; [split; intros j Hj; lia|].
  split; intros j Hj; simpl.
  - apply (parses_level_fewer _ _ j k); [lia|].
    apply parseExponentiation_level. exact IH.
  - apply (parses_level_fewer _ _ j k); [lia|].
    apply parseAssignment_level. exact IH.
Qed.

(** ** Source texts *)

(** The scanner gives an operator its text as value. *)
Lemma scan_named input : named (scan input).
Proof.
  unfold named, scan, lexer.Tokenize.
  eapply Forall_impl;
    [|apply (lexer_moves.tokenizeLoop_each
               (fun _ t => named_by_text (lexer.Type_ t) = true ->
                           lexer.String_ (lexer.Type_ t) = lexer.Value t));
      [intros l; apply lexer_moves.NextToken_name
      |intros l l' t _ H; exact H]].
  intros t H Ho. symmetry. apply H. revert Ho. unfold operator.
  destruct (lexer.Type_ t); intros Ho; try discriminate Ho; reflexivity.
Qed.

Lemma named_tail t ts : named (t :: ts) -> named ts.
Proof. intros H. inversion H. assumption. Qed.

(** [parseExpression] on a chain: the expression of all the tokens
    before [EOF], nested as the table says. *)
Lemma parseExpression_chain input :
  expression_chain (scan input) = true ->
  exists e,
    parse_expression input = Some (node_of e)
    /\ in_order e = map item_of (removelast (scan input))
    /\ follows_table e = true.
Proof.
  intros Hchain. unfold parse_expression.
  set (b := New input None).
  assert (Ha : ahead b = scan input) by reflexivity.
  pose proof (scan_named input) as Hn.
  destruct (scan input) as [|x rest] eqn:Es; [discriminate Hchain|].
  simpl in Hchain. apply andb_prop in Hchain. destruct Hchain as [Hx Hc].
  assert (Hf : fuel_for b = S (length rest)).
  { unfold fuel_for, b, New. simpl. fold (scan input). rewrite Es.
    reflexivity. }
  rewrite Hf.
  destruct (parseAssignment_level (methods (S (length rest)))
              (S (length rest)) (methods_parse _) b x rest Ha Hx Hc
              (named_tail _ _ Hn) ltac:(lia))
    as (node & b' & Hp & e & used & rest' & -> & _ & _ & _ & _ & Hsplit &
        _ & Hin & Hfol & _ & Hch & _ & Hst).
  exists e. unfold parseExpression. rewrite Hp. simpl.
  split; [reflexivity|]. split; [|exact Hfol].
  rewrite Hin. f_equal.
  destruct (chain_head _ Hch) as [(eof & -> & _) | (o & y & r & -> & Ho & _)].
  - change (used = removelast (x :: rest)).
    rewrite Hsplit, removelast_last. reflexivity.
  - destruct (operator_level _ Ho) as (m & Hm).
    pose proof (Hst _ _ _ eq_refl Hm). apply level_bound in Hm. lia.
Qed.

End precedence.

(** C5: the binary operators nest as the precedence table says.  The
    two expressions of the claim, [a + b * c] and [a ** b ** c], parse to
    [a + (b * c)] and [a ** (b ** c)], and so do the rows of
    [precedence_table] to the trees beside them.  In general: whenever
    the tokens of a source text are identifiers with binary operators
    of the table between them, [parseExpression] returns the tree of an
    expression that has these identifiers and operators in their order
    and in which every operand of an operator is of a higher level of
    the table than the operator, or of the same level on the side to
    which that level associates; and there is one such expression
    only. *)
Theorem precedence_follows_table :
  parse_expression "a + b * c"
    = Some (newBinaryOperation "+" (newIdentifier "a")
              (newBinaryOperation "*" (newIdentifier "b")
                 (newIdentifier "c")))
  /\ parse_expression "a ** b ** c"
    = Some (newBinaryOperation "**" (newIdentifier "a")
              (newBinaryOperation "**" (newIdentifier "b")
                 (newIdentifier "c")))
  /\ map (fun row => parse_expression (fst row)) precedence_table
    = map (fun row => Some (snd row)) precedence_table
  /\ forall input,
       expression_chain (scan input) = true ->
       exists e,
         parse_expression input = Some (node_of e)
         /\ in_order e = map item_of (removelast (scan input))
         /\ follows_table e = true
         /\ forall e', in_order e' = in_order e ->
                       follows_table e' = true -> e' = e.
Proof.
  split; [vm_compute; reflexivity|].
  split; [vm_compute; reflexivity|].
  split; [vm_compute; reflexivity|].
  intros input H.
  destruct (precedence.parseExpression_chain input H) as (e & P & I & F).
  exists e. repeat split; try assumption.
  intros e' I' F'. exact (precedence.follows_unique e' e F' F I').
Qed.

Lemma precedence_follows_table_witness :
  expression_chain (scan chain_input) = true
  /\ exists e,
       parse_expression chain_input = Some (node_of e)
       /\ in_order e = map item_of (removelast (scan chain_input))
       /\ follows_table e = true
       /\ forall e', in_order e' = in_order e ->
                     follows_table e' = true -> e' = e.
Proof.
  split; [reflexivity|].
  apply (proj2 (proj2 (proj2 precedence_follows_table))). reflexivity.
Defined.

(** * What the builder keeps: node types, locations, error positions *)

(** ** Trees *)

Lemma Everywhere_impl (P Q : ast.Node -> Prop) :
  (forall n, P n -> Q n) -> forall n, Everywhere P n -> Everywhere Q n.
Proof.
  intros H n E. induction E as [n Hn _ IH].
  constructor; [apply H; exact Hn | exact IH].
Qed.

Lemma tree_new o K p :
  String.eqb K (struct_name p) = true ->
  Forall (tree_ok o) (children p) ->
  tree_ok o (ast.new K p).
Proof.
  intros HK Hc. constructor.
  - unfold node_ok, ast.new, ast.GetType, ast.GetLocation, ast.GetRange.
    simpl. rewrite HK. reflexivity.
  - simpl. rewrite Forall_forall in Hc. exact Hc.
Qed.

Lemma tree_setLocation o node s e :
  tree_ok o node -> tree_ok o (setLocation_ o node s e).
Proof.
  intros H. unfold setLocation_.
  destruct (negb (Loc o) && negb (Range o)); [exact H|].
  destruct (hasLocationCase (ast.payload node)); [|exact H].
  inversion H as [n Hn Hc E]. subst n. constructor; [|exact Hc].
  unfold node_ok, ast.GetType, ast.GetLocation, ast.GetRange in *. simpl.
  apply andb_true_iff in Hn. destruct Hn as [Hn _].
  apply andb_true_iff in Hn. destruct Hn as [Hn _]. rewrite Hn.
  destruct (Loc o), (Range o); reflexivity.
Qed.

Lemma Forall_opt {A} (P : A -> Prop) (x : option A) :
  match x with Some y => P y | None => True end -> Forall P (opt x).
Proof. destruct x; simpl; intros H; repeat constructor; exact H. Qed.

Lemma Forall_somes {A} (P : A -> Prop) (xs : list (option A)) :
  Forall (fun x => match x with Some y => P y | None => True end) xs ->
  Forall P (somes xs).
Proof.
  induction 1 as [|[y|] xs H _ IH]; simpl; [constructor | |exact IH].
  constructor; assumption.
Qed.

Lemma somes_map_Some {A} (xs : list A) : somes (map Some xs) = xs.
Proof. induction xs as [|x xs IH]; simpl; [|rewrite IH]; reflexivity. Qed.

(** ** States *)

Section Keeps.

Variable o : Options.
Variable T : list lexer.Token.
Hypothesis HT : ends_with_EOF T.

Lemma peek_In_T b : state_ok o T b -> In (peek b) T.
Proof.
  intros (_ & Ht & Hp & _). unfold peek. rewrite Ht.
  apply Nat.leb_gt in Hp. rewrite Hp. apply nth_In.
  apply Nat.leb_gt in Hp. exact Hp.
Qed.

Lemma state_step b : state_ok o T b -> state_ok o T (step b).
Proof.
  intros H. pose proof H as (Ho & Ht & Hp & He). unfold step.
  destruct (isAtEnd b) eqn:E; [exact H|].
  unfold state_ok, set_pos. simpl. repeat split; auto.
  destruct HT as (ts & t & HT' & Heof).
  assert (L : length T = S (length ts)).
  { rewrite HT', length_app. simpl. lia. }
  destruct (Nat.eq_dec (pos b) (length ts)) as [Q|Q]; [|lia].
  exfalso. unfold isAtEnd, peek in E. rewrite Ht in E.
  apply Nat.leb_gt in Hp. rewrite Hp in E.
  rewrite HT', Q, nth_middle in E. rewrite Heof in E. discriminate E.
Qed.

Lemma state_set_pos b p :
  state_ok o T b -> p < length T -> state_ok o T (set_pos b p).
Proof.
  intros (Ho & Ht & Hp & He) H. unfold state_ok, set_pos. simpl. auto.
Qed.

(** ** The monad *)

Lemma keeps_ret {A} {G : Good A} (x : A) :
  good o T x -> keeps o T (ret x).
Proof. intros H b y b' Hb [= <- <-]. auto. Qed.

Lemma keeps_bind {A B} {GA : Good A} {GB : Good B} (m : M A)
  (k : A -> M B) :
  keeps o T m -> (forall x, good o T x -> keeps o T (k x)) ->
  keeps o T (bind m k).
Proof.
  intros Hm Hk b y b' Hb E. unfold bind in E.
  destruct (m b) as [[x b1]|] eqn:Em; [|discriminate E].
  destruct (Hm _ _ _ Hb Em) as [Hb1 Hx]. exact (Hk x Hx _ _ _ Hb1 E).
Qed.

Lemma keeps_gets {A} {G : Good A} (f : Builder -> A) :
  (forall b, state_ok o T b -> good o T (f b)) -> keeps o T (gets f).
Proof. intros H b y b' Hb [= <- <-]. auto. Qed.

Lemma keeps_ifM {A} {G : Good A} (c : Builder -> bool) (t e : M A) :
  keeps o T t -> keeps o T e -> keeps o T (ifM c t e).
Proof.
  intros Ht He b y b' Hb E. unfold ifM in E.
  destruct (c b); [exact (Ht _ _ _ Hb E) | exact (He _ _ _ Hb E)].
Qed.

Lemma keeps_continue {V R} {GV : Good V} {GR : Good R} (s : V) :
  good o T s -> keeps o T (continue_ (R:=R) s).
Proof. intros H. apply keeps_ret. exact H. Qed.

Lemma keeps_break {V R} {GV : Good V} {GR : Good R} (r : R) :
  good o T r -> keeps o T (break_ (V:=V) r).
Proof. intros H. apply keeps_ret. exact H. Qed.

Lemma keeps_loop {V R} {GV : Good V} {GR : Good R}
  (body : V -> M (V + R)) :
  (forall s, good o T s -> keeps o T (body s)) ->
  forall n s, good o T s -> keeps o T (loop n body s).
Proof.
  intros Hb. induction n as [|n IH]; intros s Hs b y b' Hst E;
    [discriminate E|].
  simpl in E. destruct (body s b) as [[[s'|r] b1]|] eqn:Eb;
    try discriminate E.
  - destruct (Hb s Hs _ _ _ Hst Eb) as [H1 H2]. exact (IH s' H2 _ _ _ H1 E).
  - injection E as <- <-. exact (Hb s Hs _ _ _ Hst Eb).
Qed.

Lemma keeps_for {V R} {GV : Good V} {GR : Good R}
  (body : V -> M (V + R)) s :
  good o T s -> (forall s, good o T s -> keeps o T (body s)) ->
  keeps o T (for_ body s).
Proof.
  intros Hs Hb b y b' Hst E. unfold for_ in E.
  exact (keeps_loop body Hb _ s Hs _ _ _ Hst E).
Qed.

Lemma keeps_panic {A} {G : Good A} : keeps o T (panic (A:=A)).
Proof. intros b y b' _ E. discriminate E. Qed.

(** ** The helpers *)

Lemma keeps_previous : keeps o T previous.
Proof.
  intros b t b' Hb E. unfold previous in E.
  destruct (pos b); [injection E as <- <-; split; [exact Hb | exact I]|].
  destruct (nth_error _ _); [|discriminate E].
  injection E as <- <-. split; [exact Hb | exact I].
Qed.

Lemma keeps_advance : keeps o T advance.
Proof.
  intros b t b' Hb E. unfold advance in E.
  exact (keeps_previous _ _ _ (state_step b Hb) E).
Qed.

Lemma keeps_index0 {A} {G : Good A} (xs : list A) :
  good o T xs -> keeps o T (index0 xs).
Proof.
  intros H. destruct xs as [|x xs]; [apply keeps_panic|].
  apply keeps_ret. inversion H. assumption.
Qed.

Lemma keeps_restore p : good o T p -> keeps o T (restore p).
Proof.
  intros H b y b' Hb [= <- <-]. split; [|exact I].
  apply state_set_pos; assumption.
Qed.

Lemma keeps_setLocation node s e :
  good o T node -> keeps o T (setLocation node s e).
Proof.
  intros H b y b' Hb [= <- <-]. split; [exact Hb|].
  destruct Hb as (-> & _). apply tree_setLocation. exact H.
Qed.

(** ** The methods *)

Ltac unfold_good :=
  repeat progress
    (unfold good, good_node, good_error, good_nat, good_token, good_string,
       good_bool, good_unit, good_symbol, good_list, good_option, good_prod,
       good_sum, good_modifiers, good_statevar, good_location in *);
  cbn [fst snd] in *.

Ltac gd :=
  unfold_good;
  repeat match goal with
         | H : _ /\ _ |- _ => destruct H
         end;
  repeat first
    [ exact I
    | assumption
    | apply Forall_nil
    | rewrite somes_map_Some
    | apply Forall_opt; unfold_good
    | apply Forall_somes; unfold_good
    | apply tree_new; [reflexivity | cbn [children]]
    | apply Forall_app; split
    | apply Forall_cons
    | split
    | match goal with
      | |- context [match ?x with _ => _ end] =>
          destruct x; unfold_good
      end ].

Create HintDb keepdb.
Hint Resolve keeps_previous keeps_advance keeps_panic : keepdb.
Hint Extern 1 (good _ _ _) => solve [gd] : keepdb.

Ltac keep :=
  cbv beta zeta;
  lazymatch goal with
  | |- keeps _ _ (bind _ _) =>
      eapply keeps_bind; [ keep | intros ? ?; keep ]
  | |- keeps _ _ (ifM _ _ _) => apply keeps_ifM; keep
  | |- keeps _ _ (for_ _ _) =>
      apply keeps_for; [ solve [gd] | intros ? ?; keep ]
  | |- keeps _ _ (ret _) => apply keeps_ret; solve [gd]
  | |- keeps _ _ (continue_ _) => apply keeps_continue; solve [gd]
  | |- keeps _ _ (break_ _) => apply keeps_break; solve [gd]
  | |- keeps _ _ (setLocation _ _ _) =>
      apply keeps_setLocation; solve [gd]
  | |- keeps _ _ (restore _) => apply keeps_restore; solve [gd]
  | |- keeps _ _ (index0 _) => apply keeps_index0; solve [gd]
  | |- keeps _ _ (gets _) =>
      apply keeps_gets; intros ? ?;
      first [ solve [gd]
            | match goal with
              | H : state_ok _ _ _ |- _ =>
                  destruct H as (? & ? & ? & ?); solve [gd]
              end ]
  | |- keeps _ _ (if ?c then _ else _) => destruct c; keep
  | |- keeps _ _ (match ?x with _ => _ end) =>
      destruct x; unfold_good; keep
  | |- _ => solve [ eauto 4 with keepdb nocore ]
  end.

Lemma synchronize_keeps : keeps o T synchronize.
Proof. unfold synchronize. keep. Qed.
Hint Resolve synchronize_keeps : keepdb.

Lemma addError_keeps msg : keeps o T (addError msg).
Proof.
  intros b y b' Hb E. unfold addError, bind, gets in E.
  refine (keeps_ifM _ synchronize (ret tt) synchronize_keeps
            (keeps_ret tt I) _ _ _ _ E).
  pose proof (peek_In_T b Hb) as Hin.
  destruct Hb as (Ho & Ht & Hp & He). unfold state_ok. simpl.
  repeat split; auto. apply Forall_app. split; [exact He|].
  constructor; [|constructor]. exists (peek b). simpl. auto.
Qed.
Hint Resolve addError_keeps : keepdb.

Lemma expect_keeps (x0 : lexer.TokenType) :
  keeps o T (expect x0).
Proof. unfold expect. keep. Qed.
Hint Resolve expect_keeps : keepdb.

Lemma expectKeyword_keeps (x0 : string) :
  keeps o T (expectKeyword x0).
Proof. unfold expectKeyword. keep. Qed.
Hint Resolve expectKeyword_keeps : keepdb.

Lemma parseElementaryTypeName_keeps :
  keeps o T (parseElementaryTypeName).
Proof. unfold parseElementaryTypeName. keep. Qed.
Hint Resolve parseElementaryTypeName_keeps : keepdb.

Lemma parseUserDefinedTypeName_keeps :
  keeps o T (parseUserDefinedTypeName).
Proof. unfold parseUserDefinedTypeName. keep. Qed.
Hint Resolve parseUserDefinedTypeName_keeps : keepdb.

Lemma finishVariableDeclaration_keeps (x0 : lexer.Token) (x1 : ast.Node) :
  good o T x1 -> keeps o T (finishVariableDeclaration x0 x1).
Proof. intros. unfold finishVariableDeclaration. keep. Qed.
Hint Resolve finishVariableDeclaration_keeps : keepdb.

Lemma parseNumberLiteral_keeps (x0 : lexer.Token) :
  keeps o T (parseNumberLiteral x0).
Proof. unfold parseNumberLiteral. keep. Qed.
Hint Resolve parseNumberLiteral_keeps : keepdb.

Lemma parseStringLiteral_keeps :
  keeps o T (parseStringLiteral).
Proof. unfold parseStringLiteral. keep. Qed.
Hint Resolve parseStringLiteral_keeps : keepdb.

Lemma parseMember_keeps (x0 : ast.Node) :
  good o T x0 -> keeps o T (parseMember x0).
Proof. intros. unfold parseMember. keep. Qed.
Hint Resolve parseMember_keeps : keepdb.

Lemma looksLikeVariableDeclaration_keeps :
  keeps o T (looksLikeVariableDeclaration).
Proof. unfold looksLikeVariableDeclaration. keep. Qed.
Hint Resolve looksLikeVariableDeclaration_keeps : keepdb.

Lemma parseContinueStatement_keeps :
  keeps o T (parseContinueStatement).
Proof. unfold parseContinueStatement. keep. Qed.
Hint Resolve parseContinueStatement_keeps : keepdb.

Lemma parseBreakStatement_keeps :
  keeps o T (parseBreakStatement).
Proof. unfold parseBreakStatement. keep. Qed.
Hint Resolve parseBreakStatement_keeps : keepdb.

Lemma parseAssemblyLiteral_keeps :
  keeps o T (parseAssemblyLiteral).
Proof. unfold parseAssemblyLiteral. keep. Qed.
Hint Resolve parseAssemblyLiteral_keeps : keepdb.

Lemma parseAssemblyNames_keeps :
  keeps o T (parseAssemblyNames).
Proof. unfold parseAssemblyNames. keep. Qed.
Hint Resolve parseAssemblyNames_keeps : keepdb.

Lemma parsePragmaDirective_keeps :
  keeps o T (parsePragmaDirective).
Proof. unfold parsePragmaDirective. keep. Qed.
Hint Resolve parsePragmaDirective_keeps : keepdb.

Lemma parseFromPath_keeps :
  keeps o T (parseFromPath).
Proof. unfold parseFromPath. keep. Qed.
Hint Resolve parseFromPath_keeps : keepdb.

Lemma parseImportDirective_keeps :
  keeps o T (parseImportDirective).
Proof. unfold parseImportDirective. keep. Qed.
Hint Resolve parseImportDirective_keeps : keepdb.

Lemma parseOverrideSpecifier_keeps (x0 : list ast.Node) :
  good o T x0 -> keeps o T (parseOverrideSpecifier x0).
Proof. intros. unfold parseOverrideSpecifier. keep. Qed.
Hint Resolve parseOverrideSpecifier_keeps : keepdb.

Lemma parseEnumDefinition_keeps :
  keeps o T (parseEnumDefinition).
Proof. unfold parseEnumDefinition. keep. Qed.
Hint Resolve parseEnumDefinition_keeps : keepdb.

Lemma parseUserDefinedValueTypeDefinition_keeps :
  keeps o T (parseUserDefinedValueTypeDefinition).
Proof. unfold parseUserDefinedValueTypeDefinition. keep. Qed.
Hint Resolve parseUserDefinedValueTypeDefinition_keeps : keepdb.

Section Rec.

Variable rec : Rec.
Hypothesis Hrec : RecKeeps o T rec.

Hint Extern 1 (keeps _ _ (call_parseTypeName _)) =>
  exact (keeps_parseTypeName _ _ _ Hrec) : keepdb.
Hint Extern 1 (keeps _ _ (call_parseExpression _)) =>
  exact (keeps_parseExpression _ _ _ Hrec) : keepdb.
Hint Extern 1 (keeps _ _ (call_parseAssignment _)) =>
  exact (keeps_parseAssignment _ _ _ Hrec) : keepdb.
Hint Extern 1 (keeps _ _ (call_parseTernary _)) =>
  exact (keeps_parseTernary _ _ _ Hrec) : keepdb.
Hint Extern 1 (keeps _ _ (call_parseExponentiation _)) =>
  exact (keeps_parseExponentiation _ _ _ Hrec) : keepdb.
Hint Extern 1 (keeps _ _ (call_parseUnary _)) =>
  exact (keeps_parseUnary _ _ _ Hrec) : keepdb.
Hint Extern 1 (keeps _ _ (call_parseStatement _)) =>
  exact (keeps_parseStatement _ _ _ Hrec) : keepdb.
Hint Extern 1 (keeps _ _ (call_parseAssemblyExpression _)) =>
  exact (keeps_parseAssemblyExpression _ _ _ Hrec) : keepdb.
Hint Extern 1 (keeps _ _ (call_parseAssemblyStatement_ _)) =>
  exact (keeps_parseAssemblyStatement_ _ _ _ Hrec) : keepdb.

Lemma parseBinaryLeft_keeps (isOp : Builder -> bool)
  (operand : M ast.Node) :
  keeps o T operand -> keeps o T (parseBinaryLeft isOp operand).
Proof. intros H. unfold parseBinaryLeft. keep. Qed.
Hint Resolve parseBinaryLeft_keeps : keepdb.

Lemma parseParameter_keeps :
  keeps o T (parseParameter rec).
Proof. unfold parseParameter. keep. Qed.
Hint Resolve parseParameter_keeps : keepdb.

Lemma parseParameterList_keeps :
  keeps o T (parseParameterList rec).
Proof. unfold parseParameterList. keep. Qed.
Hint Resolve parseParameterList_keeps : keepdb.

Lemma parseFunctionTypeName_keeps :
  keeps o T (parseFunctionTypeName rec).
Proof. unfold parseFunctionTypeName. keep. Qed.
Hint Resolve parseFunctionTypeName_keeps : keepdb.

Lemma parseMappingType_keeps :
  keeps o T (parseMappingType rec).
Proof. unfold parseMappingType. keep. Qed.
Hint Resolve parseMappingType_keeps : keepdb.

Lemma parseTypeName_keeps :
  keeps o T (parseTypeName rec).
Proof. unfold parseTypeName. keep. Qed.
Hint Resolve parseTypeName_keeps : keepdb.

Lemma parseVariableDeclaration_keeps :
  keeps o T (parseVariableDeclaration rec).
Proof. unfold parseVariableDeclaration. keep. Qed.
Hint Resolve parseVariableDeclaration_keeps : keepdb.

Lemma parseExpressionList_keeps :
  keeps o T (parseExpressionList rec).
Proof. unfold parseExpressionList. keep. Qed.
Hint Resolve parseExpressionList_keeps : keepdb.

Lemma parseTupleRest_keeps (x0 : lexer.Token) (x1 : option ast.Node) :
  good o T x1 -> keeps o T (parseTupleRest rec x0 x1).
Proof. intros. unfold parseTupleRest. keep. Qed.
Hint Resolve parseTupleRest_keeps : keepdb.

Lemma parseTupleOrParenthesized_keeps :
  keeps o T (parseTupleOrParenthesized rec).
Proof. unfold parseTupleOrParenthesized. keep. Qed.
Hint Resolve parseTupleOrParenthesized_keeps : keepdb.

Lemma parseArrayLiteral_keeps :
  keeps o T (parseArrayLiteral rec).
Proof. unfold parseArrayLiteral. keep. Qed.
Hint Resolve parseArrayLiteral_keeps : keepdb.

Lemma parseNewExpression_keeps :
  keeps o T (parseNewExpression rec).
Proof. unfold parseNewExpression. keep. Qed.
Hint Resolve parseNewExpression_keeps : keepdb.

Lemma parseTypeExpression_keeps :
  keeps o T (parseTypeExpression rec).
Proof. unfold parseTypeExpression. keep. Qed.
Hint Resolve parseTypeExpression_keeps : keepdb.

Lemma parsePayableConversion_keeps :
  keeps o T (parsePayableConversion rec).
Proof. unfold parsePayableConversion. keep. Qed.
Hint Resolve parsePayableConversion_keeps : keepdb.

Lemma parsePrimary_keeps :
  keeps o T (parsePrimary rec).
Proof. unfold parsePrimary. keep. Qed.
Hint Resolve parsePrimary_keeps : keepdb.

Lemma parseNamedValues_keeps :
  keeps o T (parseNamedValues rec).
Proof. unfold parseNamedValues. keep. Qed.
Hint Resolve parseNamedValues_keeps : keepdb.

Lemma parseFunctionCall_keeps (x0 : ast.Node) :
  good o T x0 -> keeps o T (parseFunctionCall rec x0).
Proof. intros. unfold parseFunctionCall. keep. Qed.
Hint Resolve parseFunctionCall_keeps : keepdb.

Lemma parseFunctionCallOptions_keeps (x0 : ast.Node) :
  good o T x0 -> keeps o T (parseFunctionCallOptions rec x0).
Proof. intros. unfold parseFunctionCallOptions. keep. Qed.
Hint Resolve parseFunctionCallOptions_keeps : keepdb.

Lemma parseIndex_keeps (x0 : ast.Node) :
  good o T x0 -> keeps o T (parseIndex rec x0).
Proof. intros. unfold parseIndex. keep. Qed.
Hint Resolve parseIndex_keeps : keepdb.

Lemma parseCallMemberIndex_keeps :
  keeps o T (parseCallMemberIndex rec).
Proof. unfold parseCallMemberIndex. keep. Qed.
Hint Resolve parseCallMemberIndex_keeps : keepdb.

Lemma parsePostfix_keeps :
  keeps o T (parsePostfix rec).
Proof. unfold parsePostfix. keep. Qed.
Hint Resolve parsePostfix_keeps : keepdb.

Lemma parseUnary_keeps :
  keeps o T (parseUnary rec).
Proof. unfold parseUnary. keep. Qed.
Hint Resolve parseUnary_keeps : keepdb.

Lemma parseExponentiation_keeps :
  keeps o T (parseExponentiation rec).
Proof. unfold parseExponentiation. keep. Qed.
Hint Resolve parseExponentiation_keeps : keepdb.

Lemma parseMultiplicative_keeps :
  keeps o T (parseMultiplicative rec).
Proof. unfold parseMultiplicative. keep. Qed.
Hint Resolve parseMultiplicative_keeps : keepdb.

Lemma parseAdditive_keeps :
  keeps o T (parseAdditive rec).
Proof. unfold parseAdditive. keep. Qed.
Hint Resolve parseAdditive_keeps : keepdb.

Lemma parseShift_keeps :
  keeps o T (parseShift rec).
Proof. unfold parseShift. keep. Qed.
Hint Resolve parseShift_keeps : keepdb.

Lemma parseBitwiseAnd_keeps :
  keeps o T (parseBitwiseAnd rec).
Proof. unfold parseBitwiseAnd. keep. Qed.
Hint Resolve parseBitwiseAnd_keeps : keepdb.

Lemma parseBitwiseXor_keeps :
  keeps o T (parseBitwiseXor rec).
Proof. unfold parseBitwiseXor. keep. Qed.
Hint Resolve parseBitwiseXor_keeps : keepdb.

Lemma parseBitwiseOr_keeps :
  keeps o T (parseBitwiseOr rec).
Proof. unfold parseBitwiseOr. keep. Qed.
Hint Resolve parseBitwiseOr_keeps : keepdb.

Lemma parseRelational_keeps :
  keeps o T (parseRelational rec).
Proof. unfold parseRelational. keep. Qed.
Hint Resolve parseRelational_keeps : keepdb.

Lemma parseEquality_keeps :
  keeps o T (parseEquality rec).
Proof. unfold parseEquality. keep. Qed.
Hint Resolve parseEquality_keeps : keepdb.

Lemma parseLogicalAnd_keeps :
  keeps o T (parseLogicalAnd rec).
Proof. unfold parseLogicalAnd. keep. Qed.
Hint Resolve parseLogicalAnd_keeps : keepdb.

Lemma parseLogicalOr_keeps :
  keeps o T (parseLogicalOr rec).
Proof. unfold parseLogicalOr. keep. Qed.
Hint Resolve parseLogicalOr_keeps : keepdb.

Lemma parseTernary_keeps :
  keeps o T (parseTernary rec).
Proof. unfold parseTernary. keep. Qed.
Hint Resolve parseTernary_keeps : keepdb.

Lemma parseAssignment_keeps :
  keeps o T (parseAssignment rec).
Proof. unfold parseAssignment. keep. Qed.
Hint Resolve parseAssignment_keeps : keepdb.

Lemma parseExpression_keeps :
  keeps o T (parseExpression rec).
Proof. unfold parseExpression. keep. Qed.
Hint Resolve parseExpression_keeps : keepdb.

Lemma parseBlock_keeps :
  keeps o T (parseBlock rec).
Proof. unfold parseBlock. keep. Qed.
Hint Resolve parseBlock_keeps : keepdb.

Lemma parseExpressionStatement_keeps :
  keeps o T (parseExpressionStatement rec).
Proof. unfold parseExpressionStatement. keep. Qed.
Hint Resolve parseExpressionStatement_keeps : keepdb.

Lemma parseInitialValue_keeps :
  keeps o T (parseInitialValue rec).
Proof. unfold parseInitialValue. keep. Qed.
Hint Resolve parseInitialValue_keeps : keepdb.

Lemma parseVariableDeclarationStatement_keeps :
  keeps o T (parseVariableDeclarationStatement rec).
Proof. unfold parseVariableDeclarationStatement. keep. Qed.
Hint Resolve parseVariableDeclarationStatement_keeps : keepdb.

Lemma parseTupleVariableDeclarationOrExpression_keeps :
  keeps o T (parseTupleVariableDeclarationOrExpression rec).
Proof. unfold parseTupleVariableDeclarationOrExpression. keep. Qed.
Hint Resolve parseTupleVariableDeclarationOrExpression_keeps : keepdb.

Lemma parseIfStatement_keeps :
  keeps o T (parseIfStatement rec).
Proof. unfold parseIfStatement. keep. Qed.
Hint Resolve parseIfStatement_keeps : keepdb.

Lemma parseForStatement_keeps :
  keeps o T (parseForStatement rec).
Proof. unfold parseForStatement. keep. Qed.
Hint Resolve parseForStatement_keeps : keepdb.

Lemma parseWhileStatement_keeps :
  keeps o T (parseWhileStatement rec).
Proof. unfold parseWhileStatement. keep. Qed.
Hint Resolve parseWhileStatement_keeps : keepdb.

Lemma parseDoWhileStatement_keeps :
  keeps o T (parseDoWhileStatement rec).
Proof. unfold parseDoWhileStatement. keep. Qed.
Hint Resolve parseDoWhileStatement_keeps : keepdb.

Lemma parseReturnStatement_keeps :
  keeps o T (parseReturnStatement rec).
Proof. unfold parseReturnStatement. keep. Qed.
Hint Resolve parseReturnStatement_keeps : keepdb.

Lemma parseEmitStatement_keeps :
  keeps o T (parseEmitStatement rec).
Proof. unfold parseEmitStatement. keep. Qed.
Hint Resolve parseEmitStatement_keeps : keepdb.

Lemma parseRevertStatement_keeps :
  keeps o T (parseRevertStatement rec).
Proof. unfold parseRevertStatement. keep. Qed.
Hint Resolve parseRevertStatement_keeps : keepdb.

Lemma parseTryCallMemberIndex_keeps :
  keeps o T (parseTryCallMemberIndex rec).
Proof. unfold parseTryCallMemberIndex. keep. Qed.
Hint Resolve parseTryCallMemberIndex_keeps : keepdb.

Lemma parseTryExpression_keeps :
  keeps o T (parseTryExpression rec).
Proof. unfold parseTryExpression. keep. Qed.
Hint Resolve parseTryExpression_keeps : keepdb.

Lemma parseCatchClause_keeps :
  keeps o T (parseCatchClause rec).
Proof. unfold parseCatchClause. keep. Qed.
Hint Resolve parseCatchClause_keeps : keepdb.

Lemma parseTryStatement_keeps :
  keeps o T (parseTryStatement rec).
Proof. unfold parseTryStatement. keep. Qed.
Hint Resolve parseTryStatement_keeps : keepdb.

Lemma parseAssemblyCall_keeps (x0 : string) (x1 : lexer.Token) :
  keeps o T (parseAssemblyCall rec x0 x1).
Proof. unfold parseAssemblyCall. keep. Qed.
Hint Resolve parseAssemblyCall_keeps : keepdb.

Lemma parseAssemblyExpression_keeps :
  keeps o T (parseAssemblyExpression rec).
Proof. unfold parseAssemblyExpression. keep. Qed.
Hint Resolve parseAssemblyExpression_keeps : keepdb.

Lemma parseAssemblyBlock_keeps :
  keeps o T (parseAssemblyBlock rec).
Proof. unfold parseAssemblyBlock. keep. Qed.
Hint Resolve parseAssemblyBlock_keeps : keepdb.

Lemma parseAssemblyLocalDefinition_keeps :
  keeps o T (parseAssemblyLocalDefinition rec).
Proof. unfold parseAssemblyLocalDefinition. keep. Qed.
Hint Resolve parseAssemblyLocalDefinition_keeps : keepdb.

Lemma parseAssemblyIf_keeps :
  keeps o T (parseAssemblyIf rec).
Proof. unfold parseAssemblyIf. keep. Qed.
Hint Resolve parseAssemblyIf_keeps : keepdb.

Lemma parseAssemblyFor_keeps :
  keeps o T (parseAssemblyFor rec).
Proof. unfold parseAssemblyFor. keep. Qed.
Hint Resolve parseAssemblyFor_keeps : keepdb.

Lemma parseAssemblySwitch_keeps :
  keeps o T (parseAssemblySwitch rec).
Proof. unfold parseAssemblySwitch. keep. Qed.
Hint Resolve parseAssemblySwitch_keeps : keepdb.

Lemma parseAssemblyFunctionDefinition_keeps :
  keeps o T (parseAssemblyFunctionDefinition rec).
Proof. unfold parseAssemblyFunctionDefinition. keep. Qed.
Hint Resolve parseAssemblyFunctionDefinition_keeps : keepdb.

Lemma parseAssemblyExpressionOrAssignment_keeps :
  keeps o T (parseAssemblyExpressionOrAssignment rec).
Proof. unfold parseAssemblyExpressionOrAssignment. keep. Qed.
Hint Resolve parseAssemblyExpressionOrAssignment_keeps : keepdb.

Lemma parseAssemblyStatement__keeps :
  keeps o T (parseAssemblyStatement_ rec).
Proof. unfold parseAssemblyStatement_. keep. Qed.
Hint Resolve parseAssemblyStatement__keeps : keepdb.

Lemma parseAssemblyStatement_keeps :
  keeps o T (parseAssemblyStatement rec).
Proof. unfold parseAssemblyStatement. keep. Qed.
Hint Resolve parseAssemblyStatement_keeps : keepdb.

Lemma parseUncheckedBlock_keeps :
  keeps o T (parseUncheckedBlock rec).
Proof. unfold parseUncheckedBlock. keep. Qed.
Hint Resolve parseUncheckedBlock_keeps : keepdb.

Lemma parseDeclarationOrExpressionStatement_keeps :
  keeps o T (parseDeclarationOrExpressionStatement rec).
Proof. unfold parseDeclarationOrExpressionStatement. keep. Qed.
Hint Resolve parseDeclarationOrExpressionStatement_keeps : keepdb.

Lemma parseStatement_keeps :
  keeps o T (parseStatement rec).
Proof. unfold parseStatement. keep. Qed.
Hint Resolve parseStatement_keeps : keepdb.

Lemma parseInheritanceSpecifier_keeps :
  keeps o T (parseInheritanceSpecifier rec).
Proof. unfold parseInheritanceSpecifier. keep. Qed.
Hint Resolve parseInheritanceSpecifier_keeps : keepdb.

Lemma parseModifierInvocation_keeps :
  keeps o T (parseModifierInvocation rec).
Proof. unfold parseModifierInvocation. keep. Qed.
Hint Resolve parseModifierInvocation_keeps : keepdb.

Lemma parseFunctionModifiers_keeps (x0 : FunctionModifiers) :
  good o T x0 -> keeps o T (parseFunctionModifiers rec x0).
Proof. intros. unfold parseFunctionModifiers. keep. Qed.
Hint Resolve parseFunctionModifiers_keeps : keepdb.

Lemma parseBodyOrSemicolon_keeps :
  keeps o T (parseBodyOrSemicolon rec).
Proof. unfold parseBodyOrSemicolon. keep. Qed.
Hint Resolve parseBodyOrSemicolon_keeps : keepdb.

Lemma parseReturnParameters_keeps :
  keeps o T (parseReturnParameters rec).
Proof. unfold parseReturnParameters. keep. Qed.
Hint Resolve parseReturnParameters_keeps : keepdb.

Lemma parseFunctionDefinition_keeps :
  keeps o T (parseFunctionDefinition rec).
Proof. unfold parseFunctionDefinition. keep. Qed.
Hint Resolve parseFunctionDefinition_keeps : keepdb.

Lemma parseConstructorDefinition_keeps :
  keeps o T (parseConstructorDefinition rec).
Proof. unfold parseConstructorDefinition. keep. Qed.
Hint Resolve parseConstructorDefinition_keeps : keepdb.

Lemma parseFallbackDefinition_keeps :
  keeps o T (parseFallbackDefinition rec).
Proof. unfold parseFallbackDefinition. keep. Qed.
Hint Resolve parseFallbackDefinition_keeps : keepdb.

Lemma parseReceiveDefinition_keeps :
  keeps o T (parseReceiveDefinition rec).
Proof. unfold parseReceiveDefinition. keep. Qed.
Hint Resolve parseReceiveDefinition_keeps : keepdb.

Lemma parseModifierDefinition_keeps :
  keeps o T (parseModifierDefinition rec).
Proof. unfold parseModifierDefinition. keep. Qed.
Hint Resolve parseModifierDefinition_keeps : keepdb.

Lemma parseStateVariableDeclaration_keeps :
  keeps o T (parseStateVariableDeclaration rec).
Proof. unfold parseStateVariableDeclaration. keep. Qed.
Hint Resolve parseStateVariableDeclaration_keeps : keepdb.

Lemma parseConstantVariableDeclaration_keeps :
  keeps o T (parseConstantVariableDeclaration rec).
Proof. unfold parseConstantVariableDeclaration. keep. Qed.
Hint Resolve parseConstantVariableDeclaration_keeps : keepdb.

Lemma parseStructDefinition_keeps :
  keeps o T (parseStructDefinition rec).
Proof. unfold parseStructDefinition. keep. Qed.
Hint Resolve parseStructDefinition_keeps : keepdb.

Lemma parseEventDefinition_keeps :
  keeps o T (parseEventDefinition rec).
Proof. unfold parseEventDefinition. keep. Qed.
Hint Resolve parseEventDefinition_keeps : keepdb.

Lemma parseErrorDefinition_keeps :
  keeps o T (parseErrorDefinition rec).
Proof. unfold parseErrorDefinition. keep. Qed.
Hint Resolve parseErrorDefinition_keeps : keepdb.

Lemma parseUsingDirective_keeps :
  keeps o T (parseUsingDirective rec).
Proof. unfold parseUsingDirective. keep. Qed.
Hint Resolve parseUsingDirective_keeps : keepdb.

Lemma parseContractBodyElement_keeps :
  keeps o T (parseContractBodyElement rec).
Proof. unfold parseContractBodyElement. keep. Qed.
Hint Resolve parseContractBodyElement_keeps : keepdb.

Lemma parseContractDefinition_keeps (x0 : string) :
  keeps o T (parseContractDefinition rec x0).
Proof. unfold parseContractDefinition. keep. Qed.
Hint Resolve parseContractDefinition_keeps : keepdb.

Lemma parseSourceUnitElement_keeps :
  keeps o T (parseSourceUnitElement rec).
Proof. unfold parseSourceUnitElement. keep. Qed.
Hint Resolve parseSourceUnitElement_keeps : keepdb.

Lemma sourceUnitLoc_good children b :
  state_ok o T b -> good o T (sourceUnitLoc (options b) children).
Proof.
  intros (Ho & _). rewrite Ho. unfold sourceUnitLoc.
  destruct (Loc o) eqn:E; [|exact I].
  destruct children as [|first rest]; [exact I|].
  destruct (ast.GetLocation first); [|exact I].
  destruct (ast.GetLocation _); [exact E | exact I].
Qed.

Lemma hd_error_good b : state_ok o T b -> good o T (hd_error (errors b)).
Proof.
  intros (_ & _ & _ & He). destruct (errors b) as [|e es]; [exact I|].
  inversion He. assumption.
Qed.

Lemma tree_root children loc :
  Forall (tree_ok o) children ->
  match loc with Some _ => Loc o = true | None => True end ->
  tree_ok o (ast.MkNode {| ast.Type_ := ast.NodeSourceUnit;
                           ast.Loc := loc; ast.Range_ := None |}
                        (ast.SourceUnit children)).
Proof.
  intros Hc Hl. constructor.
  - unfold node_ok, ast.GetType, ast.GetLocation, ast.GetRange. simpl.
    destruct loc; [rewrite Hl|]; reflexivity.
  - simpl. rewrite Forall_forall in Hc. exact Hc.
Qed.

Lemma BuildWith_keeps : keeps o T (BuildWith rec).
Proof.
  unfold BuildWith. eapply keeps_bind.
  - apply keeps_for; [exact (Forall_nil _)|]. intros children Hc.
    apply keeps_ifM; [apply keeps_break; exact Hc|].
    eapply keeps_bind; [apply parseSourceUnitElement_keeps|].
    intros node Hn. cbv beta zeta.
    apply keeps_ifM.
    + eapply keeps_bind; [apply keeps_gets; exact hd_error_good|].
      intros e He. apply keeps_break. exact He.
    + apply keeps_continue. destruct node as [n|]; [|exact Hc].
      apply Forall_app. split; [exact Hc|]. constructor; [exact Hn|].
      constructor.
  - intros [children | e] Hr.
    + eapply keeps_bind;
        [apply keeps_gets; exact (sourceUnitLoc_good children)|].
      intros loc Hl. apply keeps_ret. split; [|exact I].
      apply tree_root; assumption.
    + apply keeps_ret. split; [exact I | exact Hr].
Qed.

End Rec.

(** The methods behind [Rec], however deep they nest. *)
Lemma methods_keeps fuel : RecKeeps o T (methods fuel).
Proof.
  induction fuel as [|fuel IH].
  - constructor; apply keeps_panic.
  - constructor; simpl.
    + exact (parseTypeName_keeps _ IH).
    + exact (parseExpression_keeps _ IH).
    + exact (parseAssignment_keeps _ IH).
    + exact (parseTernary_keeps _ IH).
    + exact (parseExponentiation_keeps _ IH).
    + exact (parseUnary_keeps _ IH).
    + exact (parseStatement_keeps _ IH).
    + exact (parseAssemblyExpression_keeps _ IH).
    + exact (parseAssemblyStatement__keeps _ IH).
Qed.

End Keeps.

(** ** [Build] *)

Lemma New_state_ok input opts :
  state_ok (options (New input opts)) (scan input) (New input opts).
Proof.
  unfold state_ok. repeat split; [|constructor].
  simpl. fold (scan input).
  destruct (lexer_facts.Tokenize_ends_with_EOF (lexer.New input))
    as (ts & t & E & _).
  fold (scan input) in E. rewrite E, length_app. simpl. lia.
Qed.

Lemma scan_ends_with_EOF input : ends_with_EOF (scan input).
Proof.
  destruct (lexer_facts.Tokenize_ends_with_EOF (lexer.New input))
    as (ts & t & E & Ht & _).
  exists ts, t. auto.
Qed.

(** What [Build] keeps, whatever the depth of the calls. *)
Lemma Build_keeps input opts depth res b' :
  BuildWith (methods depth) (New input opts) = Some (res, b') ->
  state_ok (options (New input opts)) (scan input) b' /\
  good (options (New input opts)) (scan input) res.
Proof.
  intros E.
  exact (BuildWith_keeps _ _ (scan_ends_with_EOF input) _
           (methods_keeps _ _ (scan_ends_with_EOF input) depth)
           _ _ _ (New_state_ok input opts) E).
Qed.

(** The run of [Build], with what it keeps. *)
Lemma Build_run input opts :
  exists res b',
    Build (New input opts) = Some (res, b') /\
    (snd res = None -> isAtEnd b' = true) /\
    state_ok (options (New input opts)) (scan input) b' /\
    good (options (New input opts)) (scan input) res.
Proof.
  destruct (BuildWith_end _ (fuel_for (New input opts))
              (methods_spec _) (New input opts) (wf_New _ _))
    as (res & b' & HB & _ & He).
  { unfold fuel_for. pose proof (mu_le (New input opts)). lia. }
  exists res, b'. split; [exact HB|]. split; [exact He|].
  exact (Build_keeps _ _ _ _ _ HB).
Qed.

(** X6. [Build] never moves the cursor off the tokens, and when it
    returns a tree (always in tolerant mode, and in strict mode when no
    error was recorded) it has consumed every token: the cursor is on
    the last token, the final [EOF]. *)
Theorem Build_consumes_all_tokens (input : string) (opts : option Options) :
  exists res b',
    Build (New input opts) = Some (res, b') /\
    tokens b' = scan input /\
    pos b' < length (scan input) /\
    (snd res = None ->
     S (pos b') = length (scan input) /\
     isAtEnd b' = true /\
     lexer.Type_ (peek b') = lexer.EOF).
Proof.
  destruct (Build_run input opts) as (res & b' & HB & He & Hs & _).
  destruct Hs as (_ & Ht & Hp & _).
  exists res, b'. repeat split; try assumption.
  - specialize (He H).
    destruct (lexer_facts.Tokenize_ends_with_EOF (lexer.New input))
      as (ts & t & E & _ & Hts).
    fold (scan input) in E. rewrite E in *.
    rewrite length_app in *. simpl in *.
    destruct (Nat.eq_dec (pos b') (length ts)) as [Q|Q]; [lia|].
    exfalso. unfold isAtEnd, peek in He. rewrite Ht in He.
    rewrite length_app in He. simpl in He.
    replace (length ts + 1 <=? pos b') with false in He
      by (symmetry; apply Nat.leb_gt; lia).
    rewrite app_nth1 in He by lia.
    apply lexer_facts.eqb_eq in He. rewrite Forall_forall in Hts.
    apply (Hts (nth (pos b') ts eofToken)); [apply nth_In; lia | exact He].
  - exact (He H).
  - specialize (He H). unfold isAtEnd in He.
    apply lexer_facts.eqb_eq in He. exact He.
Qed.

(** X14. In the tree [Build] returns, every node has the type of its
    struct as its [Type], has a [Loc] only if the builder was made with
    the [Loc] option, and a [Range] only if it was made with the
    [Range] option. *)
Theorem Build_tree_nodes (input : string) (opts : option Options) :
  exists res b',
    Build (New input opts) = Some (res, b') /\
    forall su, fst res = Some su ->
      Everywhere
        (fun n =>
           ast.GetType n = struct_name (ast.payload n) /\
           (ast.GetLocation n <> None ->
            Loc (options (New input opts)) = true) /\
           (ast.GetRange n <> None ->
            Range (options (New input opts)) = true))
        su.
Proof.
  destruct (Build_run input opts) as (res & b' & HB & _ & _ & Hg).
  exists res, b'. split; [exact HB|]. intros su Hsu.
  destruct res as [tree err]. simpl in Hsu. subst tree.
  destruct Hg as [Hg _]. simpl in Hg.
  eapply Everywhere_impl; [|exact Hg].
  intros n Hn. unfold node_ok in Hn.
  apply andb_true_iff in Hn. destruct Hn as [Hn Hr].
  apply andb_true_iff in Hn. destruct Hn as [Hn Hl].
  apply String.eqb_eq in Hn. split; [exact Hn|].
  split; intros N.
  - destruct (ast.GetLocation n); [exact Hl | contradiction].
  - destruct (ast.GetRange n); [exact Hr | contradiction].
Qed.

(** X15. Every error [Build] records, and so the error it returns in
    strict mode, carries the line and the column of one of the tokens of
    the source text. *)
Theorem Build_errors_at_tokens (input : string) (opts : option Options) :
  exists res b',
    Build (New input opts) = Some (res, b') /\
    Forall (at_token (scan input)) (Errors b') /\
    forall e, snd res = Some e -> at_token (scan input) e.
Proof.
  destruct (Build_run input opts) as (res & b' & HB & _ & Hs & Hg).
  exists res, b'. split; [exact HB|].
  destruct Hs as (_ & _ & _ & He). split; [exact He|].
  intros e Hres. destruct res as [tree err]. simpl in Hres. subst err.
  destruct Hg as [_ Hg]. exact Hg.
Qed.
